(** * zpaint: the SelectionEngine (selection masks over RGBA pixel buffers)

    A shallow embedding of [SelectionEngine] and of the browser objects it
    works on, and proofs of what the engine's specification says of them.

    - A [Uint8ClampedArray] is a [list Z] of bytes; an [ImageData] is its
      width, its height and such a buffer of [4 * width * height] bytes.
    - A read past the end of a typed array yields [undefined], which turns
      arithmetic into [NaN]: integer-valued numbers are [option Z] with
      [None] for [NaN], and a store converts [NaN] to [0].
    - Where the source divides, takes square roots or stores into a
      [Float32Array], numbers are binary64 floats ([PrimFloat]), which is
      what a JavaScript number is; [x ** 2] is the product [x * x].
    - The coordinates and the radius of [quickSelect], and the pointer
      coordinates of the tools, are binary64 floats as well: the source
      adds and subtracts 1, multiplies, takes a square root and compares.
      [Math.floor] gives an integer, an infinity or [NaN]; a position
      within the image is an integer below [2^53], where the arithmetic
      of numbers is that of integers.
    - The radius of a morphological operation or of the median filter is
      a finite number that the source rounds up and compares after a
      product: a rational ([Q]).
    - [for] loops are folds over their index range; [continue] returns the
      loop state unchanged; the two work-list loops run on fuel.
    - [Math.exp], which an implementation approximates as it sees fit, is
      a parameter of [gaussianBlur] and of what calls it; a loop that has
      no end gives [None].
    - A tool is the record of its fields, a handler a function from the
      tool to the tool afterwards and to what it passed to its callback. *)

From Stdlib Require Import ZArith QArith Qround Qabs Floats Lia Lqa Bool List.
From stdpp Require Import base option list sorting sets gmap.
Import ListNotations.

#[local] Set Warnings "-inexact-float".
#[local] Open Scope Z_scope.

(** ** Loops *)

(** [n] iterations of [body], the index counting up from [i]. *)
Fixpoint for_up {S : Type} (n : nat) (i : Z) (body : Z -> S -> S) (s : S) : S :=
  match n with
  | O => s
  | Datatypes.S n' => for_up n' (i + 1) body (body i s)
  end.

(** [for (let i = lo; i < hi; i++) body] *)
Definition for_lt {S : Type} (lo hi : Z) (body : Z -> S -> S) (s : S) : S :=
  for_up (Z.to_nat (hi - lo)) lo body s.

(** [for (let i = lo; i <= hi; i++) body] *)
Definition for_le {S : Type} (lo hi : Z) (body : Z -> S -> S) (s : S) : S :=
  for_lt lo (hi + 1) body s.

(** [for (let i = 0; i < len; i += 4) body] *)
Definition for_step4 {S : Type} (len : Z) (body : Z -> S -> S) (s : S) : S :=
  for_lt 0 ((len + 3) / 4) (fun k => body (4 * k)) s.

(** ** Typed arrays *)

(** [a[i]]: [None] is [undefined]. *)
Definition typed_get {A : Type} (a : list A) (i : Z) : option A :=
  if i <? 0 then None else a !! Z.to_nat i.

(** The conversion a [Uint8ClampedArray] applies to an integer-valued
    number on a store. *)
Definition clamp8 (v : option Z) : Z :=
  match v with
  | None => 0
  | Some z => Z.max 0 (Z.min 255 z)
  end.

(** [a[i] = v] on a [Uint8ClampedArray]; a store out of range is dropped. *)
Definition u8_set (a : list Z) (i : Z) (v : option Z) : list Z :=
  if i <? 0 then a else <[Z.to_nat i := clamp8 v]> a.

(** Arithmetic on integer-valued numbers, [None] being [NaN]. *)
Definition js_lift2 (f : Z -> Z -> Z) (a b : option Z) : option Z :=
  match a, b with
  | Some x, Some y => Some (f x y)
  | _, _ => None
  end.
Definition js_add := js_lift2 Z.add.
Definition js_sub := js_lift2 Z.sub.
Definition js_max := js_lift2 Z.max.
Definition js_min := js_lift2 Z.min.
Definition js_abs (a : option Z) : option Z := Z.abs <$> a.

(** [a > b]: false as soon as one side is [NaN]. *)
Definition js_gt (a b : option Z) : bool :=
  match a, b with
  | Some x, Some y => y <? x
  | _, _ => false
  end.

(** ** Binary64 numbers *)

Definition float_of_Z (z : Z) : float :=
  match z with
  | Z0 => 0%float
  | Zpos _ => PrimFloat.of_uint63 (Uint63.of_Z z)
  | Zneg p => PrimFloat.opp (PrimFloat.of_uint63 (Uint63.of_Z (Zpos p)))
  end.

(** A byte read from a [Uint8ClampedArray], as a number. *)
Definition float_of_u8 (v : option Z) : float :=
  match v with
  | Some z => float_of_Z z
  | None => PrimFloat.nan
  end.

(** [Math.max(a, b)] and [Math.min(a, b)]. *)
Definition Math_max (a b : float) : float :=
  if PrimFloat.is_nan a || PrimFloat.is_nan b then PrimFloat.nan
  else if PrimFloat.ltb a b then b else a.
Definition Math_min (a b : float) : float :=
  if PrimFloat.is_nan a || PrimFloat.is_nan b then PrimFloat.nan
  else if PrimFloat.ltb b a then b else a.

(** [Math.round(x)]: the integer nearest to [x], a tie going up. *)
Definition Math_round (x : float) : float :=
  match Prim2SF x with
  | S754_finite s m e =>
      if 0 <=? e then x
      else
        let n := cond_Zopp s (Zpos m) in
        let d := 2 ^ (- e) in
        float_of_Z ((2 * n + d) / (2 * d))
  | _ => x
  end.

(** The conversion a [Uint8ClampedArray] applies to a number on a store:
    [NaN] becomes 0, the value is clamped to [0, 255] and rounded to the
    nearest integer, a tie going to the even one. *)
Definition ToUint8Clamp (x : float) : Z :=
  match Prim2SF x with
  | S754_nan => 0
  | S754_zero _ => 0
  | S754_infinity s => if s then 0 else 255
  | S754_finite true _ _ => 0
  | S754_finite false m e =>
      if 0 <=? e then Z.min 255 (Zpos m * 2 ^ e)
      else
        let d := 2 ^ (- e) in
        let q := Zpos m / d in
        let r := Zpos m mod d in
        let n :=
          if 2 * r <? d then q
          else if d <? 2 * r then q + 1
          else if Z.even q then q else q + 1 in
        Z.min 255 n
  end.

Definition u8_set_float (a : list Z) (i : Z) (v : float) : list Z :=
  if i <? 0 then a else <[Z.to_nat i := ToUint8Clamp v]> a.

(** [Math.fround]: the binary32 value a [Float32Array] keeps of a number. *)
Definition fround (x : float) : float :=
  match Prim2SF x with
  | S754_finite s m e => SF2Prim (binary_normalize 24 128 (cond_Zopp s (Zpos m)) e s)
  | _ => x
  end.

Definition f32_set (a : list float) (i : Z) (v : float) : list float :=
  if i <? 0 then a else <[Z.to_nat i := fround v]> a.

(** [a[i]] on a [Float32Array], as a number. *)
Definition f32_get (a : list float) (i : Z) : float :=
  default PrimFloat.nan (typed_get a i).

(** A number that is a zero, finite or infinite, with the sign [s]. *)
Definition sign_is (s : bool) (x : spec_float) : Prop :=
  match x with
  | S754_zero s' | S754_finite s' _ _ | S754_infinity s' => s' = s
  | S754_nan => False
  end.

(** What [Math.floor] returns: an integer, an infinity or [NaN]. *)
Inductive floored : Type :=
  | fl_int (z : Z)
  | fl_inf (negative : bool)
  | fl_nan.

Definition Math_floor (x : float) : floored :=
  match Prim2SF x with
  | S754_zero _ => fl_int 0
  | S754_infinity s => fl_inf s
  | S754_nan => fl_nan
  | S754_finite s m e =>
      let n := cond_Zopp s (Zpos m) in
      fl_int (if 0 <=? e then n * 2 ^ e else n / 2 ^ (- e))
  end.

(** [i < 0 || i >= n] for a floored number [i]: true of both infinities,
    false of [NaN]. *)
Definition out_of_range (i : floored) (n : Z) : bool :=
  match i with
  | fl_int z => (z <? 0) || (n <=? z)
  | fl_inf _ => true
  | fl_nan => false
  end.

(** A floored number in the arithmetic of an index. With an infinity the
    index is an infinity or [NaN], and it names no element, as [NaN]
    does: both are [None]. *)
Definition int_of (i : floored) : option Z :=
  match i with
  | fl_int z => Some z
  | _ => None
  end.

Definition js_mul := js_lift2 Z.mul.

(** [a[i]] and [a[i] = v] where the index is a number: no element is read
    or written at [NaN]. *)
Definition typed_get_at {A : Type} (a : list A) (i : option Z) : option A :=
  i ≫= typed_get a.

Definition u8_set_at (a : list Z) (i : option Z) (v : option Z) : list Z :=
  match i with
  | Some i => u8_set a i v
  | None => a
  end.

Definition f32_get_at (a : list float) (i : option Z) : float :=
  default PrimFloat.nan (typed_get_at a i).

(** ** Rational numbers *)

Definition Qltb (a b : Q) : bool := negb (Qle_bool b a).

(** ** The data model *)

Module ImageData.
Record t : Type := mk { width : Z; height : Z; data : list Z }.

(** [new ImageData(width, height)]: transparent black. *)
Definition create (width height : Z) : t :=
  mk width height (replicate (Z.to_nat (4 * width * height)) 0).

(** [new ImageData(new Uint8ClampedArray(data), width, height)]: a copy
    of the bytes; the constructor throws unless they are exactly
    [4 * width * height] bytes of a non-empty image. *)
Definition of_data (bytes : list Z) (width height : Z) : option t :=
  if (0 <? width) && (0 <? height) && (Z.of_nat (length bytes) =? 4 * width * height)
  then Some (mk width height bytes)
  else None.

(** What the browser guarantees of every [ImageData]. *)
Definition wf (img : t) : Prop :=
  0 < width img /\ 0 < height img /\
  Z.of_nat (length (data img)) = 4 * width img * height img /\
  Forall (fun v => 0 <= v <= 255) (data img).
End ImageData.

Module Rect.
Record t : Type := mk { x : Z; y : Z; width : Z; height : Z }.
End Rect.

Module Selection.
Record t : Type := mk { mask : ImageData.t; bounds : Rect.t; active : bool }.
End Selection.

Inductive SelectionMode : Type := mode_new | mode_add | mode_subtract | mode_intersect.

Module RGBA.
Record t : Type := mk { r : float; g : float; b : float; a : float }.
End RGBA.

Module ColorRangeOptions.
Record t : Type := mk { targetColor : RGBA.t; fuzziness : float }.
End ColorRangeOptions.

(** The engine's own state: [this.width] and [this.height]. *)
Module SelectionEngine.
Record t : Type := mk { width : Z; height : Z }.
End SelectionEngine.

(** [idx], [idx + 1], [idx + 2] take [v] and [idx + 3] takes [alpha]. *)
Definition write_pixel (buf : list Z) (idx : Z) (v alpha : option Z) : list Z :=
  u8_set (u8_set (u8_set (u8_set buf idx v) (idx + 1) v) (idx + 2) v) (idx + 3) alpha.

(** Channel [c] (0 to 3: R, G, B, A) of the pixel at linear position [k]. *)
Definition channel (buf : list Z) (k c : Z) : option Z := typed_get buf (4 * k + c).

Definition pixel_of (buf : list Z) (k : Z) : option Z * option Z * option Z * option Z :=
  (channel buf k 0, channel buf k 1, channel buf k 2, channel buf k 3).

(** The strength of a mask at [(x, y)]: its red channel, the one every
    operation reads. *)
Definition strength (mask : ImageData.t) (x y : Z) : option Z :=
  typed_get (ImageData.data mask) ((y * ImageData.width mask + x) * 4).

(** The invariant the specification asks of a mask: the strength in all
    four channels. *)
Definition replicated (buf : list Z) (k : Z) : Prop :=
  exists v, pixel_of buf k = (Some v, Some v, Some v, Some v).

(** What the mask operations establish instead: the strength in R, G and
    B, and an opaque alpha. *)
Definition grey_opaque (buf : list Z) (k : Z) : Prop :=
  exists v, 0 <= v <= 255 /\ pixel_of buf k = (Some v, Some v, Some v, Some 255).

(** A pixel with one byte in R, G and B, whatever its alpha. *)
Definition grey (buf : list Z) (k : Z) : Prop :=
  exists v, channel buf k 0 = Some v /\ channel buf k 1 = Some v /\ channel buf k 2 = Some v.

(** A pixel that is fully selected, as [quickSelect] paints it. *)
Definition selected (mask : list Z) (pos : Z) : Prop :=
  pixel_of mask pos = (Some 255, Some 255, Some 255, Some 255).

(** What [quickSelect] may make of a pixel of the mask it starts from:
    nothing, or 255 in its four channels, or 0. *)
Definition painted (mask0 mask : list Z) (k : Z) : Prop :=
  pixel_of mask k = pixel_of mask0 k \/
  pixel_of mask k = (Some 255, Some 255, Some 255, Some 255) \/
  pixel_of mask k = (Some 0, Some 0, Some 0, Some 0).

(** What [invertSelection] makes of a pixel. *)
Definition invert_pixel (p : option Z * option Z * option Z * option Z)
  : option Z * option Z * option Z * option Z :=
  let '(r, g, b, _) := p in
  (Some (clamp8 (js_sub (Some 255) r)), Some (clamp8 (js_sub (Some 255) g)),
   Some (clamp8 (js_sub (Some 255) b)), Some 255).

(** ** Utility methods *)

Definition computeBounds (mask : ImageData.t) : Rect.t :=
  let width := ImageData.width mask in
  let height := ImageData.height mask in
  let data := ImageData.data mask in
  let '(minX, minY, maxX, maxY) :=
    for_lt 0 height (fun y acc =>
      for_lt 0 width (fun x acc =>
        let '(minX, minY, maxX, maxY) := acc in
        if js_gt (typed_get data ((y * width + x) * 4)) (Some 0)
        then (Z.min minX x, Z.min minY y, Z.max maxX x, Z.max maxY y)
        else acc) acc) (width, height, 0, 0) in
  if (maxX <? minX) || (maxY <? minY) then Rect.mk 0 0 0 0
  else Rect.mk minX minY (maxX - minX + 1) (maxY - minY + 1).

(** ** Select by color range *)

Definition selectColorRange (imageData : ImageData.t) (options : ColorRangeOptions.t)
  : Selection.t :=
  let width := ImageData.width imageData in
  let height := ImageData.height imageData in
  let data := ImageData.data imageData in
  let mask := ImageData.create width height in
  let targetColor := ColorRangeOptions.targetColor options in
  let fuzziness := ColorRangeOptions.fuzziness options in
  let out :=
    for_step4 (Z.of_nat (length data)) (fun i md =>
      let r := float_of_u8 (typed_get data i) in
      let g := float_of_u8 (typed_get data (i + 1)) in
      let b := float_of_u8 (typed_get data (i + 2)) in
      let dr := (r - RGBA.r targetColor)%float in
      let dg := (g - RGBA.g targetColor)%float in
      let db := (b - RGBA.b targetColor)%float in
      let dist := PrimFloat.sqrt (dr * dr + dg * dg + db * db)%float in
      let maxDist := (fuzziness * 2.55)%float in
      let strength := Math_max 0%float (1 - dist / maxDist)%float in
      let value := Math_round (strength * 255)%float in
      u8_set_float (u8_set_float (u8_set_float (u8_set_float md i value)
        (i + 1) value) (i + 2) value) (i + 3) value) (ImageData.data mask) in
  let mask := ImageData.mk width height out in
  Selection.mk mask (computeBounds mask) true.

(** ** Edge detection *)

(** The Sobel edge map of an image, normalised to [0, 1]; a
    [Float32Array] of [width * height] values. *)
Definition computeEdgeMap (imageData : ImageData.t) : list float :=
  let width := ImageData.width imageData in
  let height := ImageData.height imageData in
  let data := ImageData.data imageData in
  let edges := replicate (Z.to_nat (width * height)) 0%float in
  let gray :=
    for_step4 (Z.of_nat (length data)) (fun i gray =>
      let idx := i / 4 in
      f32_set gray idx
        (0.299 * float_of_u8 (typed_get data i)
         + 0.587 * float_of_u8 (typed_get data (i + 1))
         + 0.114 * float_of_u8 (typed_get data (i + 2)))%float)
      (replicate (Z.to_nat (width * height)) 0%float) in
  let sobelX := [-1; 0; 1; -2; 0; 2; -1; 0; 1]%float in
  let sobelY := [-1; -2; -1; 0; 0; 0; 1; 2; 1]%float in
  let edges :=
    for_lt 1 (height - 1) (fun y edges =>
      for_lt 1 (width - 1) (fun x edges =>
        let '(gx, gy) :=
          for_le (-1) 1 (fun ky acc =>
            for_le (-1) 1 (fun kx acc =>
              let '(gx, gy) := acc in
              let idx := (y + ky) * width + (x + kx) in
              let ki := (ky + 1) * 3 + (kx + 1) in
              ((gx + f32_get gray idx * f32_get sobelX ki)%float,
               (gy + f32_get gray idx * f32_get sobelY ki)%float)) acc)
            (0%float, 0%float) in
        f32_set edges (y * width + x) (PrimFloat.sqrt (gx * gx + gy * gy)%float))
        edges) edges in
  let maxEdge :=
    for_lt 0 (Z.of_nat (length edges)) (fun i maxEdge =>
      if PrimFloat.ltb maxEdge (f32_get edges i) then f32_get edges i else maxEdge)
      0%float in
  if PrimFloat.ltb 0%float maxEdge
  then for_lt 0 (Z.of_nat (length edges)) (fun i edges =>
         f32_set edges i (f32_get edges i / maxEdge)%float) edges
  else edges.

(** ** Morphological operations *)

(** The largest strength within [radius] of [(x, y)]: the two inner
    loops of [dilate]. *)
Definition dilate_maxVal (mask : ImageData.t) (radius : Q) (x y : Z) : option Z :=
  let width := ImageData.width mask in
  let height := ImageData.height mask in
  let data := ImageData.data mask in
  let r := Qceiling radius in
  for_le (- r) r (fun dy maxVal =>
    for_le (- r) r (fun dx maxVal =>
      if Qltb (radius * radius) (inject_Z (dx * dx + dy * dy)) then maxVal
      else
        let nx := x + dx in
        let ny := y + dy in
        if (nx <? 0) || (width <=? nx) || (ny <? 0) || (height <=? ny)
        then maxVal
        else
          let idx := (ny * width + nx) * 4 in
          js_max maxVal (typed_get data idx)) maxVal) (Some 0).

Definition dilate (mask : ImageData.t) (radius : Q) : ImageData.t :=
  let width := ImageData.width mask in
  let height := ImageData.height mask in
  let result := ImageData.create width height in
  let out :=
    for_lt 0 height (fun y res =>
      for_lt 0 width (fun x res =>
        let maxVal := dilate_maxVal mask radius x y in
        let idx := (y * width + x) * 4 in
        write_pixel res idx maxVal (Some 255)) res) (ImageData.data result) in
  ImageData.mk width height out.

(** The smallest strength within [radius] of [(x, y)]: the two inner
    loops of [erode]. *)
Definition erode_minVal (mask : ImageData.t) (radius : Q) (x y : Z) : option Z :=
  let width := ImageData.width mask in
  let height := ImageData.height mask in
  let data := ImageData.data mask in
  let r := Qceiling radius in
  for_le (- r) r (fun dy minVal =>
    for_le (- r) r (fun dx minVal =>
      if Qltb (radius * radius) (inject_Z (dx * dx + dy * dy)) then minVal
      else
        let nx := x + dx in
        let ny := y + dy in
        if (nx <? 0) || (width <=? nx) || (ny <? 0) || (height <=? ny)
        then minVal
        else
          let idx := (ny * width + nx) * 4 in
          js_min minVal (typed_get data idx)) minVal) (Some 255).

Definition erode (mask : ImageData.t) (radius : Q) : ImageData.t :=
  let width := ImageData.width mask in
  let height := ImageData.height mask in
  let result := ImageData.create width height in
  let out :=
    for_lt 0 height (fun y res =>
      for_lt 0 width (fun x res =>
        let minVal := erode_minVal mask radius x y in
        let idx := (y * width + x) * 4 in
        write_pixel res idx minVal (Some 255)) res) (ImageData.data result) in
  ImageData.mk width height out.

(** [morphClose] overwrites the bytes of [mask] with the closing's. *)
Definition morphClose (mask : ImageData.t) (radius : Q) : ImageData.t :=
  let dilated := dilate mask radius in
  let closed := erode dilated radius in
  ImageData.mk (ImageData.width mask) (ImageData.height mask)
    (take (length (ImageData.data mask)) (ImageData.data closed)
     ++ drop (length (ImageData.data closed)) (ImageData.data mask)).

(** [values.sort((a, b) => a - b)]: the numbers in increasing order, and
    after them the [undefined]. *)
Definition js_sort (values : list (option Z)) : list (option Z) :=
  (Some <$> merge_sort Z.le (omap id values))
  ++ replicate (length values - length (omap id values)) None.

(** The median around [(x, y)]: the two inner loops of [medianFilter], the
    sort and the pick. *)
Definition medianFilter_median (mask : ImageData.t) (radius : Q) (x y : Z) : option Z :=
  let width := ImageData.width mask in
  let height := ImageData.height mask in
  let data := ImageData.data mask in
  let r := Qceiling radius in
  let values :=
    for_le (- r) r (fun dy values =>
      for_le (- r) r (fun dx values =>
        let nx := x + dx in
        let ny := y + dy in
        if (nx <? 0) || (width <=? nx) || (ny <? 0) || (height <=? ny)
        then values
        else values ++ [typed_get data ((ny * width + nx) * 4)]) values) [] in
  let values := js_sort values in
  mjoin (typed_get values (Z.of_nat (length values) / 2)).

Definition medianFilter (mask : ImageData.t) (radius : Q) : ImageData.t :=
  let width := ImageData.width mask in
  let height := ImageData.height mask in
  let result := ImageData.create width height in
  let out :=
    for_lt 0 height (fun y res =>
      for_lt 0 width (fun x res =>
        let median := medianFilter_median mask radius x y in
        let idx := (y * width + x) * 4 in
        write_pixel res idx median (Some 255)) res) (ImageData.data result) in
  ImageData.mk width height out.

(** The offsets the two inner loops of [dilate] and [erode] keep: the
    structuring element. *)
Definition in_disk (radius : Q) (dx dy : Z) : Prop :=
  - Qceiling radius <= dx <= Qceiling radius /\
  - Qceiling radius <= dy <= Qceiling radius /\
  Qltb (radius * radius) (inject_Z (dx * dx + dy * dy)) = false.

(** ** Selection modifications *)

Definition growSelection (selection : Selection.t) (pixels : Q) : Selection.t :=
  let mask := dilate (Selection.mask selection) pixels in
  Selection.mk mask (computeBounds mask) true.

Definition shrinkSelection (selection : Selection.t) (pixels : Q) : Selection.t :=
  let mask := erode (Selection.mask selection) pixels in
  Selection.mk mask (computeBounds mask) true.

Definition smoothSelection (selection : Selection.t) (radius : Q) : Selection.t :=
  let mask := medianFilter (Selection.mask selection) radius in
  Selection.mk mask (computeBounds mask) true.

(** [None]: the [ImageData] constructor threw, the selection's bytes not
    being those of a [this.width] by [this.height] image. *)
Definition invertSelection (this : SelectionEngine.t) (selection : Selection.t)
  : option Selection.t :=
  mask ← ImageData.of_data (ImageData.data (Selection.mask selection))
           (SelectionEngine.width this) (SelectionEngine.height this);
  let out :=
    for_step4 (Z.of_nat (length (ImageData.data mask))) (fun i md =>
      let md := u8_set md i (js_sub (Some 255) (typed_get md i)) in
      let md := u8_set md (i + 1) (js_sub (Some 255) (typed_get md (i + 1))) in
      let md := u8_set md (i + 2) (js_sub (Some 255) (typed_get md (i + 2))) in
      u8_set md (i + 3) (Some 255)) (ImageData.data mask) in
  Some (Selection.mk
          (ImageData.mk (ImageData.width mask) (ImageData.height mask) out)
          (Rect.mk 0 0 (SelectionEngine.width this) (SelectionEngine.height this))
          true).

Definition combineSelections (this : SelectionEngine.t) (a b : Selection.t)
    (mode : SelectionMode) : Selection.t :=
  let mask := ImageData.create (SelectionEngine.width this) (SelectionEngine.height this) in
  let out :=
    for_step4 (Z.of_nat (length (ImageData.data mask))) (fun i md =>
      let aVal := typed_get (ImageData.data (Selection.mask a)) i in
      let bVal := typed_get (ImageData.data (Selection.mask b)) i in
      let result :=
        match mode with
        | mode_add => js_min (Some 255) (js_add aVal bVal)
        | mode_subtract => js_max (Some 0) (js_sub aVal bVal)
        | mode_intersect => js_min aVal bVal
        | mode_new => bVal
        end in
      write_pixel md i result (Some 255)) (ImageData.data mask) in
  let mask := ImageData.mk (ImageData.width mask) (ImageData.height mask) out in
  Selection.mk mask (computeBounds mask) true.

Definition selectionFromAlpha (imageData : ImageData.t) : Selection.t :=
  let width := ImageData.width imageData in
  let height := ImageData.height imageData in
  let data := ImageData.data imageData in
  let mask := ImageData.create width height in
  let out :=
    for_step4 (Z.of_nat (length data)) (fun i md =>
      let alpha := typed_get data (i + 3) in
      write_pixel md i alpha (Some 255)) (ImageData.data mask) in
  let mask := ImageData.mk width height out in
  Selection.mk mask (computeBounds mask) true.

(** ** Quick selection *)

(** The state of the flood fill: the work list of [(x, y, depth)], the
    [visited] set of linear positions and the bytes of the mask. *)
Module QS.
(** The state of the flood fill: the queue of entries [[x, y, depth]], the
    set of visited positions ([None] is [NaN], which a [Set] holds as any
    other number) and the bytes of the mask. *)
Record state : Type :=
  mk { queue : list (float * float * Z); visited : gset (option Z); mask : list Z }.
End QS.

Section QuickSelect.
Variables (width height : Z) (data : list Z) (edges : list float).
Variables (startX startY maxRadius : float).
Variables (targetR targetG targetB : option Z).
Variable mode : SelectionMode.

(** One turn of [while (queue.length > 0)]. The depth of an entry counts
    the turns that led to it: an integer. *)
Definition qs_step (st : QS.state) : QS.state :=
  match QS.queue st with
  | [] => st
  | (x, y, depth) :: queue =>
      let visited := QS.visited st in
      let mask := QS.mask st in
      let ix := Math_floor x in
      let iy := Math_floor y in
      if out_of_range ix width || out_of_range iy height
      then QS.mk queue visited mask
      else
        let pos := js_add (js_mul (int_of iy) (Some width)) (int_of ix) in
        if decide (pos ∈ visited) then QS.mk queue visited mask
        else
          let visited := {[pos]} ∪ visited in
          (* Check if we've gone too far *)
          let dist :=
            PrimFloat.sqrt ((x - startX) * (x - startX) + (y - startY) * (y - startY)) in
          if PrimFloat.ltb maxRadius dist
          then QS.mk queue visited mask
          (* Check edge strength *)
          else if PrimFloat.ltb 0.3 (f32_get_at edges pos) && (1 <? depth)
          then QS.mk queue visited mask
          else
            (* Check color similarity *)
            let idx := js_mul pos (Some 4) in
            let dr := js_abs (js_sub (typed_get_at data idx) targetR) in
            let dg := js_abs (js_sub (typed_get_at data (js_add idx (Some 1))) targetG) in
            let db := js_abs (js_sub (typed_get_at data (js_add idx (Some 2))) targetB) in
            if js_gt (js_add (js_add dr dg) db) (Some (50 * 3)) && (1 <? depth)
            then QS.mk queue visited mask
            else
              let maskIdx := js_mul pos (Some 4) in
              let mask :=
                match mode with
                | mode_new | mode_add =>
                    u8_set_at (u8_set_at (u8_set_at (u8_set_at mask maskIdx (Some 255))
                      (js_add maskIdx (Some 1)) (Some 255))
                      (js_add maskIdx (Some 2)) (Some 255))
                      (js_add maskIdx (Some 3)) (Some 255)
                | mode_subtract =>
                    u8_set_at (u8_set_at (u8_set_at (u8_set_at mask maskIdx (Some 0))
                      (js_add maskIdx (Some 1)) (Some 0))
                      (js_add maskIdx (Some 2)) (Some 0))
                      (js_add maskIdx (Some 3)) (Some 0)
                | mode_intersect => mask
                end in
              let queue :=
                if PrimFloat.ltb (float_of_Z depth) maxRadius
                then queue ++ [((x - 1)%float, y, depth + 1); ((x + 1)%float, y, depth + 1);
                               (x, (y - 1)%float, depth + 1); (x, (y + 1)%float, depth + 1)]
                else queue in
              QS.mk queue visited mask
  end.

(** The loop; [None] when the fuel runs out before the queue does. *)
Fixpoint qs_loop (fuel : nat) (st : QS.state) : option QS.state :=
  match QS.queue st with
  | [] => Some st
  | _ :: _ =>
      match fuel with
      | O => None
      | Datatypes.S fuel => qs_loop fuel (qs_step st)
      end
  end.
End QuickSelect.

(** Every turn either drops an entry or marks a new position and adds at
    most four: this many turns empty the queue. *)
Definition qs_fuel (width height : Z) : nat := Z.to_nat (4 * (width * height) + 2).

(** The flood fill of [quickSelect], from its first state to its last.
    The color at the start point is read by every turn that compares
    colors, and there is one only if the start point is in the image or
    [NaN]: elsewhere the first turn drops the only entry. *)
Definition qs_run (imageData : ImageData.t) (startX startY radius : float)
    (mode : SelectionMode) (mask0 : list Z) : option QS.state :=
  let width := ImageData.width imageData in
  let height := ImageData.height imageData in
  let data := ImageData.data imageData in
  let edges := computeEdgeMap imageData in
  let startIdx :=
    js_mul (js_add (js_mul (int_of (Math_floor startY)) (Some width))
              (int_of (Math_floor startX))) (Some 4) in
  let targetR := typed_get_at data startIdx in
  let targetG := typed_get_at data (js_add startIdx (Some 1)) in
  let targetB := typed_get_at data (js_add startIdx (Some 2)) in
  let maxRadius := (radius * 3)%float in
  qs_loop width height data edges startX startY maxRadius targetR targetG targetB mode
    (qs_fuel width height) (QS.mk [(startX, startY, 0)] ∅ mask0).

(** [None]: the [ImageData] constructor threw on the existing selection. *)
Definition quickSelect (imageData : ImageData.t) (startX startY radius : float)
    (mode : SelectionMode) (existingSelection : option Selection.t)
  : option Selection.t :=
  let width := ImageData.width imageData in
  let height := ImageData.height imageData in
  mask ← match existingSelection with
         | Some sel => ImageData.of_data (ImageData.data (Selection.mask sel)) width height
         | None => Some (ImageData.create width height)
         end;
  st ← qs_run imageData startX startY radius mode (ImageData.data mask);
  let mask := ImageData.mk (ImageData.width mask) (ImageData.height mask) (QS.mask st) in
  Some (Selection.mk mask (computeBounds mask) true).

(** ** Select subject *)

Module Region.
Record t : Type := mk { points : list Z; score : float }.
End Region.

Section SelectSubject.
Variables (width height : Z) (saliency : list float) (threshold : float).

(** The flood fill of one region. The work list is a stack: its head is
    the last element of the source's array, [pop] takes it and [push]
    puts a new one in front. [None] when the fuel runs out. *)
Fixpoint flood (fuel : nat) (queue : list Z) (visited : gset Z)
    (region : list Z) (totalScore : float)
  : option (gset Z * list Z * float) :=
  match queue with
  | [] => Some (visited, region, totalScore)
  | pos :: queue =>
      match fuel with
      | O => None
      | Datatypes.S fuel =>
          if decide (pos ∈ visited) then flood fuel queue visited region totalScore
          else
            let visited := {[pos]} ∪ visited in
            if PrimFloat.ltb (f32_get saliency pos) (threshold * 0.8)%float
            then flood fuel queue visited region totalScore
            else
              let region := region ++ [pos] in
              let totalScore := (totalScore + f32_get saliency pos)%float in
              let px := pos mod width in
              let py := pos / width in
              let queue := if 0 <? px then (pos - 1) :: queue else queue in
              let queue := if px <? width - 1 then (pos + 1) :: queue else queue in
              let queue := if 0 <? py then (pos - width) :: queue else queue in
              let queue := if py <? height - 1 then (pos + width) :: queue else queue in
              flood fuel queue visited region totalScore
      end
  end.

(** The scan for connected regions of high saliency. *)
Definition findRegions : option (gset Z * list Region.t) :=
  for_lt 1 (height - 1) (fun y acc =>
    for_lt 1 (width - 1) (fun x (acc : option (gset Z * list Region.t)) =>
      '(visited, regions) ← acc;
      let idx := y * width + x in
      if bool_decide (idx ∈ visited) || PrimFloat.ltb (f32_get saliency idx) threshold
      then Some (visited, regions)
      else
        '(visited, region, totalScore) ←
          flood (qs_fuel width height) [idx] visited [] 0%float;
        if 100 <? Z.of_nat (length region) (* Minimum region size *)
        then Some (visited, regions ++ [Region.mk region totalScore])
        else Some (visited, regions)) acc) (Some (∅, [])).
End SelectSubject.

(** [regions.sort((a, b) => b.score - a.score)], a stable sort: [b] goes
    before [a] when the comparator is positive. *)
Fixpoint insert_region (a : Region.t) (l : list Region.t) : list Region.t :=
  match l with
  | [] => [a]
  | b :: l' =>
      if PrimFloat.ltb 0%float (Region.score b - Region.score a)%float
      then b :: insert_region a l'
      else a :: l
  end.
Definition sort_regions (l : list Region.t) : list Region.t :=
  foldr insert_region [] l.

Definition saliencyMap (imageData : ImageData.t) (edges : list float) : list float :=
  let width := ImageData.width imageData in
  let height := ImageData.height imageData in
  let data := ImageData.data imageData in
  let centerX := (float_of_Z width / 2)%float in
  let centerY := (float_of_Z height / 2)%float in
  let maxDist := PrimFloat.sqrt (centerX * centerX + centerY * centerY)%float in
  for_lt 0 height (fun y saliency =>
    for_lt 0 width (fun x saliency =>
      let idx := y * width + x in
      let dx := (float_of_Z x - centerX)%float in
      let dy := (float_of_Z y - centerY)%float in
      let dist := PrimFloat.sqrt (dx * dx + dy * dy)%float in
      let centerBias := (1 - (dist / maxDist) * 0.5)%float in
      let pIdx := idx * 4 in
      let r := float_of_u8 (typed_get data pIdx) in
      let g := float_of_u8 (typed_get data (pIdx + 1)) in
      let b := float_of_u8 (typed_get data (pIdx + 2)) in
      let sat := (Math_max (Math_max r g) b - Math_min (Math_min r g) b)%float in
      f32_set saliency idx
        (f32_get edges idx * 0.3 + centerBias * 0.4 + (sat / 255) * 0.3)%float)
      saliency) (replicate (Z.to_nat (width * height)) 0%float).

(** [None] only when a flood fill runs out of fuel, which none does
    ([selectSubject_returns]). *)
Definition selectSubject (imageData : ImageData.t) : option Selection.t :=
  let width := ImageData.width imageData in
  let height := ImageData.height imageData in
  let edges := computeEdgeMap imageData in
  let mask := ImageData.create width height in
  let saliency := saliencyMap imageData edges in
  let threshold := 0.35%float in
  '(_, regions) ← findRegions width height saliency threshold;
  let painted :=
    match sort_regions regions with
    | [] => ImageData.data mask
    | mainRegion :: _ =>
        foldl (fun md pos =>
          let maskIdx := pos * 4 in
          u8_set (u8_set (u8_set (u8_set md maskIdx (Some 255))
            (maskIdx + 1) (Some 255)) (maskIdx + 2) (Some 255))
            (maskIdx + 3) (Some 255)) (ImageData.data mask) (Region.points mainRegion)
    end in
  let mask := morphClose (ImageData.mk width height painted) 3 in
  Some (Selection.mk mask (computeBounds mask) true).

(** ** Applying a selection as alpha, in place *)

(** [applySelectionAsAlpha] writes into the caller's buffer: here the
    buffers live in a store and an image names its buffer, so that the
    image and the mask may be one and the same. *)
Module Ref.
Record ImageData : Type := mkImageData { width : Z; height : Z; data : nat }.
Record Selection : Type :=
  mkSelection { mask : ImageData; bounds : Rect.t; active : bool }.
End Ref.

Definition buffer_of (store : gmap nat (list Z)) (l : nat) : list Z :=
  default [] (store !! l).

Definition applySelectionAsAlpha (store : gmap nat (list Z))
    (imageData : Ref.ImageData) (selection : Ref.Selection) : gmap nat (list Z) :=
  let data := Ref.data imageData in
  let maskData := Ref.data (Ref.mask selection) in
  for_step4 (Z.of_nat (length (buffer_of store data))) (fun i store =>
    <[data := u8_set (buffer_of store data) (i + 3)
                (js_min (typed_get (buffer_of store data) (i + 3))
                        (typed_get (buffer_of store maskData) i))]> store) store.

(** The linear positions of a [width] by [height] image, and what is left
    to do in a state of the flood fill: the entries queued and four
    entries for each position not visited yet. *)
Definition qs_positions (width height : Z) : gset Z :=
  list_to_set (seqZ 0 (width * height)).

Definition qs_measure (width height : Z) (st : QS.state) : Z :=
  Z.of_nat (length (QS.queue st))
  + 4 * (width * height - Z.of_nat (size (QS.visited st))).

(** The positions within the image, as the set of the visited ones holds
    them. *)
Definition qs_cells (width height : Z) : gset (option Z) :=
  list_to_set (Some <$> seqZ 0 (width * height)).

(** An entry of the queue with [NaN] for a coordinate. *)
Definition nan_entry (e : float * float * Z) : Prop :=
  Math_floor e.1.1 = fl_nan \/ Math_floor e.1.2 = fl_nan.

(** What the turns of [quickSelect] keep: the coordinates in the queue
    are all numbers and the visited positions are in the image, or every
    entry has a [NaN] and no position but [NaN] is visited. *)
Definition qs_bounded (width height : Z) (st : QS.state) : Prop :=
  (Forall (fun e => ~ nan_entry e) (QS.queue st) /\ QS.visited st ⊆ qs_cells width height) \/
  (Forall nan_entry (QS.queue st) /\ QS.visited st ⊆ {[None]}).

(** The four entries a turn adds for the entry [[x, y, depth]]. *)
Definition qs_neighbors (x y : float) (depth : Z) : list (float * float * Z) :=
  [((x - 1)%float, y, depth + 1); ((x + 1)%float, y, depth + 1);
   (x, (y - 1)%float, depth + 1); (x, (y + 1)%float, depth + 1)].

(** What a turn that accepts the position [pos] makes of the mask. *)
Definition qs_written (mode : SelectionMode) (mask : list Z) (pos : Z) : list Z :=
  match mode with
  | mode_new | mode_add =>
      u8_set (u8_set (u8_set (u8_set mask (pos * 4) (Some 255))
        (pos * 4 + 1) (Some 255)) (pos * 4 + 2) (Some 255)) (pos * 4 + 3) (Some 255)
  | mode_subtract =>
      u8_set (u8_set (u8_set (u8_set mask (pos * 4) (Some 0))
        (pos * 4 + 1) (Some 0)) (pos * 4 + 2) (Some 0)) (pos * 4 + 3) (Some 0)
  | mode_intersect => mask
  end.

(** The loop of [applySelectionAsAlpha] on the image's own bytes, the
    mask's being [maskData]. *)
Definition alpha_loop (maskData : list Z) (len : Z) (img : list Z) : list Z :=
  for_step4 len (fun i buf =>
    u8_set buf (i + 3) (js_min (typed_get buf (i + 3)) (typed_get maskData i))) img.

(** ** Sample inputs *)

Definition image (w h : Z) (bytes : list Z) : ImageData.t := ImageData.mk w h bytes.

(** A [w] by [h] image of one color. *)
Definition uniform (w h : Z) (px : list Z) : ImageData.t :=
  ImageData.mk w h (concat (replicate (Z.to_nat (w * h)) px)).

Definition selection_of (mask : ImageData.t) : Selection.t :=
  Selection.mk mask (computeBounds mask) true.

(** A 2 by 2 mask: nothing, everything, half, everything. *)
Definition mask_2x2 : ImageData.t :=
  image 2 2 [0; 0; 0; 0; 255; 255; 255; 255; 128; 128; 128; 128; 255; 255; 255; 255].

(** A 3 by 3 image with a white column on the left, black elsewhere: the
    edge map is 1 at the pixel in the middle. And a 3 by 3 mask with that
    pixel partially selected. *)
Definition stripe_3x3 : ImageData.t :=
  image 3 3 [255; 255; 255; 255; 0; 0; 0; 255; 0; 0; 0; 255;
             255; 255; 255; 255; 0; 0; 0; 255; 0; 0; 0; 255;
             255; 255; 255; 255; 0; 0; 0; 255; 0; 0; 0; 255].
Definition dot_3x3 : ImageData.t :=
  image 3 3 [0; 0; 0; 255; 0; 0; 0; 255; 0; 0; 0; 255;
             0; 0; 0; 255; 100; 100; 100; 255; 0; 0; 0; 255;
             0; 0; 0; 255; 0; 0; 0; 255; 0; 0; 0; 255].

(** The one-pixel masks: nothing selected, as [new ImageData(1, 1)] makes
    it, and everything selected, as [quickSelect] paints it. *)
Definition mask_empty_1x1 : ImageData.t := ImageData.create 1 1.
Definition mask_full_1x1 : ImageData.t := image 1 1 [255; 255; 255; 255].

(** A store of two buffers: a two-pixel image at 0 and its mask at 1. *)
Definition store_2 : gmap nat (list Z) :=
  <[0%nat := [10; 20; 30; 200; 1; 2; 3; 50]]>
    (<[1%nat := [128; 128; 128; 255; 0; 0; 0; 255]]> ∅).
Definition image_at (l : nat) : Ref.ImageData := Ref.mkImageData 2 1 l.
Definition selection_at (l : nat) : Ref.Selection :=
  Ref.mkSelection (Ref.mkImageData 2 1 l) (Rect.mk 0 0 1 1) true.

(** The image [selectSubject] finds no subject in: 42 by 4, all black. *)
Definition black_42x4 : ImageData.t := uniform 42 4 [0; 0; 0; 255].

(** One column more, and it finds one. *)
Definition black_43x4 : ImageData.t := uniform 43 4 [0; 0; 0; 255].

(** Two pixels, the first of the target color (10, 20, 30). *)
Definition two_pixels : ImageData.t := image 2 1 [10; 20; 30; 255; 11; 20; 30; 255].
Definition exact_match : ColorRangeOptions.t :=
  ColorRangeOptions.mk (RGBA.mk 10 20 30 1) 0.


(** ** Refine edge *)

(** The numbers of [RefineEdgeOptions] that [refineEdge] reads. The panel
    that calls it takes each of them from a slider with [parseInt]: they
    are integers, the radius from 0 to 500 (the slider's 250, doubled by
    the smart radius), smooth and contrast from 0 to 100, the feather from
    0 to 250 and the shift from -100 to 100. *)
Module RefineEdgeOptions.
Record t : Type := mk { radius : Z; smooth : Z; feather : Z; contrast : Z; shift : Z }.

End RefineEdgeOptions.

(** [set.add(pos)] on a [Set], which keeps the order of insertion. *)
Definition set_add (pos : Z) (s : list Z) : list Z :=
  if decide (pos ∈ s) then s else s ++ [pos].

(** The positions near an edge of the mask: the partially selected
    pixels, and the disk around each pixel that has a neighbor more than
    128 away from it. *)
Definition findEdgeZone (mask : ImageData.t) (radius : Z) : list Z :=
  let width := ImageData.width mask in
  let height := ImageData.height mask in
  let data := ImageData.data mask in
  for_lt 0 height (fun y edgeZone =>
    for_lt 0 width (fun x edgeZone =>
      let idx := (y * width + x) * 4 in
      let val := typed_get data idx in
      if js_gt val (Some 0) && js_gt (Some 255) val then set_add (y * width + x) edgeZone
      else
        let isEdge :=
          for_le (-1) 1 (fun dy (isEdge : bool) =>
            if isEdge then isEdge
            else
              for_le (-1) 1 (fun dx (isEdge : bool) =>
                if isEdge then isEdge
                else
                  let nx := x + dx in
                  let ny := y + dy in
                  if (nx <? 0) || (width <=? nx) || (ny <? 0) || (height <=? ny) then isEdge
                  else
                    let nIdx := (ny * width + nx) * 4 in
                    if js_gt (js_abs (js_sub (typed_get data nIdx) val)) (Some 128)
                    then true else isEdge) isEdge) false in
        if isEdge then
          for_le (- radius) radius (fun dy edgeZone =>
            for_le (- radius) radius (fun dx edgeZone =>
              let nx := x + dx in
              let ny := y + dy in
              if (nx <? 0) || (width <=? nx) || (ny <? 0) || (height <=? ny) then edgeZone
              else if dx * dx + dy * dy <=? radius * radius
              then set_add (ny * width + nx) edgeZone
              else edgeZone) edgeZone) edgeZone
        else edgeZone) edgeZone) [].

(** Where the image has a sharp edge, the strength becomes 0 or 255; the
    mask is changed in place, and [mask] here is the mask afterwards. *)
Definition applySmartRadius (mask : ImageData.t) (edges : list float) (edgeZone : list Z)
    (radius : Z) : ImageData.t :=
  let data :=
    fold_left (fun data pos =>
      let edgeStrength := f32_get edges pos in
      let maskIdx := pos * 4 in
      let currentVal := typed_get data maskIdx in
      if PrimFloat.ltb 0.5 edgeStrength then
        let data := u8_set data maskIdx (Some (if js_gt currentVal (Some 127) then 255 else 0)) in
        let data := u8_set data (maskIdx + 1) (typed_get data maskIdx) in
        u8_set data (maskIdx + 2) (typed_get data maskIdx)
      else data) edgeZone (ImageData.data mask) in
  ImageData.mk (ImageData.width mask) (ImageData.height mask) data.

(** The byte [applyContrast] stores for the byte [v]. *)
Definition contrast_curve (amount : float) (v : option Z) : float :=
  let val := (float_of_u8 v / 255)%float in
  let contrast := ((val - 0.5) * (1 + amount) + 0.5)%float in
  Math_max 0 (Math_min 255 (Math_round (contrast * 255)%float)).

(** An S-curve on the strengths, in place. *)
Definition applyContrast (mask : ImageData.t) (amount : float) : ImageData.t :=
  let data :=
    for_step4 (Z.of_nat (length (ImageData.data mask))) (fun i data =>
      let result := contrast_curve amount (typed_get data i) in
      u8_set_float (u8_set_float (u8_set_float data i result) (i + 1) result) (i + 2) result)
      (ImageData.data mask) in
  ImageData.mk (ImageData.width mask) (ImageData.height mask) data.

(** [r = Math.ceil(x)] as the bound of the loop
    [for (let i = -r; i <= r; i++) kernel.push(...)]: [Some (Some r)] for
    an integer [r] whose [2 * r + 1] values fit an array; [Some None] when
    [x] is [NaN], and the loop takes no turn; [None] when [x] is infinite
    or [r] is [2^31] or more: an array holds at most [2^32 - 1] entries,
    and [push] throws. *)
Definition loop_bound (x : float) : option (option Z) :=
  match Prim2SF x with
  | S754_nan => Some None
  | S754_infinity _ => None
  | S754_zero _ => Some (Some 0)
  | S754_finite s m e =>
      let n := cond_Zopp s (Zpos m) in
      let r := if 0 <=? e then n * 2 ^ e else - ((- n) / 2 ^ (- e)) in
      if r <? 2 ^ 31 then Some (Some r) else None
  end.

(** [for (let i = -r; i <= r; i++) body] *)
Definition for_kernel {S : Type} (r : option Z) (body : Z -> Z -> S -> S) (s : S) : S :=
  match r with
  | Some r => for_le (- r) r (body r) s
  | None => s
  end.

(** [a[i]] on an array of numbers, as a number. *)
Definition num_get (a : list float) (i : Z) : float :=
  default PrimFloat.nan (typed_get a i).

Definition num_set (a : list float) (i : Z) (v : float) : list float :=
  if i <? 0 then a else <[Z.to_nat i := v]> a.

Section GaussianBlur.

(** [Math.exp], which an implementation approximates as it sees fit. *)
Variable Math_exp : float -> float.

(** [None]: the kernel outgrows an array. Below the radius 0.5 the result
    is the mask itself, not a copy. *)
Definition gaussianBlur (mask : ImageData.t) (radius : float) : option ImageData.t :=
  if PrimFloat.ltb radius 0.5 then Some mask
  else
    let width := ImageData.width mask in
    let height := ImageData.height mask in
    let data := ImageData.data mask in
    let result := ImageData.create width height in
    r ← loop_bound (radius * 3)%float;
    let sigma := radius in
    let '(kernel, sum) :=
      for_kernel r (fun _ i '(kernel, sum) =>
        let val := Math_exp (- (float_of_Z i * float_of_Z i) / (2 * sigma * sigma))%float in
        (kernel ++ [val], (sum + val)%float)) ([], 0%float) in
    let kernel :=
      for_lt 0 (Z.of_nat (length kernel)) (fun i kernel =>
        num_set kernel i (num_get kernel i / sum)%float) kernel in
    let temp :=
      for_lt 0 height (fun y temp =>
        for_lt 0 width (fun x temp =>
          let val :=
            for_kernel r (fun r i val =>
              let nx := Z.max 0 (Z.min (width - 1) (x + i)) in
              (val + float_of_u8 (typed_get data ((y * width + nx) * 4))
                     * num_get kernel (i + r))%float) 0%float in
          f32_set temp (y * width + x) val) temp)
        (replicate (Z.to_nat (width * height)) 0%float) in
    let out :=
      for_lt 0 height (fun y res =>
        for_lt 0 width (fun x res =>
          let val :=
            for_kernel r (fun r i val =>
              let ny := Z.max 0 (Z.min (height - 1) (y + i)) in
              (val + f32_get temp (ny * width + x) * num_get kernel (i + r))%float)
              0%float in
          let idx := (y * width + x) * 4 in
          let v := Math_round val in
          u8_set
            (u8_set_float (u8_set_float (u8_set_float res idx v) (idx + 1) v) (idx + 2) v)
            (idx + 3) (Some 255)) res) (ImageData.data result) in
    Some (ImageData.mk width height out).

Definition featherSelection (selection : Selection.t) (radius : float)
  : option Selection.t :=
  mask ← gaussianBlur (Selection.mask selection) radius;
  Some (Selection.mk mask (computeBounds mask) true).

(** [None]: the [ImageData] constructor threw on the selection's mask, or
    a blur threw. *)
Definition refineEdge (this : SelectionEngine.t) (selection : Selection.t)
    (imageData : ImageData.t) (options : RefineEdgeOptions.t) : option Selection.t :=
  let width := SelectionEngine.width this in
  let height := SelectionEngine.height this in
  mask ← ImageData.of_data (ImageData.data (Selection.mask selection)) width height;
  let edgeZone := findEdgeZone mask (RefineEdgeOptions.radius options) in
  let mask :=
    if 0 <? RefineEdgeOptions.radius options
    then applySmartRadius mask (computeEdgeMap imageData) edgeZone
           (RefineEdgeOptions.radius options)
    else mask in
  mask ← (if 0 <? RefineEdgeOptions.smooth options
          then gaussianBlur mask (float_of_Z (RefineEdgeOptions.smooth options) / 20)%float
          else Some mask);
  mask ← (if 0 <? RefineEdgeOptions.feather options
          then gaussianBlur mask (float_of_Z (RefineEdgeOptions.feather options))
          else Some mask);
  let mask :=
    if 0 <? RefineEdgeOptions.contrast options
    then applyContrast mask (float_of_Z (RefineEdgeOptions.contrast options) / 50)%float
    else mask in
  let mask :=
    if RefineEdgeOptions.shift options =? 0 then mask
    else if 0 <? RefineEdgeOptions.shift options
    then dilate mask (Qabs (RefineEdgeOptions.shift options # 10))
    else erode mask (Qabs (RefineEdgeOptions.shift options # 10)) in
  Some (Selection.mk mask (computeBounds mask) true).

End GaussianBlur.

(** The byte the contrast step of [refineEdge] stores for the byte [v],
    the slider at [contrast]. *)
Definition contrast_byte (contrast v : Z) : Z :=
  ToUint8Clamp (contrast_curve (float_of_Z contrast / 50)%float (Some v)).

(** A pixel [findEdgeZone] takes for an edge: it is not partially
    selected, and the strength of a pixel next to it differs from its own
    by more than 128. *)
Definition edge_pixel (mask : ImageData.t) (x y : Z) : Prop :=
  exists v dx dy n,
    strength mask x y = Some v /\ (v <= 0 \/ 255 <= v) /\
    -1 <= dx <= 1 /\ -1 <= dy <= 1 /\
    0 <= x + dx < ImageData.width mask /\ 0 <= y + dy < ImageData.height mask /\
    strength mask (x + dx) (y + dy) = Some n /\ 128 < Z.abs (n - v).

(** A pixel that is partially selected, or within [radius] of an edge. *)
Definition near_edge (mask : ImageData.t) (radius x y : Z) : Prop :=
  (exists v, strength mask x y = Some v /\ 0 < v < 255) \/
  exists ex ey,
    0 <= ex < ImageData.width mask /\ 0 <= ey < ImageData.height mask /\
    edge_pixel mask ex ey /\
    (x - ex) * (x - ex) + (y - ey) * (y - ey) <= radius * radius.

(** ** The selection tools *)

(** What the tools read of a pointer event. *)
Module PointerEvent.
Record t : Type := mk { x : float; y : float; shiftKey : bool; altKey : bool }.
End PointerEvent.

(** What the tools read of the raster engine of their context: its size
    ([getSize]) and the image of all layers ([getCompositeImageData]). *)
Module RasterEngine.
Record t : Type := mk { width : Z; height : Z; composite : ImageData.t }.

(** The composite is [getImageData(0, 0, width, height)]: an image of the
    size of the engine. *)
Definition wf (engine : t) : Prop :=
  ImageData.wf (composite engine) /\
  ImageData.width (composite engine) = width engine /\
  ImageData.height (composite engine) = height engine.
End RasterEngine.

(** How a handler of a tool ends: it returns, having passed [emitted] to
    the selection callback ([None]: it has not called it), or an exception
    leaves it. Pushing the history and marking the canvas dirty are left
    out. *)
Inductive outcome : Type :=
  | returned (emitted : option Selection.t)
  | threw.

Module ColorRangeTool.
Record t : Type := mk { selectionEngine : option SelectionEngine.t; fuzziness : float }.

Definition create : t := mk None 40%float.

Definition setFuzziness (this : t) (value : float) : t := mk (selectionEngine this) value.

Definition onPointerDown (this : t) (engine : RasterEngine.t) (e : PointerEvent.t)
  : t * outcome :=
  let width := RasterEngine.width engine in
  let height := RasterEngine.height engine in
  let this :=
    match selectionEngine this with
    | Some _ => this
    | None => mk (Some (SelectionEngine.mk width height)) (fuzziness this)
    end in
  let imageData := RasterEngine.composite engine in
  let x := Math_floor (PointerEvent.x e) in
  let y := Math_floor (PointerEvent.y e) in
  if out_of_range x width || out_of_range y height then (this, returned None)
  else
    let idx := js_mul (js_add (js_mul (int_of y) (Some width)) (int_of x)) (Some 4) in
    let targetColor :=
      RGBA.mk (float_of_u8 (typed_get_at (ImageData.data imageData) idx))
        (float_of_u8 (typed_get_at (ImageData.data imageData) (js_add idx (Some 1))))
        (float_of_u8 (typed_get_at (ImageData.data imageData) (js_add idx (Some 2))))
        1%float in
    let selection :=
      selectColorRange imageData (ColorRangeOptions.mk targetColor (fuzziness this)) in
    (this, returned (Some selection)).
End ColorRangeTool.

(** The settings [QuickSelectTool] reads. *)
Module QuickSelectSettings.
Record t : Type := mk { size : float; autoEnhance : bool }.
End QuickSelectSettings.

Module QuickSelectTool.
Record t : Type := mk {
  selectionEngine : option SelectionEngine.t;
  currentSelection : option Selection.t;
  mode : SelectionMode;
  settings : QuickSelectSettings.t;
  isDrawing : bool;
  lastX : float;
  lastY : float }.

Definition create (settings : QuickSelectSettings.t) : t :=
  mk None None mode_new settings false 0 0.

Definition setMode (this : t) (mode : SelectionMode) : t :=
  mk (selectionEngine this) (currentSelection this) mode (settings this)
    (isDrawing this) (lastX this) (lastY this).

Definition setSettings (this : t) (settings : QuickSelectSettings.t) : t :=
  mk (selectionEngine this) (currentSelection this) (mode this) settings
    (isDrawing this) (lastX this) (lastY this).

Definition setCurrentSelection (this : t) (selection : option Selection.t) : t :=
  mk (selectionEngine this) selection (mode this) (settings this)
    (isDrawing this) (lastX this) (lastY this).

Definition performSelection (this : t) (engine : RasterEngine.t) (x y : float)
    (mode : SelectionMode) : t * outcome :=
  match selectionEngine this with
  | None => (this, returned None)
  | Some _ =>
      let imageData := RasterEngine.composite engine in
      match quickSelect imageData x y (QuickSelectSettings.size (settings this)) mode
              (currentSelection this) with
      | None => (this, threw)
      | Some newSelection =>
          let current :=
            if QuickSelectSettings.autoEnhance (settings this)
            then smoothSelection newSelection 1
            else newSelection in
          (setCurrentSelection this (Some current), returned (Some current))
      end
  end.

Definition onPointerDown (this : t) (engine : RasterEngine.t) (e : PointerEvent.t)
  : t * outcome :=
  let this :=
    mk (selectionEngine this) (currentSelection this) (mode this) (settings this)
      true (PointerEvent.x e) (PointerEvent.y e) in
  let this :=
    match selectionEngine this with
    | Some _ => this
    | None =>
        mk (Some (SelectionEngine.mk (RasterEngine.width engine) (RasterEngine.height engine)))
          (currentSelection this) (mode this) (settings this)
          (isDrawing this) (lastX this) (lastY this)
    end in
  let effectiveMode :=
    if PointerEvent.altKey e then mode_subtract
    else
      match currentSelection this with
      | Some _ => if PointerEvent.shiftKey e then mode_add else mode this
      | None => mode_new
      end in
  let this :=
    match effectiveMode with
    | mode_new => setCurrentSelection this None
    | _ => this
    end in
  performSelection this engine (PointerEvent.x e) (PointerEvent.y e) effectiveMode.

Definition onPointerMove (this : t) (engine : RasterEngine.t) (e : PointerEvent.t)
  : t * outcome :=
  if negb (isDrawing this) then (this, returned None)
  else
    let effectiveMode := if PointerEvent.altKey e then mode_subtract else mode_add in
    match performSelection this engine (PointerEvent.x e) (PointerEvent.y e) effectiveMode with
    | (this, threw) => (this, threw)
    | (this, out) =>
        (mk (selectionEngine this) (currentSelection this) (mode this) (settings this)
           (isDrawing this) (PointerEvent.x e) (PointerEvent.y e), out)
    end.

Definition onPointerUp (this : t) : t :=
  mk (selectionEngine this) (currentSelection this) (mode this) (settings this)
    false (lastX this) (lastY this).

(** What its owner does with the tool. *)
Inductive event : Type :=
  | SetMode (mode : SelectionMode)
  | SetSettings (settings : QuickSelectSettings.t)
  | SetCurrentSelection (selection : option Selection.t)
  | PointerDown (engine : RasterEngine.t) (e : PointerEvent.t)
  | PointerMove (engine : RasterEngine.t) (e : PointerEvent.t)
  | PointerUp.

Definition handle (this : t) (ev : event) : t * outcome :=
  match ev with
  | SetMode mode => (setMode this mode, returned None)
  | SetSettings settings => (setSettings this settings, returned None)
  | SetCurrentSelection selection => (setCurrentSelection this selection, returned None)
  | PointerDown engine e => onPointerDown this engine e
  | PointerMove engine e => onPointerMove this engine e
  | PointerUp => (onPointerUp this, returned None)
  end.

(** The events one after the other; a handler that throws leaves the tool
    as it was at the throw, and the next event finds it so. *)
Fixpoint run (this : t) (events : list event) : t * list outcome :=
  match events with
  | [] => (this, [])
  | ev :: events =>
      let '(this, out) := handle this ev in
      let '(this, outs) := run this events in
      (this, out :: outs)
  end.

(** A selection whose mask has the bytes of a [width] by [height] image. *)
Definition fits (width height : Z) (selection : option Selection.t) : Prop :=
  match selection with
  | Some sel => Z.of_nat (length (ImageData.data (Selection.mask sel))) = 4 * width * height
  | None => True
  end.

(** An event on a canvas of [width] by [height] pixels. *)
Definition on_canvas (width height : Z) (ev : event) : Prop :=
  match ev with
  | PointerDown engine _ | PointerMove engine _ =>
      ImageData.width (RasterEngine.composite engine) = width /\
      ImageData.height (RasterEngine.composite engine) = height
  | SetCurrentSelection selection => fits width height selection
  | _ => True
  end.
End QuickSelectTool.


(** * Properties *)

(** ** Loops *)

Lemma for_up_ind {S : Type} (P : Z -> S -> Prop) (body : Z -> S -> S) n i s :
  P i s ->
  (forall j t, i <= j < i + Z.of_nat n -> P j t -> P (j + 1) (body j t)) ->
  P (i + Z.of_nat n) (for_up n i body s).
Proof.
  revert i s. induction n as [|n IH]; intros i s Hs Hstep; simpl for_up.
  - replace (i + Z.of_nat 0) with i by lia. exact Hs.
  - replace (i + Z.of_nat (Datatypes.S n)) with ((i + 1) + Z.of_nat n) by lia.
    apply IH.
    + apply Hstep; [lia | exact Hs].
    + intros j t Hj. apply Hstep. lia.
Qed.

Lemma for_lt_ind {S : Type} (P : Z -> S -> Prop) (body : Z -> S -> S) lo hi s :
  lo <= hi ->
  P lo s ->
  (forall j t, lo <= j < hi -> P j t -> P (j + 1) (body j t)) ->
  P hi (for_lt lo hi body s).
Proof.
  intros Hle Hs Hstep. unfold for_lt.
  replace hi with (lo + Z.of_nat (Z.to_nat (hi - lo))) at 1 by lia.
  apply for_up_ind; [exact Hs|]. intros j t Hj. apply Hstep. lia.
Qed.

Lemma for_lt_inv {S : Type} (P : S -> Prop) (body : Z -> S -> S) lo hi s :
  P s ->
  (forall j t, lo <= j < hi -> P t -> P (body j t)) ->
  P (for_lt lo hi body s).
Proof.
  intros Hs Hstep. destruct (Z_le_gt_dec lo hi) as [Hle|Hgt].
  - apply (for_lt_ind (fun _ => P)); auto.
  - unfold for_lt. replace (Z.to_nat (hi - lo)) with O by lia. exact Hs.
Qed.

Lemma for_lt_empty {S : Type} (body : Z -> S -> S) lo hi s :
  hi <= lo -> for_lt lo hi body s = s.
Proof. intros H. unfold for_lt. replace (Z.to_nat (hi - lo)) with O by lia. reflexivity. Qed.

Lemma for_up_ext {S : Type} (f g : Z -> S -> S) n i s :
  (forall j t, i <= j < i + Z.of_nat n -> f j t = g j t) ->
  for_up n i f s = for_up n i g s.
Proof.
  revert i s. induction n as [|n IH]; intros i s H; simpl; [reflexivity|].
  rewrite H by lia. apply IH. intros j t Hj. apply H. lia.
Qed.

Lemma for_lt_ext {S : Type} (f g : Z -> S -> S) lo hi s :
  (forall j t, lo <= j < hi -> f j t = g j t) ->
  for_lt lo hi f s = for_lt lo hi g s.
Proof. intros H. unfold for_lt. apply for_up_ext. intros j t Hj. apply H. lia. Qed.

Lemma for_up_app {S : Type} (body : Z -> S -> S) n m i s :
  for_up (n + m) i body s = for_up m (i + Z.of_nat n) body (for_up n i body s).
Proof.
  revert i s. induction n as [|n IH]; intros i s; simpl.
  - f_equal. lia.
  - rewrite IH. f_equal. lia.
Qed.

Lemma for_lt_split {S : Type} (body : Z -> S -> S) lo mid hi s :
  lo <= mid <= hi ->
  for_lt lo hi body s = for_lt mid hi body (for_lt lo mid body s).
Proof.
  intros H. unfold for_lt.
  replace (Z.to_nat (hi - lo)) with (Z.to_nat (mid - lo) + Z.to_nat (hi - mid))%nat by lia.
  rewrite for_up_app. f_equal. lia.
Qed.

Lemma for_up_shift {S : Type} (body : Z -> S -> S) n i d s :
  for_up n (i + d) body s = for_up n i (fun j => body (j + d)) s.
Proof.
  revert i s. induction n as [|n IH]; intros i s; simpl; [reflexivity|].
  replace (i + d + 1) with (i + 1 + d) by lia. apply IH.
Qed.

(** Two nested loops over the columns and the rows are one loop over the
    linear positions. *)
Lemma for_lt_nested {S : Type} (g : Z -> Z -> S -> S) w h s :
  0 < w -> 0 <= h ->
  for_lt 0 h (fun y t => for_lt 0 w (fun x t => g x y t) t) s
  = for_lt 0 (w * h) (fun k t => g (k mod w) (k / w) t) s.
Proof.
  intros Hw Hh. revert s.
  pattern h. apply natlike_ind; [| |exact Hh].
  - intros s. rewrite !for_lt_empty by lia. reflexivity.
  - intros y Hy IH s.
    rewrite (for_lt_split _ 0 y (Z.succ y)) by lia.
    rewrite (for_lt_split _ 0 (w * y) (w * Z.succ y)) by nia.
    rewrite IH.
    set (t := for_lt 0 (w * y) _ s). clearbody t.
    unfold for_lt at 1. replace (Z.to_nat (Z.succ y - y)) with 1%nat by lia.
    simpl for_up.
    unfold for_lt. replace (w * Z.succ y - w * y) with (w - 0) by lia.
    replace (w * y) with (0 + w * y) at 1 by lia.
    rewrite for_up_shift. apply for_up_ext. intros j u Hj.
    assert (Hj' : 0 <= j < w) by lia.
    replace (j + w * y) with (j + y * w) by lia.
    rewrite Z.mod_add, Z.div_add by lia.
    rewrite Z.mod_small, Z.div_small by lia. f_equal; lia.
Qed.

(** ** Typed arrays *)

Lemma typed_get_lookup {A : Type} (a : list A) (i : Z) :
  0 <= i -> typed_get a i = a !! Z.to_nat i.
Proof. intros H. unfold typed_get. destruct (Z.ltb_spec i 0); [lia|reflexivity]. Qed.

Lemma typed_get_Some_range {A : Type} (a : list A) (i : Z) v :
  typed_get a i = Some v -> 0 <= i < Z.of_nat (length a).
Proof.
  unfold typed_get. destruct (Z.ltb_spec i 0); [discriminate|].
  intros Hv. apply lookup_lt_Some in Hv. lia.
Qed.

Lemma typed_get_is_Some {A : Type} (a : list A) (i : Z) :
  0 <= i < Z.of_nat (length a) -> is_Some (typed_get a i).
Proof.
  intros H. rewrite typed_get_lookup by lia. apply lookup_lt_is_Some. lia.
Qed.

Lemma u8_set_length a i v : length (u8_set a i v) = length a.
Proof. unfold u8_set. destruct (i <? 0); [reflexivity|apply length_insert]. Qed.

Lemma typed_get_u8_set a i v j :
  typed_get (u8_set a i v) j
  = if decide (i = j /\ 0 <= i < Z.of_nat (length a)) then Some (clamp8 v)
    else typed_get a j.
Proof.
  unfold u8_set, typed_get.
  destruct (Z.ltb_spec i 0) as [Hi|Hi], (Z.ltb_spec j 0) as [Hj|Hj];
    case_decide as H; try reflexivity; try lia.
  - destruct H as [-> H]. rewrite list_lookup_insert_eq by lia. reflexivity.
  - destruct (decide (i = j)) as [->|Hne].
    + rewrite list_insert_ge by lia. reflexivity.
    + rewrite list_lookup_insert_ne by lia. reflexivity.
Qed.

Lemma typed_get_u8_set_same a i v :
  0 <= i < Z.of_nat (length a) -> typed_get (u8_set a i v) i = Some (clamp8 v).
Proof. intros H. rewrite typed_get_u8_set. case_decide; [reflexivity|lia]. Qed.

Lemma typed_get_u8_set_other a i v j :
  i <> j -> typed_get (u8_set a i v) j = typed_get a j.
Proof. intros H. rewrite typed_get_u8_set. case_decide; [lia|reflexivity]. Qed.

Lemma clamp8_range v : 0 <= clamp8 v <= 255.
Proof. destruct v; simpl; lia. Qed.

Lemma clamp8_id z : 0 <= z <= 255 -> clamp8 (Some z) = z.
Proof. simpl. lia. Qed.

(** ** Pixels *)

Lemma write_pixel_length buf idx v a : length (write_pixel buf idx v a) = length buf.
Proof. unfold write_pixel. rewrite !u8_set_length. reflexivity. Qed.

Lemma channel_write_pixel buf k v a k' c :
  0 <= k -> 4 * k + 3 < Z.of_nat (length buf) -> 0 <= c < 4 ->
  channel (write_pixel buf (k * 4) v a) k' c
  = if decide (k' = k) then Some (clamp8 (if decide (c = 3) then a else v))
    else channel buf k' c.
Proof.
  intros Hk Hlen Hc. unfold channel, write_pixel.
  rewrite !typed_get_u8_set, !u8_set_length.
  repeat case_decide; try reflexivity; try lia.
Qed.

Lemma pixel_of_write_pixel buf k v a k' :
  0 <= k -> 4 * k + 3 < Z.of_nat (length buf) ->
  pixel_of (write_pixel buf (k * 4) v a) k'
  = if decide (k' = k)
    then (Some (clamp8 v), Some (clamp8 v), Some (clamp8 v), Some (clamp8 a))
    else pixel_of buf k'.
Proof.
  intros Hk Hlen. unfold pixel_of.
  rewrite !channel_write_pixel by lia.
  repeat case_decide; try reflexivity; try lia.
Qed.

(** A loop that rewrites pixel [k] at turn [k], from what the pixel holds,
    and nothing else. *)
Lemma for_lt_pixels (n : Z) (body : Z -> list Z -> list Z)
    (F : Z -> option Z * option Z * option Z * option Z ->
         option Z * option Z * option Z * option Z) (init : list Z) :
  (forall k md, 0 <= k < n -> length md = length init ->
     length (body k md) = length init /\
     forall k', pixel_of (body k md) k'
                = if decide (k' = k) then F k (pixel_of md k) else pixel_of md k') ->
  length (for_lt 0 n body init) = length init /\
  forall k, pixel_of (for_lt 0 n body init) k
            = if decide (0 <= k < n) then F k (pixel_of init k) else pixel_of init k.
Proof.
  intros Hbody. destruct (Z_le_gt_dec 0 n) as [Hn|Hn].
  - pose (P := fun (j : Z) (md : list Z) =>
      length md = length init /\
      forall k, pixel_of md k
                = if decide (0 <= k < j) then F k (pixel_of init k) else pixel_of init k).
    apply (for_lt_ind P); subst P; cbv beta.
    + exact Hn.
    + split; [reflexivity|]. intros k. case_decide; [lia|reflexivity].
    + intros j md Hj [Hlen Hpix].
      destruct (Hbody j md Hj Hlen) as [Hlen' Hpix'].
      split; [exact Hlen'|]. intros k. rewrite Hpix'.
      destruct (decide (k = j)) as [->|Hne].
      * rewrite Hpix. repeat case_decide; try lia. reflexivity.
      * rewrite Hpix. repeat case_decide; try lia; reflexivity.
  - rewrite for_lt_empty by lia. split; [reflexivity|].
    intros k. case_decide; [lia|reflexivity].
Qed.

Lemma create_length w h :
  Z.of_nat (length (ImageData.data (ImageData.create w h))) = Z.max 0 (4 * w * h).
Proof. simpl. rewrite length_replicate. lia. Qed.

(** A loop over the rows and the columns that writes a grey pixel at each
    position. *)
Lemma grey_loop_pixels (w h : Z) (val : Z -> Z -> option Z) (alpha : option Z)
    (init : list Z) :
  0 < w -> 0 <= h -> Z.of_nat (length init) = 4 * w * h ->
  let out :=
    for_lt 0 h (fun y res =>
      for_lt 0 w (fun x res =>
        write_pixel res ((y * w + x) * 4) (val x y) alpha) res) init in
  length out = length init /\
  forall k, 0 <= k < w * h ->
    pixel_of out k
    = (Some (clamp8 (val (k mod w) (k / w))), Some (clamp8 (val (k mod w) (k / w))),
       Some (clamp8 (val (k mod w) (k / w))), Some (clamp8 alpha)).
Proof.
  intros Hw Hh Hlen out. subst out.
  rewrite (for_lt_nested (fun x y res => write_pixel res ((y * w + x) * 4) (val x y) alpha))
    by lia.
  destruct (for_lt_pixels (w * h)
    (fun k res => write_pixel res ((k / w * w + k mod w) * 4) (val (k mod w) (k / w)) alpha)
    (fun k _ => (Some (clamp8 (val (k mod w) (k / w))), Some (clamp8 (val (k mod w) (k / w))),
                 Some (clamp8 (val (k mod w) (k / w))), Some (clamp8 alpha)))
    init) as [Hl Hp].
  - intros k md Hk Hmd. split; [rewrite write_pixel_length; exact Hmd|].
    intros k'. replace (k / w * w + k mod w) with k
      by (rewrite (Z.div_mod k w) at 1 by lia; lia).
    apply pixel_of_write_pixel; lia.
  - split; [exact Hl|]. intros k Hk. rewrite Hp. case_decide; [reflexivity|lia].
Qed.

Lemma strength_channel mask x y :
  strength mask x y = channel (ImageData.data mask) (y * ImageData.width mask + x) 0.
Proof. unfold strength, channel. f_equal. lia. Qed.

Lemma wf_channel_range (img : ImageData.t) k c :
  ImageData.wf img -> 0 <= k < ImageData.width img * ImageData.height img -> 0 <= c < 4 ->
  exists v, channel (ImageData.data img) k c = Some v /\ 0 <= v <= 255.
Proof.
  intros (Hw & Hh & Hlen & Hall) Hk Hc. unfold channel.
  destruct (typed_get_is_Some (ImageData.data img) (4 * k + c)) as [v Hv]; [lia|].
  exists v. split; [exact Hv|].
  rewrite typed_get_lookup in Hv by lia.
  rewrite Forall_lookup in Hall. exact (Hall _ _ Hv).
Qed.

Lemma wf_strength_range (img : ImageData.t) x y :
  ImageData.wf img -> 0 <= x < ImageData.width img -> 0 <= y < ImageData.height img ->
  exists v, strength img x y = Some v /\ 0 <= v <= 255.
Proof.
  intros Hwf Hx Hy. rewrite strength_channel.
  apply wf_channel_range; [exact Hwf|nia|lia].
Qed.

(** Bytes that are all channels of pixels written by [clamp8] are bytes. *)
Lemma pixels_wf w h (out : list Z) (val : Z -> option Z) (alpha : option Z) :
  0 < w -> 0 < h -> Z.of_nat (length out) = 4 * w * h ->
  (forall k, 0 <= k < w * h ->
     pixel_of out k = (Some (clamp8 (val k)), Some (clamp8 (val k)),
                       Some (clamp8 (val k)), Some (clamp8 alpha))) ->
  ImageData.wf (ImageData.mk w h out).
Proof.
  intros Hw Hh Hlen Hpix. repeat split; simpl; try assumption.
  apply Forall_lookup. intros i v Hv.
  pose proof (lookup_lt_Some _ _ _ Hv) as Hi.
  assert (Hk : 0 <= Z.of_nat i / 4 < w * h)
    by (split; [apply Z.div_pos; lia | apply Z.div_lt_upper_bound; lia]).
  pose proof (Hpix _ Hk) as Hp. unfold pixel_of, channel in Hp.
  pose proof (Z.div_mod (Z.of_nat i) 4 ltac:(lia)) as Hdm.
  pose proof (Z.mod_pos_bound (Z.of_nat i) 4 ltac:(lia)) as Hm.
  assert (Hget : typed_get out (Z.of_nat i) = Some v)
    by (rewrite typed_get_lookup by lia; rewrite Nat2Z.id; exact Hv).
  injection Hp as H0 H1 H2 H3.
  assert (Hc : Z.of_nat i mod 4 = 0 \/ Z.of_nat i mod 4 = 1 \/
               Z.of_nat i mod 4 = 2 \/ Z.of_nat i mod 4 = 3) by lia.
  destruct Hc as [Hc|[Hc|[Hc|Hc]]]; rewrite Hc in Hdm; rewrite Hdm in Hget;
    [rewrite H0 in Hget|rewrite H1 in Hget|rewrite H2 in Hget|rewrite H3 in Hget];
    injection Hget as <-; apply clamp8_range.
Qed.

(** ** Dilation and erosion *)

Lemma linear_div_mod w x y :
  0 <= x < w -> (y * w + x) mod w = x /\ (y * w + x) / w = y.
Proof.
  intros Hx. replace (y * w + x) with (x + y * w) by lia.
  rewrite Z.mod_add, Z.div_add by lia.
  rewrite Z.mod_small, Z.div_small by lia. lia.
Qed.

Lemma dilate_pixel mask radius k :
  0 < ImageData.width mask -> 0 <= ImageData.height mask ->
  0 <= k < ImageData.width mask * ImageData.height mask ->
  let v := clamp8 (dilate_maxVal mask radius (k mod ImageData.width mask)
                     (k / ImageData.width mask)) in
  pixel_of (ImageData.data (dilate mask radius)) k = (Some v, Some v, Some v, Some 255).
Proof.
  intros Hw Hh Hk v. unfold dilate. cbn [ImageData.data].
  destruct (grey_loop_pixels (ImageData.width mask) (ImageData.height mask)
    (dilate_maxVal mask radius) (Some 255)
    (ImageData.data (ImageData.create (ImageData.width mask) (ImageData.height mask))))
    as [_ Hp]; [lia|lia|rewrite create_length; nia|].
  exact (Hp k Hk).
Qed.

Lemma erode_pixel mask radius k :
  0 < ImageData.width mask -> 0 <= ImageData.height mask ->
  0 <= k < ImageData.width mask * ImageData.height mask ->
  let v := clamp8 (erode_minVal mask radius (k mod ImageData.width mask)
                     (k / ImageData.width mask)) in
  pixel_of (ImageData.data (erode mask radius)) k = (Some v, Some v, Some v, Some 255).
Proof.
  intros Hw Hh Hk v. unfold erode. cbn [ImageData.data].
  destruct (grey_loop_pixels (ImageData.width mask) (ImageData.height mask)
    (erode_minVal mask radius) (Some 255)
    (ImageData.data (ImageData.create (ImageData.width mask) (ImageData.height mask))))
    as [_ Hp]; [lia|lia|rewrite create_length; nia|].
  exact (Hp k Hk).
Qed.

Lemma dilate_length mask radius :
  0 < ImageData.width mask -> 0 <= ImageData.height mask ->
  Z.of_nat (length (ImageData.data (dilate mask radius)))
  = 4 * ImageData.width mask * ImageData.height mask.
Proof.
  intros Hw Hh. unfold dilate. cbn [ImageData.data].
  destruct (grey_loop_pixels (ImageData.width mask) (ImageData.height mask)
    (dilate_maxVal mask radius) (Some 255)
    (ImageData.data (ImageData.create (ImageData.width mask) (ImageData.height mask))))
    as [Hl _]; [lia|lia|rewrite create_length; nia|].
  rewrite Hl, create_length. nia.
Qed.

Lemma erode_length mask radius :
  0 < ImageData.width mask -> 0 <= ImageData.height mask ->
  Z.of_nat (length (ImageData.data (erode mask radius)))
  = 4 * ImageData.width mask * ImageData.height mask.
Proof.
  intros Hw Hh. unfold erode. cbn [ImageData.data].
  destruct (grey_loop_pixels (ImageData.width mask) (ImageData.height mask)
    (erode_minVal mask radius) (Some 255)
    (ImageData.data (ImageData.create (ImageData.width mask) (ImageData.height mask))))
    as [Hl _]; [lia|lia|rewrite create_length; nia|].
  rewrite Hl, create_length. nia.
Qed.

Lemma dilate_strength mask radius x y :
  0 <= x < ImageData.width mask -> 0 <= y < ImageData.height mask ->
  strength (dilate mask radius) x y = Some (clamp8 (dilate_maxVal mask radius x y)).
Proof.
  intros Hx Hy. rewrite strength_channel.
  pose proof (dilate_pixel mask radius (y * ImageData.width mask + x)
                ltac:(lia) ltac:(lia) ltac:(cbn; nia)) as Hp.
  cbn zeta in Hp. destruct (linear_div_mod (ImageData.width mask) x y Hx) as [Hm Hd].
  rewrite Hm, Hd in Hp. unfold pixel_of in Hp. cbn [ImageData.width dilate].
  injection Hp as H0 _ _ _. exact H0.
Qed.

Lemma erode_strength mask radius x y :
  0 <= x < ImageData.width mask -> 0 <= y < ImageData.height mask ->
  strength (erode mask radius) x y = Some (clamp8 (erode_minVal mask radius x y)).
Proof.
  intros Hx Hy. rewrite strength_channel.
  pose proof (erode_pixel mask radius (y * ImageData.width mask + x)
                ltac:(lia) ltac:(lia) ltac:(cbn; nia)) as Hp.
  cbn zeta in Hp. destruct (linear_div_mod (ImageData.width mask) x y Hx) as [Hm Hd].
  rewrite Hm, Hd in Hp. unfold pixel_of in Hp. cbn [ImageData.width erode].
  injection Hp as H0 _ _ _. exact H0.
Qed.

Lemma medianFilter_pixel mask radius k :
  0 < ImageData.width mask -> 0 <= ImageData.height mask ->
  0 <= k < ImageData.width mask * ImageData.height mask ->
  let v := clamp8 (medianFilter_median mask radius (k mod ImageData.width mask)
                     (k / ImageData.width mask)) in
  pixel_of (ImageData.data (medianFilter mask radius)) k = (Some v, Some v, Some v, Some 255).
Proof.
  intros Hw Hh Hk v. unfold medianFilter. cbn [ImageData.data].
  destruct (grey_loop_pixels (ImageData.width mask) (ImageData.height mask)
    (medianFilter_median mask radius) (Some 255)
    (ImageData.data (ImageData.create (ImageData.width mask) (ImageData.height mask))))
    as [_ Hp]; [lia|lia|rewrite create_length; nia|].
  exact (Hp k Hk).
Qed.

Section Visit.
Context {S : Type} (I J : S -> Prop).

(** A loop that keeps [I], reaches [J] at turn [j0] and keeps it since. *)
Lemma for_lt_visit (g : Z -> S -> S) lo hi j0 s :
  lo <= j0 < hi ->
  I s ->
  (forall j t, lo <= j < hi -> I t -> I (g j t)) ->
  (forall t, I t -> J (g j0 t)) ->
  (forall j t, lo <= j < hi -> I t -> J t -> J (g j t)) ->
  I (for_lt lo hi g s) /\ J (for_lt lo hi g s).
Proof.
  intros Hj0 Hs HI Hat HJ.
  rewrite (for_lt_split g lo j0 hi) by lia.
  rewrite (for_lt_split g j0 (j0 + 1) hi) by lia.
  assert (H1 : I (for_lt lo j0 g s)).
  { apply for_lt_inv; [exact Hs|]. intros j t Hj. apply HI. lia. }
  set (t1 := for_lt lo j0 g s) in *. clearbody t1.
  assert (H2 : I (for_lt j0 (j0 + 1) g t1) /\ J (for_lt j0 (j0 + 1) g t1)).
  { unfold for_lt. replace (Z.to_nat (j0 + 1 - j0)) with 1%nat by lia. simpl.
    split; [apply HI; [lia|exact H1] | apply Hat; exact H1]. }
  set (t2 := for_lt j0 (j0 + 1) g t1) in *. clearbody t2.
  apply (for_lt_inv (fun t => I t /\ J t)); [exact H2|].
  intros j t Hj [Ht Ht']. split; [apply HI; [lia|exact Ht] | apply HJ; [lia|exact Ht|exact Ht']].
Qed.

(** The same for a loop nested in a loop over the same range. *)
Lemma nested_visit (g : Z -> Z -> S -> S) lo hi dx0 dy0 s :
  lo <= dx0 < hi -> lo <= dy0 < hi ->
  I s ->
  (forall dx dy t, lo <= dx < hi -> lo <= dy < hi -> I t -> I (g dx dy t)) ->
  (forall t, I t -> J (g dx0 dy0 t)) ->
  (forall dx dy t, lo <= dx < hi -> lo <= dy < hi -> I t -> J t -> J (g dx dy t)) ->
  J (for_lt lo hi (fun dy t => for_lt lo hi (fun dx t => g dx dy t) t) s).
Proof.
  intros Hdx Hdy Hs HI Hat HJ.
  apply (for_lt_visit (fun dy t => for_lt lo hi (fun dx t => g dx dy t) t) lo hi dy0);
    try assumption.
  - intros dy t Hy Ht. apply for_lt_inv; [exact Ht|].
    intros dx u Hx. apply HI; assumption.
  - intros t Ht.
    apply (for_lt_visit (fun dx t => g dx dy0 t) lo hi dx0); try assumption.
    + intros dx u Hx. apply HI; assumption.
    + intros dx u Hx. apply HJ; assumption.
  - intros dy t Hy Ht Ht'.
    apply (for_lt_inv (fun t => I t /\ J t)); [split; assumption|].
    intros dx u Hx [Hu Hu']. split; [apply HI | apply HJ]; assumption.
Qed.
End Visit.

Lemma in_disk_opp radius dx dy : in_disk radius dx dy -> in_disk radius (- dx) (- dy).
Proof.
  intros (Hx & Hy & Hd). repeat split; try lia.
  replace (- dx * - dx + - dy * - dy) with (dx * dx + dy * dy) by lia. exact Hd.
Qed.

(** The value [dilate] writes at [(x, y)] is a byte no smaller than any
    strength within the structuring element. *)
Lemma dilate_maxVal_upper mask radius x y :
  ImageData.wf mask ->
  (exists M, dilate_maxVal mask radius x y = Some M /\ 0 <= M <= 255) /\
  forall dx dy v,
    in_disk radius dx dy ->
    0 <= x + dx < ImageData.width mask -> 0 <= y + dy < ImageData.height mask ->
    strength mask (x + dx) (y + dy) = Some v ->
    exists M, dilate_maxVal mask radius x y = Some M /\ v <= M.
Proof.
  intros Hwf. unfold dilate_maxVal, for_le.
  set (g := fun dx dy (maxVal : option Z) =>
    if Qltb (radius * radius) (inject_Z (dx * dx + dy * dy)) then maxVal
    else if (x + dx <? 0) || (ImageData.width mask <=? x + dx) || (y + dy <? 0)
            || (ImageData.height mask <=? y + dy) then maxVal
    else js_max maxVal (typed_get (ImageData.data mask)
                          (((y + dy) * ImageData.width mask + (x + dx)) * 4))).
  change (for_lt (- Qceiling radius) (Qceiling radius + 1) _ (Some 0))
    with (for_lt (- Qceiling radius) (Qceiling radius + 1)
            (fun dy t => for_lt (- Qceiling radius) (Qceiling radius + 1)
                           (fun dx t => g dx dy t) t) (Some 0)).
  set (I := fun acc : option Z => exists M, acc = Some M /\ 0 <= M <= 255).
  assert (HI : forall dx dy t, I t -> I (g dx dy t)).
  { intros dx dy t (M & -> & HM). unfold g.
    destruct (Qltb _ _); [exists M; auto|].
    destruct (Z.ltb_spec (x + dx) 0); [exists M; auto|].
    destruct (Z.leb_spec (ImageData.width mask) (x + dx)); [exists M; auto|].
    destruct (Z.ltb_spec (y + dy) 0); [exists M; auto|].
    destruct (Z.leb_spec (ImageData.height mask) (y + dy)); [exists M; auto|].
    cbn [orb].
    destruct (wf_strength_range mask (x + dx) (y + dy) Hwf) as (v & Hv & Hr); [lia|lia|].
    unfold strength in Hv. rewrite Hv. exists (Z.max M v). split; [reflexivity|lia]. }
  split.
  - apply (for_lt_inv I); [exists 0; split; [reflexivity|lia]|].
    intros dy t _ Ht. apply (for_lt_inv I); [exact Ht|]. intros dx u _. apply HI.
  - intros dx0 dy0 v (Hdx & Hdy & Hd) Hx Hy Hv.
    apply (nested_visit I (fun acc => exists M, acc = Some M /\ v <= M) g _ _ dx0 dy0);
      try lia.
    + exists 0. split; [reflexivity|lia].
    + intros dx dy t _ _. apply HI.
    + intros t (M & -> & HM). unfold g. rewrite Hd.
      destruct (Z.ltb_spec (x + dx0) 0); [lia|].
      destruct (Z.leb_spec (ImageData.width mask) (x + dx0)); [lia|].
      destruct (Z.ltb_spec (y + dy0) 0); [lia|].
      destruct (Z.leb_spec (ImageData.height mask) (y + dy0)); [lia|].
      cbn [orb]. unfold strength in Hv. rewrite Hv.
      exists (Z.max M v). split; [reflexivity|lia].
    + intros dx dy t _ _ Ht (M & -> & HM).
      destruct (HI dx dy (Some M) Ht) as (M' & HM' & _).
      exists M'. split; [exact HM'|].
      revert HM'. unfold g.
      destruct (Qltb (radius * radius) (inject_Z (dx * dx + dy * dy))); cbv iota;
        [intros [= <-]; lia|].
      destruct (_ || _); cbv iota; [intros [= <-]; lia|].
      destruct (typed_get _ _) as [u|]; cbn; [|discriminate].
      intros [= <-]. lia.
Qed.

(** The value [erode] writes at [(x, y)] is a byte no smaller than a bound
    below every strength within the structuring element. *)
Lemma erode_minVal_lower mask radius x y L :
  L <= 255 ->
  (forall dx dy,
     in_disk radius dx dy ->
     0 <= x + dx < ImageData.width mask -> 0 <= y + dy < ImageData.height mask ->
     exists v, strength mask (x + dx) (y + dy) = Some v /\ L <= v) ->
  exists M, erode_minVal mask radius x y = Some M /\ L <= M <= 255.
Proof.
  intros HL Hnb. unfold erode_minVal, for_le.
  apply (for_lt_inv (fun acc => exists M, acc = Some M /\ L <= M <= 255));
    [exists 255; split; [reflexivity|lia]|].
  intros dy t Hdy Ht.
  apply (for_lt_inv (fun acc => exists M, acc = Some M /\ L <= M <= 255)); [exact Ht|].
  intros dx u Hdx (M & -> & HM).
  destruct (Qltb _ _) eqn:Hd; [exists M; auto|].
  destruct (Z.ltb_spec (x + dx) 0); [exists M; auto|].
  destruct (Z.leb_spec (ImageData.width mask) (x + dx)); [exists M; auto|].
  destruct (Z.ltb_spec (y + dy) 0); [exists M; auto|].
  destruct (Z.leb_spec (ImageData.height mask) (y + dy)); [exists M; auto|].
  cbn [orb].
  destruct (Hnb dx dy) as (v & Hv & Hr); [repeat split; (lia || exact Hd)|lia|lia|].
  unfold strength in Hv. rewrite Hv. exists (Z.min M v). split; [reflexivity|lia].
Qed.



(** ** Loops over the bytes, four at a time *)

Lemma for_step4_pixels (n : Z) (body : Z -> list Z -> list Z)
    (F : Z -> option Z * option Z * option Z * option Z ->
         option Z * option Z * option Z * option Z) (init : list Z) :
  Z.of_nat (length init) = 4 * n ->
  (forall k md, 0 <= k < n -> length md = length init ->
     length (body (4 * k) md) = length init /\
     forall k', pixel_of (body (4 * k) md) k'
                = if decide (k' = k) then F k (pixel_of md k) else pixel_of md k') ->
  let out := for_step4 (Z.of_nat (length init)) body init in
  length out = length init /\
  forall k, 0 <= k < n -> pixel_of out k = F k (pixel_of init k).
Proof.
  intros Hlen Hbody out. subst out. unfold for_step4.
  replace ((Z.of_nat (length init) + 3) / 4) with n
    by (rewrite Hlen; apply Z.div_unique with 3; lia).
  destruct (for_lt_pixels n (fun k => body (4 * k)) F init Hbody) as [Hl Hp].
  split; [exact Hl|]. intros k Hk. rewrite Hp. case_decide; [reflexivity|lia].
Qed.

Lemma pixel_of_write_pixel4 buf k v a k' :
  0 <= k -> 4 * k + 3 < Z.of_nat (length buf) ->
  pixel_of (write_pixel buf (4 * k) v a) k'
  = if decide (k' = k)
    then (Some (clamp8 v), Some (clamp8 v), Some (clamp8 v), Some (clamp8 a))
    else pixel_of buf k'.
Proof. intros. replace (4 * k) with (k * 4) by lia. apply pixel_of_write_pixel; lia. Qed.

Lemma invertSelection_spec this selection :
  0 < SelectionEngine.width this -> 0 < SelectionEngine.height this ->
  Z.of_nat (length (ImageData.data (Selection.mask selection)))
  = 4 * SelectionEngine.width this * SelectionEngine.height this ->
  exists out,
    invertSelection this selection
    = Some (Selection.mk
              (ImageData.mk (SelectionEngine.width this) (SelectionEngine.height this) out)
              (Rect.mk 0 0 (SelectionEngine.width this) (SelectionEngine.height this))
              true) /\
    length out = length (ImageData.data (Selection.mask selection)) /\
    forall k, 0 <= k < SelectionEngine.width this * SelectionEngine.height this ->
      pixel_of out k = invert_pixel (pixel_of (ImageData.data (Selection.mask selection)) k).
Proof.
  intros Hw Hh Hlen. unfold invertSelection, ImageData.of_data.
  destruct (Z.ltb_spec 0 (SelectionEngine.width this)); [|lia].
  destruct (Z.ltb_spec 0 (SelectionEngine.height this)); [|lia].
  rewrite Hlen, Z.eqb_refl. cbn [andb mbind option_bind ImageData.data
    ImageData.width ImageData.height].
  eexists. split; [reflexivity|].
  set (init := ImageData.data (Selection.mask selection)) in *.
  apply (for_step4_pixels (SelectionEngine.width this * SelectionEngine.height this)
           _ (fun _ => invert_pixel) init); [lia|].
  intros k md Hk Hmd.
  split; [rewrite !u8_set_length; exact Hmd|].
  intros k'. unfold pixel_of, channel, invert_pixel. rewrite !Z.add_0_r.
  case_decide as Hk'.
  - subst k'. rewrite !typed_get_u8_set, !u8_set_length.
    repeat first [rewrite decide_True by lia | rewrite decide_False by lia].
    reflexivity.
  - rewrite !typed_get_u8_set_other by lia. reflexivity.
Qed.

Lemma combineSelections_pixel this a b mode k :
  0 < SelectionEngine.width this -> 0 < SelectionEngine.height this ->
  0 <= k < SelectionEngine.width this * SelectionEngine.height this ->
  let aVal := channel (ImageData.data (Selection.mask a)) k 0 in
  let bVal := channel (ImageData.data (Selection.mask b)) k 0 in
  let result :=
    match mode with
    | mode_add => js_min (Some 255) (js_add aVal bVal)
    | mode_subtract => js_max (Some 0) (js_sub aVal bVal)
    | mode_intersect => js_min aVal bVal
    | mode_new => bVal
    end in
  pixel_of (ImageData.data (Selection.mask (combineSelections this a b mode))) k
  = (Some (clamp8 result), Some (clamp8 result), Some (clamp8 result), Some 255).
Proof.
  intros Hw Hh Hk aVal bVal result. unfold combineSelections.
  cbn [Selection.mask ImageData.data].
  set (init := ImageData.data (ImageData.create _ _)).
  assert (Hlen : Z.of_nat (length init)
                 = 4 * (SelectionEngine.width this * SelectionEngine.height this))
    by (subst init; rewrite create_length; nia).
  destruct (for_step4_pixels (SelectionEngine.width this * SelectionEngine.height this)
    (fun i md =>
       write_pixel md i
         match mode with
         | mode_add => js_min (Some 255)
             (js_add (typed_get (ImageData.data (Selection.mask a)) i)
                     (typed_get (ImageData.data (Selection.mask b)) i))
         | mode_subtract => js_max (Some 0)
             (js_sub (typed_get (ImageData.data (Selection.mask a)) i)
                     (typed_get (ImageData.data (Selection.mask b)) i))
         | mode_intersect => js_min (typed_get (ImageData.data (Selection.mask a)) i)
                                    (typed_get (ImageData.data (Selection.mask b)) i)
         | mode_new => typed_get (ImageData.data (Selection.mask b)) i
         end (Some 255))
    (fun k _ =>
       let result :=
         match mode with
         | mode_add => js_min (Some 255)
             (js_add (channel (ImageData.data (Selection.mask a)) k 0)
                     (channel (ImageData.data (Selection.mask b)) k 0))
         | mode_subtract => js_max (Some 0)
             (js_sub (channel (ImageData.data (Selection.mask a)) k 0)
                     (channel (ImageData.data (Selection.mask b)) k 0))
         | mode_intersect => js_min (channel (ImageData.data (Selection.mask a)) k 0)
                                    (channel (ImageData.data (Selection.mask b)) k 0)
         | mode_new => channel (ImageData.data (Selection.mask b)) k 0
         end in
       (Some (clamp8 result), Some (clamp8 result), Some (clamp8 result), Some 255))
    init Hlen) as [_ Hp].
  - intros j md Hj Hmd. split; [rewrite write_pixel_length; exact Hmd|].
    intros k'. rewrite pixel_of_write_pixel4 by lia.
    unfold channel. rewrite !Z.add_0_r. reflexivity.
  - exact (Hp k Hk).
Qed.

Lemma selectionFromAlpha_pixel imageData k :
  0 < ImageData.width imageData -> 0 < ImageData.height imageData ->
  Z.of_nat (length (ImageData.data imageData))
  = 4 * ImageData.width imageData * ImageData.height imageData ->
  0 <= k < ImageData.width imageData * ImageData.height imageData ->
  let alpha := channel (ImageData.data imageData) k 3 in
  pixel_of (ImageData.data (Selection.mask (selectionFromAlpha imageData))) k
  = (Some (clamp8 alpha), Some (clamp8 alpha), Some (clamp8 alpha), Some 255).
Proof.
  intros Hw Hh Hlen Hk alpha. unfold selectionFromAlpha.
  cbn [Selection.mask ImageData.data].
  set (init := ImageData.data (ImageData.create _ _)).
  assert (Hinit : Z.of_nat (length init)
                  = 4 * (ImageData.width imageData * ImageData.height imageData))
    by (subst init; rewrite create_length; nia).
  replace (Z.of_nat (length (ImageData.data imageData))) with (Z.of_nat (length init))
    by lia.
  destruct (for_step4_pixels (ImageData.width imageData * ImageData.height imageData)
    (fun i md => write_pixel md i (typed_get (ImageData.data imageData) (i + 3)) (Some 255))
    (fun k _ =>
       (Some (clamp8 (channel (ImageData.data imageData) k 3)),
        Some (clamp8 (channel (ImageData.data imageData) k 3)),
        Some (clamp8 (channel (ImageData.data imageData) k 3)), Some 255))
    init Hinit) as [_ Hp].
  - intros j md Hj Hmd. split; [rewrite write_pixel_length; exact Hmd|].
    intros k'. rewrite pixel_of_write_pixel4 by lia. reflexivity.
  - exact (Hp k Hk).
Qed.

(** ** The sample inputs are images *)

Lemma mask_2x2_wf : ImageData.wf mask_2x2.
Proof. repeat split; simpl; try lia. repeat constructor; lia. Qed.

Lemma mask_empty_1x1_wf : ImageData.wf mask_empty_1x1.
Proof. repeat split; simpl; try lia. repeat constructor; lia. Qed.

Lemma mask_full_1x1_wf : ImageData.wf mask_full_1x1.
Proof. repeat split; simpl; try lia. repeat constructor; lia. Qed.

(** ** Inverting twice (C5) *)

(** C5, as the code has it: inverting a selection twice restores the R, G
    and B channels of every pixel of a mask of the engine's size, while
    alpha is not restored but left at 255; the bounds are the full
    canvas. *)
Theorem invert_invert_restores_rgb (this : SelectionEngine.t) (selection : Selection.t) :
  ImageData.wf (Selection.mask selection) ->
  ImageData.width (Selection.mask selection) = SelectionEngine.width this ->
  ImageData.height (Selection.mask selection) = SelectionEngine.height this ->
  exists once twice,
    invertSelection this selection = Some once /\
    invertSelection this once = Some twice /\
    Selection.bounds twice
    = Rect.mk 0 0 (SelectionEngine.width this) (SelectionEngine.height this) /\
    forall k, 0 <= k < SelectionEngine.width this * SelectionEngine.height this ->
      let before := ImageData.data (Selection.mask selection) in
      let after := ImageData.data (Selection.mask twice) in
      channel after k 0 = channel before k 0 /\
      channel after k 1 = channel before k 1 /\
      channel after k 2 = channel before k 2 /\
      channel after k 3 = Some 255.
Proof.
  intros Hwf Hw Hh. pose proof Hwf as (Hw0 & Hh0 & Hlen & _).
  rewrite Hw, Hh in *.
  destruct (invertSelection_spec this selection Hw0 Hh0 Hlen) as (out1 & E1 & L1 & P1).
  set (once := Selection.mk _ _ _) in E1.
  destruct (invertSelection_spec this once Hw0 Hh0) as (out2 & E2 & L2 & P2).
  { subst once. cbn. rewrite L1. exact Hlen. }
  exists once. eexists. split; [exact E1|]. split; [exact E2|]. split; [reflexivity|].
  intros k Hk. cbn [Selection.mask ImageData.data].
  pose proof (P2 k Hk) as H2. subst once. cbn [Selection.mask ImageData.data] in H2.
  rewrite (P1 k Hk) in H2.
  assert (Hk' : 0 <= k < ImageData.width (Selection.mask selection)
                          * ImageData.height (Selection.mask selection))
    by (rewrite Hw, Hh; exact Hk).
  destruct (wf_channel_range _ k 0 Hwf Hk' ltac:(lia)) as (r & Hr & Rr).
  destruct (wf_channel_range _ k 1 Hwf Hk' ltac:(lia)) as (g & Hg & Rg).
  destruct (wf_channel_range _ k 2 Hwf Hk' ltac:(lia)) as (b & Hb & Rb).
  unfold pixel_of in H2. rewrite Hr, Hg, Hb in H2. cbn in H2.
  injection H2 as H0 H1 H2 H3. rewrite H0, H1, H2, H3, Hr, Hg, Hb.
  repeat split; f_equal; lia.
Qed.

Lemma invert_invert_restores_rgb_witness :
  exists once twice,
    invertSelection (SelectionEngine.mk 2 2) (selection_of mask_2x2) = Some once /\
    invertSelection (SelectionEngine.mk 2 2) once = Some twice /\
    Selection.bounds twice = Rect.mk 0 0 2 2 /\
    forall k, 0 <= k < 2 * 2 ->
      let before := ImageData.data (Selection.mask (selection_of mask_2x2)) in
      let after := ImageData.data (Selection.mask twice) in
      channel after k 0 = channel before k 0 /\
      channel after k 1 = channel before k 1 /\
      channel after k 2 = channel before k 2 /\
      channel after k 3 = Some 255.
Proof.
  apply (invert_invert_restores_rgb (SelectionEngine.mk 2 2) (selection_of mask_2x2));
    [exact mask_2x2_wf | reflexivity | reflexivity].
Defined.

(** C5 as stated fails: inverting the empty one-pixel selection twice
    leaves alpha at 255 where it was 0. *)
Lemma invert_invert_alpha_counterexample :
  ImageData.data (Selection.mask (selection_of mask_empty_1x1)) = [0; 0; 0; 0] /\
  (once ← invertSelection (SelectionEngine.mk 1 1) (selection_of mask_empty_1x1);
   twice ← invertSelection (SelectionEngine.mk 1 1) once;
   Some (ImageData.data (Selection.mask twice))) = Some [0; 0; 0; 255].
Proof. split; reflexivity. Qed.

(** ** A radius below the documented range *)

Lemma Qltb_false a b : (b <= a)%Q -> Qltb a b = false.
Proof. intros H. unfold Qltb. apply Qle_bool_iff in H. rewrite H. reflexivity. Qed.



Lemma Qltb_square_zero radius : Qltb (radius * radius) (inject_Z (0 * 0 + 0 * 0)) = false.
Proof. apply Qltb_false. change (inject_Z (0 * 0 + 0 * 0)) with 0%Q. nra. Qed.






(** ** Closing (C6) *)

(** C6: the closing [erode (dilate m r) r] of a mask is nowhere below the
    mask, for every radius, also where the structuring element leaves the
    buffer. *)
Theorem closing_extensive (m : ImageData.t) (radius : Q) (x y : Z) :
  ImageData.wf m ->
  0 <= x < ImageData.width m -> 0 <= y < ImageData.height m ->
  exists v v',
    strength m x y = Some v /\
    strength (erode (dilate m radius) radius) x y = Some v' /\
    v <= v'.
Proof.
  intros Hwf Hx Hy. pose proof Hwf as (Hw & Hh & Hlen & _).
  destruct (wf_strength_range m x y Hwf Hx Hy) as (v & Hv & Hr).
  destruct (erode_minVal_lower (dilate m radius) radius x y v) as (M & HM & HvM).
  - lia.
  - intros dx dy Hd Hx' Hy'. cbn [dilate ImageData.width ImageData.height] in Hx', Hy'.
    rewrite dilate_strength by assumption.
    destruct (dilate_maxVal_upper m radius (x + dx) (y + dy) Hwf) as [(M & HM & HMr) Hup].
    destruct (Hup (- dx) (- dy) v) as (M' & HM' & Hle).
    + apply in_disk_opp. exact Hd.
    + lia.
    + lia.
    + replace (x + dx + - dx) with x by lia. replace (y + dy + - dy) with y by lia.
      exact Hv.
    + rewrite HM in HM'. injection HM' as <-. rewrite HM.
      exists M. split; [f_equal; apply clamp8_id; exact HMr|lia].
  - exists v, M. split; [exact Hv|]. split; [|lia].
    rewrite erode_strength by (cbn [dilate ImageData.width ImageData.height]; assumption).
    rewrite HM. f_equal. apply clamp8_id. lia.
Qed.

Lemma closing_extensive_witness :
  exists v v',
    strength mask_2x2 0 1 = Some v /\
    strength (erode (dilate mask_2x2 1) 1) 0 1 = Some v' /\
    v <= v'.
Proof.
  apply (closing_extensive mask_2x2 1 0 1); [exact mask_2x2_wf | simpl; lia | simpl; lia].
Defined.

(** ** Binary64 arithmetic: signs, [NaN] and what does not round to zero *)

Lemma shr_1_m r : 0 <= shr_m r -> shr_m (shr_1 r) = shr_m r / 2.
Proof.
  destruct r as [m rb sb]. cbn [shr_m shr_1]. intros H.
  destruct m as [|[p|p|]|p]; cbn [shr_m]; [reflexivity| | |reflexivity|lia].
  - rewrite Pos2Z.inj_xI. apply (Z.div_unique _ 2 _ 1); lia.
  - rewrite Pos2Z.inj_xO. apply (Z.div_unique _ 2 _ 0); lia.
Qed.

Lemma iter_shr_1_m p : forall r,
  0 <= shr_m r -> shr_m (SpecFloat.iter_pos shr_1 p r) = shr_m r / 2 ^ Zpos p.
Proof.
  assert (Hdiv : forall m k, 0 <= m -> 0 < k -> 0 <= m / k)
    by (intros; apply Z.div_pos; lia).
  induction p as [p IH|p IH|]; intros r Hr; cbn [SpecFloat.iter_pos].
  - assert (H1 : 0 <= shr_m (shr_1 r)) by (rewrite shr_1_m by exact Hr; apply Hdiv; lia).
    assert (Hp : 0 < 2 ^ Zpos p) by (apply Z.pow_pos_nonneg; lia).
    rewrite IH by (rewrite IH by exact H1; apply Hdiv; [exact H1|exact Hp]).
    rewrite IH by exact H1. rewrite shr_1_m by exact Hr.
    rewrite !Z.div_div by lia. f_equal.
    rewrite (Pos2Z.inj_xI p), Z.pow_add_r, Z.pow_mul_r by lia.
    change (2 ^ 2) with 4. rewrite Z.pow_1_r.
    replace (4 ^ Zpos p) with (2 ^ Zpos p * 2 ^ Zpos p); [lia|].
    rewrite <- Z.pow_mul_l. reflexivity.
  - assert (Hp : 0 < 2 ^ Zpos p) by (apply Z.pow_pos_nonneg; lia).
    rewrite IH by (rewrite IH by exact Hr; apply Hdiv; [exact Hr|exact Hp]).
    rewrite IH by exact Hr. rewrite Z.div_div by lia. f_equal.
    rewrite (Pos2Z.inj_xO p), Z.pow_mul_r by lia. change (2 ^ 2) with 4.
    rewrite <- Z.pow_mul_l. reflexivity.
  - rewrite shr_1_m by exact Hr. reflexivity.
Qed.

Lemma shr_record_of_loc_m m l : shr_m (shr_record_of_loc m l) = m.
Proof. destruct l as [|[ | | ]]; reflexivity. Qed.

(** The mantissa [shr_fexp] leaves: the one it is given, shifted. *)
Lemma shr_fexp_m prec emax m e l :
  0 <= m ->
  let n := fexp prec emax (Zdigits2 m + e) - e in
  shr_fexp prec emax m e l
  = (fst (shr_fexp prec emax m e l), if 0 <? n then e + n else e) /\
  shr_m (fst (shr_fexp prec emax m e l)) = (if 0 <? n then m / 2 ^ n else m).
Proof.
  intros Hm n. unfold shr_fexp. fold n. unfold shr.
  destruct n as [|p|p]; cbn [fst Z.ltb Z.compare].
  - rewrite shr_record_of_loc_m. auto.
  - rewrite iter_shr_1_m by (rewrite shr_record_of_loc_m; exact Hm).
    rewrite shr_record_of_loc_m. auto.
  - rewrite shr_record_of_loc_m. auto.
Qed.

Lemma shifted_nonneg m n : 0 <= m -> 0 <= (if 0 <? n then m / 2 ^ n else m).
Proof.
  intros Hm. destruct (Z.ltb_spec 0 n); [|exact Hm].
  apply Z.div_pos; [exact Hm|apply Z.pow_pos_nonneg; lia].
Qed.

Lemma round_nearest_even_ge m l : m <= round_nearest_even m l.
Proof. destruct l as [|[ | | ]]; cbn; try destruct (Z.even m); lia. Qed.

(** Rounding a mantissa that is not negative gives no [NaN], and keeps
    the sign. *)
Lemma binary_round_aux_sign prec emax s m e l :
  0 <= m -> sign_is s (binary_round_aux prec emax s m e l).
Proof.
  intros Hm. unfold binary_round_aux.
  destruct (shr_fexp_m prec emax m e l Hm) as [E1 M1]. cbv zeta in E1, M1.
  rewrite E1.
  set (m1 := round_nearest_even _ _).
  assert (H1 : 0 <= m1).
  { subst m1. etransitivity; [|apply round_nearest_even_ge]. rewrite M1.
    apply shifted_nonneg. exact Hm. }
  destruct (shr_fexp_m prec emax m1 (if 0 <? fexp prec emax (Zdigits2 m + e) - e
                                      then e + (fexp prec emax (Zdigits2 m + e) - e) else e)
              loc_Exact H1) as [E2 M2]. cbv zeta in E2, M2.
  rewrite E2. cbv beta iota.
  set (m2 := shr_m (fst (shr_fexp prec emax m1 _ loc_Exact))) in *.
  assert (H2 : 0 <= m2).
  { rewrite M2. apply shifted_nonneg. exact H1. }
  destruct m2; [reflexivity| |lia]. destruct (_ <=? _); reflexivity.
Qed.

Lemma binary_round_sign prec emax s m e : sign_is s (binary_round prec emax s m e).
Proof.
  unfold binary_round. destruct (shl_align _ _ _) as [mz ez].
  apply binary_round_aux_sign. lia.
Qed.

Lemma binary_normalize_not_nan prec emax m e s : binary_normalize prec emax m e s <> S754_nan.
Proof.
  destruct m as [|p|p]; cbn [binary_normalize]; [discriminate| |].
  - pose proof (binary_round_sign prec emax false p e) as H.
    destruct (binary_round _ _ _ _ _); [discriminate|discriminate|destruct H|discriminate].
  - pose proof (binary_round_sign prec emax true p e) as H.
    destruct (binary_round _ _ _ _ _); [discriminate|discriminate|destruct H|discriminate].
Qed.

(** [x + 1] and [x - 1] are [NaN] for [NaN] only. *)
Lemma add_one_nan x : Prim2SF (x + 1) = S754_nan <-> Prim2SF x = S754_nan.
Proof.
  rewrite add_spec. change (Prim2SF 1) with (S754_finite false 4503599627370496 (-52)).
  destruct (Prim2SF x) as [s|s| |s m e]; try (split; [discriminate|discriminate]);
    [split; reflexivity|].
  unfold SF64add, SFadd. cbv zeta.
  split; [|discriminate]. intros H. exfalso. exact (binary_normalize_not_nan _ _ _ _ _ H).
Qed.

Lemma sub_one_nan x : Prim2SF (x - 1) = S754_nan <-> Prim2SF x = S754_nan.
Proof.
  rewrite sub_spec. change (Prim2SF 1) with (S754_finite false 4503599627370496 (-52)).
  destruct (Prim2SF x) as [s|s| |s m e]; try (split; [discriminate|discriminate]);
    [split; reflexivity|].
  unfold SF64sub, SFsub. cbv zeta.
  split; [|discriminate]. intros H. exfalso. exact (binary_normalize_not_nan _ _ _ _ _ H).
Qed.

(** [x - x] is [+0] for every finite [x]. *)
Lemma sub_diag_finite x :
  match Prim2SF x with S754_zero _ | S754_finite _ _ _ => True | _ => False end ->
  (x - x)%float = 0%float.
Proof.
  intros H. apply Prim2SF_inj. rewrite sub_spec.
  destruct (Prim2SF x) as [s|s| |s m e]; try destruct H.
  - destruct s; reflexivity.
  - unfold SF64sub, SFsub. cbv zeta. rewrite Z.sub_diag. reflexivity.
Qed.

(** *** What does not round to zero *)

Lemma digits2_pos_bound p : 2 ^ (Zpos (digits2_pos p) - 1) <= Zpos p.
Proof.
  induction p as [p IH|p IH|]; cbn [digits2_pos]; [| |cbn; lia];
    rewrite Pos2Z.inj_succ;
    replace (Z.succ (Zpos (digits2_pos p)) - 1) with (Z.succ (Zpos (digits2_pos p) - 1)) by lia;
    rewrite Z.pow_succ_r by lia; lia.
Qed.

Lemma div_pow_pos m n : 0 <= n -> 2 ^ n <= m -> 0 < m / 2 ^ n.
Proof.
  intros Hn H. assert (Hp : 0 < 2 ^ n) by (apply Z.pow_pos_nonneg; lia).
  apply Z.div_str_pos. lia.
Qed.

(** A mantissa that stands, with its exponent, for [2 ^ emin] or more
    does not round to zero. *)
Lemma binary_round_aux_not_zero prec emax s m e l :
  0 < prec ->
  2 ^ (SpecFloat.emin prec emax - e) <= Zpos m ->
  match binary_round_aux prec emax s (Zpos m) e l with
  | S754_finite s' _ _ | S754_infinity s' => s' = s
  | _ => False
  end.
Proof.
  intros Hprec Hm. unfold binary_round_aux.
  destruct (shr_fexp_m prec emax (Zpos m) e l ltac:(lia)) as [E1 M1]. cbv zeta in E1, M1.
  rewrite E1. cbn [Zdigits2] in *.
  set (n := fexp prec emax (Zpos (digits2_pos m) + e) - e) in *.
  set (e1 := if 0 <? n then e + n else e) in *.
  set (m1 := round_nearest_even _ _).
  pose proof (digits2_pos_bound m) as Hd.
  assert (He1 : SpecFloat.emin prec emax <= e1).
  { subst e1 n. unfold fexp. destruct (Z.ltb_spec 0 (Z.max (Zpos (digits2_pos m) + e - prec)
                                                      (SpecFloat.emin prec emax) - e)); [lia|].
    destruct (Z_lt_le_dec e (SpecFloat.emin prec emax)) as [Hlt|]; [|lia]. exfalso.
    assert (Hpow : 2 ^ 1 <= 2 ^ (SpecFloat.emin prec emax - e)) by (apply Z.pow_le_mono_r; lia).
    lia. }
  assert (H1 : 0 < m1).
  { subst m1. eapply Z.lt_le_trans; [|apply round_nearest_even_ge]. rewrite M1.
    destruct (Z.ltb_spec 0 n) as [Hn|Hn]; [|lia].
    apply div_pow_pos; [lia|].
    subst n. unfold fexp in *.
    destruct (Z.max_spec (Zpos (digits2_pos m) + e - prec) (SpecFloat.emin prec emax)) as [[_ ->]|[_ ->]].
    - exact Hm.
    - etransitivity; [|exact Hd]. apply Z.pow_le_mono_r; lia. }
  destruct (shr_fexp_m prec emax m1 e1 loc_Exact ltac:(lia)) as [E2 M2]. cbv zeta in E2, M2.
  rewrite E2. cbv beta iota.
  set (m2 := shr_m (fst (shr_fexp prec emax m1 _ loc_Exact))) in *.
  assert (H2 : 0 < m2).
  { rewrite M2. destruct (Z.ltb_spec 0 (fexp prec emax (Zdigits2 m1 + e1) - e1)) as [Hn|Hn];
      [|exact H1].
    apply div_pow_pos; [lia|].
    destruct m1 as [|p1|p1]; try lia. cbn [Zdigits2] in *.
    pose proof (digits2_pos_bound p1) as Hd1. unfold fexp in *.
    destruct (Z.max_spec (Zpos (digits2_pos p1) + e1 - prec) (SpecFloat.emin prec emax)) as [[_ E]|[_ E]];
      rewrite E in Hn |- *; [lia|].
    etransitivity; [|exact Hd1]. apply Z.pow_le_mono_r; lia. }
  destruct m2; [lia| |lia]. destruct (_ <=? _); reflexivity.
Qed.

(** The exponent of a finite binary64 number is [-1074] or more. *)
Lemma finite_exponent x s m e : Prim2SF x = S754_finite s m e -> -1074 <= e.
Proof.
  intros E. pose proof (Prim2SF_valid x) as V. rewrite E in V.
  unfold valid_binary, bounded, canonical_mantissa in V.
  apply andb_prop in V as [V _]. apply Z.eqb_eq in V. unfold fexp in V.
  change (SpecFloat.emin FloatOps.prec FloatOps.emax) with (-1074) in V. lia.
Qed.

(** The triple of a negative number is negative, and the triple of one
    that is not negative is not. *)
Lemma triple_negative r : PrimFloat.ltb r 0 = true -> PrimFloat.ltb (r * 3) 0 = true.
Proof.
  rewrite !ltb_spec, mul_spec.
  change (Prim2SF 3) with (S754_finite false 6755399441055744 (-51)).
  change (Prim2SF 0) with (S754_zero false).
  destruct (Prim2SF r) as [s|s| |s m e] eqn:E; try discriminate.
  - destruct s; [reflexivity|discriminate].
  - destruct s; [intros _|discriminate].
    pose proof (finite_exponent r _ _ _ E) as He.
    unfold SF64mul, SFmul. cbn [xorb].
    pose proof (binary_round_aux_not_zero FloatOps.prec FloatOps.emax true
                  (m * 6755399441055744) (e + -51) loc_Exact ltac:(reflexivity)) as H.
    destruct (binary_round_aux _ _ _ _ _ _) as [s'|s'| |s' m' e'].
    + exfalso. apply H.
      change (SpecFloat.emin FloatOps.prec FloatOps.emax) with (-1074).
      etransitivity; [apply (Z.pow_le_mono_r 2 _ 52); lia|]. rewrite Pos2Z.inj_mul.
      change (2 ^ 52) with (1 * 4503599627370496). nia.
    + rewrite H; [reflexivity|].
      change (SpecFloat.emin FloatOps.prec FloatOps.emax) with (-1074).
      etransitivity; [apply (Z.pow_le_mono_r 2 _ 52); lia|]. rewrite Pos2Z.inj_mul.
      change (2 ^ 52) with (1 * 4503599627370496). nia.
    + exfalso. apply H.
      change (SpecFloat.emin FloatOps.prec FloatOps.emax) with (-1074).
      etransitivity; [apply (Z.pow_le_mono_r 2 _ 52); lia|]. rewrite Pos2Z.inj_mul.
      change (2 ^ 52) with (1 * 4503599627370496). nia.
    + rewrite H; [reflexivity|].
      change (SpecFloat.emin FloatOps.prec FloatOps.emax) with (-1074).
      etransitivity; [apply (Z.pow_le_mono_r 2 _ 52); lia|]. rewrite Pos2Z.inj_mul.
      change (2 ^ 52) with (1 * 4503599627370496). nia.
Qed.

Lemma triple_not_negative r : PrimFloat.ltb r 0 = false -> PrimFloat.ltb (r * 3) 0 = false.
Proof.
  rewrite !ltb_spec, mul_spec.
  change (Prim2SF 3) with (S754_finite false 6755399441055744 (-51)).
  change (Prim2SF 0) with (S754_zero false).
  destruct (Prim2SF r) as [s|s| |s m e] eqn:E; try reflexivity.
  - destruct s; [discriminate|reflexivity].
  - destruct s; [discriminate|intros _].
    unfold SF64mul, SFmul. cbn [xorb].
    pose proof (binary_round_aux_sign FloatOps.prec FloatOps.emax false
                  (Zpos (m * 6755399441055744)) (e + -51) loc_Exact ltac:(lia)) as H.
    destruct (binary_round_aux _ _ _ _ _ _) as [s'|s'| |s' m' e']; cbn in H;
      try subst s'; try reflexivity.
Qed.


(** ** Quick selection *)

Lemma Math_floor_nan x : Math_floor x = fl_nan <-> Prim2SF x = S754_nan.
Proof.
  unfold Math_floor. destruct (Prim2SF x); split; intros H; try discriminate; reflexivity.
Qed.

Lemma Math_floor_finite x z :
  Math_floor x = fl_int z ->
  match Prim2SF x with S754_zero _ | S754_finite _ _ _ => True | _ => False end.
Proof. unfold Math_floor. destruct (Prim2SF x); intros H; try discriminate; exact I. Qed.

Lemma out_of_range_int z n : out_of_range (fl_int z) n = false <-> 0 <= z < n.
Proof.
  cbn. destruct (Z.ltb_spec z 0), (Z.leb_spec n z); cbn; split; intros G;
    try discriminate; try reflexivity; lia.
Qed.

(** The cell of an entry that the loop does not drop at once is a cell of
    the image, or its position is [NaN]. *)
Lemma cell_cases ix iy width height :
  out_of_range ix width || out_of_range iy height = false ->
  (exists a b, ix = fl_int a /\ iy = fl_int b /\ 0 <= a < width /\ 0 <= b < height) \/
  ((ix = fl_nan \/ iy = fl_nan) /\
   js_add (js_mul (int_of iy) (Some width)) (int_of ix) = None).
Proof.
  intros H. apply orb_false_elim in H as [Hx Hy].
  destruct ix as [a|s|]; [|discriminate|].
  - destruct iy as [b|s|]; [|discriminate|].
    + left. exists a, b. apply out_of_range_int in Hx, Hy. auto.
    + right. auto.
  - right. split; [auto|]. destruct iy; reflexivity.
Qed.

Lemma cell_position ix iy width height :
  out_of_range ix width || out_of_range iy height = false ->
  match js_add (js_mul (int_of iy) (Some width)) (int_of ix) with
  | Some p => 0 <= p < width * height
  | None => True
  end.
Proof.
  intros H. destruct (cell_cases _ _ _ _ H) as [(a & b & -> & -> & Ha & Hb)|[_ ->]];
    [|exact I].
  cbn. nia.
Qed.

(** The neighbors of an entry have a [NaN] if and only if the entry has. *)
Lemma qs_neighbors_nan x y depth :
  Forall (fun e => nan_entry e <-> nan_entry (x, y, depth)) (qs_neighbors x y depth).
Proof.
  unfold qs_neighbors, nan_entry. cbn [fst snd].
  assert (Hs : forall v, Math_floor (v - 1) = fl_nan <-> Math_floor v = fl_nan)
    by (intros v; rewrite !Math_floor_nan; apply sub_one_nan).
  assert (Ha : forall v, Math_floor (v + 1) = fl_nan <-> Math_floor v = fl_nan)
    by (intros v; rewrite !Math_floor_nan; apply add_one_nan).
  repeat (apply Forall_cons_2; [cbn [fst snd]; rewrite ?Hs, ?Ha; tauto|]).
  apply Forall_nil_2.
Qed.

Section QuickSelectProperties.
Variables (width height : Z) (data : list Z) (edges : list float).
Variables (startX startY maxRadius : float).
Variables (targetR targetG targetB : option Z).
Variable mode : SelectionMode.

#[local] Abbreviation step := (qs_step width height data edges startX startY maxRadius
                    targetR targetG targetB mode).
#[local] Abbreviation loop := (qs_loop width height data edges startX startY maxRadius
                    targetR targetG targetB mode).
#[local] Abbreviation measure := (qs_measure width height).
#[local] Abbreviation bounded := (qs_bounded width height).
#[local] Abbreviation position x y :=
  (js_add (js_mul (int_of (Math_floor y)) (Some width)) (int_of (Math_floor x))).

(** What one turn does, case by case: it drops the head of the queue and
    either leaves the rest as it is, or marks the position only, or marks
    it, writes its pixel, if the position is one, and possibly adds the
    four neighbors. *)
Lemma qs_step_cases st x y depth queue :
  QS.queue st = (x, y, depth) :: queue ->
  let pos := position x y in
  step st = QS.mk queue (QS.visited st) (QS.mask st) \/
  (out_of_range (Math_floor x) width || out_of_range (Math_floor y) height = false /\
   (pos ∉ QS.visited st) /\
   (step st = QS.mk queue ({[pos]} ∪ QS.visited st) (QS.mask st) \/
    exists more,
      step st = QS.mk (queue ++ more) ({[pos]} ∪ QS.visited st)
                  (match pos with
                   | Some p => qs_written mode (QS.mask st) p
                   | None => QS.mask st
                   end) /\
      (more = [] \/ more = qs_neighbors x y depth))).
Proof.
  intros Hq pos. unfold qs_step. rewrite Hq.
  destruct (out_of_range (Math_floor x) width || out_of_range (Math_floor y) height) eqn:Hout;
    [left; reflexivity|].
  fold pos.
  destruct (decide (pos ∈ QS.visited st)) as [Hin|Hin]; [left; reflexivity|].
  right. split; [reflexivity|]. split; [exact Hin|].
  destruct (PrimFloat.ltb maxRadius _); [left; reflexivity|].
  destruct (_ && _); [left; reflexivity|].
  destruct (_ && _); [left; reflexivity|].
  right.
  assert (Hmask : (match mode with
                   | mode_new | mode_add =>
                       u8_set_at (u8_set_at (u8_set_at (u8_set_at (QS.mask st)
                         (js_mul pos (Some 4)) (Some 255))
                         (js_add (js_mul pos (Some 4)) (Some 1)) (Some 255))
                         (js_add (js_mul pos (Some 4)) (Some 2)) (Some 255))
                         (js_add (js_mul pos (Some 4)) (Some 3)) (Some 255)
                   | mode_subtract =>
                       u8_set_at (u8_set_at (u8_set_at (u8_set_at (QS.mask st)
                         (js_mul pos (Some 4)) (Some 0))
                         (js_add (js_mul pos (Some 4)) (Some 1)) (Some 0))
                         (js_add (js_mul pos (Some 4)) (Some 2)) (Some 0))
                         (js_add (js_mul pos (Some 4)) (Some 3)) (Some 0)
                   | mode_intersect => QS.mask st
                   end)
                  = match pos with
                    | Some p => qs_written mode (QS.mask st) p
                    | None => QS.mask st
                    end)
    by (destruct pos, mode; reflexivity).
  rewrite Hmask.
  destruct (PrimFloat.ltb (float_of_Z depth) maxRadius).
  - exists (qs_neighbors x y depth). split; [reflexivity|]. right. reflexivity.
  - exists []. rewrite app_nil_r. split; [reflexivity|]. left. reflexivity.
Qed.

Lemma qs_step_nil st : QS.queue st = [] -> step st = st.
Proof. intros H. unfold qs_step. rewrite H. reflexivity. Qed.

(** An invariant of the turns holds of the last state. *)
Lemma qs_loop_inv (P : QS.state -> Prop) fuel st st' :
  (forall s, QS.queue s <> [] -> P s -> P (step s)) ->
  P st -> loop fuel st = Some st' -> P st' /\ QS.queue st' = [].
Proof.
  intros Hstep. revert st. induction fuel as [|fuel IH]; intros st HP; simpl.
  - destruct (QS.queue st) eqn:Hq; [|discriminate]. intros [= <-]. auto.
  - destruct (QS.queue st) eqn:Hq; [intros [= <-]; auto|].
    apply IH. apply Hstep; [rewrite Hq; discriminate|exact HP].
Qed.

(** *** Termination *)

Lemma qs_cells_size : 0 <= width * height ->
  Z.of_nat (size (qs_cells width height)) = width * height.
Proof.
  intros H. unfold qs_cells.
  rewrite size_list_to_set
    by (apply NoDup_fmap_2; [intros ? ? [= ?]; assumption|apply NoDup_seqZ]).
  rewrite length_fmap, length_seqZ. lia.
Qed.

Lemma qs_cells_elem a b :
  0 <= a < width -> 0 <= b < height -> Some (b * width + a) ∈ qs_cells width height.
Proof.
  intros Ha Hb. unfold qs_cells. rewrite elem_of_list_to_set, list_elem_of_fmap.
  exists (b * width + a). split; [reflexivity|]. rewrite elem_of_seqZ. nia.
Qed.

Lemma qs_bounded_size st :
  0 < width * height -> bounded st -> Z.of_nat (size (QS.visited st)) <= width * height.
Proof.
  intros H [[_ Hsub]|[_ Hsub]]; apply subseteq_size in Hsub.
  - rewrite <- qs_cells_size by lia. lia.
  - rewrite size_singleton in Hsub. lia.
Qed.

(** Every turn lowers the measure. *)
Lemma qs_step_measure st : QS.queue st <> [] -> measure (step st) < measure st.
Proof.
  intros Hq. destruct (QS.queue st) as [|[[x y] depth] queue] eqn:E; [done|].
  assert (Hsize : forall pos, pos ∉ QS.visited st ->
                    size ({[pos]} ∪ QS.visited st) = Datatypes.S (size (QS.visited st))).
  { intros pos Hin. rewrite size_union by set_solver. rewrite size_singleton. reflexivity. }
  destruct (qs_step_cases st x y depth queue E)
    as [-> | (_ & Hin & [-> | (more & -> & Hmore)])];
    unfold qs_measure; cbn [QS.queue QS.visited]; rewrite E.
  - simpl length. lia.
  - rewrite Hsize by exact Hin. simpl length. lia.
  - rewrite Hsize by exact Hin. rewrite length_app.
    destruct Hmore as [-> | ->]; simpl length; lia.
Qed.

(** Every turn keeps the entries and the visited positions as they are:
    all numbers within the image, or all [NaN]. *)
Lemma qs_step_bounded st : bounded st -> bounded (step st).
Proof.
  intros Hb. destruct (QS.queue st) as [|[[x y] depth] queue] eqn:E;
    [rewrite qs_step_nil by exact E; exact Hb|].
  unfold qs_bounded in Hb. rewrite E in Hb.
  pose proof (qs_neighbors_nan x y depth) as Hnb.
  assert (Hmore : forall more, more = [] \/ more = qs_neighbors x y depth ->
            Forall (fun e => nan_entry e <-> nan_entry (x, y, depth)) more).
  { intros more [-> | ->]; [constructor|exact Hnb]. }
  destruct (qs_step_cases st x y depth queue E)
    as [-> | (Hout & Hin & Hstep)]; unfold qs_bounded; cbn [QS.queue QS.visited].
  - destruct Hb as [[Hq Hv]|[Hq Hv]]; [left|right]; (split; [|exact Hv]);
      inversion Hq; assumption.
  - assert (Hgoal : forall more, more = [] \/ more = qs_neighbors x y depth ->
        (Forall (fun e => ~ nan_entry e) (queue ++ more) /\
         {[position x y]} ∪ QS.visited st ⊆ qs_cells width height) \/
        (Forall nan_entry (queue ++ more) /\ {[position x y]} ∪ QS.visited st ⊆ {[None]})).
    { intros more Hm. specialize (Hmore more Hm).
      destruct (cell_cases _ _ _ _ Hout) as [(a & b & Ea & Eb & Ha & Hb')|[Hnan Epos]].
      - destruct Hb as [[Hq Hv]|[Hq Hv]].
        + left. inversion Hq as [|? ? Hhead Htail]; subst. split.
          * apply Forall_app. split; [exact Htail|].
            eapply Forall_impl; [exact Hmore|]. cbv beta. intros e He. tauto.
          * rewrite Ea, Eb. cbn [int_of js_mul js_add js_lift2].
            pose proof (qs_cells_elem a b Ha Hb'). set_solver.
        + exfalso. inversion Hq as [|? ? Hhead Htail]; subst.
          unfold nan_entry in Hhead. cbn [fst snd] in Hhead.
          rewrite Ea, Eb in Hhead. destruct Hhead; discriminate.
      - destruct Hb as [[Hq Hv]|[Hq Hv]].
        + exfalso. inversion Hq as [|? ? Hhead Htail]; subst. apply Hhead.
          unfold nan_entry. cbn [fst snd]. tauto.
        + right. inversion Hq as [|? ? Hhead Htail]; subst. split.
          * apply Forall_app. split; [exact Htail|].
            eapply Forall_impl; [exact Hmore|]. cbv beta. intros e He. tauto.
          * rewrite Epos. set_solver. }
    destruct Hstep as [-> | (more & -> & Hm)]; cbn [QS.queue QS.visited].
    + specialize (Hgoal [] (or_introl eq_refl)). rewrite app_nil_r in Hgoal. exact Hgoal.
    + exact (Hgoal more Hm).
Qed.

(** Fuel above the measure of a state empties its queue. *)
Lemma qs_loop_terminates fuel st :
  0 < width -> 0 < height -> bounded st ->
  measure st <= Z.of_nat fuel ->
  is_Some (loop fuel st).
Proof.
  intros Hw Hh. revert st. induction fuel as [|fuel IH]; intros st Hb Hm; simpl.
  - destruct (QS.queue st) eqn:Hq; [eauto|].
    pose proof (qs_bounded_size st ltac:(nia) Hb). unfold qs_measure in Hm.
    rewrite Hq in Hm. simpl length in Hm. lia.
  - destruct (QS.queue st) eqn:Hq; [eauto|].
    pose proof (qs_step_measure st ltac:(rewrite Hq; discriminate)) as Hlt.
    apply IH; [apply qs_step_bounded; exact Hb|lia].
Qed.

(** *** The mask only gains pixels in the modes [new] and [add] *)

Lemma qs_step_mask_grows st i :
  mode = mode_new \/ mode = mode_add ->
  length (QS.mask (step st)) = length (QS.mask st) /\
  (typed_get (QS.mask (step st)) i = typed_get (QS.mask st) i \/
   typed_get (QS.mask (step st)) i = Some 255).
Proof.
  intros Hmode. destruct (QS.queue st) as [|[[x y] depth] queue] eqn:E.
  - rewrite qs_step_nil by exact E. auto.
  - destruct (qs_step_cases st x y depth queue E)
      as [-> | (_ & Hin & [-> | (more & -> & _)])];
      cbn [QS.mask]; auto.
    destruct (position x y) as [p|]; [|auto].
    unfold qs_written.
    destruct Hmode as [-> | ->]; rewrite !u8_set_length; (split; [reflexivity|]);
      rewrite !typed_get_u8_set; repeat case_decide; auto.
Qed.

Lemma selected_step st pos :
  mode = mode_new \/ mode = mode_add ->
  selected (QS.mask st) pos -> selected (QS.mask (step st)) pos.
Proof.
  intros Hmode. unfold selected, pixel_of, channel. intros [= H0 H1 H2 H3].
  destruct (qs_step_mask_grows st (4 * pos + 0) Hmode) as [_ [-> | ->]];
  destruct (qs_step_mask_grows st (4 * pos + 1) Hmode) as [_ [-> | ->]];
  destruct (qs_step_mask_grows st (4 * pos + 2) Hmode) as [_ [-> | ->]];
  destruct (qs_step_mask_grows st (4 * pos + 3) Hmode) as [_ [-> | ->]];
  rewrite ?H0, ?H1, ?H2, ?H3; reflexivity.
Qed.

(** *** The three tests of a turn *)

(** The pixel a turn writes. *)
Lemma qs_written_pixel mask pos :
  0 <= pos -> 4 * pos + 3 < Z.of_nat (length mask) ->
  pixel_of (qs_written mode mask pos) pos
  = match mode with
    | mode_new | mode_add => (Some 255, Some 255, Some 255, Some 255)
    | mode_subtract => (Some 0, Some 0, Some 0, Some 0)
    | mode_intersect => pixel_of mask pos
    end.
Proof.
  intros Hpos Hlen. unfold qs_written.
  destruct mode; unfold pixel_of, channel; try reflexivity;
    rewrite !typed_get_u8_set, !u8_set_length;
    repeat first [rewrite decide_True by lia | rewrite decide_False by lia];
    reflexivity.
Qed.

(** A turn on an entry whose cell is in the image and not yet visited:
    the cell is rejected if it is beyond the cap, or if its depth is above
    1 and the edge test or the color test fails; it is accepted
    otherwise. *)
Lemma qs_step_tests st x y depth queue ix iy :
  QS.queue st = (x, y, depth) :: queue ->
  Math_floor x = fl_int ix -> Math_floor y = fl_int iy ->
  0 <= ix < width -> 0 <= iy < height ->
  let pos := iy * width + ix in
  Some pos ∉ QS.visited st ->
  let dist :=
    PrimFloat.sqrt ((x - startX) * (x - startX) + (y - startY) * (y - startY)) in
  let dr := js_abs (js_sub (typed_get data (pos * 4)) targetR) in
  let dg := js_abs (js_sub (typed_get data (pos * 4 + 1)) targetG) in
  let db := js_abs (js_sub (typed_get data (pos * 4 + 2)) targetB) in
  step st
  = if PrimFloat.ltb maxRadius dist
       || (1 <? depth) && (PrimFloat.ltb 0.3 (f32_get edges pos)
                           || js_gt (js_add (js_add dr dg) db) (Some 150))
    then QS.mk queue ({[Some pos]} ∪ QS.visited st) (QS.mask st)
    else QS.mk (if PrimFloat.ltb (float_of_Z depth) maxRadius
                then queue ++ qs_neighbors x y depth else queue)
           ({[Some pos]} ∪ QS.visited st) (qs_written mode (QS.mask st) pos).
Proof.
  intros Hq Ex Ey Hx Hy pos Hin dist dr dg db. unfold qs_step. rewrite Hq, Ex, Ey.
  rewrite (proj2 (out_of_range_int ix width) Hx), (proj2 (out_of_range_int iy height) Hy).
  cbn [orb int_of js_mul js_add js_lift2]. fold pos.
  destruct (decide (Some pos ∈ QS.visited st)) as [Hin'|_]; [contradiction|].
  fold dist.
  destruct (PrimFloat.ltb maxRadius dist); [reflexivity|]. cbn [orb].
  unfold f32_get_at, typed_get_at. cbn [mbind option_bind]. fold (f32_get edges pos).
  fold dr dg db. change (50 * 3) with 150.
  destruct (1 <? depth); [|rewrite !andb_false_r; cbn [andb]].
  - rewrite !andb_true_r. cbn [andb].
    destruct (PrimFloat.ltb 0.3 (f32_get edges pos)); [reflexivity|]. cbn [orb].
    destruct (js_gt _ _); [reflexivity|].
    destruct mode; reflexivity.
  - destruct mode; reflexivity.
Qed.
End QuickSelectProperties.

(** [quickSelect] returns as soon as the [ImageData] constructor accepts
    the mask it starts from: the fuel suffices. *)
Lemma qs_run_terminates imageData startX startY radius mode mask0 :
  0 < ImageData.width imageData -> 0 < ImageData.height imageData ->
  is_Some (qs_run imageData startX startY radius mode mask0).
Proof.
  intros Hw Hh. unfold qs_run. apply qs_loop_terminates; try assumption.
  - unfold qs_bounded, nan_entry. cbn [QS.queue QS.visited].
    destruct (Math_floor startX) eqn:Ex, (Math_floor startY) eqn:Ey;
      first [ left; split; [|set_solver]; constructor; [|constructor]; cbn [fst snd];
              rewrite Ex, Ey; intros [?|?]; discriminate
            | right; split; [|set_solver]; constructor; [|constructor]; cbn [fst snd];
              rewrite Ex, Ey; auto ].
  - unfold qs_measure, qs_fuel. cbn [QS.queue QS.visited].
    rewrite size_empty. simpl length. nia.
Qed.

(** *** The seed *)

(** The distance of the start point from itself is 0. *)
Lemma seed_distance startX startY sx sy :
  Math_floor startX = fl_int sx -> Math_floor startY = fl_int sy ->
  PrimFloat.sqrt ((startX - startX) * (startX - startX)
                  + (startY - startY) * (startY - startY)) = 0%float.
Proof.
  intros Ex Ey.
  rewrite (sub_diag_finite startX) by exact (Math_floor_finite _ _ Ex).
  rewrite (sub_diag_finite startY) by exact (Math_floor_finite _ _ Ey).
  reflexivity.
Qed.

(** The first turn takes the start point up, when it is in the image. *)
Lemma qs_run_first_turn imageData startX startY radius mode mask0 sx sy st :
  Math_floor startX = fl_int sx -> Math_floor startY = fl_int sy ->
  0 <= sx < ImageData.width imageData -> 0 <= sy < ImageData.height imageData ->
  qs_run imageData startX startY radius mode mask0 = Some st ->
  let width := ImageData.width imageData in
  let pos := sy * width + sx in
  exists fuel targetR targetG targetB,
    qs_loop width (ImageData.height imageData) (ImageData.data imageData)
      (computeEdgeMap imageData) startX startY (radius * 3) targetR targetG targetB mode fuel
      (if PrimFloat.ltb (radius * 3) 0
       then QS.mk [] {[Some pos]} mask0
       else QS.mk (if PrimFloat.ltb 0 (radius * 3) then qs_neighbors startX startY 0 else [])
              {[Some pos]} (qs_written mode mask0 pos))
    = Some st.
Proof.
  intros Ex Ey Hx Hy Hst width pos. unfold qs_run in Hst.
  destruct (qs_fuel _ _) as [|fuel]; [discriminate Hst|].
  cbn [qs_loop QS.queue] in Hst.
  match type of Hst with
  | qs_loop _ _ _ _ _ _ _ ?r ?g ?b _ _ _ = _ => exists fuel, r, g, b
  end.
  rewrite (qs_step_tests _ _ _ _ _ _ _ _ _ _ _ _ startX startY 0 [] sx sy) in Hst;
    [|reflexivity|exact Ex|exact Ey|exact Hx|exact Hy|cbn [QS.visited]; set_solver].
  rewrite (seed_distance _ _ _ _ Ex Ey) in Hst.
  cbn [Z.ltb Z.compare andb orb QS.visited QS.mask app] in Hst.
  rewrite orb_false_r in Hst. fold width in Hst. fold pos in Hst.
  rewrite !union_empty_r_L in Hst. exact Hst.
Qed.

(** The seed ends up selected, whatever the image shows, as soon as the
    radius is not negative. *)
Lemma qs_run_selects_seed imageData startX startY radius mode mask0 sx sy :
  mode = mode_new \/ mode = mode_add ->
  0 < ImageData.width imageData -> 0 < ImageData.height imageData ->
  Z.of_nat (length mask0) = 4 * ImageData.width imageData * ImageData.height imageData ->
  Math_floor startX = fl_int sx -> Math_floor startY = fl_int sy ->
  0 <= sx < ImageData.width imageData -> 0 <= sy < ImageData.height imageData ->
  PrimFloat.ltb radius 0 = false ->
  exists st,
    qs_run imageData startX startY radius mode mask0 = Some st /\
    selected (QS.mask st) (sy * ImageData.width imageData + sx).
Proof.
  intros Hmode Hw Hh Hlen Ex Ey Hx Hy Hr.
  destruct (qs_run_terminates imageData startX startY radius mode mask0 Hw Hh) as [st Hst].
  exists st. split; [exact Hst|].
  destruct (qs_run_first_turn _ _ _ _ _ _ _ _ _ Ex Ey Hx Hy Hst)
    as (fuel & r & g & b & Hloop).
  rewrite (triple_not_negative radius Hr) in Hloop.
  apply (qs_loop_inv _ _ _ _ _ _ _ _ _ _ _
           (fun s => selected (QS.mask s) (sy * ImageData.width imageData + sx)))
    in Hloop; [apply Hloop| |].
  - intros s _. apply selected_step. exact Hmode.
  - cbn [QS.mask]. unfold selected.
    rewrite qs_written_pixel by nia. destruct Hmode as [-> | ->]; reflexivity.
Qed.

(** X10: started in the image on a fresh mask, in the modes [new] and
    [add] and with a radius that is not negative, [quickSelect] returns a
    mask in which the pixel of the start point has strength 255, whatever
    the colors and the edges of the image. *)
Theorem quickSelect_selects_seed (imageData : ImageData.t) (startX startY radius : float)
    (mode : SelectionMode) (sx sy : Z) :
  mode = mode_new \/ mode = mode_add ->
  0 < ImageData.width imageData -> 0 < ImageData.height imageData ->
  Math_floor startX = fl_int sx -> Math_floor startY = fl_int sy ->
  0 <= sx < ImageData.width imageData -> 0 <= sy < ImageData.height imageData ->
  PrimFloat.ltb radius 0 = false ->
  exists result,
    quickSelect imageData startX startY radius mode None = Some result /\
    strength (Selection.mask result) sx sy = Some 255.
Proof.
  intros Hmode Hw Hh Ex Ey Hx Hy Hr.
  destruct (qs_run_selects_seed imageData startX startY radius mode
              (ImageData.data (ImageData.create (ImageData.width imageData)
                                 (ImageData.height imageData))) sx sy
              Hmode Hw Hh ltac:(rewrite create_length; nia) Ex Ey Hx Hy Hr)
    as (st & Hst & Hsel).
  unfold quickSelect. cbn [mbind option_bind]. rewrite Hst. cbn [mbind option_bind].
  eexists. split; [reflexivity|]. rewrite strength_channel.
  cbn [Selection.mask ImageData.data ImageData.width ImageData.create].
  unfold selected, pixel_of in Hsel. injection Hsel as H0 _ _ _. exact H0.
Qed.

Lemma quickSelect_selects_seed_witness :
  exists result,
    quickSelect (uniform 2 2 [9; 9; 9; 255]) 1.5 0.5 0 mode_new None = Some result /\
    strength (Selection.mask result) 1 0 = Some 255.
Proof.
  apply (quickSelect_selects_seed (uniform 2 2 [9; 9; 9; 255]) 1.5 0.5 0 mode_new 1 0);
    [left; reflexivity | simpl; lia | simpl; lia | reflexivity | reflexivity
    | simpl; lia | simpl; lia | reflexivity].
Defined.

(** C10: in the modes [new] and [add], [quickSelect] on an existing
    selection returns a mask whose strength at every pixel is the existing
    one or 255, hence never less. *)
Theorem quickSelect_never_deselects (imageData : ImageData.t) (startX startY radius : float)
    (mode : SelectionMode) (existing : Selection.t) (x y : Z) :
  mode = mode_new \/ mode = mode_add ->
  ImageData.wf (Selection.mask existing) ->
  ImageData.width (Selection.mask existing) = ImageData.width imageData ->
  ImageData.height (Selection.mask existing) = ImageData.height imageData ->
  0 <= x < ImageData.width imageData -> 0 <= y < ImageData.height imageData ->
  exists result v v',
    quickSelect imageData startX startY radius mode (Some existing) = Some result /\
    strength (Selection.mask existing) x y = Some v /\
    strength (Selection.mask result) x y = Some v' /\
    v <= v' /\ (v' = v \/ v' = 255).
Proof.
  intros Hmode Hwf Hw Hh Hx Hy. pose proof Hwf as (Hw0 & Hh0 & Hlen & _).
  rewrite Hw in Hw0. rewrite Hh in Hh0. rewrite Hw, Hh in Hlen.
  destruct (wf_strength_range (Selection.mask existing) x y Hwf) as (v & Hv & Hr);
    [lia|lia|].
  set (mask0 := ImageData.data (Selection.mask existing)) in *.
  destruct (qs_run_terminates imageData startX startY radius mode mask0 Hw0 Hh0)
    as [st Hst].
  assert (Hq : quickSelect imageData startX startY radius mode (Some existing)
               = Some (Selection.mk
                         (ImageData.mk (ImageData.width imageData)
                            (ImageData.height imageData) (QS.mask st))
                         (computeBounds (ImageData.mk (ImageData.width imageData)
                            (ImageData.height imageData) (QS.mask st))) true)).
  { unfold quickSelect, ImageData.of_data. fold mask0.
    destruct (Z.ltb_spec 0 (ImageData.width imageData)); [|lia].
    destruct (Z.ltb_spec 0 (ImageData.height imageData)); [|lia].
    rewrite Hlen, Z.eqb_refl. cbn [andb mbind option_bind ImageData.data].
    rewrite Hst. reflexivity. }
  unfold qs_run in Hst.
  apply (qs_loop_inv _ _ _ _ _ _ _ _ _ _ _
           (fun s => forall i, typed_get (QS.mask s) i = typed_get mask0 i \/
                               typed_get (QS.mask s) i = Some 255)) in Hst.
  - destruct Hst as [Hmask _].
    assert (Hv0 : strength (Selection.mask existing) x y = Some v) by exact Hv.
    unfold strength in Hv. rewrite Hw in Hv. fold mask0 in Hv.
    eexists. exists v.
    destruct (Hmask ((y * ImageData.width imageData + x) * 4)) as [E|E].
    + exists v. split; [exact Hq|]. split; [exact Hv0|].
      split; [unfold strength; cbn [Selection.mask ImageData.data ImageData.width];
              rewrite E; exact Hv|]. lia.
    + exists 255. split; [exact Hq|]. split; [exact Hv0|].
      split; [unfold strength; cbn [Selection.mask ImageData.data ImageData.width];
              exact E|]. lia.
  - intros s _ Hs i.
    match goal with |- context [qs_step ?w ?h ?d ?e ?a ?b ?m ?r ?g ?bb ?md s] =>
      destruct (qs_step_mask_grows w h d e a b m r g bb md s i Hmode) as [_ [E|E]]
    end.
    + rewrite E. apply Hs.
    + right. exact E.
  - intros i. left. reflexivity.
Qed.

Lemma quickSelect_never_deselects_witness :
  exists result v v',
    quickSelect (uniform 2 2 [9; 9; 9; 255]) 0.5 0.5 1 mode_add (Some (selection_of mask_2x2))
    = Some result /\
    strength (Selection.mask (selection_of mask_2x2)) 0 1 = Some v /\
    strength (Selection.mask result) 0 1 = Some v' /\
    v <= v' /\ (v' = v \/ v' = 255).
Proof.
  apply (quickSelect_never_deselects (uniform 2 2 [9; 9; 9; 255]) 0.5 0.5 1 mode_add
           (selection_of mask_2x2) 0 1);
    [right; reflexivity | exact mask_2x2_wf | reflexivity | reflexivity
    | simpl; lia | simpl; lia].
Defined.

(** C2, as the code has it: when the flood fill of [quickSelect] takes up
    a cell of the image that it has not visited, it marks the cell and
    - rejects it, whatever its depth, if its distance from the start
      point, as computed, is above [radius * 3]: the mask stays and no
      neighbor is queued;
    - accepts it otherwise if its depth is 0 or 1, whatever the edge map
      and the colors: it writes the pixel and queues the neighbors if the
      depth is below [radius * 3];
    - otherwise, the depth being above 1, rejects it if the edge map is
      above 0.3 there or the color is farther than 150 from the one at
      the start point, and accepts it if not. *)
Theorem quickSelect_rejection_tests (imageData : ImageData.t) (startX startY radius : float)
    (mode : SelectionMode) (st : QS.state) (x y : float) (depth : Z)
    (queue : list (float * float * Z)) (ix iy : Z) :
  let width := ImageData.width imageData in
  let height := ImageData.height imageData in
  let data := ImageData.data imageData in
  let edges := computeEdgeMap imageData in
  let startIdx :=
    js_mul (js_add (js_mul (int_of (Math_floor startY)) (Some width))
              (int_of (Math_floor startX))) (Some 4) in
  let targetR := typed_get_at data startIdx in
  let targetG := typed_get_at data (js_add startIdx (Some 1)) in
  let targetB := typed_get_at data (js_add startIdx (Some 2)) in
  let maxRadius := (radius * 3)%float in
  let st' := qs_step width height data edges startX startY maxRadius
               targetR targetG targetB mode st in
  QS.queue st = (x, y, depth) :: queue ->
  Math_floor x = fl_int ix -> Math_floor y = fl_int iy ->
  0 <= ix < width -> 0 <= iy < height ->
  let pos := iy * width + ix in
  Some pos ∉ QS.visited st ->
  4 * pos + 3 < Z.of_nat (length (QS.mask st)) ->
  let dist :=
    PrimFloat.sqrt ((x - startX) * (x - startX) + (y - startY) * (y - startY)) in
  let dr := js_abs (js_sub (typed_get data (pos * 4)) targetR) in
  let dg := js_abs (js_sub (typed_get data (pos * 4 + 1)) targetG) in
  let db := js_abs (js_sub (typed_get data (pos * 4 + 2)) targetB) in
  let rejected := QS.mask st' = QS.mask st /\ QS.queue st' = queue in
  let accepted :=
    pixel_of (QS.mask st') pos
    = match mode with
      | mode_new | mode_add => (Some 255, Some 255, Some 255, Some 255)
      | mode_subtract => (Some 0, Some 0, Some 0, Some 0)
      | mode_intersect => pixel_of (QS.mask st) pos
      end /\
    QS.queue st'
    = (if PrimFloat.ltb (float_of_Z depth) maxRadius
       then queue ++ qs_neighbors x y depth else queue) in
  Some pos ∈ QS.visited st' /\
  (PrimFloat.ltb maxRadius dist = true -> rejected) /\
  (PrimFloat.ltb maxRadius dist = false -> depth <= 1 -> accepted) /\
  (PrimFloat.ltb maxRadius dist = false -> 1 < depth ->
   if PrimFloat.ltb 0.3 (f32_get edges pos) || js_gt (js_add (js_add dr dg) db) (Some 150)
   then rejected else accepted).
Proof.
  intros width height data edges startIdx targetR targetG targetB maxRadius st'
    Hq Ex Ey Hx Hy pos Hin Hlen dist dr dg db rejected accepted.
  assert (Hpos : 0 <= pos) by (subst pos; nia).
  pose proof (qs_step_tests width height data edges startX startY maxRadius
                targetR targetG targetB mode st x y depth queue ix iy Hq Ex Ey Hx Hy Hin)
    as Hstep.
  cbv zeta in Hstep. fold pos dist dr dg db st' in Hstep.
  assert (Hacc : st' = QS.mk (if PrimFloat.ltb (float_of_Z depth) maxRadius
                              then queue ++ qs_neighbors x y depth else queue)
                         ({[Some pos]} ∪ QS.visited st) (qs_written mode (QS.mask st) pos) ->
                 accepted).
  { intros ->. subst accepted. cbn [QS.mask QS.queue]. split; [|reflexivity].
    apply qs_written_pixel; [exact Hpos|exact Hlen]. }
  assert (Hrej : st' = QS.mk queue ({[Some pos]} ∪ QS.visited st) (QS.mask st) -> rejected).
  { intros ->. subst rejected. cbn [QS.mask QS.queue]. auto. }
  split; [|split; [|split]].
  - rewrite Hstep. destruct (_ || _); cbn [QS.visited]; set_solver.
  - intros Hfar. rewrite Hfar in Hstep. apply Hrej. exact Hstep.
  - intros Hfar Hdepth. rewrite Hfar in Hstep.
    destruct (Z.ltb_spec 1 depth); [lia|]. apply Hacc. exact Hstep.
  - intros Hfar Hdepth. rewrite Hfar in Hstep.
    destruct (Z.ltb_spec 1 depth); [|lia]. cbn [orb andb] in Hstep.
    destruct (_ || _); [apply Hrej|apply Hacc]; exact Hstep.
Qed.

Lemma quickSelect_rejection_tests_witness :
  let image := uniform 3 1 [9; 9; 9; 255] in
  let st := QS.mk [(0.5%float, 0.5%float, 1)] {[Some 1]} (replicate 12 0) in
  let st' := qs_step 3 1 (ImageData.data image) (computeEdgeMap image) 1.5 0.5 (1 * 3)
               (Some 9) (Some 9) (Some 9) mode_new st in
  Some 0 ∈ QS.visited st' /\
  pixel_of (QS.mask st') 0 = (Some 255, Some 255, Some 255, Some 255).
Proof.
  intros image st st'.
  destruct (quickSelect_rejection_tests image 1.5 0.5 1 mode_new st 0.5 0.5 1 [] 0 0)
    as (Hvisited & _ & Haccepted & _);
    [reflexivity | reflexivity | reflexivity | simpl; lia | simpl; lia
    | subst st; cbn [QS.visited]; intros H; apply elem_of_singleton in H; discriminate H
    | vm_compute; reflexivity|].
  split; [exact Hvisited|].
  exact (proj1 (Haccepted ltac:(reflexivity) ltac:(lia))).
Defined.

(** C2 as stated fails: on a 3 by 1 image with the start point in the
    middle pixel and the radius 0.25, the two neighbors are queued at
    depth 1 and visited, and are not selected, their distance 1 being
    above 0.75. *)
Lemma quickSelect_distance_cap_counterexample :
  let image := uniform 3 1 [9; 9; 9; 255] in
  QS.queue
    (qs_step 3 1 (ImageData.data image) (computeEdgeMap image) 1.5 0.5 (0.25 * 3)
       (Some 9) (Some 9) (Some 9) mode_new
       (QS.mk [(1.5%float, 0.5%float, 0)] ∅ (replicate 12 0)))
  = [(0.5%float, 0.5%float, 1); (2.5%float, 0.5%float, 1);
     (1.5%float, (-0.5)%float, 1); (1.5%float, 1.5%float, 1)] /\
  (st ← qs_run image 1.5 0.5 0.25 mode_new (replicate 12 0);
   Some (bool_decide (Some 0 ∈ QS.visited st), bool_decide (Some 2 ∈ QS.visited st),
         QS.mask st))
  = Some (true, true, [0; 0; 0; 0; 255; 255; 255; 255; 0; 0; 0; 0]).
Proof. split; vm_compute; reflexivity. Qed.

(** ** What the selectors write *)

Lemma ToUint8Clamp_range v : 0 <= ToUint8Clamp v <= 255.
Proof.
  unfold ToUint8Clamp. destruct (Prim2SF v) as [s|s| |s m e]; try destruct s; try lia.
  destruct (Z.leb_spec 0 e).
  - assert (0 < 2 ^ e) by (apply Z.pow_pos_nonneg; lia). nia.
  - assert (Hd : 0 < 2 ^ (- e)) by (apply Z.pow_pos_nonneg; lia).
    pose proof (Z.div_pos (Zpos m) (2 ^ (- e)) ltac:(lia) Hd).
    cbv zeta. repeat destruct (_ <? _); try destruct (Z.even _); lia.
Qed.

Lemma u8_set_float_u8_set a i v :
  u8_set_float a i v = u8_set a i (Some (ToUint8Clamp v)).
Proof.
  unfold u8_set_float, u8_set. rewrite clamp8_id by apply ToUint8Clamp_range. reflexivity.
Qed.

(** [selectColorRange] stores one byte into the four channels. *)
Lemma selectColorRange_replicated imageData options k :
  0 < ImageData.width imageData -> 0 < ImageData.height imageData ->
  Z.of_nat (length (ImageData.data imageData))
  = 4 * ImageData.width imageData * ImageData.height imageData ->
  0 <= k < ImageData.width imageData * ImageData.height imageData ->
  replicated (ImageData.data (Selection.mask (selectColorRange imageData options))) k.
Proof.
  intros Hw Hh Hlen Hk. unfold selectColorRange.
  cbn [Selection.mask ImageData.data].
  set (init := ImageData.data (ImageData.create _ _)).
  assert (Hinit : Z.of_nat (length init)
                  = 4 * (ImageData.width imageData * ImageData.height imageData))
    by (subst init; rewrite create_length; nia).
  replace (Z.of_nat (length (ImageData.data imageData))) with (Z.of_nat (length init))
    by lia.
  set (value := fun i : Z =>
    Math_round
      (Math_max 0%float
         (1 - PrimFloat.sqrt
                ((float_of_u8 (typed_get (ImageData.data imageData) i)
                  - RGBA.r (ColorRangeOptions.targetColor options))
                 * (float_of_u8 (typed_get (ImageData.data imageData) i)
                    - RGBA.r (ColorRangeOptions.targetColor options))
                 + (float_of_u8 (typed_get (ImageData.data imageData) (i + 1))
                    - RGBA.g (ColorRangeOptions.targetColor options))
                   * (float_of_u8 (typed_get (ImageData.data imageData) (i + 1))
                      - RGBA.g (ColorRangeOptions.targetColor options))
                 + (float_of_u8 (typed_get (ImageData.data imageData) (i + 2))
                    - RGBA.b (ColorRangeOptions.targetColor options))
                   * (float_of_u8 (typed_get (ImageData.data imageData) (i + 2))
                      - RGBA.b (ColorRangeOptions.targetColor options)))
              / (ColorRangeOptions.fuzziness options * 2.55)) * 255)%float).
  destruct (for_step4_pixels (ImageData.width imageData * ImageData.height imageData)
    (fun i md => write_pixel md i (Some (ToUint8Clamp (value i)))
                   (Some (ToUint8Clamp (value i))))
    (fun k _ => (Some (ToUint8Clamp (value (4 * k))), Some (ToUint8Clamp (value (4 * k))),
                 Some (ToUint8Clamp (value (4 * k))), Some (ToUint8Clamp (value (4 * k)))))
    init Hinit) as [_ Hp].
  - intros j md Hj Hmd. split; [rewrite write_pixel_length; exact Hmd|].
    intros k'. rewrite pixel_of_write_pixel4 by lia.
    rewrite !clamp8_id by apply ToUint8Clamp_range. reflexivity.
  - exists (ToUint8Clamp (value (4 * k))). rewrite <- (Hp k Hk). f_equal.
    unfold for_step4. apply for_lt_ext. intros j md _.
    unfold write_pixel. rewrite !u8_set_float_u8_set. reflexivity.
Qed.

(** *** The flood fills of [selectSubject] end *)

Section FloodTerminates.
Variables (width height : Z) (saliency : list float) (threshold : float).
Hypothesis Hw : 0 < width.
Hypothesis Hh : 0 <= height.

#[local] Abbreviation positions := (qs_positions width height).

Lemma flood_position_in pos : pos ∈ positions <-> 0 <= pos < width * height.
Proof. unfold qs_positions. rewrite elem_of_list_to_set, elem_of_seqZ. lia. Qed.

Lemma flood_visited_size (visited : gset Z) :
  visited ⊆ positions -> Z.of_nat (size visited) <= width * height.
Proof.
  intros Hsub. apply subseteq_size in Hsub.
  unfold qs_positions in Hsub.
  rewrite size_list_to_set in Hsub by apply NoDup_seqZ. rewrite length_seqZ in Hsub. nia.
Qed.

(** The neighbors [flood] pushes are positions of the image. *)
Lemma flood_neighbors pos :
  0 <= pos < width * height ->
  (0 < pos mod width -> 0 <= pos - 1 < width * height) /\
  (pos mod width < width - 1 -> 0 <= pos + 1 < width * height) /\
  (0 < pos / width -> 0 <= pos - width < width * height) /\
  (pos / width < height - 1 -> 0 <= pos + width < width * height).
Proof.
  intros Hpos.
  pose proof (Z.div_mod pos width ltac:(lia)) as Hdm.
  pose proof (Z.mod_pos_bound pos width Hw) as Hm.
  assert (Hd : 0 <= pos / width < height).
  { split; [apply Z.div_pos; lia|apply Z.div_lt_upper_bound; lia]. }
  repeat split; intros; nia.
Qed.

Lemma flood_terminates fuel : forall queue visited region totalScore,
  Forall (fun pos => 0 <= pos < width * height) queue ->
  visited ⊆ positions ->
  Z.of_nat (length queue) + 4 * (width * height - Z.of_nat (size visited))
  <= Z.of_nat fuel ->
  exists visited' region' totalScore',
    flood width height saliency threshold fuel queue visited region totalScore
    = Some (visited', region', totalScore') /\ visited' ⊆ positions.
Proof.
  induction fuel as [|fuel IH]; intros queue visited region totalScore Hq Hv Hm.
  - pose proof (flood_visited_size visited Hv).
    destruct queue; [|simpl length in Hm; lia]. simpl. eauto.
  - destruct queue as [|pos queue]; [simpl; eauto|].
    inversion Hq as [|? ? Hpos Hq']; subst. simpl length in Hm. cbn [flood].
    destruct (decide (pos ∈ visited)) as [Hin|Hin].
    + apply IH; [exact Hq'|exact Hv|lia].
    + assert (Hv' : {[pos]} ∪ visited ⊆ positions)
        by (apply flood_position_in in Hpos; set_solver).
      assert (Hsize : size ({[pos]} ∪ visited) = Datatypes.S (size visited))
        by (rewrite size_union by set_solver; rewrite size_singleton; reflexivity).
      destruct (PrimFloat.ltb _ _).
      * apply IH; [exact Hq'|exact Hv'|rewrite Hsize; lia].
      * destruct (flood_neighbors pos Hpos) as (Nl & Nr & Nu & Nd).
        apply IH; [|exact Hv'|].
        -- destruct (Z.ltb_spec 0 (pos mod width)),
                    (Z.ltb_spec (pos mod width) (width - 1)),
                    (Z.ltb_spec 0 (pos / width)),
                    (Z.ltb_spec (pos / width) (height - 1));
             repeat (apply Forall_cons; split; [auto|]); exact Hq'.
        -- rewrite Hsize.
           destruct (0 <? pos mod width), (pos mod width <? width - 1),
                    (0 <? pos / width), (pos / width <? height - 1);
             simpl length; lia.
Qed.

Lemma findRegions_returns :
  exists visited regions,
    findRegions width height saliency threshold = Some (visited, regions)
    /\ visited ⊆ positions.
Proof.
  unfold findRegions.
  pose (P := fun acc : option (gset Z * list Region.t) =>
          exists visited regions, acc = Some (visited, regions) /\ visited ⊆ positions).
  apply (for_lt_inv P).
  - exists ∅, []. split; [reflexivity|set_solver].
  - intros y acc Hy Hacc. apply (for_lt_inv P); [exact Hacc|].
    intros x acc' Hx (visited & regions & -> & Hv). subst P. cbn [mbind option_bind].
    destruct (_ || _); [eauto|].
    destruct (flood_terminates (qs_fuel width height) [y * width + x] visited [] 0%float)
      as (v' & r' & s' & E & Hv').
    + repeat constructor; nia.
    + exact Hv.
    + pose proof (flood_visited_size visited Hv). unfold qs_fuel. simpl length. nia.
    + rewrite E. cbn [mbind option_bind]. destruct (_ <? _); eauto.
Qed.
End FloodTerminates.

(** [selectSubject] returns: the fuel of its flood fills suffices. *)
Lemma selectSubject_returns imageData :
  0 < ImageData.width imageData -> 0 <= ImageData.height imageData ->
  is_Some (selectSubject imageData).
Proof.
  intros Hw Hh. unfold selectSubject.
  destruct (findRegions_returns (ImageData.width imageData) (ImageData.height imageData)
              (saliencyMap imageData (computeEdgeMap imageData)) 0.35%float Hw Hh)
    as (visited & regions & E & _).
  rewrite E. cbn [mbind option_bind]. eauto.
Qed.

Lemma paint_length (points : list Z) (md : list Z) :
  length (foldl (fun md pos =>
            let maskIdx := pos * 4 in
            u8_set (u8_set (u8_set (u8_set md maskIdx (Some 255))
              (maskIdx + 1) (Some 255)) (maskIdx + 2) (Some 255))
              (maskIdx + 3) (Some 255)) md points)
  = length md.
Proof.
  revert md. induction points as [|pos points IH]; intros md; simpl; [reflexivity|].
  rewrite IH, !u8_set_length. reflexivity.
Qed.

(** The mask of [selectSubject] is the output of [erode]. *)
Lemma selectSubject_grey_opaque imageData result k :
  0 < ImageData.width imageData -> 0 < ImageData.height imageData ->
  selectSubject imageData = Some result ->
  0 <= k < ImageData.width imageData * ImageData.height imageData ->
  grey_opaque (ImageData.data (Selection.mask result)) k.
Proof.
  intros Hw Hh Hres Hk. unfold selectSubject in Hres.
  destruct (findRegions _ _ _ _) as [[visited regions]|]; [|discriminate].
  cbn [mbind option_bind] in Hres. injection Hres as <-.
  cbn [Selection.mask]. unfold morphClose. cbn [ImageData.data ImageData.width ImageData.height].
  set (painted := match sort_regions regions with [] => _ | _ :: _ => _ end).
  assert (Hpainted : Z.of_nat (length painted)
                     = 4 * ImageData.width imageData * ImageData.height imageData).
  { subst painted. destruct (sort_regions regions); rewrite ?paint_length;
      (rewrite create_length || rewrite length_replicate); nia. }
  set (m := ImageData.mk (ImageData.width imageData) (ImageData.height imageData) painted).
  set (closed := erode (dilate m 3) 3).
  assert (Hclosed : Z.of_nat (length (ImageData.data closed))
                    = 4 * ImageData.width imageData * ImageData.height imageData)
    by (subst closed; rewrite erode_length; cbn; lia).
  rewrite take_ge, drop_ge, app_nil_r by lia.
  eexists. split; [apply clamp8_range|].
  subst closed. apply (erode_pixel (dilate m 3) 3 k); cbn; lia.
Qed.

Section Painted.
Variables (width height : Z) (data : list Z) (edges : list float).
Variables (startX startY maxRadius : float).
Variables (targetR targetG targetB : option Z).
Variable mode : SelectionMode.

Lemma qs_step_painted mask0 st :
  Z.of_nat (length (QS.mask st)) = 4 * width * height ->
  (forall k, painted mask0 (QS.mask st) k) ->
  let st' := qs_step width height data edges startX startY maxRadius
               targetR targetG targetB mode st in
  length (QS.mask st') = length (QS.mask st) /\ forall k, painted mask0 (QS.mask st') k.
Proof.
  intros Hlen Hp st'. subst st'.
  destruct (QS.queue st) as [|[[x y] depth] queue] eqn:E.
  - rewrite qs_step_nil by exact E. auto.
  - destruct (qs_step_cases width height data edges startX startY maxRadius
                targetR targetG targetB mode st x y depth queue E)
      as [-> | (Hout & Hin & [-> | (more & -> & _)])];
      cbn [QS.mask]; auto.
    pose proof (cell_position _ _ _ _ Hout) as Hpos.
    destruct (js_add _ _) as [pos|]; [|auto].
    unfold qs_written. destruct mode.
    + split; [rewrite !u8_set_length; reflexivity|]. intros k.
      change (painted mask0 (write_pixel (QS.mask st) (pos * 4) (Some 255) (Some 255)) k).
      unfold painted. rewrite pixel_of_write_pixel by lia.
      case_decide; [right; left; reflexivity|apply Hp].
    + split; [rewrite !u8_set_length; reflexivity|]. intros k.
      change (painted mask0 (write_pixel (QS.mask st) (pos * 4) (Some 255) (Some 255)) k).
      unfold painted. rewrite pixel_of_write_pixel by lia.
      case_decide; [right; left; reflexivity|apply Hp].
    + split; [rewrite !u8_set_length; reflexivity|]. intros k.
      change (painted mask0 (write_pixel (QS.mask st) (pos * 4) (Some 0) (Some 0)) k).
      unfold painted. rewrite pixel_of_write_pixel by lia.
      case_decide; [right; right; reflexivity|apply Hp].
    + auto.
Qed.
End Painted.

(** Every pixel of the mask of [quickSelect] is the one of the mask it
    started from, or has 255 in its four channels, or 0. *)
Lemma quickSelect_painted imageData startX startY radius mode existingSelection result k :
  0 < ImageData.width imageData -> 0 < ImageData.height imageData ->
  quickSelect imageData startX startY radius mode existingSelection = Some result ->
  painted
    match existingSelection with
    | Some sel => ImageData.data (Selection.mask sel)
    | None => ImageData.data (ImageData.create (ImageData.width imageData)
                                (ImageData.height imageData))
    end (ImageData.data (Selection.mask result)) k.
Proof.
  intros Hw Hh Hres. unfold quickSelect in Hres.
  set (mask0 := match existingSelection with Some sel => _ | None => _ end).
  assert (Hmask0 : exists m,
    match existingSelection with
    | Some sel => ImageData.of_data (ImageData.data (Selection.mask sel))
                    (ImageData.width imageData) (ImageData.height imageData)
    | None => Some (ImageData.create (ImageData.width imageData) (ImageData.height imageData))
    end = Some m /\ ImageData.data m = mask0 /\
    Z.of_nat (length mask0) = 4 * ImageData.width imageData * ImageData.height imageData).
  { subst mask0. destruct existingSelection as [sel|].
    - unfold ImageData.of_data in *.
      destruct (Z.eqb_spec (Z.of_nat (length (ImageData.data (Selection.mask sel))))
                  (4 * ImageData.width imageData * ImageData.height imageData)) as [e|];
        [|rewrite andb_false_r in Hres; discriminate].
      destruct (_ && _); [|discriminate]. cbn [andb]. eexists. repeat split. exact e.
    - eexists. repeat split. rewrite create_length. nia. }
  destruct Hmask0 as (m & Em & Hm & Hlen). rewrite Em in Hres.
  cbn [mbind option_bind] in Hres. rewrite Hm in Hres.
  destruct (qs_run imageData startX startY radius mode mask0) as [st|] eqn:Hst;
    [|discriminate].
  cbn [mbind option_bind] in Hres. injection Hres as <-. cbn [Selection.mask ImageData.data].
  unfold qs_run in Hst.
  apply (qs_loop_inv _ _ _ _ _ _ _ _ _ _ _
           (fun s => Z.of_nat (length (QS.mask s))
                     = 4 * ImageData.width imageData * ImageData.height imageData /\
                     forall k, painted mask0 (QS.mask s) k)) in Hst.
  - apply Hst.
  - intros s _ [Hl Hp].
    match goal with |- context [qs_step ?w ?h ?d ?e ?a ?b ?m ?r ?g ?bb ?md s] =>
      destruct (qs_step_painted w h d e a b m r g bb md mask0 s Hl Hp) as [Hl' Hp']
    end.
    split; [rewrite Hl'; exact Hl|exact Hp'].
  - split; [exact Hlen|]. intros k'. left. reflexivity.
Qed.

(** [quickSelect] returns when it starts from a fresh mask, or from an
    existing one of the size of the image. *)
Lemma quickSelect_returns imageData startX startY radius mode existingSelection :
  0 < ImageData.width imageData -> 0 < ImageData.height imageData ->
  match existingSelection with
  | Some sel => Z.of_nat (length (ImageData.data (Selection.mask sel)))
                = 4 * ImageData.width imageData * ImageData.height imageData
  | None => True
  end ->
  is_Some (quickSelect imageData startX startY radius mode existingSelection).
Proof.
  intros Hw Hh Hlen. unfold quickSelect.
  assert (Hmask : exists m,
    match existingSelection with
    | Some sel => ImageData.of_data (ImageData.data (Selection.mask sel))
                    (ImageData.width imageData) (ImageData.height imageData)
    | None => Some (ImageData.create (ImageData.width imageData) (ImageData.height imageData))
    end = Some m).
  { destruct existingSelection as [sel|]; [|eauto]. unfold ImageData.of_data.
    destruct (Z.ltb_spec 0 (ImageData.width imageData)); [|lia].
    destruct (Z.ltb_spec 0 (ImageData.height imageData)); [|lia].
    rewrite (proj2 (Z.eqb_eq _ _) Hlen). cbn [andb]. eauto. }
  destruct Hmask as [m ->]. cbn [mbind option_bind].
  destruct (qs_run_terminates imageData startX startY radius mode (ImageData.data m)
              Hw Hh) as [st ->].
  cbn [mbind option_bind]. eauto.
Qed.

(** ** Applying a selection as alpha (C9) *)

(** When the image and the mask are two buffers, the store changes at the
    image's buffer only, and the mask is read as it was. *)
Lemma alpha_loop_store (store : gmap nat (list Z)) (l lm : nat) (msk : list Z) n :
  store !! lm = Some msk -> l <> lm ->
  forall i buf,
    for_up n i (fun k store =>
      <[l := u8_set (buffer_of store l) (4 * k + 3)
               (js_min (typed_get (buffer_of store l) (4 * k + 3))
                       (typed_get (buffer_of store lm) (4 * k)))]> store)
      (<[l := buf]> store)
    = <[l := for_up n i (fun k buf =>
              u8_set buf (4 * k + 3)
                (js_min (typed_get buf (4 * k + 3)) (typed_get msk (4 * k)))) buf]> store.
Proof.
  intros Hmsk Hne. induction n as [|n IH]; intros i buf; cbn [for_up]; [reflexivity|].
  assert (Hl : buffer_of (<[l := buf]> store) l = buf)
    by (unfold buffer_of; rewrite lookup_insert_eq; reflexivity).
  assert (Hlm : buffer_of (<[l := buf]> store) lm = msk)
    by (unfold buffer_of; rewrite lookup_insert_ne, Hmsk by exact Hne; reflexivity).
  rewrite Hl, Hlm, insert_insert_eq. apply IH.
Qed.

Lemma applySelectionAsAlpha_store store imageData selection img msk :
  store !! Ref.data imageData = Some img ->
  store !! Ref.data (Ref.mask selection) = Some msk ->
  Ref.data imageData <> Ref.data (Ref.mask selection) ->
  applySelectionAsAlpha store imageData selection
  = <[Ref.data imageData := alpha_loop msk (Z.of_nat (length img)) img]> store.
Proof.
  intros Himg Hmsk Hne. unfold applySelectionAsAlpha, alpha_loop.
  replace (buffer_of store (Ref.data imageData)) with img
    by (unfold buffer_of; rewrite Himg; reflexivity).
  unfold for_step4, for_lt.
  rewrite <- (insert_id store (Ref.data imageData) img Himg) at 1.
  apply alpha_loop_store; assumption.
Qed.

Lemma alpha_loop_pixels msk img n k :
  Z.of_nat (length img) = 4 * n -> 0 <= k < n ->
  length (alpha_loop msk (Z.of_nat (length img)) img) = length img /\
  pixel_of (alpha_loop msk (Z.of_nat (length img)) img) k
  = (channel img k 0, channel img k 1, channel img k 2,
     Some (clamp8 (js_min (channel img k 3) (channel msk k 0)))).
Proof.
  intros Hlen Hk. unfold alpha_loop.
  destruct (for_step4_pixels n
    (fun i buf => u8_set buf (i + 3) (js_min (typed_get buf (i + 3)) (typed_get msk i)))
    (fun k p => (p.1.1.1, p.1.1.2, p.1.2, Some (clamp8 (js_min p.2 (channel msk k 0)))))
    img Hlen) as [Hl Hp].
  - intros j md Hj Hmd. split; [rewrite u8_set_length; exact Hmd|].
    intros k'. unfold pixel_of, channel. cbn [fst snd]. rewrite !Z.add_0_r.
    case_decide as Hk'.
    + subst k'. rewrite !typed_get_u8_set.
      repeat first [rewrite decide_True by lia | rewrite decide_False by lia].
      reflexivity.
    + rewrite !typed_get_u8_set_other by lia. reflexivity.
  - split; [exact Hl|]. rewrite (Hp k Hk). reflexivity.
Qed.

(** C9, as the code has it: when the mask of the selection is a buffer
    other than the image's and has a byte for every byte of the image,
    [applySelectionAsAlpha] changes nothing but the alpha bytes of the
    image's buffer, which become the smaller of the old alpha and the
    mask's strength; the mask's buffer, and every other buffer, is left as
    it was. *)
Theorem applySelectionAsAlpha_frame (store : gmap nat (list Z))
    (imageData : Ref.ImageData) (selection : Ref.Selection) (img msk : list Z) (n : Z) :
  store !! Ref.data imageData = Some img ->
  store !! Ref.data (Ref.mask selection) = Some msk ->
  Ref.data imageData <> Ref.data (Ref.mask selection) ->
  Z.of_nat (length img) = 4 * n ->
  (length img <= length msk)%nat ->
  Forall (fun v => 0 <= v <= 255) img ->
  Forall (fun v => 0 <= v <= 255) msk ->
  let store' := applySelectionAsAlpha store imageData selection in
  store' !! Ref.data (Ref.mask selection) = Some msk /\
  (forall l, l <> Ref.data imageData -> store' !! l = store !! l) /\
  exists img',
    store' !! Ref.data imageData = Some img' /\
    length img' = length img /\
    forall k, 0 <= k < n ->
      channel img' k 0 = channel img k 0 /\
      channel img' k 1 = channel img k 1 /\
      channel img' k 2 = channel img k 2 /\
      exists alpha s,
        channel img k 3 = Some alpha /\ channel msk k 0 = Some s /\
        channel img' k 3 = Some (Z.min alpha s).
Proof.
  intros Himg Hmsk Hne Hlen Hcover Himg_r Hmsk_r store'. subst store'.
  rewrite (applySelectionAsAlpha_store store imageData selection img msk) by assumption.
  split; [rewrite lookup_insert_ne by exact Hne; exact Hmsk|].
  split; [intros l Hl; rewrite lookup_insert_ne by congruence; reflexivity|].
  eexists. split; [apply lookup_insert_eq|].
  split.
  - destruct (Z_le_gt_dec n 0) as [Hn|Hn].
    + unfold alpha_loop, for_step4. rewrite for_lt_empty; [reflexivity|].
      assert (Hn0 : n = 0) by lia. rewrite Hlen, Hn0.
      change ((4 * 0 + 3) / 4) with 0. lia.
    + apply (alpha_loop_pixels msk img n 0 Hlen). lia.
  - intros k Hk. destruct (alpha_loop_pixels msk img n k Hlen Hk) as [_ Hp].
    unfold pixel_of in Hp. injection Hp as H0 H1 H2 H3.
    repeat split; try assumption.
    destruct (typed_get_is_Some img (4 * k + 3)) as [alpha Ha]; [lia|].
    destruct (typed_get_is_Some msk (4 * k + 0)) as [s Hs]; [lia|].
    exists alpha, s. unfold channel in *. rewrite H3, Ha, Hs.
    repeat split. cbn [js_min js_lift2]. f_equal. apply clamp8_id.
    rewrite typed_get_lookup in Ha, Hs by lia.
    rewrite Forall_lookup in Himg_r, Hmsk_r.
    pose proof (Himg_r _ _ Ha). pose proof (Hmsk_r _ _ Hs). lia.
Qed.

Lemma applySelectionAsAlpha_frame_witness :
  let store' := applySelectionAsAlpha store_2 (image_at 0) (selection_at 1) in
  store' !! 1%nat = Some [128; 128; 128; 255; 0; 0; 0; 255] /\
  (forall l, l <> 0%nat -> store' !! l = store_2 !! l) /\
  exists img',
    store' !! 0%nat = Some img' /\
    length img' = 8%nat /\
    forall k, 0 <= k < 2 ->
      channel img' k 0 = channel [10; 20; 30; 200; 1; 2; 3; 50] k 0 /\
      channel img' k 1 = channel [10; 20; 30; 200; 1; 2; 3; 50] k 1 /\
      channel img' k 2 = channel [10; 20; 30; 200; 1; 2; 3; 50] k 2 /\
      exists alpha s,
        channel [10; 20; 30; 200; 1; 2; 3; 50] k 3 = Some alpha /\
        channel [128; 128; 128; 255; 0; 0; 0; 255] k 0 = Some s /\
        channel img' k 3 = Some (Z.min alpha s).
Proof.
  apply (applySelectionAsAlpha_frame store_2 (image_at 0) (selection_at 1)
           [10; 20; 30; 200; 1; 2; 3; 50] [128; 128; 128; 255; 0; 0; 0; 255] 2);
    [reflexivity | reflexivity | discriminate | reflexivity | simpl; lia
    | repeat constructor; lia | repeat constructor; lia].
Defined.

(** C9 as stated fails. When the mask of the selection is the image's own
    buffer, the selection is modified: on the sample store its alphas 200
    and 50 become 10 and 1, the smaller of alpha and red. And where the
    mask has no byte for a pixel of the image there is no strength to
    compare with: the alpha 50 becomes 0. *)
Lemma applySelectionAsAlpha_same_buffer_counterexample :
  store_2 !! Ref.data (Ref.mask (selection_at 0)) = Some [10; 20; 30; 200; 1; 2; 3; 50] /\
  applySelectionAsAlpha store_2 (image_at 0) (selection_at 0)
    !! Ref.data (Ref.mask (selection_at 0))
  = Some [10; 20; 30; 10; 1; 2; 3; 1] /\
  applySelectionAsAlpha (<[0%nat := [10; 20; 30; 200; 1; 2; 3; 50]]>
                           (<[1%nat := [255; 255; 255; 255]]> ∅))
    (image_at 0) (selection_at 1) !! 0%nat
  = Some [10; 20; 30; 200; 1; 2; 3; 0].
Proof. repeat split; reflexivity. Qed.

(** ** Color range with no tolerance (C1) *)

(** C1 fails on the code: with [fuzziness = 0] the pixel of exactly the
    target color gets strength 0, not 255, as [0 / 0] is [NaN] and a
    [Uint8ClampedArray] stores [NaN] as 0; nothing is selected. *)
Lemma selectColorRange_fuzziness_zero :
  selectColorRange two_pixels exact_match
  = Selection.mk (image 2 1 [0; 0; 0; 0; 0; 0; 0; 0]) (Rect.mk 0 0 0 0) true.
Proof. vm_compute. reflexivity. Qed.

(** With the least tolerance above 0 the same pixel is fully selected. *)
Example selectColorRange_fuzziness_one :
  ImageData.data (Selection.mask (selectColorRange two_pixels
    (ColorRangeOptions.mk (RGBA.mk 10 20 30 1) 1)))
  = [255; 255; 255; 255; 155; 155; 155; 155].
Proof. vm_compute. reflexivity. Qed.

(** ** The smallest region [selectSubject] keeps (C8) *)

(** C8 fails on the code: on the all-black 42 by 4 image the flood fill
    from the first seed, position 58, finds a region of exactly 100 pixels,
    which the test [region.length > 100] discards: no region is kept and
    the selection is empty. *)
Lemma selectSubject_region_of_100 :
  let saliency := saliencyMap black_42x4 (computeEdgeMap black_42x4) in
  ('(_, region, _) ← flood 42 4 saliency 0.35 (qs_fuel 42 4) [58] ∅ [] 0%float;
   Some (length region)) = Some 100%nat /\
  ('(_, regions) ← findRegions 42 4 saliency 0.35; Some regions) = Some [] /\
  (selection ← selectSubject black_42x4; Some (Selection.bounds selection))
  = Some (Rect.mk 0 0 0 0).
Proof. repeat split; vm_compute; reflexivity. Qed.

(** The same for every image and every target color: with
    [fuzziness = 0] the quotient [dist / maxDist] is [NaN] or [+Infinity],
    the strength [NaN] or 0, and the byte stored 0. *)
Lemma sqrt_div_zero (d : float) :
  Prim2SF (PrimFloat.sqrt d / 0)%float = S754_nan \/
  Prim2SF (PrimFloat.sqrt d / 0)%float = S754_infinity false.
Proof.
  rewrite FloatAxioms.div_spec, FloatAxioms.sqrt_spec.
  change (Prim2SF 0%float) with (S754_zero false).
  unfold FloatAxioms.SF64div, FloatAxioms.SF64sqrt, SFsqrt.
  destruct (Prim2SF d) as [s|s| |s m e]; try destruct s; cbn; auto.
  destruct (SFsqrt_core_binary _ _ _ _) as [[mz ez] lz].
  unfold binary_round_aux.
  destruct (shr_fexp _ _ _ _ _) as [mrs' e'].
  destruct (shr_fexp _ _ _ _ _) as [mrs'' e''].
  destruct (shr_m mrs''); cbn; auto.
  destruct (Z.leb _ _); cbn; auto.
Qed.

Lemma strength_without_tolerance (d : float) :
  Math_max 0%float (1 - PrimFloat.sqrt d / 0)%float = PrimFloat.nan \/
  Math_max 0%float (1 - PrimFloat.sqrt d / 0)%float = 0%float.
Proof.
  unfold Math_max, PrimFloat.is_nan.
  rewrite !FloatAxioms.eqb_spec, FloatAxioms.ltb_spec, FloatAxioms.sub_spec.
  destruct (sqrt_div_zero d) as [-> | ->]; [left|right]; reflexivity.
Qed.

Lemma byte_without_tolerance (d : float) :
  ToUint8Clamp
    (Math_round (Math_max 0%float (1 - PrimFloat.sqrt d / (0 * 2.55))%float * 255)%float)
  = 0.
Proof.
  change (0 * 2.55)%float with 0%float.
  destruct (strength_without_tolerance d) as [-> | ->]; reflexivity.
Qed.

Lemma u8_set_float_zeros n i v :
  ToUint8Clamp v = 0 -> u8_set_float (replicate n 0) i v = replicate n 0.
Proof.
  intros Hv. unfold u8_set_float. rewrite Hv.
  destruct (i <? 0); [reflexivity|apply insert_replicate].
Qed.

Lemma selectColorRange_fuzziness_zero_selects_nothing
    (imageData : ImageData.t) (targetColor : RGBA.t) :
  ImageData.data
    (Selection.mask (selectColorRange imageData (ColorRangeOptions.mk targetColor 0)))
  = replicate (Z.to_nat (4 * ImageData.width imageData * ImageData.height imageData)) 0.
Proof.
  unfold selectColorRange.
  cbn [Selection.mask ImageData.data ColorRangeOptions.fuzziness
       ColorRangeOptions.targetColor ImageData.create].
  unfold for_step4. apply for_lt_inv; [reflexivity|].
  intros j md _ ->.
  rewrite !u8_set_float_zeros by apply byte_without_tolerance. reflexivity.
Qed.

(** * Further properties of the engine and of its callers *)

(** ** The bounds of a mask *)

Lemma linear_position w k : 0 < w -> k / w * w + k mod w = k.
Proof. intros Hw. rewrite (Z.div_mod k w) at 3 by lia. lia. Qed.

(** The scan of [computeBounds], one position after the other: every
    selected pixel met so far is within the four extremes, and each
    extreme is the initial one or the coordinate of a selected pixel. *)
Lemma computeBounds_scan (w h : Z) (data : list Z) :
  0 < w -> 0 <= h ->
  let sel := fun k => js_gt (typed_get data (k * 4)) (Some 0) = true in
  let '(minX, minY, maxX, maxY) :=
    for_lt 0 h (fun y acc =>
      for_lt 0 w (fun x acc =>
        let '(minX, minY, maxX, maxY) := acc in
        if js_gt (typed_get data ((y * w + x) * 4)) (Some 0)
        then (Z.min minX x, Z.min minY y, Z.max maxX x, Z.max maxY y)
        else acc) acc) (w, h, 0, 0) in
  (forall k, 0 <= k < w * h -> sel k ->
     minX <= k mod w <= maxX /\ minY <= k / w <= maxY) /\
  (minX = w \/ exists k, 0 <= k < w * h /\ sel k /\ k mod w = minX) /\
  (minY = h \/ exists k, 0 <= k < w * h /\ sel k /\ k / w = minY) /\
  (maxX = 0 \/ exists k, 0 <= k < w * h /\ sel k /\ k mod w = maxX) /\
  (maxY = 0 \/ exists k, 0 <= k < w * h /\ sel k /\ k / w = maxY).
Proof.
  intros Hw Hh sel.
  rewrite (for_lt_nested (fun x y (acc : Z * Z * Z * Z) =>
             let '(minX, minY, maxX, maxY) := acc in
             if js_gt (typed_get data ((y * w + x) * 4)) (Some 0)
             then (Z.min minX x, Z.min minY y, Z.max maxX x, Z.max maxY y)
             else acc)) by lia.
  pose (P := fun (j : Z) (acc : Z * Z * Z * Z) =>
    let '(minX, minY, maxX, maxY) := acc in
    (forall k, 0 <= k < j -> sel k ->
       minX <= k mod w <= maxX /\ minY <= k / w <= maxY) /\
    (minX = w \/ exists k, 0 <= k < j /\ sel k /\ k mod w = minX) /\
    (minY = h \/ exists k, 0 <= k < j /\ sel k /\ k / w = minY) /\
    (maxX = 0 \/ exists k, 0 <= k < j /\ sel k /\ k mod w = maxX) /\
    (maxY = 0 \/ exists k, 0 <= k < j /\ sel k /\ k / w = maxY)).
  apply (for_lt_ind P); subst P; cbv beta.
  - nia.
  - split; [intros k Hk; lia|]. auto.
  - intros j [[[minX minY] maxX] maxY] Hj (Hin & HminX & HminY & HmaxX & HmaxY).
    rewrite (linear_position w j Hw).
    assert (Hweak : forall (c : Z -> Z) (m : Z),
              (exists k, 0 <= k < j /\ sel k /\ c k = m) ->
              exists k, 0 <= k < j + 1 /\ sel k /\ c k = m).
    { intros c m (k & Hk & Hs & Hc). exists k. repeat split; [lia|lia|exact Hs|exact Hc]. }
    destruct (js_gt (typed_get data (j * 4)) (Some 0)) eqn:Hsel.
    + assert (Hhere : forall c : Z -> Z, exists k, 0 <= k < j + 1 /\ sel k /\ c k = c j)
        by (intros c; exists j; repeat split; [lia|lia|exact Hsel]).
      split; [|repeat split].
      * intros k Hk Hs. destruct (Z.eq_dec k j) as [->|Hne].
        -- generalize (j mod w) (j / w). intros; lia.
        -- specialize (Hin k ltac:(lia) Hs). revert Hin.
           generalize (k mod w) (k / w) (j mod w) (j / w). intros; lia.
      * right. destruct (Z.min_spec minX (j mod w)) as [[Hcmp ->] | [Hcmp ->]];
          [|apply (Hhere (fun k => k mod w))].
        destruct HminX as [-> | H]; [|apply (Hweak (fun k => k mod w)); exact H].
        pose proof (Z.mod_pos_bound j w Hw). lia.
      * right. destruct (Z.min_spec minY (j / w)) as [[Hcmp ->] | [Hcmp ->]];
          [|apply (Hhere (fun k => k / w))].
        destruct HminY as [-> | H]; [|apply (Hweak (fun k => k / w)); exact H].
        assert (j / w < h) by (apply Z.div_lt_upper_bound; lia). lia.
      * right. destruct (Z.max_spec maxX (j mod w)) as [[Hcmp ->] | [Hcmp ->]];
          [apply (Hhere (fun k => k mod w))|].
        destruct HmaxX as [-> | H]; [|apply (Hweak (fun k => k mod w)); exact H].
        pose proof (Z.mod_pos_bound j w Hw).
        assert (E : j mod w = 0) by lia.
        exists j. repeat split; [lia|lia|exact Hsel|exact E].
      * right. destruct (Z.max_spec maxY (j / w)) as [[Hcmp ->] | [Hcmp ->]];
          [apply (Hhere (fun k => k / w))|].
        destruct HmaxY as [-> | H]; [|apply (Hweak (fun k => k / w)); exact H].
        assert (0 <= j / w) by (apply Z.div_pos; lia).
        assert (E : j / w = 0) by lia.
        exists j. repeat split; [lia|lia|exact Hsel|exact E].
    + split; [|repeat split].
      * intros k Hk Hs. destruct (Z.eq_dec k j) as [->|Hne].
        -- unfold sel in Hs. congruence.
        -- apply Hin; [lia|exact Hs].
      * destruct HminX as [-> | H]; [left; reflexivity|right].
        apply (Hweak (fun k => k mod w)); exact H.
      * destruct HminY as [-> | H]; [left; reflexivity|right].
        apply (Hweak (fun k => k / w)); exact H.
      * destruct HmaxX as [-> | H]; [left; reflexivity|right].
        apply (Hweak (fun k => k mod w)); exact H.
      * destruct HmaxY as [-> | H]; [left; reflexivity|right].
        apply (Hweak (fun k => k / w)); exact H.
Qed.

(** X1: [computeBounds] returns the bounding box of the pixels of
    positive strength: the zero rectangle when there is none; otherwise
    a rectangle that holds every such pixel and has one on each of its
    four sides. *)
Theorem computeBounds_bounding_box (mask : ImageData.t) :
  0 < ImageData.width mask -> 0 <= ImageData.height mask ->
  let r := computeBounds mask in
  let inside := fun x y =>
    0 <= x < ImageData.width mask /\ 0 <= y < ImageData.height mask in
  let sel := fun x y => js_gt (strength mask x y) (Some 0) = true in
  ((forall x y, inside x y -> ~ sel x y) -> r = Rect.mk 0 0 0 0) /\
  (forall x y, inside x y -> sel x y ->
     Rect.x r <= x < Rect.x r + Rect.width r /\
     Rect.y r <= y < Rect.y r + Rect.height r) /\
  ((exists x y, inside x y /\ sel x y) ->
     (exists y, inside (Rect.x r) y /\ sel (Rect.x r) y) /\
     (exists y, inside (Rect.x r + Rect.width r - 1) y /\
                sel (Rect.x r + Rect.width r - 1) y) /\
     (exists x, inside x (Rect.y r) /\ sel x (Rect.y r)) /\
     (exists x, inside x (Rect.y r + Rect.height r - 1) /\
                sel x (Rect.y r + Rect.height r - 1))).
Proof.
  intros Hw Hh r inside sel. subst r. unfold computeBounds.
  pose proof (computeBounds_scan (ImageData.width mask) (ImageData.height mask)
                (ImageData.data mask) Hw Hh) as Hscan.
  cbv zeta in Hscan.
  destruct (for_lt 0 (ImageData.height mask) _ _) as [[[minX minY] maxX] maxY].
  destruct Hscan as (Hin & HminX & HminY & HmaxX & HmaxY).
  set (w := ImageData.width mask) in *. set (h := ImageData.height mask) in *.
  assert (Hk : forall k, 0 <= k < w * h ->
            inside (k mod w) (k / w) /\
            (js_gt (typed_get (ImageData.data mask) (k * 4)) (Some 0) = true ->
             sel (k mod w) (k / w))).
  { intros k Hk. split.
    - split; [apply Z.mod_pos_bound; lia|].
      split; [apply Z.div_pos; lia|apply Z.div_lt_upper_bound; lia].
    - intros Hs. unfold sel, strength. fold w. rewrite linear_position by lia. exact Hs. }
  assert (Hxy : forall x y, inside x y -> sel x y ->
            minX <= x <= maxX /\ minY <= y <= maxY).
  { intros x y [Hx Hy] Hs. fold w h in Hx, Hy.
    destruct (linear_div_mod w x y Hx) as [Em Ed].
    specialize (Hin (y * w + x) ltac:(nia) Hs). rewrite Em, Ed in Hin. exact Hin. }
  assert (Hside : forall (c : Z -> Z) (m : Z),
            (exists k, 0 <= k < w * h /\
               js_gt (typed_get (ImageData.data mask) (k * 4)) (Some 0) = true /\ c k = m) ->
            exists k, inside (k mod w) (k / w) /\ sel (k mod w) (k / w) /\ c k = m).
  { intros c m (k & Hk' & Hs & Hc). exists k. destruct (Hk k Hk') as [Hi Hs'].
    split; [exact Hi|]. split; [apply Hs'; exact Hs|exact Hc]. }
  split; [|split].
  - intros Hnone.
    assert (Hno : forall (c : Z -> Z) (m : Z),
              ~ exists k, 0 <= k < w * h /\
                  js_gt (typed_get (ImageData.data mask) (k * 4)) (Some 0) = true /\ c k = m).
    { intros c m H. destruct (Hside c m H) as (k & Hi & Hs & _). exact (Hnone _ _ Hi Hs). }
    destruct HminX as [-> | H]; [|destruct (Hno _ _ H)].
    destruct HmaxX as [-> | H]; [|destruct (Hno _ _ H)].
    destruct (Z.ltb_spec 0 w); [reflexivity|lia].
  - intros x y Hi Hs. destruct (Hxy x y Hi Hs) as [Hx Hy].
    destruct (Z.ltb_spec maxX minX) as [?|_]; [lia|]. destruct (Z.ltb_spec maxY minY) as [?|_]; [lia|].
    cbn. lia.
  - intros (x & y & Hi & Hs). destruct (Hxy x y Hi Hs) as [Hx Hy].
    destruct (Z.ltb_spec maxX minX) as [?|_]; [lia|]. destruct (Z.ltb_spec maxY minY) as [?|_]; [lia|].
    cbn [orb Rect.x Rect.y Rect.width Rect.height].
    replace (minX + (maxX - minX + 1) - 1) with maxX by lia.
    replace (minY + (maxY - minY + 1) - 1) with maxY by lia.
    destruct Hi as [Hx' Hy']. fold w h in Hx', Hy'.
    split; [|split; [|split]].
    + destruct HminX as [-> | H]; [lia|].
      destruct (Hside _ _ H) as (k & Hi & Hs' & E). rewrite E in Hi, Hs'. eauto.
    + destruct HmaxX as [-> | H].
      * exists y. assert (x = 0) as <- by lia. split; [split; assumption|exact Hs].
      * destruct (Hside _ _ H) as (k & Hi & Hs' & E). rewrite E in Hi, Hs'. eauto.
    + destruct HminY as [-> | H]; [lia|].
      destruct (Hside _ _ H) as (k & Hi & Hs' & E). rewrite E in Hi, Hs'. eauto.
    + destruct HmaxY as [-> | H].
      * exists x. assert (y = 0) as <- by lia. split; [split; assumption|exact Hs].
      * destruct (Hside _ _ H) as (k & Hi & Hs' & E). rewrite E in Hi, Hs'. eauto.
Qed.

Lemma computeBounds_bounding_box_witness :
  (exists y, (0 <= Rect.x (computeBounds mask_2x2) < 2 /\ 0 <= y < 2) /\
             js_gt (strength mask_2x2 (Rect.x (computeBounds mask_2x2)) y) (Some 0) = true) /\
  computeBounds mask_2x2 = Rect.mk 0 0 2 2.
Proof.
  split; [|reflexivity].
  apply (proj2 (proj2 (computeBounds_bounding_box mask_2x2 ltac:(simpl; lia)
                         ltac:(simpl; lia)))).
  exists 1, 0. split; [simpl; lia|reflexivity].
Defined.

(** A mask without a pixel of positive strength has the zero rectangle
    for bounds. *)
Lemma computeBounds_none (mask : ImageData.t) :
  0 < ImageData.width mask ->
  (forall k, js_gt (typed_get (ImageData.data mask) (k * 4)) (Some 0) = false) ->
  computeBounds mask = Rect.mk 0 0 0 0.
Proof.
  intros Hw Hnone. unfold computeBounds.
  assert (E : for_lt 0 (ImageData.height mask) (fun y acc =>
                for_lt 0 (ImageData.width mask) (fun x acc =>
                  let '(minX, minY, maxX, maxY) := acc in
                  if js_gt (typed_get (ImageData.data mask)
                              ((y * ImageData.width mask + x) * 4)) (Some 0)
                  then (Z.min minX x, Z.min minY y, Z.max maxX x, Z.max maxY y)
                  else acc) acc) (ImageData.width mask, ImageData.height mask, 0, 0)
              = (ImageData.width mask, ImageData.height mask, 0, 0)).
  { apply (for_lt_inv (fun acc => acc = (ImageData.width mask, ImageData.height mask, 0, 0)));
      [reflexivity|].
    intros y acc Hy ->.
    apply (for_lt_inv (fun acc => acc = (ImageData.width mask, ImageData.height mask, 0, 0)));
      [reflexivity|].
    intros x acc Hx ->. rewrite Hnone. reflexivity. }
  rewrite E.
  destruct (Z.ltb_spec 0 (ImageData.width mask)); [reflexivity|lia].
Qed.

(** ** Dilation and erosion as extremes over the structuring element *)

(** The value [erode] writes at [(x, y)] is a byte no larger than any
    strength within the structuring element. *)
Lemma erode_minVal_upper mask radius x y :
  ImageData.wf mask ->
  (exists M, erode_minVal mask radius x y = Some M /\ 0 <= M <= 255) /\
  forall dx dy v,
    in_disk radius dx dy ->
    0 <= x + dx < ImageData.width mask -> 0 <= y + dy < ImageData.height mask ->
    strength mask (x + dx) (y + dy) = Some v ->
    exists M, erode_minVal mask radius x y = Some M /\ M <= v.
Proof.
  intros Hwf. unfold erode_minVal, for_le.
  set (g := fun dx dy (minVal : option Z) =>
    if Qltb (radius * radius) (inject_Z (dx * dx + dy * dy)) then minVal
    else if (x + dx <? 0) || (ImageData.width mask <=? x + dx) || (y + dy <? 0)
            || (ImageData.height mask <=? y + dy) then minVal
    else js_min minVal (typed_get (ImageData.data mask)
                          (((y + dy) * ImageData.width mask + (x + dx)) * 4))).
  change (for_lt (- Qceiling radius) (Qceiling radius + 1) _ (Some 255))
    with (for_lt (- Qceiling radius) (Qceiling radius + 1)
            (fun dy t => for_lt (- Qceiling radius) (Qceiling radius + 1)
                           (fun dx t => g dx dy t) t) (Some 255)).
  set (I := fun acc : option Z => exists M, acc = Some M /\ 0 <= M <= 255).
  assert (HI : forall dx dy t, I t -> I (g dx dy t)).
  { intros dx dy t (M & -> & HM). unfold g.
    destruct (Qltb _ _); [exists M; auto|].
    destruct (Z.ltb_spec (x + dx) 0); [exists M; auto|].
    destruct (Z.leb_spec (ImageData.width mask) (x + dx)); [exists M; auto|].
    destruct (Z.ltb_spec (y + dy) 0); [exists M; auto|].
    destruct (Z.leb_spec (ImageData.height mask) (y + dy)); [exists M; auto|].
    cbn [orb].
    destruct (wf_strength_range mask (x + dx) (y + dy) Hwf) as (v & Hv & Hr); [lia|lia|].
    unfold strength in Hv. rewrite Hv. exists (Z.min M v). split; [reflexivity|lia]. }
  split.
  - apply (for_lt_inv I); [exists 255; split; [reflexivity|lia]|].
    intros dy t _ Ht. apply (for_lt_inv I); [exact Ht|]. intros dx u _. apply HI.
  - intros dx0 dy0 v (Hdx & Hdy & Hd) Hx Hy Hv.
    apply (nested_visit I (fun acc => exists M, acc = Some M /\ M <= v) g _ _ dx0 dy0);
      try lia.
    + exists 255. split; [reflexivity|lia].
    + intros dx dy t _ _. apply HI.
    + intros t (M & -> & HM). unfold g. rewrite Hd.
      destruct (Z.ltb_spec (x + dx0) 0); [lia|].
      destruct (Z.leb_spec (ImageData.width mask) (x + dx0)); [lia|].
      destruct (Z.ltb_spec (y + dy0) 0); [lia|].
      destruct (Z.leb_spec (ImageData.height mask) (y + dy0)); [lia|].
      cbn [orb]. unfold strength in Hv. rewrite Hv.
      exists (Z.min M v). split; [reflexivity|lia].
    + intros dx dy t _ _ Ht (M & -> & HM).
      destruct (HI dx dy (Some M) Ht) as (M' & HM' & _).
      exists M'. split; [exact HM'|].
      revert HM'. unfold g.
      destruct (Qltb (radius * radius) (inject_Z (dx * dx + dy * dy))); cbv iota;
        [intros [= <-]; lia|].
      destruct (_ || _); cbv iota; [intros [= <-]; lia|].
      destruct (typed_get _ _) as [u|]; cbn; [|discriminate].
      intros [= <-]. lia.
Qed.

(** The value [dilate] writes is 0 or the strength of a pixel within the
    structuring element, and the one [erode] writes is 255 or such a
    strength. *)
Lemma dilate_maxVal_attained mask radius x y M :
  dilate_maxVal mask radius x y = Some M ->
  M = 0 \/
  exists dx dy,
    in_disk radius dx dy /\
    0 <= x + dx < ImageData.width mask /\ 0 <= y + dy < ImageData.height mask /\
    strength mask (x + dx) (y + dy) = Some M.
Proof.
  unfold dilate_maxVal, for_le. revert M.
  set (R := Qceiling radius).
  pose (P := fun acc : option Z => forall M, acc = Some M ->
    M = 0 \/
    exists dx dy,
      in_disk radius dx dy /\
      0 <= x + dx < ImageData.width mask /\ 0 <= y + dy < ImageData.height mask /\
      strength mask (x + dx) (y + dy) = Some M).
  apply (for_lt_inv P); subst P; cbv beta.
  - intros M [= <-]. left. reflexivity.
  - intros dy t Hdy Ht.
    pose (P := fun acc : option Z => forall M, acc = Some M ->
      M = 0 \/
      exists dx dy,
        in_disk radius dx dy /\
        0 <= x + dx < ImageData.width mask /\ 0 <= y + dy < ImageData.height mask /\
        strength mask (x + dx) (y + dy) = Some M).
    apply (for_lt_inv P); subst P; cbv beta; [exact Ht|].
    intros dx u Hdx Hu M.
    destruct (Qltb _ _) eqn:Hd; [apply Hu|].
    destruct (Z.ltb_spec (x + dx) 0); [apply Hu|].
    destruct (Z.leb_spec (ImageData.width mask) (x + dx)); [apply Hu|].
    destruct (Z.ltb_spec (y + dy) 0); [apply Hu|].
    destruct (Z.leb_spec (ImageData.height mask) (y + dy)); [apply Hu|].
    cbn [orb]. destruct u as [m|]; [|discriminate].
    destruct (typed_get _ _) as [v|] eqn:Hv; [|discriminate].
    cbn. intros [= <-].
    destruct (Z.max_spec m v) as [[_ ->] | [_ ->]]; [|apply Hu; reflexivity].
    right. exists dx, dy. split; [repeat split; (lia || exact Hd)|].
    split; [lia|]. split; [lia|]. exact Hv.
Qed.

Lemma erode_minVal_attained mask radius x y M :
  erode_minVal mask radius x y = Some M ->
  M = 255 \/
  exists dx dy,
    in_disk radius dx dy /\
    0 <= x + dx < ImageData.width mask /\ 0 <= y + dy < ImageData.height mask /\
    strength mask (x + dx) (y + dy) = Some M.
Proof.
  unfold erode_minVal, for_le. revert M.
  pose (P := fun acc : option Z => forall M, acc = Some M ->
    M = 255 \/
    exists dx dy,
      in_disk radius dx dy /\
      0 <= x + dx < ImageData.width mask /\ 0 <= y + dy < ImageData.height mask /\
      strength mask (x + dx) (y + dy) = Some M).
  apply (for_lt_inv P); subst P; cbv beta.
  - intros M [= <-]. left. reflexivity.
  - intros dy t Hdy Ht.
    pose (P := fun acc : option Z => forall M, acc = Some M ->
      M = 255 \/
      exists dx dy,
        in_disk radius dx dy /\
        0 <= x + dx < ImageData.width mask /\ 0 <= y + dy < ImageData.height mask /\
        strength mask (x + dx) (y + dy) = Some M).
    apply (for_lt_inv P); subst P; cbv beta; [exact Ht|].
    intros dx u Hdx Hu M.
    destruct (Qltb _ _) eqn:Hd; [apply Hu|].
    destruct (Z.ltb_spec (x + dx) 0); [apply Hu|].
    destruct (Z.leb_spec (ImageData.width mask) (x + dx)); [apply Hu|].
    destruct (Z.ltb_spec (y + dy) 0); [apply Hu|].
    destruct (Z.leb_spec (ImageData.height mask) (y + dy)); [apply Hu|].
    cbn [orb]. destruct u as [m|]; [|discriminate].
    destruct (typed_get _ _) as [v|] eqn:Hv; [|discriminate].
    cbn. intros [= <-].
    destruct (Z.min_spec m v) as [[_ ->] | [_ ->]]; [apply Hu; reflexivity|].
    right. exists dx, dy. split; [repeat split; (lia || exact Hd)|].
    split; [lia|]. split; [lia|]. exact Hv.
Qed.

Lemma in_disk_center radius : (- (1) < radius)%Q -> in_disk radius 0 0.
Proof.
  intros Hr. unfold in_disk.
  assert (0 <= Qceiling radius).
  { pose proof (Qle_ceiling radius) as Hup.
    assert (H1 : (inject_Z (-1) < inject_Z (Qceiling radius))%Q)
      by (eapply Qlt_le_trans; [exact Hr|exact Hup]).
    rewrite <- Zlt_Qlt in H1. lia. }
  repeat split; try lia. apply Qltb_square_zero.
Qed.

Lemma in_disk_mono r1 r2 dx dy :
  (0 <= r1)%Q -> (r1 <= r2)%Q -> in_disk r1 dx dy -> in_disk r2 dx dy.
Proof.
  intros H0 Hle (Hx & Hy & Hd).
  pose proof (Qceiling_resp_le _ _ Hle) as Hc.
  repeat split; try lia.
  apply Qltb_false. unfold Qltb in Hd. apply negb_false_iff, Qle_bool_iff in Hd.
  eapply Qle_trans; [exact Hd|]. nra.
Qed.

(** X2: for every radius above -1, hence for every radius from 0 on,
    [shrinkSelection] never raises a strength and [growSelection] never
    lowers one: at each pixel of a well-formed mask the shrunk strength
    is at most the original one, which is at most the grown one. *)
Theorem shrink_below_grow_above (selection : Selection.t) (radius : Q) (x y : Z) :
  ImageData.wf (Selection.mask selection) ->
  (- (1) < radius)%Q ->
  0 <= x < ImageData.width (Selection.mask selection) ->
  0 <= y < ImageData.height (Selection.mask selection) ->
  exists v lo hi,
    strength (Selection.mask selection) x y = Some v /\
    strength (Selection.mask (shrinkSelection selection radius)) x y = Some lo /\
    strength (Selection.mask (growSelection selection radius)) x y = Some hi /\
    lo <= v <= hi.
Proof.
  intros Hwf Hr Hx Hy. set (m := Selection.mask selection) in *.
  destruct (wf_strength_range m x y Hwf Hx Hy) as (v & Hv & Hvr).
  pose proof (in_disk_center radius Hr) as Hc.
  destruct (dilate_maxVal_upper m radius x y Hwf) as [(M & HM & HMr) Hup].
  destruct (erode_minVal_upper m radius x y Hwf) as [(L & HL & HLr) Hlow].
  destruct (Hup 0 0 v Hc) as (M' & HM' & HvM); rewrite ?Z.add_0_r; try assumption.
  destruct (Hlow 0 0 v Hc) as (L' & HL' & HvL); rewrite ?Z.add_0_r; try assumption.
  rewrite HM in HM'. injection HM' as <-. rewrite HL in HL'. injection HL' as <-.
  exists v, L, M. split; [exact Hv|]. unfold shrinkSelection, growSelection.
  cbn [Selection.mask]. fold m.
  rewrite erode_strength, dilate_strength by assumption.
  rewrite HL, HM, !clamp8_id by lia. repeat split; lia.
Qed.

Lemma shrink_below_grow_above_witness :
  exists v lo hi,
    strength mask_2x2 0 1 = Some v /\
    strength (Selection.mask (shrinkSelection (selection_of mask_2x2) 1)) 0 1 = Some lo /\
    strength (Selection.mask (growSelection (selection_of mask_2x2) 1)) 0 1 = Some hi /\
    lo <= v <= hi.
Proof.
  apply (shrink_below_grow_above (selection_of mask_2x2) 1 0 1);
    [exact mask_2x2_wf | reflexivity | simpl; lia | simpl; lia].
Defined.

(** X4: a larger radius grows more and shrinks more: for [0 <= r1 <=
    r2], at each pixel of a well-formed mask the strength grown by [r1]
    is at most the one grown by [r2], and the strength shrunk by [r2] is
    at most the one shrunk by [r1]. *)
Theorem grow_shrink_monotone_in_radius (selection : Selection.t) (r1 r2 : Q) (x y : Z) :
  ImageData.wf (Selection.mask selection) ->
  (0 <= r1)%Q -> (r1 <= r2)%Q ->
  0 <= x < ImageData.width (Selection.mask selection) ->
  0 <= y < ImageData.height (Selection.mask selection) ->
  exists g1 g2 s1 s2,
    strength (Selection.mask (growSelection selection r1)) x y = Some g1 /\
    strength (Selection.mask (growSelection selection r2)) x y = Some g2 /\
    strength (Selection.mask (shrinkSelection selection r1)) x y = Some s1 /\
    strength (Selection.mask (shrinkSelection selection r2)) x y = Some s2 /\
    g1 <= g2 /\ s2 <= s1.
Proof.
  intros Hwf H0 Hle Hx Hy. set (m := Selection.mask selection) in *.
  destruct (dilate_maxVal_upper m r1 x y Hwf) as [(G1 & HG1 & HG1r) _].
  destruct (dilate_maxVal_upper m r2 x y Hwf) as [(G2 & HG2 & HG2r) Hup].
  destruct (erode_minVal_upper m r1 x y Hwf) as [(S1 & HS1 & HS1r) _].
  destruct (erode_minVal_upper m r2 x y Hwf) as [(S2 & HS2 & HS2r) Hlow].
  exists G1, G2, S1, S2. unfold growSelection, shrinkSelection. cbn [Selection.mask].
  fold m. rewrite !dilate_strength, !erode_strength by assumption.
  rewrite HG1, HG2, HS1, HS2, !clamp8_id by lia.
  repeat split.
  - destruct (dilate_maxVal_attained m r1 x y G1 HG1)
      as [-> | (dx & dy & Hd & Hx' & Hy' & Hv)]; [lia|].
    destruct (Hup dx dy G1 (in_disk_mono r1 r2 dx dy H0 Hle Hd) Hx' Hy' Hv)
      as (M & HM & HvM).
    rewrite HG2 in HM. injection HM as <-. exact HvM.
  - destruct (erode_minVal_attained m r1 x y S1 HS1)
      as [-> | (dx & dy & Hd & Hx' & Hy' & Hv)]; [lia|].
    destruct (Hlow dx dy S1 (in_disk_mono r1 r2 dx dy H0 Hle Hd) Hx' Hy' Hv)
      as (M & HM & HvM).
    rewrite HS2 in HM. injection HM as <-. exact HvM.
Qed.

Lemma grow_shrink_monotone_in_radius_witness :
  exists g1 g2 s1 s2,
    strength (Selection.mask (growSelection (selection_of mask_2x2) 0)) 0 0 = Some g1 /\
    strength (Selection.mask (growSelection (selection_of mask_2x2) 1)) 0 0 = Some g2 /\
    strength (Selection.mask (shrinkSelection (selection_of mask_2x2) 0)) 0 0 = Some s1 /\
    strength (Selection.mask (shrinkSelection (selection_of mask_2x2) 1)) 0 0 = Some s2 /\
    g1 <= g2 /\ s2 <= s1.
Proof.
  apply (grow_shrink_monotone_in_radius (selection_of mask_2x2) 0 1 0 0);
    [exact mask_2x2_wf | discriminate | discriminate | simpl; lia | simpl; lia].
Defined.

(** Two buffers of [n] pixels that agree pixel by pixel are equal. *)
Lemma pixels_eq (a b : list Z) (n : Z) :
  Z.of_nat (length a) = 4 * n -> Z.of_nat (length b) = 4 * n ->
  (forall k, 0 <= k < n -> pixel_of a k = pixel_of b k) ->
  a = b.
Proof.
  intros Ha Hb Hpix. apply list_eq. intros i.
  destruct (decide (i < length a)%nat) as [Hi|Hi].
  - assert (Hk : 0 <= Z.of_nat i / 4 < n)
      by (split; [apply Z.div_pos; lia | apply Z.div_lt_upper_bound; lia]).
    pose proof (Hpix _ Hk) as Hp. unfold pixel_of, channel in Hp.
    pose proof (Z.div_mod (Z.of_nat i) 4 ltac:(lia)) as Hdm.
    pose proof (Z.mod_pos_bound (Z.of_nat i) 4 ltac:(lia)) as Hm.
    injection Hp as H0 H1 H2 H3.
    rewrite <- (Nat2Z.id i), <- !typed_get_lookup by lia.
    assert (Hc : Z.of_nat i mod 4 = 0 \/ Z.of_nat i mod 4 = 1 \/
                 Z.of_nat i mod 4 = 2 \/ Z.of_nat i mod 4 = 3) by lia.
    destruct Hc as [Hc|[Hc|[Hc|Hc]]]; rewrite Hc in Hdm; rewrite Hdm; assumption.
  - rewrite !lookup_ge_None_2 by lia. reflexivity.
Qed.

(** Bytes that are all channels of pixels holding bytes are bytes. *)
Lemma pixels_bytes (out : list Z) (n : Z) :
  Z.of_nat (length out) = 4 * n ->
  (forall k, 0 <= k < n -> exists r g b a,
     pixel_of out k = (Some r, Some g, Some b, Some a) /\
     0 <= r <= 255 /\ 0 <= g <= 255 /\ 0 <= b <= 255 /\ 0 <= a <= 255) ->
  Forall (fun v => 0 <= v <= 255) out.
Proof.
  intros Hlen Hpix. apply Forall_lookup. intros i v Hv.
  pose proof (lookup_lt_Some _ _ _ Hv) as Hi.
  assert (Hk : 0 <= Z.of_nat i / 4 < n)
    by (split; [apply Z.div_pos; lia | apply Z.div_lt_upper_bound; lia]).
  destruct (Hpix _ Hk) as (r & g & b & a & Hp & Hr & Hg & Hb & Ha).
  unfold pixel_of, channel in Hp.
  pose proof (Z.div_mod (Z.of_nat i) 4 ltac:(lia)) as Hdm.
  pose proof (Z.mod_pos_bound (Z.of_nat i) 4 ltac:(lia)) as Hm.
  assert (Hget : typed_get out (Z.of_nat i) = Some v)
    by (rewrite typed_get_lookup by lia; rewrite Nat2Z.id; exact Hv).
  injection Hp as H0 H1 H2 H3.
  assert (Hc : Z.of_nat i mod 4 = 0 \/ Z.of_nat i mod 4 = 1 \/
               Z.of_nat i mod 4 = 2 \/ Z.of_nat i mod 4 = 3) by lia.
  destruct Hc as [Hc|[Hc|[Hc|Hc]]]; rewrite Hc in Hdm; rewrite Hdm in Hget;
    [rewrite H0 in Hget|rewrite H1 in Hget|rewrite H2 in Hget|rewrite H3 in Hget];
    injection Hget as <-; assumption.
Qed.

(** What [invertSelection] returns on a mask of the engine's size: an
    image of bytes whose strengths are the complements to 255. *)
Lemma invertSelection_strength this selection :
  ImageData.wf (Selection.mask selection) ->
  ImageData.width (Selection.mask selection) = SelectionEngine.width this ->
  ImageData.height (Selection.mask selection) = SelectionEngine.height this ->
  exists inverse,
    invertSelection this selection = Some inverse /\
    ImageData.wf (Selection.mask inverse) /\
    ImageData.width (Selection.mask inverse) = SelectionEngine.width this /\
    ImageData.height (Selection.mask inverse) = SelectionEngine.height this /\
    (forall k v, 0 <= k < SelectionEngine.width this * SelectionEngine.height this ->
       channel (ImageData.data (Selection.mask selection)) k 0 = Some v ->
       pixel_of (ImageData.data (Selection.mask inverse)) k
       = (Some (255 - v),
          Some (clamp8 (js_sub (Some 255)
                  (channel (ImageData.data (Selection.mask selection)) k 1))),
          Some (clamp8 (js_sub (Some 255)
                  (channel (ImageData.data (Selection.mask selection)) k 2))),
          Some 255)).
Proof.
  intros Hwf Hw Hh. pose proof Hwf as (Hw0 & Hh0 & Hlen & Hbytes).
  rewrite Hw, Hh in *.
  destruct (invertSelection_spec this selection Hw0 Hh0 Hlen) as (out & E & L & P).
  eexists. split; [exact E|]. cbn [Selection.mask ImageData.width ImageData.height
    ImageData.data]. split; [|split; [reflexivity|split; [reflexivity|]]].
  - repeat split; cbn [ImageData.width ImageData.height ImageData.data]; try assumption.
    + rewrite L. exact Hlen.
    + apply (pixels_bytes out (SelectionEngine.width this * SelectionEngine.height this)).
      * rewrite L. lia.
      * intros k Hk. rewrite (P k Hk). unfold invert_pixel, pixel_of.
        do 4 eexists. split; [reflexivity|].
        repeat split;
          first [apply (proj1 (clamp8_range _)) | apply (proj2 (clamp8_range _)) | lia].
  - intros k v Hk Hv. rewrite (P k Hk). unfold invert_pixel, pixel_of. rewrite Hv.
    assert (Hk' : 0 <= k < ImageData.width (Selection.mask selection)
                            * ImageData.height (Selection.mask selection))
      by (rewrite Hw, Hh; exact Hk).
    destruct (wf_channel_range _ k 0 Hwf Hk' ltac:(lia)) as (r & Hr & Rr).
    rewrite Hv in Hr. injection Hr as <-.
    cbn [js_sub js_lift2]. rewrite clamp8_id by lia. reflexivity.
Qed.

(** ** Growing, shrinking and inverting *)

Section Complement.
Variables (m m' : ImageData.t).
Hypothesis Hwf : ImageData.wf m.
Hypothesis Hwf' : ImageData.wf m'.
Hypothesis Hw : ImageData.width m' = ImageData.width m.
Hypothesis Hh : ImageData.height m' = ImageData.height m.
Hypothesis Hcompl : forall x y v,
  0 <= x < ImageData.width m -> 0 <= y < ImageData.height m ->
  strength m x y = Some v -> strength m' x y = Some (255 - v).

(** On the complement of a mask, the least strength around a pixel is
    the complement of the greatest, and the other way round. *)
Lemma erode_minVal_complement radius x y M :
  dilate_maxVal m radius x y = Some M ->
  erode_minVal m' radius x y = Some (255 - M).
Proof.
  intros HM.
  destruct (dilate_maxVal_upper m radius x y Hwf) as [(M0 & HM0 & HMr) Hup].
  rewrite HM in HM0. injection HM0 as <-.
  destruct (erode_minVal_upper m' radius x y Hwf') as [(L & HL & HLr) Hlow].
  rewrite HL. f_equal. apply Z.le_antisymm.
  - destruct (dilate_maxVal_attained m radius x y M HM)
      as [-> | (dx & dy & Hd & Hx & Hy & Hv)]; [lia|].
    destruct (Hlow dx dy (255 - M) Hd) as (L' & HL' & Hle);
      [rewrite Hw; exact Hx|rewrite Hh; exact Hy|apply Hcompl; assumption|].
    rewrite HL in HL'. injection HL' as <-. exact Hle.
  - destruct (erode_minVal_attained m' radius x y L HL)
      as [-> | (dx & dy & Hd & Hx & Hy & Hv)]; [lia|].
    rewrite Hw in Hx. rewrite Hh in Hy.
    destruct (wf_strength_range m (x + dx) (y + dy) Hwf Hx Hy) as (v & Hv0 & Hvr).
    rewrite (Hcompl _ _ _ Hx Hy Hv0) in Hv. injection Hv as <-.
    destruct (Hup dx dy v Hd Hx Hy Hv0) as (M' & HM' & Hle).
    rewrite HM in HM'. injection HM' as <-. lia.
Qed.

Lemma dilate_maxVal_complement radius x y L :
  erode_minVal m radius x y = Some L ->
  dilate_maxVal m' radius x y = Some (255 - L).
Proof.
  intros HL.
  destruct (erode_minVal_upper m radius x y Hwf) as [(L0 & HL0 & HLr) Hlow].
  rewrite HL in HL0. injection HL0 as <-.
  destruct (dilate_maxVal_upper m' radius x y Hwf') as [(M & HM & HMr) Hup].
  rewrite HM. f_equal. apply Z.le_antisymm.
  - destruct (dilate_maxVal_attained m' radius x y M HM)
      as [-> | (dx & dy & Hd & Hx & Hy & Hv)]; [lia|].
    rewrite Hw in Hx. rewrite Hh in Hy.
    destruct (wf_strength_range m (x + dx) (y + dy) Hwf Hx Hy) as (v & Hv0 & Hvr).
    rewrite (Hcompl _ _ _ Hx Hy Hv0) in Hv. injection Hv as <-.
    destruct (Hlow dx dy v Hd Hx Hy Hv0) as (L' & HL' & Hle).
    rewrite HL in HL'. injection HL' as <-. lia.
  - destruct (erode_minVal_attained m radius x y L HL)
      as [-> | (dx & dy & Hd & Hx & Hy & Hv)]; [lia|].
    destruct (Hup dx dy (255 - L) Hd) as (M' & HM' & Hle);
      [rewrite Hw; exact Hx|rewrite Hh; exact Hy|apply Hcompl; assumption|].
    rewrite HM in HM'. injection HM' as <-. exact Hle.
Qed.
End Complement.

Lemma dilate_wf mask radius : ImageData.wf mask -> ImageData.wf (dilate mask radius).
Proof.
  intros Hwf. pose proof Hwf as (Hw & Hh & Hlen & _).
  apply (pixels_wf (ImageData.width mask) (ImageData.height mask) _
           (fun k => dilate_maxVal mask radius (k mod ImageData.width mask)
                       (k / ImageData.width mask)) (Some 255)); try assumption.
  - apply dilate_length; lia.
  - intros k Hk. apply dilate_pixel; lia.
Qed.

Lemma erode_wf mask radius : ImageData.wf mask -> ImageData.wf (erode mask radius).
Proof.
  intros Hwf. pose proof Hwf as (Hw & Hh & Hlen & _).
  apply (pixels_wf (ImageData.width mask) (ImageData.height mask) _
           (fun k => erode_minVal mask radius (k mod ImageData.width mask)
                       (k / ImageData.width mask)) (Some 255)); try assumption.
  - apply erode_length; lia.
  - intros k Hk. apply erode_pixel; lia.
Qed.

(** X3: shrinking and growing are dual under inversion: on a well-formed
    mask of the engine's size and for every radius, shrinking the
    inverse of a selection gives the mask of the inverse of the grown
    selection, and growing the inverse gives the mask of the inverse of
    the shrunk one. *)
Theorem shrink_inverse_is_inverse_grow (this : SelectionEngine.t)
    (selection : Selection.t) (radius : Q) :
  ImageData.wf (Selection.mask selection) ->
  ImageData.width (Selection.mask selection) = SelectionEngine.width this ->
  ImageData.height (Selection.mask selection) = SelectionEngine.height this ->
  exists inverse inverse_of_grown inverse_of_shrunk,
    invertSelection this selection = Some inverse /\
    invertSelection this (growSelection selection radius) = Some inverse_of_grown /\
    invertSelection this (shrinkSelection selection radius) = Some inverse_of_shrunk /\
    Selection.mask (shrinkSelection inverse radius) = Selection.mask inverse_of_grown /\
    Selection.mask (growSelection inverse radius) = Selection.mask inverse_of_shrunk.
Proof.
  intros Hwf Hw Hh. set (m := Selection.mask selection) in *.
  pose proof Hwf as (Hw0 & Hh0 & Hlen & _).
  destruct (invertSelection_strength this selection Hwf Hw Hh)
    as (inverse & Einv & Hwfi & Hwi & Hhi & Pinv).
  destruct (invertSelection_strength this (growSelection selection radius))
    as (ig & Eig & Hwfg & Hwg & Hhg & Pg);
    [apply dilate_wf; exact Hwf|exact Hw|exact Hh|].
  destruct (invertSelection_strength this (shrinkSelection selection radius))
    as (is' & Eis & Hwfs & Hws & Hhs & Ps);
    [apply erode_wf; exact Hwf|exact Hw|exact Hh|].
  exists inverse, ig, is'. split; [exact Einv|]. split; [exact Eig|]. split; [exact Eis|].
  fold m in Pinv.
  unfold shrinkSelection, growSelection in *. cbn [Selection.mask] in *.
  remember (Selection.mask inverse) as mi eqn:Emi. clear Emi.
  assert (Hcompl : forall x y v,
            0 <= x < ImageData.width m -> 0 <= y < ImageData.height m ->
            strength m x y = Some v -> strength mi x y = Some (255 - v)).
  { intros x y v Hx Hy Hv. rewrite strength_channel in Hv |- *. rewrite Hwi, <- Hw.
    pose proof (Pinv (y * ImageData.width m + x) v ltac:(rewrite <- Hw, <- Hh; nia) Hv) as Hp.
    unfold pixel_of in Hp. injection Hp as H0 _ _ _. exact H0. }
  assert (Hwim : ImageData.width mi = ImageData.width m) by congruence.
  assert (Hhim : ImageData.height mi = ImageData.height m) by congruence.
  assert (Hdiv : forall k, 0 <= k < ImageData.width m * ImageData.height m ->
            0 <= k mod ImageData.width m < ImageData.width m /\
            0 <= k / ImageData.width m < ImageData.height m).
  { intros k Hk. split; [apply Z.mod_pos_bound; lia|].
    split; [apply Z.div_pos; lia|apply Z.div_lt_upper_bound; lia]. }
  destruct Hwfg as (_ & _ & Hleng & _). destruct Hwfs as (_ & _ & Hlens & _).
  rewrite Hwg, Hhg in Hleng. rewrite Hws, Hhs in Hlens.
  split.
  - destruct (Selection.mask ig) as [wg hg outg]. cbn [ImageData.width ImageData.height ImageData.data] in Hwg, Hhg, Pg, Hleng. subst wg hg.
    unfold erode at 1. rewrite Hwim, Hhim, Hw, Hh. f_equal.
    apply (pixels_eq _ _ (SelectionEngine.width this * SelectionEngine.height this)).
    + pose proof (erode_length mi radius ltac:(lia) ltac:(lia)) as HL.
      unfold erode in HL. cbn [ImageData.data] in HL. rewrite Hwim, Hhim, Hw, Hh in HL.
      rewrite HL. lia.
    + lia.
    + intros k Hk.
      pose proof (erode_pixel mi radius k ltac:(lia) ltac:(lia)
                    ltac:(rewrite Hwim, Hhim, Hw, Hh; exact Hk)) as He.
      cbv zeta in He. unfold erode in He. cbn [ImageData.data] in He.
      rewrite Hwim, Hhim, Hw, Hh in He. rewrite He. clear He.
      pose proof (dilate_pixel m radius k ltac:(lia) ltac:(lia)
                    ltac:(rewrite Hw, Hh; exact Hk)) as Hd.
      cbv zeta in Hd.
      destruct (dilate_maxVal_upper m radius (k mod ImageData.width m)
                  (k / ImageData.width m) Hwf) as [(M & HM & HMr) _].
      rewrite HM, clamp8_id in Hd by lia.
      fold m in Pg. remember (ImageData.data (dilate m radius)) as d eqn:Ed in *. clear Ed.
      unfold pixel_of in Hd. injection Hd as H0 H1 H2 _.
      rewrite (Pg k M Hk H0), H1, H2.
      rewrite <- Hw.
      rewrite (erode_minVal_complement m mi Hwf Hwfi Hwim Hhim Hcompl radius _ _ M HM).
      cbn [js_sub js_lift2]. rewrite !clamp8_id by lia. reflexivity.
  - destruct (Selection.mask is') as [ws hs outs]. cbn [ImageData.width ImageData.height ImageData.data] in Hws, Hhs, Ps, Hlens. subst ws hs.
    unfold dilate at 1. rewrite Hwim, Hhim, Hw, Hh. f_equal.
    apply (pixels_eq _ _ (SelectionEngine.width this * SelectionEngine.height this)).
    + pose proof (dilate_length mi radius ltac:(lia) ltac:(lia)) as HL.
      unfold dilate in HL. cbn [ImageData.data] in HL. rewrite Hwim, Hhim, Hw, Hh in HL.
      rewrite HL. lia.
    + lia.
    + intros k Hk.
      pose proof (dilate_pixel mi radius k ltac:(lia) ltac:(lia)
                    ltac:(rewrite Hwim, Hhim, Hw, Hh; exact Hk)) as He.
      cbv zeta in He. unfold dilate in He. cbn [ImageData.data] in He.
      rewrite Hwim, Hhim, Hw, Hh in He. rewrite He. clear He.
      pose proof (erode_pixel m radius k ltac:(lia) ltac:(lia)
                    ltac:(rewrite Hw, Hh; exact Hk)) as Hd.
      cbv zeta in Hd.
      destruct (erode_minVal_upper m radius (k mod ImageData.width m)
                  (k / ImageData.width m) Hwf) as [(L & HL & HLr) _].
      rewrite HL, clamp8_id in Hd by lia.
      fold m in Ps. remember (ImageData.data (erode m radius)) as d eqn:Ed in *. clear Ed.
      unfold pixel_of in Hd. injection Hd as H0 H1 H2 _.
      rewrite (Ps k L Hk H0), H1, H2.
      rewrite <- Hw.
      rewrite (dilate_maxVal_complement m mi Hwf Hwfi Hwim Hhim Hcompl radius _ _ L HL).
      cbn [js_sub js_lift2]. rewrite !clamp8_id by lia. reflexivity.
Qed.

Lemma shrink_inverse_is_inverse_grow_witness :
  exists inverse inverse_of_grown inverse_of_shrunk,
    invertSelection (SelectionEngine.mk 2 2) (selection_of mask_2x2) = Some inverse /\
    invertSelection (SelectionEngine.mk 2 2) (growSelection (selection_of mask_2x2) 1)
      = Some inverse_of_grown /\
    invertSelection (SelectionEngine.mk 2 2) (shrinkSelection (selection_of mask_2x2) 1)
      = Some inverse_of_shrunk /\
    Selection.mask (shrinkSelection inverse 1) = Selection.mask inverse_of_grown /\
    Selection.mask (growSelection inverse 1) = Selection.mask inverse_of_shrunk.
Proof.
  apply (shrink_inverse_is_inverse_grow (SelectionEngine.mk 2 2) (selection_of mask_2x2) 1);
    [exact mask_2x2_wf | reflexivity | reflexivity].
Defined.

(** ** The median filter *)

Lemma js_sort_defined (values : list (option Z)) :
  Forall is_Some values ->
  js_sort values = Some <$> merge_sort Z.le (omap id values) /\
  length (omap id values) = length values /\
  forall v, v ∈ omap id values -> Some v ∈ values.
Proof.
  intros Hall.
  assert (Hlen : length (omap id values) = length values).
  { induction Hall as [|o l [v ->] _ IH]; [reflexivity|]. cbn. rewrite IH. reflexivity. }
  split; [|split; [exact Hlen|]].
  - unfold js_sort. rewrite Hlen, Nat.sub_diag. cbn. apply app_nil_r.
  - intros v Hv. apply list_elem_of_omap in Hv. destruct Hv as (o & Ho & Eo).
    cbn in Eo. subst o. exact Ho.
Qed.

(** The median [medianFilter] writes at a pixel of the image is the
    strength of a pixel of its window. *)
Lemma medianFilter_median_in_window mask radius x y :
  ImageData.wf mask -> (- (1) < radius)%Q ->
  0 <= x < ImageData.width mask -> 0 <= y < ImageData.height mask ->
  exists dx dy v,
    - Qceiling radius <= dx <= Qceiling radius /\
    - Qceiling radius <= dy <= Qceiling radius /\
    0 <= x + dx < ImageData.width mask /\ 0 <= y + dy < ImageData.height mask /\
    strength mask (x + dx) (y + dy) = Some v /\
    medianFilter_median mask radius x y = Some v.
Proof.
  intros Hwf Hr Hx Hy. unfold medianFilter_median, for_le.
  set (R := Qceiling radius).
  assert (HR : 0 <= R) by (destruct (in_disk_center radius Hr) as [H _]; subst R; lia).
  set (g := fun dx dy (values : list (option Z)) =>
    if (x + dx <? 0) || (ImageData.width mask <=? x + dx) || (y + dy <? 0)
       || (ImageData.height mask <=? y + dy) then values
    else values ++ [typed_get (ImageData.data mask)
                      (((y + dy) * ImageData.width mask + (x + dx)) * 4)]).
  change (for_lt (- R) (R + 1) _ [])
    with (for_lt (- R) (R + 1) (fun dy t => for_lt (- R) (R + 1) (fun dx t => g dx dy t) t) []).
  set (values := for_lt (- R) (R + 1) _ []).
  set (ok := fun o : option Z => exists dx dy v,
    - R <= dx <= R /\ - R <= dy <= R /\
    0 <= x + dx < ImageData.width mask /\ 0 <= y + dy < ImageData.height mask /\
    strength mask (x + dx) (y + dy) = Some v /\ o = Some v).
  assert (HI : forall dx dy t, - R <= dx < R + 1 -> - R <= dy < R + 1 ->
                 Forall ok t -> Forall ok (g dx dy t)).
  { intros dx dy t Hdx Hdy Ht. unfold g.
    destruct (Z.ltb_spec (x + dx) 0); [exact Ht|].
    destruct (Z.leb_spec (ImageData.width mask) (x + dx)); [exact Ht|].
    destruct (Z.ltb_spec (y + dy) 0); [exact Ht|].
    destruct (Z.leb_spec (ImageData.height mask) (y + dy)); [exact Ht|].
    cbn [orb]. apply Forall_app. split; [exact Ht|]. constructor; [|constructor].
    destruct (wf_strength_range mask (x + dx) (y + dy) Hwf) as (v & Hv & _); [lia|lia|].
    exists dx, dy, v. repeat split; try lia; [exact Hv|]. exact Hv. }
  assert (Hvalues : Forall ok values /\ values <> []).
  { split.
    - subst values. apply (for_lt_inv (Forall ok)); [constructor|].
      intros dy t Hdy Ht. apply (for_lt_inv (Forall ok)); [exact Ht|].
      intros dx u Hdx Hu. apply HI; assumption.
    - subst values.
      apply (nested_visit (fun _ => True) (fun t : list (option Z) => t <> []) g
               (- R) (R + 1) 0 0); try lia; auto.
      + intros t _. unfold g. rewrite !Z.add_0_r.
        destruct (Z.ltb_spec x 0); [lia|].
        destruct (Z.leb_spec (ImageData.width mask) x); [lia|].
        destruct (Z.ltb_spec y 0); [lia|].
        destruct (Z.leb_spec (ImageData.height mask) y); [lia|].
        cbn [orb]. destruct t; discriminate.
      + intros dx dy t _ _ _ Ht. unfold g. destruct (_ || _); [exact Ht|].
        destruct t; [contradiction|discriminate]. }
  destruct Hvalues as [Hok Hne]. clearbody values.
  destruct (js_sort_defined values) as (Es & El & Hin).
  { eapply Forall_impl; [exact Hok|]. intros o (dx & dy & v & _ & _ & _ & _ & _ & ->). eauto. }
  rewrite Es, length_fmap.
  pose proof (merge_sort_Permutation Z.le (omap id values)) as Hperm.
  rewrite (Permutation_length Hperm), El.
  assert (Hn : (0 < length values)%nat) by (destruct values; [contradiction|simpl; lia]).
  assert (Hidx : 0 <= Z.of_nat (length values) / 2 < Z.of_nat (length values))
    by (split; [apply Z.div_pos; lia|apply Z.div_lt_upper_bound; lia]).
  rewrite typed_get_lookup by lia. rewrite list_lookup_fmap.
  destruct (lookup_lt_is_Some_2 (merge_sort Z.le (omap id values))
              (Z.to_nat (Z.of_nat (length values) / 2))) as [v Hv].
  { rewrite (Permutation_length Hperm), El. lia. }
  rewrite Hv. cbn.
  assert (Hmem : Some v ∈ values).
  { apply Hin. rewrite <- Hperm. eapply list_elem_of_lookup_2. exact Hv. }
  rewrite Forall_forall in Hok. destruct (Hok _ Hmem) as (dx & dy & v' & H1 & H2 & H3 & H4 & H5 & E).
  injection E as <-. exists dx, dy, v. repeat split; try lia. exact H5.
Qed.

Lemma medianFilter_strength mask radius x y :
  0 <= x < ImageData.width mask -> 0 <= y < ImageData.height mask ->
  strength (medianFilter mask radius) x y
  = Some (clamp8 (medianFilter_median mask radius x y)).
Proof.
  intros Hx Hy. rewrite strength_channel.
  pose proof (medianFilter_pixel mask radius (y * ImageData.width mask + x)
                ltac:(lia) ltac:(lia) ltac:(cbn; nia)) as Hp.
  cbn zeta in Hp. destruct (linear_div_mod (ImageData.width mask) x y Hx) as [Hm Hd].
  rewrite Hm, Hd in Hp. unfold pixel_of in Hp. cbn [ImageData.width medianFilter].
  injection Hp as H0 _ _ _. exact H0.
Qed.

(** X5: [smoothSelection] makes no new strength: for every radius above
    -1, the smoothed strength of a pixel of a well-formed mask is the
    strength the mask has at some pixel of the image within the square
    window of [ceil radius] around it. *)
Theorem smoothSelection_picks_window_value (selection : Selection.t) (radius : Q)
    (x y : Z) :
  ImageData.wf (Selection.mask selection) ->
  (- (1) < radius)%Q ->
  0 <= x < ImageData.width (Selection.mask selection) ->
  0 <= y < ImageData.height (Selection.mask selection) ->
  exists dx dy v,
    - Qceiling radius <= dx <= Qceiling radius /\
    - Qceiling radius <= dy <= Qceiling radius /\
    0 <= x + dx < ImageData.width (Selection.mask selection) /\
    0 <= y + dy < ImageData.height (Selection.mask selection) /\
    strength (Selection.mask selection) (x + dx) (y + dy) = Some v /\
    strength (Selection.mask (smoothSelection selection radius)) x y = Some v.
Proof.
  intros Hwf Hr Hx Hy.
  destruct (medianFilter_median_in_window (Selection.mask selection) radius x y
              Hwf Hr Hx Hy) as (dx & dy & v & Hdx & Hdy & Hx' & Hy' & Hv & Hmed).
  exists dx, dy, v. repeat split; try lia; [exact Hv|].
  unfold smoothSelection. cbn [Selection.mask].
  rewrite medianFilter_strength, Hmed by assumption.
  destruct (wf_strength_range _ _ _ Hwf Hx' Hy') as (v' & Hv' & Hr').
  rewrite Hv in Hv'. injection Hv' as <-. rewrite clamp8_id by lia. reflexivity.
Qed.

Lemma smoothSelection_picks_window_value_witness :
  exists dx dy v,
    - Qceiling 1 <= dx <= Qceiling 1 /\
    - Qceiling 1 <= dy <= Qceiling 1 /\
    0 <= 0 + dx < 2 /\ 0 <= 1 + dy < 2 /\
    strength mask_2x2 (0 + dx) (1 + dy) = Some v /\
    strength (Selection.mask (smoothSelection (selection_of mask_2x2) 1)) 0 1 = Some v.
Proof.
  apply (smoothSelection_picks_window_value (selection_of mask_2x2) 1 0 1);
    [exact mask_2x2_wf | reflexivity | simpl; lia | simpl; lia].
Defined.

Lemma in_disk_zero dx dy : in_disk 0 dx dy -> dx = 0 /\ dy = 0.
Proof. intros (Hx & Hy & _). change (Qceiling 0) with 0 in *. lia. Qed.

(** X6: with the radius 0, [growSelection], [shrinkSelection] and
    [smoothSelection] keep the strength of every pixel of a well-formed
    mask. *)
Theorem radius_zero_keeps_strengths (selection : Selection.t) (x y : Z) :
  ImageData.wf (Selection.mask selection) ->
  0 <= x < ImageData.width (Selection.mask selection) ->
  0 <= y < ImageData.height (Selection.mask selection) ->
  strength (Selection.mask (growSelection selection 0)) x y
  = strength (Selection.mask selection) x y /\
  strength (Selection.mask (shrinkSelection selection 0)) x y
  = strength (Selection.mask selection) x y /\
  strength (Selection.mask (smoothSelection selection 0)) x y
  = strength (Selection.mask selection) x y.
Proof.
  intros Hwf Hx Hy. set (m := Selection.mask selection) in *.
  destruct (wf_strength_range m x y Hwf Hx Hy) as (v & Hv & Hvr).
  assert (Hc : in_disk 0 0 0) by (apply in_disk_center; reflexivity).
  unfold growSelection, shrinkSelection, smoothSelection. cbn [Selection.mask]. fold m.
  rewrite dilate_strength, erode_strength, medianFilter_strength by assumption.
  rewrite Hv. split; [|split]; f_equal.
  - destruct (dilate_maxVal_upper m 0 x y Hwf) as [(M & HM & HMr) Hup].
    destruct (Hup 0 0 v Hc) as (M' & HM' & Hle); rewrite ?Z.add_0_r; try assumption.
    rewrite HM in HM'. injection HM' as <-. rewrite HM, clamp8_id by lia.
    destruct (dilate_maxVal_attained m 0 x y M HM)
      as [-> | (dx & dy & Hd & _ & _ & Hs)]; [lia|].
    destruct (in_disk_zero dx dy Hd) as [-> ->]. rewrite !Z.add_0_r, Hv in Hs.
    congruence.
  - destruct (erode_minVal_upper m 0 x y Hwf) as [(L & HL & HLr) Hlow].
    destruct (Hlow 0 0 v Hc) as (L' & HL' & Hle); rewrite ?Z.add_0_r; try assumption.
    rewrite HL in HL'. injection HL' as <-. rewrite HL, clamp8_id by lia.
    destruct (erode_minVal_attained m 0 x y L HL)
      as [-> | (dx & dy & Hd & _ & _ & Hs)]; [lia|].
    destruct (in_disk_zero dx dy Hd) as [-> ->]. rewrite !Z.add_0_r, Hv in Hs.
    congruence.
  - destruct (medianFilter_median_in_window m 0 x y Hwf ltac:(reflexivity) Hx Hy)
      as (dx & dy & v' & Hdx & Hdy & _ & _ & Hs & ->).
    change (Qceiling 0) with 0 in *.
    assert (dx = 0) as -> by lia. assert (dy = 0) as -> by lia.
    rewrite !Z.add_0_r, Hv in Hs. injection Hs as <-. apply clamp8_id. lia.
Qed.

Lemma radius_zero_keeps_strengths_witness :
  strength (Selection.mask (growSelection (selection_of mask_2x2) 0)) 0 1
  = strength (Selection.mask (selection_of mask_2x2)) 0 1 /\
  strength (Selection.mask (shrinkSelection (selection_of mask_2x2) 0)) 0 1
  = strength (Selection.mask (selection_of mask_2x2)) 0 1 /\
  strength (Selection.mask (smoothSelection (selection_of mask_2x2) 0)) 0 1
  = strength (Selection.mask (selection_of mask_2x2)) 0 1.
Proof.
  apply (radius_zero_keeps_strengths (selection_of mask_2x2) 0 1);
    [exact mask_2x2_wf | simpl; lia | simpl; lia].
Defined.

(** ** Combining selections *)

Lemma js_lift2_comm (f : Z -> Z -> Z) (a b : option Z) :
  (forall x y, f x y = f y x) -> js_lift2 f a b = js_lift2 f b a.
Proof. intros H. destruct a, b; cbn; try reflexivity. rewrite H. reflexivity. Qed.

(** X7: [combineSelections] is commutative in the modes [add] and
    [intersect], whatever the two masks hold, missing bytes included. *)
Theorem combineSelections_commutes (this : SelectionEngine.t) (a b : Selection.t) :
  combineSelections this a b mode_add = combineSelections this b a mode_add /\
  combineSelections this a b mode_intersect = combineSelections this b a mode_intersect.
Proof.
  assert (E : forall mode, mode = mode_add \/ mode = mode_intersect ->
            ImageData.data (Selection.mask (combineSelections this a b mode))
            = ImageData.data (Selection.mask (combineSelections this b a mode))).
  { intros mode Hmode. unfold combineSelections. cbn [Selection.mask ImageData.data].
    unfold for_step4. apply for_lt_ext. intros j md _.
    destruct Hmode as [-> | ->]; f_equal.
    - unfold js_add. rewrite (js_lift2_comm Z.add) by (intros; lia). reflexivity.
    - unfold js_min. apply js_lift2_comm. intros; lia. }
  split.
  - pose proof (E mode_add ltac:(left; reflexivity)) as Ed.
    unfold combineSelections in *. cbn [Selection.mask ImageData.data] in Ed.
    rewrite Ed. reflexivity.
  - pose proof (E mode_intersect ltac:(right; reflexivity)) as Ed.
    unfold combineSelections in *. cbn [Selection.mask ImageData.data] in Ed.
    rewrite Ed. reflexivity.
Qed.

Lemma combineSelections_length this a b mode :
  0 < SelectionEngine.width this -> 0 < SelectionEngine.height this ->
  Z.of_nat (length (ImageData.data (Selection.mask (combineSelections this a b mode))))
  = 4 * (SelectionEngine.width this * SelectionEngine.height this).
Proof.
  intros Hw Hh. unfold combineSelections. cbn [Selection.mask ImageData.data].
  set (init := ImageData.data (ImageData.create _ _)).
  assert (Hlen : Z.of_nat (length init)
                 = 4 * (SelectionEngine.width this * SelectionEngine.height this))
    by (subst init; rewrite create_length; nia).
  rewrite <- Hlen. f_equal. unfold for_step4.
  apply (for_lt_inv (fun md => length md = length init)); [reflexivity|].
  intros j md _ Hmd. rewrite write_pixel_length. exact Hmd.
Qed.

(** X8: subtracting a selection from itself selects nothing: every pixel
    of the engine's canvas gets (0, 0, 0, 255) and the bounds are the
    zero rectangle, whatever the mask holds. *)
Theorem combineSelections_subtract_self (this : SelectionEngine.t) (a : Selection.t) :
  0 < SelectionEngine.width this -> 0 < SelectionEngine.height this ->
  let result := combineSelections this a a mode_subtract in
  Selection.bounds result = Rect.mk 0 0 0 0 /\
  forall k, 0 <= k < SelectionEngine.width this * SelectionEngine.height this ->
    pixel_of (ImageData.data (Selection.mask result)) k
    = (Some 0, Some 0, Some 0, Some 255).
Proof.
  intros Hw Hh result.
  assert (Hpix : forall k,
            0 <= k < SelectionEngine.width this * SelectionEngine.height this ->
            pixel_of (ImageData.data (Selection.mask result)) k
            = (Some 0, Some 0, Some 0, Some 255)).
  { intros k Hk. subst result. rewrite combineSelections_pixel by assumption.
    cbv zeta. destruct (channel _ k 0) as [v|]; cbn [js_sub js_max js_lift2 clamp8];
      [rewrite Z.sub_diag|]; reflexivity. }
  split; [|exact Hpix].
  pose proof (combineSelections_length this a a mode_subtract Hw Hh) as Hlen.
  fold result in Hlen.
  change (Selection.bounds result) with (computeBounds (Selection.mask result)).
  assert (Hwm : ImageData.width (Selection.mask result) = SelectionEngine.width this)
    by reflexivity.
  remember (Selection.mask result) as m eqn:Em. clear Em. clearbody result.
  apply computeBounds_none; [lia|].
  intros k.
  destruct (decide (0 <= k < SelectionEngine.width this * SelectionEngine.height this))
    as [Hk|Hk].
  - pose proof (Hpix k Hk) as Hp. unfold pixel_of, channel in Hp.
    injection Hp as H0 _ _ _. replace (k * 4) with (4 * k + 0) by lia.
    rewrite H0. reflexivity.
  - destruct (typed_get _ (k * 4)) as [v|] eqn:Hv; [|reflexivity].
    apply typed_get_Some_range in Hv. lia.
Qed.

Lemma combineSelections_subtract_self_witness :
  Selection.bounds (combineSelections (SelectionEngine.mk 2 2) (selection_of mask_2x2)
                      (selection_of mask_2x2) mode_subtract) = Rect.mk 0 0 0 0 /\
  ImageData.data (Selection.mask
    (combineSelections (SelectionEngine.mk 2 2) (selection_of mask_2x2)
       (selection_of mask_2x2) mode_subtract))
  = [0; 0; 0; 255; 0; 0; 0; 255; 0; 0; 0; 255; 0; 0; 0; 255].
Proof.
  split; [|reflexivity].
  apply (proj1 (combineSelections_subtract_self (SelectionEngine.mk 2 2)
                  (selection_of mask_2x2) ltac:(simpl; lia) ltac:(simpl; lia))).
Defined.

(** X9: on two well-formed masks of the engine's size,
    [combineSelections] works pixel by pixel on the strengths: [add]
    gives the sum capped at 255, [subtract] the difference floored at 0,
    [intersect] the smaller one and [new] the second one. *)
Theorem combineSelections_pixelwise (this : SelectionEngine.t) (a b : Selection.t)
    (x y : Z) :
  ImageData.wf (Selection.mask a) -> ImageData.wf (Selection.mask b) ->
  ImageData.width (Selection.mask a) = SelectionEngine.width this ->
  ImageData.height (Selection.mask a) = SelectionEngine.height this ->
  ImageData.width (Selection.mask b) = SelectionEngine.width this ->
  ImageData.height (Selection.mask b) = SelectionEngine.height this ->
  0 <= x < SelectionEngine.width this -> 0 <= y < SelectionEngine.height this ->
  exists va vb,
    strength (Selection.mask a) x y = Some va /\
    strength (Selection.mask b) x y = Some vb /\
    strength (Selection.mask (combineSelections this a b mode_add)) x y
    = Some (Z.min 255 (va + vb)) /\
    strength (Selection.mask (combineSelections this a b mode_subtract)) x y
    = Some (Z.max 0 (va - vb)) /\
    strength (Selection.mask (combineSelections this a b mode_intersect)) x y
    = Some (Z.min va vb) /\
    strength (Selection.mask (combineSelections this a b mode_new)) x y = Some vb.
Proof.
  intros Hwfa Hwfb Hwa Hha Hwb Hhb Hx Hy.
  destruct (wf_strength_range (Selection.mask a) x y Hwfa) as (va & Hva & Hra);
    [lia|lia|].
  destruct (wf_strength_range (Selection.mask b) x y Hwfb) as (vb & Hvb & Hrb);
    [lia|lia|].
  exists va, vb. split; [exact Hva|]. split; [exact Hvb|].
  assert (Hw : 0 < SelectionEngine.width this) by lia.
  assert (Hh : 0 < SelectionEngine.height this) by lia.
  assert (Hk : 0 <= y * SelectionEngine.width this + x
               < SelectionEngine.width this * SelectionEngine.height this) by nia.
  rewrite strength_channel in Hva, Hvb. rewrite Hwa in Hva. rewrite Hwb in Hvb.
  assert (Hc : forall mode,
            strength (Selection.mask (combineSelections this a b mode)) x y
            = Some (clamp8 match mode with
                           | mode_add => js_min (Some 255) (js_add (Some va) (Some vb))
                           | mode_subtract => js_max (Some 0) (js_sub (Some va) (Some vb))
                           | mode_intersect => js_min (Some va) (Some vb)
                           | mode_new => Some vb
                           end)).
  { intros mode. rewrite strength_channel.
    pose proof (combineSelections_pixel this a b mode _ Hw Hh Hk) as Hp.
    cbv zeta in Hp. rewrite Hva, Hvb in Hp.
    unfold pixel_of in Hp. injection Hp as H0 _ _ _.
    replace (ImageData.width (Selection.mask (combineSelections this a b mode)))
      with (SelectionEngine.width this) by reflexivity.
    exact H0. }
  rewrite !Hc. cbn [js_min js_max js_add js_sub js_lift2].
  rewrite !clamp8_id by lia. repeat split; reflexivity.
Qed.

Lemma combineSelections_pixelwise_witness :
  exists va vb,
    strength mask_2x2 0 1 = Some va /\
    strength mask_2x2 0 1 = Some vb /\
    strength (Selection.mask (combineSelections (SelectionEngine.mk 2 2)
       (selection_of mask_2x2) (selection_of mask_2x2) mode_add)) 0 1
    = Some (Z.min 255 (va + vb)) /\
    strength (Selection.mask (combineSelections (SelectionEngine.mk 2 2)
       (selection_of mask_2x2) (selection_of mask_2x2) mode_subtract)) 0 1
    = Some (Z.max 0 (va - vb)) /\
    strength (Selection.mask (combineSelections (SelectionEngine.mk 2 2)
       (selection_of mask_2x2) (selection_of mask_2x2) mode_intersect)) 0 1
    = Some (Z.min va vb) /\
    strength (Selection.mask (combineSelections (SelectionEngine.mk 2 2)
       (selection_of mask_2x2) (selection_of mask_2x2) mode_new)) 0 1 = Some vb.
Proof.
  apply (combineSelections_pixelwise (SelectionEngine.mk 2 2) (selection_of mask_2x2)
           (selection_of mask_2x2) 0 1);
    [exact mask_2x2_wf | exact mask_2x2_wf | reflexivity | reflexivity | reflexivity
    | reflexivity | simpl; lia | simpl; lia].
Defined.

(** ** Quick selection: what it leaves alone *)

(** The mask [quickSelect] starts from. *)
Lemma quickSelect_run imageData startX startY radius mode existingSelection :
  0 < ImageData.width imageData -> 0 < ImageData.height imageData ->
  match existingSelection with
  | Some sel => Z.of_nat (length (ImageData.data (Selection.mask sel)))
                = 4 * ImageData.width imageData * ImageData.height imageData
  | None => True
  end ->
  let mask0 := match existingSelection with
               | Some sel => ImageData.data (Selection.mask sel)
               | None => ImageData.data (ImageData.create (ImageData.width imageData)
                                           (ImageData.height imageData))
               end in
  Z.of_nat (length mask0) = 4 * ImageData.width imageData * ImageData.height imageData /\
  exists st,
    qs_run imageData startX startY radius mode mask0 = Some st /\
    quickSelect imageData startX startY radius mode existingSelection
    = Some (Selection.mk
              (ImageData.mk (ImageData.width imageData) (ImageData.height imageData)
                 (QS.mask st))
              (computeBounds
                 (ImageData.mk (ImageData.width imageData) (ImageData.height imageData)
                    (QS.mask st))) true).
Proof.
  intros Hw Hh Hlen mask0.
  assert (Hlen0 : Z.of_nat (length mask0)
                  = 4 * ImageData.width imageData * ImageData.height imageData).
  { subst mask0. destruct existingSelection; [exact Hlen|]. rewrite create_length. nia. }
  split; [exact Hlen0|].
  destruct (qs_run_terminates imageData startX startY radius mode mask0 Hw Hh)
    as [st Hst].
  exists st. split; [exact Hst|]. unfold quickSelect.
  destruct existingSelection as [sel|]; subst mask0.
  - unfold ImageData.of_data.
    destruct (Z.ltb_spec 0 (ImageData.width imageData)); [|lia].
    destruct (Z.ltb_spec 0 (ImageData.height imageData)); [|lia].
    rewrite (proj2 (Z.eqb_eq _ _) Hlen).
    cbn [andb mbind option_bind ImageData.data ImageData.width ImageData.height].
    rewrite Hst. reflexivity.
  - cbn [mbind option_bind]. rewrite Hst. reflexivity.
Qed.

Section Leaves.
Variables (width height : Z) (data : list Z) (edges : list float).
Variables (startX startY maxRadius : float).
Variables (targetR targetG targetB : option Z).
Variable mode : SelectionMode.

#[local] Abbreviation step := (qs_step width height data edges startX startY maxRadius
                    targetR targetG targetB mode).

(** A turn in the mode [intersect] writes nothing. *)
Lemma qs_step_leaves_mask st : mode = mode_intersect -> QS.mask (step st) = QS.mask st.
Proof.
  intros Hmode. destruct (QS.queue st) as [|[[x y] depth] queue] eqn:E.
  - rewrite qs_step_nil by exact E. reflexivity.
  - destruct (qs_step_cases width height data edges startX startY maxRadius
                targetR targetG targetB mode st x y depth queue E)
      as [-> | (_ & _ & [-> | (more & -> & _)])]; cbn [QS.mask]; try reflexivity.
    rewrite Hmode. destruct (js_add _ _); reflexivity.
Qed.

(** While every entry has a [NaN], no turn writes, and the entries it adds
    have one. *)
Lemma qs_step_nan st :
  Forall nan_entry (QS.queue st) ->
  Forall nan_entry (QS.queue (step st)) /\ QS.mask (step st) = QS.mask st.
Proof.
  intros Hq. destruct (QS.queue st) as [|[[x y] depth] queue] eqn:E.
  - rewrite qs_step_nil by exact E. rewrite E. auto.
  - inversion Hq as [|? ? Hhead Htail]; subst.
    destruct (qs_step_cases width height data edges startX startY maxRadius
                targetR targetG targetB mode st x y depth queue E)
      as [-> | (Hout & _ & [-> | (more & -> & Hmore)])]; cbn [QS.mask QS.queue]; auto.
    destruct (cell_cases _ _ _ _ Hout) as [(a & b & Ea & Eb & _)|[_ ->]].
    + exfalso. unfold nan_entry in Hhead. cbn [fst snd] in Hhead.
      rewrite Ea, Eb in Hhead. destruct Hhead; discriminate.
    + split; [|reflexivity]. apply Forall_app. split; [exact Htail|].
      destruct Hmore as [-> | ->]; [constructor|].
      eapply Forall_impl; [apply qs_neighbors_nan|]. cbv beta. intros e He.
      apply He. exact Hhead.
Qed.

(** A turn in the mode [subtract] leaves a byte as it is or makes it 0. *)
Lemma qs_step_mask_shrinks st i :
  mode = mode_subtract ->
  typed_get (QS.mask (step st)) i = typed_get (QS.mask st) i \/
  typed_get (QS.mask (step st)) i = Some 0.
Proof.
  intros Hmode. destruct (QS.queue st) as [|[[x y] depth] queue] eqn:E.
  - rewrite qs_step_nil by exact E. auto.
  - destruct (qs_step_cases width height data edges startX startY maxRadius
                targetR targetG targetB mode st x y depth queue E)
      as [-> | (_ & _ & [-> | (more & -> & _)])];
      cbn [QS.mask]; auto.
    destruct (js_add _ _) as [p|]; [|auto].
    rewrite Hmode. unfold qs_written. rewrite !typed_get_u8_set. repeat case_decide; auto.
Qed.
End Leaves.

(** X11: [quickSelect] returns the bytes of the mask it starts from,
    unchanged, in the mode [intersect], for a negative radius, and when
    the start point is not in the image: outside of it, infinite or
    [NaN]. *)
Theorem quickSelect_leaves_mask (imageData : ImageData.t) (startX startY radius : float)
    (mode : SelectionMode) (existingSelection : option Selection.t) :
  0 < ImageData.width imageData -> 0 < ImageData.height imageData ->
  match existingSelection with
  | Some sel => Z.of_nat (length (ImageData.data (Selection.mask sel)))
                = 4 * ImageData.width imageData * ImageData.height imageData
  | None => True
  end ->
  mode = mode_intersect \/ PrimFloat.ltb radius 0 = true \/
  ~ (exists sx sy, Math_floor startX = fl_int sx /\ Math_floor startY = fl_int sy /\
                   0 <= sx < ImageData.width imageData /\
                   0 <= sy < ImageData.height imageData) ->
  exists result,
    quickSelect imageData startX startY radius mode existingSelection = Some result /\
    ImageData.data (Selection.mask result)
    = match existingSelection with
      | Some sel => ImageData.data (Selection.mask sel)
      | None => ImageData.data (ImageData.create (ImageData.width imageData)
                                  (ImageData.height imageData))
      end.
Proof.
  intros Hw Hh Hlen Hcase.
  destruct (quickSelect_run imageData startX startY radius mode existingSelection
              Hw Hh Hlen) as (Hlen0 & st & Hst & Hq).
  cbv zeta in Hlen0, Hst.
  set (mask0 := match existingSelection with
                | Some sel => ImageData.data (Selection.mask sel)
                | None => ImageData.data _
                end) in *.
  eexists. split; [exact Hq|]. cbn [Selection.mask ImageData.data].
  assert (Hout : ~ (exists sx sy, Math_floor startX = fl_int sx /\
                      Math_floor startY = fl_int sy /\
                      0 <= sx < ImageData.width imageData /\
                      0 <= sy < ImageData.height imageData) -> QS.mask st = mask0).
  { intros Hout. unfold qs_run in Hst.
    destruct (out_of_range (Math_floor startX) (ImageData.width imageData)
              || out_of_range (Math_floor startY) (ImageData.height imageData)) eqn:Etest.
    - destruct (qs_fuel _ _) as [|fuel]; cbn [qs_loop QS.queue] in Hst; [discriminate|].
      unfold qs_step in Hst. cbn [QS.queue QS.visited QS.mask] in Hst.
      rewrite Etest in Hst.
      destruct fuel; cbn [qs_loop QS.queue] in Hst; injection Hst as <-; reflexivity.
    - destruct (cell_cases _ _ _ _ Etest) as [(a & b & Ea & Eb & Ha & Hb)|[Hnan _]];
        [exfalso; apply Hout; exists a, b; auto|].
      apply (qs_loop_inv _ _ _ _ _ _ _ _ _ _ _
               (fun s => Forall nan_entry (QS.queue s) /\ QS.mask s = mask0)) in Hst.
      + apply Hst.
      + intros s _ [Hs <-]. apply qs_step_nan. exact Hs.
      + split; [|reflexivity]. cbn [QS.queue]. constructor; [|constructor].
        unfold nan_entry. cbn [fst snd]. tauto. }
  destruct Hcase as [Hi | [Hneg | Hno]]; [| |exact (Hout Hno)].
  - unfold qs_run in Hst.
    apply (qs_loop_inv _ _ _ _ _ _ _ _ _ _ _ (fun s => QS.mask s = mask0)) in Hst.
    + apply Hst.
    + intros s _ <-. apply qs_step_leaves_mask. exact Hi.
    + reflexivity.
  - destruct (Math_floor startX) as [sx| |] eqn:Ex;
      [|apply Hout; intros (? & ? & ? & _); discriminate
       |apply Hout; intros (? & ? & ? & _); discriminate].
    destruct (Math_floor startY) as [sy| |] eqn:Ey;
      [|apply Hout; intros (? & ? & _ & ? & _); discriminate
       |apply Hout; intros (? & ? & _ & ? & _); discriminate].
    destruct (Z_lt_le_dec sx 0);
      [apply Hout; intros (? & ? & [= <-] & _ & ? & _); lia|].
    destruct (Z_lt_le_dec sx (ImageData.width imageData));
      [|apply Hout; intros (? & ? & [= <-] & _ & ? & _); lia].
    destruct (Z_lt_le_dec sy 0);
      [apply Hout; intros (? & ? & _ & [= <-] & _ & ?); lia|].
    destruct (Z_lt_le_dec sy (ImageData.height imageData));
      [|apply Hout; intros (? & ? & _ & [= <-] & _ & ?); lia].
    destruct (qs_run_first_turn imageData startX startY radius mode mask0 sx sy st
                Ex Ey ltac:(lia) ltac:(lia) Hst) as (fuel & r & g & b & Hloop).
    rewrite (triple_negative radius Hneg) in Hloop.
    destruct fuel; cbn [qs_loop QS.queue] in Hloop; injection Hloop as <-; reflexivity.
Qed.

Lemma quickSelect_leaves_mask_witness :
  exists result,
    quickSelect (uniform 2 2 [9; 9; 9; 255]) 0.5 0.5 (-1) mode_add
      (Some (selection_of mask_2x2)) = Some result /\
    ImageData.data (Selection.mask result) = ImageData.data mask_2x2.
Proof.
  apply (quickSelect_leaves_mask (uniform 2 2 [9; 9; 9; 255]) 0.5 0.5 (-1) mode_add
           (Some (selection_of mask_2x2)));
    [simpl; lia | simpl; lia | reflexivity | right; left; reflexivity].
Defined.

(** X13: in the mode [subtract], [quickSelect] on an existing selection
    of the image's size returns a mask whose strength at every pixel is
    the existing one or 0. *)
Theorem quickSelect_subtract_never_selects (imageData : ImageData.t)
    (startX startY radius : float) (existing : Selection.t) (x y : Z) :
  ImageData.wf (Selection.mask existing) ->
  ImageData.width (Selection.mask existing) = ImageData.width imageData ->
  ImageData.height (Selection.mask existing) = ImageData.height imageData ->
  0 <= x < ImageData.width imageData -> 0 <= y < ImageData.height imageData ->
  exists result v v',
    quickSelect imageData startX startY radius mode_subtract (Some existing) = Some result /\
    strength (Selection.mask existing) x y = Some v /\
    strength (Selection.mask result) x y = Some v' /\
    (v' = v \/ v' = 0).
Proof.
  intros Hwf Hw Hh Hx Hy. pose proof Hwf as (Hw0 & Hh0 & Hlen & _).
  rewrite Hw in Hw0. rewrite Hh in Hh0. rewrite Hw, Hh in Hlen.
  destruct (wf_strength_range (Selection.mask existing) x y Hwf) as (v & Hv & Hr);
    [lia|lia|].
  destruct (quickSelect_run imageData startX startY radius mode_subtract (Some existing)
              Hw0 Hh0 Hlen) as (_ & st & Hst & Hq).
  cbv zeta in Hst. set (mask0 := ImageData.data (Selection.mask existing)) in *.
  unfold qs_run in Hst.
  apply (qs_loop_inv _ _ _ _ _ _ _ _ _ _ _
           (fun s => forall i, typed_get (QS.mask s) i = typed_get mask0 i \/
                               typed_get (QS.mask s) i = Some 0)) in Hst.
  - destruct Hst as [Hmask _].
    assert (Hv0 : strength (Selection.mask existing) x y = Some v) by exact Hv.
    unfold strength in Hv. rewrite Hw in Hv. fold mask0 in Hv.
    eexists. exists v.
    destruct (Hmask ((y * ImageData.width imageData + x) * 4)) as [E|E].
    + exists v. split; [exact Hq|]. split; [exact Hv0|].
      split; [unfold strength; cbn [Selection.mask ImageData.data ImageData.width];
              rewrite E; exact Hv|]. left. reflexivity.
    + exists 0. split; [exact Hq|]. split; [exact Hv0|].
      split; [unfold strength; cbn [Selection.mask ImageData.data ImageData.width];
              exact E|]. right. reflexivity.
  - intros s _ Hs i.
    match goal with |- typed_get (QS.mask (qs_step ?w ?h ?d ?e ?a ?b ?m ?r ?g ?bb ?md s)) _ = _ \/ _ =>
      destruct (qs_step_mask_shrinks w h d e a b m r g bb md s i eq_refl) as [E|E]
    end.
    + rewrite E. apply Hs.
    + right. exact E.
  - intros i. left. reflexivity.
Qed.

Lemma quickSelect_subtract_never_selects_witness :
  exists result v v',
    quickSelect (uniform 2 2 [9; 9; 9; 255]) 0.5 0.5 1 mode_subtract
      (Some (selection_of mask_2x2)) = Some result /\
    strength (Selection.mask (selection_of mask_2x2)) 0 1 = Some v /\
    strength (Selection.mask result) 0 1 = Some v' /\
    (v' = v \/ v' = 0).
Proof.
  apply (quickSelect_subtract_never_selects (uniform 2 2 [9; 9; 9; 255]) 0.5 0.5 1
           (selection_of mask_2x2) 0 1);
    [exact mask_2x2_wf | reflexivity | reflexivity | simpl; lia | simpl; lia].
Defined.

(** ** Select subject: the regions and the closing *)

Section FloodRegion.
Variables (width height : Z) (saliency : list float) (threshold : float).
Hypothesis Hw : 0 < width.
Hypothesis Hh : 0 <= height.

#[local] Abbreviation positions := (qs_positions width height).

(** The points a flood fill collects are positions of the image, one for
    each position it marks at most. *)
Lemma flood_region fuel : forall queue visited region totalScore visited' region' score',
  flood width height saliency threshold fuel queue visited region totalScore
  = Some (visited', region', score') ->
  Forall (fun pos => 0 <= pos < width * height) queue ->
  visited ⊆ positions ->
  Forall (fun pos => 0 <= pos < width * height) region ->
  visited' ⊆ positions /\
  Forall (fun pos => 0 <= pos < width * height) region' /\
  (length region' + size visited <= length region + size visited')%nat.
Proof.
  induction fuel as [|fuel IH];
    intros queue visited region totalScore visited' region' score' Hf Hq Hv Hr.
  - destruct queue; [|discriminate]. injection Hf as <- <- <-. auto.
  - destruct queue as [|pos queue]; [injection Hf as <- <- <-; auto|].
    inversion Hq as [|? ? Hpos Hq']; subst. cbn [flood] in Hf.
    destruct (decide (pos ∈ visited)) as [Hin|Hin].
    + apply (IH _ _ _ _ _ _ _ Hf); assumption.
    + assert (Hv' : {[pos]} ∪ visited ⊆ positions)
        by (apply (flood_position_in width height) in Hpos; set_solver).
      assert (Hsize : size ({[pos]} ∪ visited) = Datatypes.S (size visited))
        by (rewrite size_union by set_solver; rewrite size_singleton; reflexivity).
      destruct (PrimFloat.ltb _ _).
      * destruct (IH _ _ _ _ _ _ _ Hf Hq' Hv' Hr) as (H1 & H2 & H3).
        split; [exact H1|]. split; [exact H2|]. lia.
      * destruct (flood_neighbors width height Hw Hh pos Hpos) as (Nl & Nr & Nu & Nd).
        destruct (IH _ _ _ _ _ _ _ Hf) as (H1 & H2 & H3).
        -- destruct (Z.ltb_spec 0 (pos mod width)),
                    (Z.ltb_spec (pos mod width) (width - 1)),
                    (Z.ltb_spec 0 (pos / width)),
                    (Z.ltb_spec (pos / width) (height - 1));
             repeat (apply Forall_cons; split; [auto|]); exact Hq'.
        -- exact Hv'.
        -- apply Forall_app. split; [exact Hr|]. constructor; [exact Hpos|constructor].
        -- split; [exact H1|]. split; [exact H2|].
           rewrite length_app in H3. simpl length in H3. lia.
Qed.

(** The regions [findRegions] keeps are made of positions of the image;
    an image of 100 pixels or fewer has none. *)
Lemma findRegions_regions :
  exists visited regions,
    findRegions width height saliency threshold = Some (visited, regions) /\
    Forall (fun r => Forall (fun pos => 0 <= pos < width * height) (Region.points r))
      regions /\
    (width * height <= 100 -> regions = []).
Proof.
  unfold findRegions.
  pose (P := fun acc : option (gset Z * list Region.t) =>
          exists visited regions, acc = Some (visited, regions) /\ visited ⊆ positions /\
            Forall (fun r => Forall (fun pos => 0 <= pos < width * height) (Region.points r))
              regions /\
            (width * height <= 100 -> regions = [])).
  assert (HP : P (for_lt 1 (height - 1) (fun y acc =>
    for_lt 1 (width - 1) (fun x (acc : option (gset Z * list Region.t)) =>
      '(visited, regions) ← acc;
      let idx := y * width + x in
      if bool_decide (idx ∈ visited) || PrimFloat.ltb (f32_get saliency idx) threshold
      then Some (visited, regions)
      else
        '(visited, region, totalScore) ←
          flood width height saliency threshold (qs_fuel width height)
            [idx] visited [] 0%float;
        if 100 <? Z.of_nat (length region)
        then Some (visited, regions ++ [Region.mk region totalScore])
        else Some (visited, regions)) acc) (Some (∅, [])))).
  { apply (for_lt_inv P).
    - exists ∅, []. split; [reflexivity|]. split; [set_solver|]. split; [constructor|auto].
    - intros y acc Hy Hacc. apply (for_lt_inv P); [exact Hacc|].
      intros x acc' Hx (visited & regions & -> & Hv & Hr & Hsmall). subst P.
      cbn [mbind option_bind].
      destruct (_ || _); [exists visited, regions; auto|].
      destruct (flood_terminates width height saliency threshold Hw Hh
                  (qs_fuel width height) [y * width + x] visited [] 0%float)
        as (v' & r' & s' & E & Hv').
      + repeat constructor; nia.
      + exact Hv.
      + pose proof (flood_visited_size width height Hw Hh visited Hv).
        unfold qs_fuel. simpl length. nia.
      + rewrite E. cbn [mbind option_bind].
        destruct (flood_region _ _ _ _ _ _ _ _ E) as (_ & Hr' & Hlen);
          [repeat constructor; nia|exact Hv|constructor|].
        pose proof (flood_visited_size width height Hw Hh v' Hv') as Hsz.
        simpl length in Hlen.
        destruct (Z.ltb_spec 100 (Z.of_nat (length r'))).
        * exists v', (regions ++ [Region.mk r' s']). split; [reflexivity|].
          split; [exact Hv'|]. split.
          -- apply Forall_app. split; [exact Hr|]. constructor; [exact Hr'|constructor].
          -- intros Hle. lia.
        * exists v', regions. auto. }
  destruct HP as (visited & regions & E & _ & Hr & Hsmall).
  exists visited, regions. auto.
Qed.
End FloodRegion.

(** The image is too small for a seed when it has fewer than three
    columns or three rows. *)
Lemma findRegions_no_seed width height saliency threshold :
  width < 3 \/ height < 3 ->
  findRegions width height saliency threshold = Some (∅, []).
Proof.
  intros Hsmall. unfold findRegions.
  apply (for_lt_inv (fun acc => acc = Some (∅, []))); [reflexivity|].
  intros y acc Hy ->. apply for_lt_empty. lia.
Qed.

(** *** The bytes [selectSubject] paints and closes *)

Lemma paint_bytes (points : list Z) (md : list Z) :
  Forall (fun v => v = 0 \/ v = 255) md ->
  Forall (fun v => v = 0 \/ v = 255)
    (foldl (fun md pos =>
       let maskIdx := pos * 4 in
       u8_set (u8_set (u8_set (u8_set md maskIdx (Some 255))
         (maskIdx + 1) (Some 255)) (maskIdx + 2) (Some 255))
         (maskIdx + 3) (Some 255)) md points).
Proof.
  revert md. induction points as [|pos points IH]; intros md Hmd; simpl; [exact Hmd|].
  apply IH.
  assert (Hset : forall a i, Forall (fun v => v = 0 \/ v = 255) a ->
            Forall (fun v => v = 0 \/ v = 255) (u8_set a i (Some 255))).
  { intros a i Ha. unfold u8_set. destruct (i <? 0); [exact Ha|].
    apply Forall_insert; [exact Ha|]. right. reflexivity. }
  repeat apply Hset. exact Hmd.
Qed.

Lemma binary_bytes (l : list Z) :
  Forall (fun v => v = 0 \/ v = 255) l -> Forall (fun v => 0 <= v <= 255) l.
Proof. intros H. eapply Forall_impl; [exact H|]. intros v [-> | ->]; lia. Qed.

Lemma binary_strength (m : ImageData.t) x y v :
  Forall (fun v => v = 0 \/ v = 255) (ImageData.data m) ->
  strength m x y = Some v -> v = 0 \/ v = 255.
Proof.
  intros Hall Hv. unfold strength in Hv.
  pose proof (typed_get_Some_range _ _ _ Hv) as Hr.
  rewrite typed_get_lookup in Hv by lia.
  rewrite Forall_lookup in Hall. exact (Hall _ _ Hv).
Qed.

(** The closing of a mask of strengths 0 and 255 is such a mask, and the
    closing of a mask of strength 0 has strength 0. *)
Lemma closing_binary (m : ImageData.t) (radius : Q) (x y : Z) :
  ImageData.wf m ->
  Forall (fun v => v = 0 \/ v = 255) (ImageData.data m) ->
  0 <= x < ImageData.width m -> 0 <= y < ImageData.height m ->
  exists v, strength (erode (dilate m radius) radius) x y = Some v /\
            (v = 0 \/ v = 255) /\
            ((forall x' y', 0 <= x' < ImageData.width m -> 0 <= y' < ImageData.height m ->
                strength m x' y' = Some 0) ->
             (- (1) < radius)%Q -> v = 0).
Proof.
  intros Hwf Hbin Hx Hy.
  pose proof (dilate_wf m radius Hwf) as Hwfd.
  assert (Hd : forall x' y' v,
            0 <= x' < ImageData.width m -> 0 <= y' < ImageData.height m ->
            strength (dilate m radius) x' y' = Some v ->
            (v = 0 \/ v = 255) /\
            ((forall x' y', 0 <= x' < ImageData.width m -> 0 <= y' < ImageData.height m ->
                strength m x' y' = Some 0) -> v = 0)).
  { intros x' y' v Hx' Hy' Hv. rewrite dilate_strength in Hv by assumption.
    destruct (dilate_maxVal_upper m radius x' y' Hwf) as [(M & HM & HMr) _].
    rewrite HM, clamp8_id in Hv by lia. injection Hv as <-.
    destruct (dilate_maxVal_attained m radius x' y' M HM)
      as [-> | (dx & dy & _ & Hx'' & Hy'' & Hs)]; [auto|].
    split; [exact (binary_strength m _ _ _ Hbin Hs)|].
    intros Hzero. rewrite (Hzero _ _ Hx'' Hy'') in Hs. congruence. }
  destruct (erode_minVal_upper (dilate m radius) radius x y Hwfd) as [(L & HL & HLr) Hlow].
  exists L. rewrite erode_strength by (cbn [dilate ImageData.width ImageData.height]; lia).
  rewrite HL, clamp8_id by lia. split; [reflexivity|].
  destruct (erode_minVal_attained (dilate m radius) radius x y L HL)
    as [-> | (dx & dy & _ & Hx' & Hy' & Hs)].
  - split; [auto|]. intros Hzero Hr.
    destruct (wf_strength_range (dilate m radius) x y Hwfd) as (v & Hv & _);
      [cbn; lia|cbn; lia|].
    destruct (Hlow 0 0 v (in_disk_center radius Hr)) as (L' & HL' & Hle);
      rewrite ?Z.add_0_r; [cbn; lia|cbn; lia|exact Hv|].
    rewrite HL in HL'. injection HL' as <-.
    destruct (Hd x y v Hx Hy Hv) as [_ H0]. rewrite (H0 Hzero) in Hle. lia.
  - cbn [dilate ImageData.width ImageData.height] in Hx', Hy'.
    destruct (Hd _ _ _ Hx' Hy' Hs) as [Hb H0]. split; [exact Hb|]. auto.
Qed.

Lemma insert_region_Forall (P : Region.t -> Prop) a l :
  P a -> Forall P l -> Forall P (insert_region a l).
Proof.
  intros Ha Hl. induction Hl as [|b l Hb Hl IH]; simpl; [repeat constructor; exact Ha|].
  destruct (PrimFloat.ltb _ _); repeat constructor; assumption.
Qed.

Lemma sort_regions_Forall (P : Region.t -> Prop) l :
  Forall P l -> Forall P (sort_regions l).
Proof.
  intros Hl. induction Hl as [|a l Ha Hl IH]; simpl; [constructor|].
  apply insert_region_Forall; assumption.
Qed.

(** A point that is painted stays painted. *)
Lemma paint_points (points : list Z) (md : list Z) (pos : Z) (n : Z) :
  Z.of_nat (length md) = 4 * n -> 0 <= pos < n ->
  pos ∈ points \/ typed_get md (pos * 4) = Some 255 ->
  typed_get
    (foldl (fun md pos =>
       let maskIdx := pos * 4 in
       u8_set (u8_set (u8_set (u8_set md maskIdx (Some 255))
         (maskIdx + 1) (Some 255)) (maskIdx + 2) (Some 255))
         (maskIdx + 3) (Some 255)) md points) (pos * 4) = Some 255.
Proof.
  revert md. induction points as [|p points IH]; intros md Hlen Hpos Hin; simpl.
  - destruct Hin as [Hin | H]; [inversion Hin|exact H].
  - apply IH; [rewrite !u8_set_length; exact Hlen|exact Hpos|].
    destruct (decide (p = pos)) as [-> | Hne].
    + right. rewrite !typed_get_u8_set, !u8_set_length.
      repeat first [rewrite decide_True by lia | rewrite decide_False by lia].
      reflexivity.
    + destruct Hin as [Hin | H].
      * left. apply elem_of_cons in Hin. destruct Hin as [-> | Hin]; [contradiction|exact Hin].
      * right. rewrite !typed_get_u8_set. repeat case_decide; try reflexivity; exact H.
Qed.

(** What [selectSubject] returns, given the regions found: the closing
    of the painted mask. *)
Lemma selectSubject_closing imageData visited regions :
  0 < ImageData.width imageData -> 0 < ImageData.height imageData ->
  findRegions (ImageData.width imageData) (ImageData.height imageData)
    (saliencyMap imageData (computeEdgeMap imageData)) 0.35%float
  = Some (visited, regions) ->
  let painted :=
    match sort_regions regions with
    | [] => ImageData.data (ImageData.create (ImageData.width imageData)
                              (ImageData.height imageData))
    | mainRegion :: _ =>
        foldl (fun md pos =>
          let maskIdx := pos * 4 in
          u8_set (u8_set (u8_set (u8_set md maskIdx (Some 255))
            (maskIdx + 1) (Some 255)) (maskIdx + 2) (Some 255))
            (maskIdx + 3) (Some 255))
          (ImageData.data (ImageData.create (ImageData.width imageData)
                             (ImageData.height imageData)))
          (Region.points mainRegion)
    end in
  let m := ImageData.mk (ImageData.width imageData) (ImageData.height imageData) painted in
  ImageData.wf m /\
  Forall (fun v => v = 0 \/ v = 255) painted /\
  selectSubject imageData
  = Some (Selection.mk (erode (dilate m 3) 3) (computeBounds (erode (dilate m 3) 3)) true).
Proof.
  intros Hw Hh E painted m.
  assert (Hzeros : Forall (fun v => v = 0 \/ v = 255)
                     (ImageData.data (ImageData.create (ImageData.width imageData)
                                        (ImageData.height imageData))))
    by (cbn; apply Forall_replicate; left; reflexivity).
  assert (Hbin : Forall (fun v => v = 0 \/ v = 255) painted)
    by (subst painted; destruct (sort_regions regions); [exact Hzeros|];
        apply paint_bytes; exact Hzeros).
  assert (Hlen : Z.of_nat (length painted)
                 = 4 * ImageData.width imageData * ImageData.height imageData).
  { subst painted. destruct (sort_regions regions); rewrite ?paint_length;
      rewrite create_length; nia. }
  assert (Hwf : ImageData.wf m)
    by (repeat split; cbn [m ImageData.width ImageData.height ImageData.data];
        [lia|lia|exact Hlen|apply binary_bytes; exact Hbin]).
  split; [exact Hwf|]. split; [exact Hbin|].
  unfold selectSubject. rewrite E. cbn [mbind option_bind].
  fold painted. fold m. unfold morphClose.
  cbn [ImageData.data ImageData.width ImageData.height m].
  pose proof (erode_length (dilate m 3) 3 ltac:(cbn; lia) ltac:(cbn; lia)) as Hclosed.
  cbn [dilate ImageData.width ImageData.height m] in Hclosed.
  rewrite take_ge, drop_ge, app_nil_r by lia.
  reflexivity.
Qed.

(** X14: [selectSubject] returns a hard mask: on every image, the
    strength of each pixel is 0 or 255. *)
Theorem selectSubject_hard_mask (imageData : ImageData.t) :
  0 < ImageData.width imageData -> 0 < ImageData.height imageData ->
  exists subject,
    selectSubject imageData = Some subject /\
    forall x y,
      0 <= x < ImageData.width imageData -> 0 <= y < ImageData.height imageData ->
      strength (Selection.mask subject) x y = Some 0 \/
      strength (Selection.mask subject) x y = Some 255.
Proof.
  intros Hw Hh.
  destruct (findRegions_returns (ImageData.width imageData) (ImageData.height imageData)
              (saliencyMap imageData (computeEdgeMap imageData)) 0.35%float Hw ltac:(lia))
    as (visited & regions & E & _).
  destruct (selectSubject_closing imageData visited regions Hw Hh E) as (Hwf & Hbin & Hs).
  eexists. split; [exact Hs|]. intros x y Hx Hy. cbn [Selection.mask].
  match goal with |- strength (erode (dilate ?m _) _) _ _ = _ \/ _ =>
    destruct (closing_binary m 3 x y Hwf Hbin Hx Hy) as (v & -> & [-> | ->] & _)
  end; auto.
Qed.

Lemma selectSubject_hard_mask_witness :
  exists subject,
    selectSubject (uniform 2 2 [9; 9; 9; 255]) = Some subject /\
    (strength (Selection.mask subject) 1 1 = Some 0 \/
     strength (Selection.mask subject) 1 1 = Some 255).
Proof.
  destruct (selectSubject_hard_mask (uniform 2 2 [9; 9; 9; 255])
              ltac:(simpl; lia) ltac:(simpl; lia)) as (subject & Hs & Hb).
  exists subject. split; [exact Hs|].
  exact (Hb 1 1 ltac:(simpl; lia) ltac:(simpl; lia)).
Defined.

(** X15: [selectSubject] selects nothing on a small image: with fewer
    than three columns or three rows no pixel is a seed, and with 100
    pixels or fewer no region is large enough; every strength is 0 and
    the bounds are the zero rectangle. *)
Theorem selectSubject_small_image (imageData : ImageData.t) :
  0 < ImageData.width imageData -> 0 < ImageData.height imageData ->
  ImageData.width imageData < 3 \/ ImageData.height imageData < 3 \/
  ImageData.width imageData * ImageData.height imageData <= 100 ->
  exists subject,
    selectSubject imageData = Some subject /\
    Selection.bounds subject = Rect.mk 0 0 0 0 /\
    forall x y,
      0 <= x < ImageData.width imageData -> 0 <= y < ImageData.height imageData ->
      strength (Selection.mask subject) x y = Some 0.
Proof.
  intros Hw Hh Hsmall.
  assert (E : exists visited,
            findRegions (ImageData.width imageData) (ImageData.height imageData)
              (saliencyMap imageData (computeEdgeMap imageData)) 0.35%float
            = Some (visited, [])).
  { destruct Hsmall as [H | [H | H]].
    - exists ∅. apply findRegions_no_seed. left. exact H.
    - exists ∅. apply findRegions_no_seed. right. exact H.
    - destruct (findRegions_regions (ImageData.width imageData) (ImageData.height imageData)
                  (saliencyMap imageData (computeEdgeMap imageData)) 0.35%float
                  Hw ltac:(lia)) as (visited & regions & E & _ & Hnone).
      rewrite (Hnone H) in E. eauto. }
  destruct E as [visited E].
  destruct (selectSubject_closing imageData visited [] Hw Hh E) as (Hwf & Hbin & Hs).
  cbn [sort_regions foldr] in Hwf, Hbin, Hs.
  set (m := ImageData.mk _ _ _) in *.
  assert (Hzero : forall x y,
            0 <= x < ImageData.width imageData -> 0 <= y < ImageData.height imageData ->
            strength (erode (dilate m 3) 3) x y = Some 0).
  { intros x y Hx Hy.
    destruct (closing_binary m 3 x y Hwf Hbin Hx Hy) as (v & -> & _ & H0).
    f_equal. apply H0; [|reflexivity].
    intros x' y' Hx' Hy'. unfold strength, m in Hx', Hy' |- *.
    cbn [ImageData.data ImageData.width ImageData.height ImageData.create] in Hx', Hy' |- *.
    rewrite typed_get_lookup by nia. apply lookup_replicate_2. nia. }
  eexists. split; [exact Hs|]. cbn [Selection.bounds Selection.mask].
  split; [|exact Hzero].
  apply computeBounds_none; [exact Hw|].
  intros k. cbn [erode ImageData.width ImageData.height dilate m].
  destruct (decide (0 <= k < ImageData.width imageData * ImageData.height imageData))
    as [Hk|Hk].
  - pose proof (Hzero (k mod ImageData.width imageData) (k / ImageData.width imageData)
                  ltac:(apply Z.mod_pos_bound; lia)
                  ltac:(split; [apply Z.div_pos; lia|apply Z.div_lt_upper_bound; lia]))
      as H0.
    unfold strength in H0. cbn [erode ImageData.width] in H0.
    cbn [dilate ImageData.width m] in H0.
    rewrite linear_position in H0 by lia. rewrite H0. reflexivity.
  - destruct (typed_get _ (k * 4)) as [v|] eqn:Hv; [|reflexivity].
    apply typed_get_Some_range in Hv.
    pose proof (erode_length (dilate m 3) 3 ltac:(cbn; lia) ltac:(cbn; lia)) as Hl.
    cbn [dilate ImageData.width ImageData.height m] in Hl. lia.
Qed.

Lemma selectSubject_small_image_witness :
  exists subject,
    selectSubject (uniform 2 2 [9; 9; 9; 255]) = Some subject /\
    Selection.bounds subject = Rect.mk 0 0 0 0 /\
    strength (Selection.mask subject) 1 1 = Some 0.
Proof.
  destruct (selectSubject_small_image (uniform 2 2 [9; 9; 9; 255])
              ltac:(simpl; lia) ltac:(simpl; lia) ltac:(left; simpl; lia))
    as (subject & Hs & Hb & H0).
  exists subject. split; [exact Hs|]. split; [exact Hb|].
  exact (H0 1 1 ltac:(simpl; lia) ltac:(simpl; lia)).
Defined.

(** The closing of a mask is nowhere below the mask. *)
Lemma closing_above (m : ImageData.t) (radius : Q) (x y v : Z) :
  ImageData.wf m ->
  0 <= x < ImageData.width m -> 0 <= y < ImageData.height m ->
  strength m x y = Some v ->
  exists v', strength (erode (dilate m radius) radius) x y = Some v' /\ v <= v'.
Proof.
  intros Hwf Hx Hy Hv.
  destruct (wf_strength_range m x y Hwf Hx Hy) as (v0 & Hv0 & Hr).
  rewrite Hv in Hv0. injection Hv0 as <-.
  destruct (erode_minVal_lower (dilate m radius) radius x y v) as (M & HM & HvM).
  - lia.
  - intros dx dy Hd Hx' Hy'. cbn [dilate ImageData.width ImageData.height] in Hx', Hy'.
    rewrite dilate_strength by assumption.
    destruct (dilate_maxVal_upper m radius (x + dx) (y + dy) Hwf) as [(M & HM & HMr) Hup].
    destruct (Hup (- dx) (- dy) v) as (M' & HM' & Hle).
    + apply in_disk_opp. exact Hd.
    + lia.
    + lia.
    + replace (x + dx + - dx) with x by lia. replace (y + dy + - dy) with y by lia.
      exact Hv.
    + rewrite HM in HM'. injection HM' as <-. rewrite HM.
      exists M. split; [f_equal; apply clamp8_id; exact HMr|lia].
  - exists M. split; [|lia].
    rewrite erode_strength by (cbn [dilate ImageData.width ImageData.height]; assumption).
    rewrite HM. f_equal. apply clamp8_id. lia.
Qed.

(** X16: every point of the region [selectSubject] picks, the first one
    after sorting by score, is a pixel of the image and has strength 255
    in the result: the closing only adds to the painted region. *)
Theorem selectSubject_selects_main_region (imageData : ImageData.t) :
  0 < ImageData.width imageData -> 0 < ImageData.height imageData ->
  exists visited regions subject,
    findRegions (ImageData.width imageData) (ImageData.height imageData)
      (saliencyMap imageData (computeEdgeMap imageData)) 0.35%float
    = Some (visited, regions) /\
    selectSubject imageData = Some subject /\
    forall mainRegion others pos,
      sort_regions regions = mainRegion :: others ->
      pos ∈ Region.points mainRegion ->
      0 <= pos < ImageData.width imageData * ImageData.height imageData /\
      strength (Selection.mask subject)
        (pos mod ImageData.width imageData) (pos / ImageData.width imageData) = Some 255.
Proof.
  intros Hw Hh.
  destruct (findRegions_regions (ImageData.width imageData) (ImageData.height imageData)
              (saliencyMap imageData (computeEdgeMap imageData)) 0.35%float
              Hw ltac:(lia)) as (visited & regions & E & Hpoints & _).
  destruct (selectSubject_closing imageData visited regions Hw Hh E) as (Hwf & Hbin & Hs).
  exists visited, regions. eexists. split; [exact E|]. split; [exact Hs|].
  intros mainRegion others pos Hsort Hin. cbn [Selection.mask].
  apply (sort_regions_Forall _ _) in Hpoints. rewrite Hsort in Hpoints, Hwf, Hbin |- *.
  inversion Hpoints as [|? ? Hmain _]; subst.
  rewrite Forall_forall in Hmain. pose proof (Hmain pos Hin) as Hpos.
  split; [exact Hpos|].
  set (m := ImageData.mk _ _ _) in *.
  assert (Hx : 0 <= pos mod ImageData.width imageData < ImageData.width imageData)
    by (apply Z.mod_pos_bound; lia).
  assert (Hy : 0 <= pos / ImageData.width imageData < ImageData.height imageData)
    by (split; [apply Z.div_pos; lia|apply Z.div_lt_upper_bound; lia]).
  assert (Hv : strength m (pos mod ImageData.width imageData)
                 (pos / ImageData.width imageData) = Some 255).
  { unfold strength. cbn [m ImageData.data ImageData.width].
    rewrite linear_position by lia.
    apply (paint_points _ _ _ (ImageData.width imageData * ImageData.height imageData));
      [rewrite create_length; nia|exact Hpos|left; exact Hin]. }
  destruct (closing_above m 3 _ _ 255 Hwf Hx Hy Hv) as (v' & Hv' & Hle).
  destruct (closing_binary m 3 _ _ Hwf Hbin Hx Hy) as (v & Hv2 & Hb & _).
  rewrite Hv2 in Hv'. injection Hv' as <-. rewrite Hv2. f_equal. lia.
Qed.

Lemma selectSubject_selects_main_region_witness :
  exists visited regions subject mainRegion others,
    findRegions 43 4 (saliencyMap black_43x4 (computeEdgeMap black_43x4)) 0.35%float
    = Some (visited, regions) /\
    selectSubject black_43x4 = Some subject /\
    sort_regions regions = mainRegion :: others /\
    length (Region.points mainRegion) = 104%nat /\
    60 ∈ Region.points mainRegion /\
    0 <= 60 < 43 * 4 /\
    strength (Selection.mask subject) (60 mod 43) (60 / 43) = Some 255.
Proof.
  destruct (selectSubject_selects_main_region black_43x4
              ltac:(simpl; lia) ltac:(simpl; lia)) as (visited & regions & subject & E & Hs & H).
  change (ImageData.width black_43x4) with 43 in *.
  change (ImageData.height black_43x4) with 4 in *.
  pose proof E as E'. vm_compute in E'. injection E' as _ Er.
  destruct regions as [|[points score] others]; [discriminate Er|].
  injection Er as Ep _ Eo. destruct points as [|pos points]; [discriminate Ep|].
  injection Ep as Epos Epoints. subst pos others.
  exists visited, [Region.mk (60 :: points) score], subject,
    (Region.mk (60 :: points) score), [].
  split; [exact E|]. split; [exact Hs|]. split; [reflexivity|].
  split; [cbn [Region.points]; rewrite <- Epoints; reflexivity|]. split; [left|].
  exact (H (Region.mk (60 :: points) score) [] 60 eq_refl ltac:(left)).
Defined.

(** ** Alpha channels and selections *)

(** X17: applying to a well-formed image the selection made of its own
    alpha channel changes nothing: the store of buffers is as it was. *)
Theorem applySelectionAsAlpha_own_alpha (store : gmap nat (list Z)) (l lm : nat)
    (image : ImageData.t) :
  ImageData.wf image ->
  store !! l = Some (ImageData.data image) ->
  store !! lm = Some (ImageData.data (Selection.mask (selectionFromAlpha image))) ->
  l <> lm ->
  applySelectionAsAlpha store
    (Ref.mkImageData (ImageData.width image) (ImageData.height image) l)
    (Ref.mkSelection
       (Ref.mkImageData (ImageData.width image) (ImageData.height image) lm)
       (Selection.bounds (selectionFromAlpha image)) true)
  = store.
Proof.
  intros Hwf Himg Hmsk Hne. pose proof Hwf as (Hw & Hh & Hlen & Hbytes).
  rewrite (applySelectionAsAlpha_store store
             (Ref.mkImageData (ImageData.width image) (ImageData.height image) l)
             (Ref.mkSelection
                (Ref.mkImageData (ImageData.width image) (ImageData.height image) lm)
                (Selection.bounds (selectionFromAlpha image)) true)
             _ _ Himg Hmsk Hne).
  cbn [Ref.data]. rewrite <- (insert_id store l _ Himg) at 2. f_equal.
  set (msk := ImageData.data (Selection.mask (selectionFromAlpha image))).
  set (n := ImageData.width image * ImageData.height image).
  assert (Hlen' : Z.of_nat (length (ImageData.data image)) = 4 * n) by (subst n; lia).
  apply (pixels_eq _ _ n).
  - destruct (Z_le_gt_dec n 0) as [Hn|Hn]; [subst n; nia|].
    destruct (alpha_loop_pixels msk (ImageData.data image) n 0 Hlen' ltac:(lia)) as [-> _].
    exact Hlen'.
  - exact Hlen'.
  - intros k Hk.
    destruct (alpha_loop_pixels msk (ImageData.data image) n k Hlen' Hk) as [_ ->].
    unfold pixel_of. repeat f_equal.
    destruct (wf_channel_range image k 3 Hwf) as (alpha & Ha & Hr); [exact Hk|lia|].
    pose proof (selectionFromAlpha_pixel image k Hw Hh Hlen Hk) as Hp.
    cbv zeta in Hp. fold msk in Hp. unfold pixel_of in Hp. injection Hp as H0 _ _ _.
    rewrite H0, Ha, (clamp8_id alpha) by lia. cbn [js_min js_lift2].
    rewrite clamp8_id by lia. f_equal. lia.
Qed.

Lemma applySelectionAsAlpha_own_alpha_witness :
  applySelectionAsAlpha
    (<[0%nat := ImageData.data mask_2x2]>
       (<[1%nat := ImageData.data (Selection.mask (selectionFromAlpha mask_2x2))]> ∅))
    (Ref.mkImageData 2 2 0)
    (Ref.mkSelection (Ref.mkImageData 2 2 1)
       (Selection.bounds (selectionFromAlpha mask_2x2)) true)
  = <[0%nat := ImageData.data mask_2x2]>
      (<[1%nat := ImageData.data (Selection.mask (selectionFromAlpha mask_2x2))]> ∅).
Proof.
  apply (applySelectionAsAlpha_own_alpha _ 0%nat 1%nat mask_2x2);
    [exact mask_2x2_wf | reflexivity | reflexivity | discriminate].
Defined.

(** X18: where the mask has no byte for a pixel of the image,
    [applySelectionAsAlpha] makes the pixel transparent: its alpha
    becomes 0 and its colors stay. *)
Theorem applySelectionAsAlpha_short_mask (store : gmap nat (list Z))
    (imageData : Ref.ImageData) (selection : Ref.Selection) (img msk : list Z) (n k : Z) :
  store !! Ref.data imageData = Some img ->
  store !! Ref.data (Ref.mask selection) = Some msk ->
  Ref.data imageData <> Ref.data (Ref.mask selection) ->
  Z.of_nat (length img) = 4 * n ->
  0 <= k < n -> Z.of_nat (length msk) <= 4 * k ->
  exists img',
    applySelectionAsAlpha store imageData selection !! Ref.data imageData = Some img' /\
    pixel_of img' k = (channel img k 0, channel img k 1, channel img k 2, Some 0).
Proof.
  intros Himg Hmsk Hne Hlen Hk Hshort.
  rewrite (applySelectionAsAlpha_store store imageData selection img msk) by assumption.
  eexists. split; [apply lookup_insert_eq|].
  destruct (alpha_loop_pixels msk img n k Hlen Hk) as [_ ->].
  repeat f_equal.
  assert (Hnone : channel msk k 0 = None).
  { unfold channel. destruct (typed_get msk (4 * k + 0)) eqn:E; [|reflexivity].
    apply typed_get_Some_range in E. lia. }
  rewrite Hnone. destruct (channel img k 3); reflexivity.
Qed.

Lemma applySelectionAsAlpha_short_mask_witness :
  exists img',
    applySelectionAsAlpha (<[0%nat := [10; 20; 30; 200; 1; 2; 3; 50]]>
                             (<[1%nat := [255; 255; 255; 255]]> ∅))
      (image_at 0) (selection_at 1) !! 0%nat = Some img' /\
    pixel_of img' 1 = (Some 1, Some 2, Some 3, Some 0).
Proof.
  apply (applySelectionAsAlpha_short_mask
           (<[0%nat := [10; 20; 30; 200; 1; 2; 3; 50]]> (<[1%nat := [255; 255; 255; 255]]> ∅))
           (image_at 0) (selection_at 1) [10; 20; 30; 200; 1; 2; 3; 50]
           [255; 255; 255; 255] 2 1);
    [reflexivity | reflexivity | discriminate | reflexivity | lia | simpl; lia].
Defined.

(** ** Color range with a tolerance *)

(** [0 / m] is [0] for a positive [m]. *)
Lemma div_zero_positive (m : float) :
  PrimFloat.ltb 0%float m = true -> (0 / m)%float = 0%float.
Proof.
  intros Hm. apply Prim2SF_inj.
  rewrite FloatAxioms.ltb_spec in Hm. rewrite FloatAxioms.div_spec.
  change (Prim2SF 0%float) with (S754_zero false) in *.
  unfold FloatAxioms.SF64div. unfold SFltb in Hm.
  destruct (Prim2SF m) as [s|s| |s mm e]; try destruct s; cbn in Hm |- *;
    try discriminate; reflexivity.
Qed.

(** A byte minus itself is [0]. *)
Lemma byte_minus_itself (v : Z) :
  0 <= v <= 255 -> (float_of_Z v - float_of_Z v)%float = 0%float.
Proof.
  intros Hv.
  assert (Hall : forallb (fun v => match Prim2SF (float_of_Z v - float_of_Z v)%float with
                                   | S754_zero false => true
                                   | _ => false
                                   end) (seqZ 0 256) = true) by (vm_compute; reflexivity).
  rewrite forallb_forall in Hall.
  specialize (Hall v ltac:(apply list_elem_of_In, elem_of_seqZ; lia)).
  apply Prim2SF_inj. change (Prim2SF 0%float) with (S754_zero false).
  destruct (Prim2SF _) as [[|]|[|]| |]; try discriminate. reflexivity.
Qed.

(** The byte [selectColorRange] stores into the four channels of a pixel. *)
Lemma selectColorRange_pixel imageData options k :
  0 < ImageData.width imageData -> 0 < ImageData.height imageData ->
  Z.of_nat (length (ImageData.data imageData))
  = 4 * ImageData.width imageData * ImageData.height imageData ->
  0 <= k < ImageData.width imageData * ImageData.height imageData ->
  let data := ImageData.data imageData in
  let targetColor := ColorRangeOptions.targetColor options in
  let dr := (float_of_u8 (channel data k 0) - RGBA.r targetColor)%float in
  let dg := (float_of_u8 (channel data k 1) - RGBA.g targetColor)%float in
  let db := (float_of_u8 (channel data k 2) - RGBA.b targetColor)%float in
  let dist := PrimFloat.sqrt (dr * dr + dg * dg + db * db)%float in
  let maxDist := (ColorRangeOptions.fuzziness options * 2.55)%float in
  let value := ToUint8Clamp
                 (Math_round (Math_max 0%float (1 - dist / maxDist)%float * 255)%float) in
  pixel_of (ImageData.data (Selection.mask (selectColorRange imageData options))) k
  = (Some value, Some value, Some value, Some value).
Proof.
  intros Hw Hh Hlen Hk data targetColor dr dg db dist maxDist value.
  unfold selectColorRange. cbn [Selection.mask ImageData.data].
  set (init := ImageData.data (ImageData.create _ _)).
  assert (Hinit : Z.of_nat (length init)
                  = 4 * (ImageData.width imageData * ImageData.height imageData))
    by (subst init; rewrite create_length; nia).
  replace (Z.of_nat (length (ImageData.data imageData))) with (Z.of_nat (length init))
    by lia.
  set (val := fun i : Z =>
    Math_round
      (Math_max 0%float
         (1 - PrimFloat.sqrt
                ((float_of_u8 (typed_get (ImageData.data imageData) i)
                  - RGBA.r (ColorRangeOptions.targetColor options))
                 * (float_of_u8 (typed_get (ImageData.data imageData) i)
                    - RGBA.r (ColorRangeOptions.targetColor options))
                 + (float_of_u8 (typed_get (ImageData.data imageData) (i + 1))
                    - RGBA.g (ColorRangeOptions.targetColor options))
                   * (float_of_u8 (typed_get (ImageData.data imageData) (i + 1))
                      - RGBA.g (ColorRangeOptions.targetColor options))
                 + (float_of_u8 (typed_get (ImageData.data imageData) (i + 2))
                    - RGBA.b (ColorRangeOptions.targetColor options))
                   * (float_of_u8 (typed_get (ImageData.data imageData) (i + 2))
                      - RGBA.b (ColorRangeOptions.targetColor options)))
              / (ColorRangeOptions.fuzziness options * 2.55)) * 255)%float).
  destruct (for_step4_pixels (ImageData.width imageData * ImageData.height imageData)
    (fun i md => write_pixel md i (Some (ToUint8Clamp (val i)))
                   (Some (ToUint8Clamp (val i))))
    (fun k _ => (Some (ToUint8Clamp (val (4 * k))), Some (ToUint8Clamp (val (4 * k))),
                 Some (ToUint8Clamp (val (4 * k))), Some (ToUint8Clamp (val (4 * k)))))
    init Hinit) as [_ Hp].
  - intros j md Hj Hmd. split; [rewrite write_pixel_length; exact Hmd|].
    intros k'. rewrite pixel_of_write_pixel4 by lia.
    rewrite !clamp8_id by apply ToUint8Clamp_range. reflexivity.
  - assert (E : value = ToUint8Clamp (val (4 * k))).
    { subst value val dist dr dg db maxDist targetColor data. unfold channel.
      cbv beta. rewrite Z.add_0_r. reflexivity. }
    rewrite E, <- (Hp k Hk). f_equal.
    unfold for_step4. apply for_lt_ext. intros j md _.
    unfold write_pixel. rewrite !u8_set_float_u8_set. reflexivity.
Qed.

(** X19: with a positive tolerance [fuzziness * 2.55],
    [selectColorRange] gives a pixel of exactly the target color the
    value 255 in its four channels. *)
Theorem selectColorRange_exact_match (imageData : ImageData.t)
    (options : ColorRangeOptions.t) (k r g b : Z) :
  0 < ImageData.width imageData -> 0 < ImageData.height imageData ->
  Z.of_nat (length (ImageData.data imageData))
  = 4 * ImageData.width imageData * ImageData.height imageData ->
  0 <= k < ImageData.width imageData * ImageData.height imageData ->
  channel (ImageData.data imageData) k 0 = Some r -> 0 <= r <= 255 ->
  channel (ImageData.data imageData) k 1 = Some g -> 0 <= g <= 255 ->
  channel (ImageData.data imageData) k 2 = Some b -> 0 <= b <= 255 ->
  RGBA.r (ColorRangeOptions.targetColor options) = float_of_Z r ->
  RGBA.g (ColorRangeOptions.targetColor options) = float_of_Z g ->
  RGBA.b (ColorRangeOptions.targetColor options) = float_of_Z b ->
  PrimFloat.ltb 0%float (ColorRangeOptions.fuzziness options * 2.55)%float = true ->
  pixel_of (ImageData.data (Selection.mask (selectColorRange imageData options))) k
  = (Some 255, Some 255, Some 255, Some 255).
Proof.
  intros Hw Hh Hlen Hk Hr Rr Hg Rg Hb Rb Er Eg Eb Hfuzz.
  rewrite (selectColorRange_pixel imageData options k Hw Hh Hlen Hk). cbv zeta.
  rewrite Hr, Hg, Hb, Er, Eg, Eb. cbn [float_of_u8].
  rewrite !byte_minus_itself by assumption.
  change (PrimFloat.sqrt (0 * 0 + 0 * 0 + 0 * 0)%float) with 0%float.
  rewrite (div_zero_positive _ Hfuzz).
  reflexivity.
Qed.

Lemma selectColorRange_exact_match_witness :
  pixel_of (ImageData.data (Selection.mask (selectColorRange two_pixels
     (ColorRangeOptions.mk (RGBA.mk 10 20 30 1) 40)))) 0
  = (Some 255, Some 255, Some 255, Some 255).
Proof.
  apply (selectColorRange_exact_match two_pixels
           (ColorRangeOptions.mk (RGBA.mk 10 20 30 1) 40) 0 10 20 30);
    try reflexivity; simpl; lia.
Defined.

(** ** The edge map *)

Lemma f32_set_length a i v : length (f32_set a i v) = length a.
Proof. unfold f32_set. destruct (i <? 0); [reflexivity|apply length_insert]. Qed.

Lemma f32_get_set_other a i v j : i <> j -> f32_get (f32_set a i v) j = f32_get a j.
Proof.
  intros Hne. unfold f32_get, f32_set, typed_get.
  destruct (i <? 0) eqn:Hi; [reflexivity|]. destruct (j <? 0) eqn:Hj; [reflexivity|].
  rewrite list_lookup_insert_ne by lia. reflexivity.
Qed.

Lemma f32_get_set_same a i v :
  0 <= i < Z.of_nat (length a) -> f32_get (f32_set a i v) i = fround v.
Proof.
  intros Hi. unfold f32_get, f32_set, typed_get.
  destruct (Z.ltb_spec i 0); [lia|].
  rewrite list_lookup_insert_eq by lia. reflexivity.
Qed.

(** X20: the edge map has one entry per pixel, and the entry of every
    pixel on the border of the image is 0, whatever the image holds. *)
Theorem computeEdgeMap_border (imageData : ImageData.t) :
  0 < ImageData.width imageData -> 0 < ImageData.height imageData ->
  let width := ImageData.width imageData in
  let height := ImageData.height imageData in
  Z.of_nat (length (computeEdgeMap imageData)) = width * height /\
  forall x y,
    0 <= x < width -> 0 <= y < height ->
    x = 0 \/ x = width - 1 \/ y = 0 \/ y = height - 1 ->
    f32_get (computeEdgeMap imageData) (y * width + x) = 0%float.
Proof.
  intros Hw Hh width height. unfold computeEdgeMap. fold width height.
  set (gray := for_step4 _ _ _).
  set (edges1 := for_lt 1 (height - 1) _ _).
  assert (H1 : Z.of_nat (length edges1) = width * height /\
               forall x y, 0 <= x < width -> 0 <= y < height ->
                 x = 0 \/ x = width - 1 \/ y = 0 \/ y = height - 1 ->
                 f32_get edges1 (y * width + x) = 0%float).
  { subst edges1.
    pose (P := fun edges : list float =>
      Z.of_nat (length edges) = width * height /\
      forall x y, 0 <= x < width -> 0 <= y < height ->
        x = 0 \/ x = width - 1 \/ y = 0 \/ y = height - 1 ->
        f32_get edges (y * width + x) = 0%float).
    apply (for_lt_inv P).
    - subst P. cbv beta. split; [rewrite length_replicate; nia|].
      intros x y Hx Hy _. unfold f32_get. rewrite typed_get_lookup by nia.
      rewrite lookup_replicate_2 by nia. reflexivity.
    - intros y' edges Hy' Hedges. apply (for_lt_inv P); [exact Hedges|].
      intros x' edges' Hx' [Hlen Hborder]. subst P. cbv beta.
      destruct (for_le _ _ _ _) as [gx gy].
      split; [rewrite f32_set_length; exact Hlen|].
      intros x y Hx Hy Hb. rewrite f32_get_set_other; [apply Hborder; assumption|].
      intros E.
      destruct (linear_div_mod width x y Hx) as [Em Ed].
      destruct (linear_div_mod width x' y' ltac:(lia)) as [Em' Ed'].
      rewrite E in Em', Ed'. lia. }
  clearbody edges1. destruct H1 as [Hlen1 Hborder1].
  destruct (PrimFloat.ltb 0%float _) eqn:Hmax; [|split; assumption].
  set (maxEdge := for_lt 0 (Z.of_nat (length edges1)) _ 0%float) in *. clearbody maxEdge.
  pose (P := fun edges : list float =>
    Z.of_nat (length edges) = width * height /\
    forall x y, 0 <= x < width -> 0 <= y < height ->
      x = 0 \/ x = width - 1 \/ y = 0 \/ y = height - 1 ->
      f32_get edges (y * width + x) = 0%float).
  apply (for_lt_inv P); [split; assumption|].
  intros i edges Hi [Hlen Hborder]. subst P. cbv beta.
  split; [rewrite f32_set_length; exact Hlen|].
  intros x y Hx Hy Hb.
  destruct (Z.eq_dec i (y * width + x)) as [-> | Hne].
  - rewrite f32_get_set_same by nia. rewrite (Hborder x y Hx Hy Hb).
    rewrite (div_zero_positive _ Hmax). reflexivity.
  - rewrite f32_get_set_other by exact Hne. apply Hborder; assumption.
Qed.

Lemma computeEdgeMap_border_witness :
  Z.of_nat (length (computeEdgeMap mask_2x2)) = 2 * 2 /\
  f32_get (computeEdgeMap mask_2x2) (1 * 2 + 0) = 0%float.
Proof.
  destruct (computeEdgeMap_border mask_2x2 ltac:(simpl; lia) ltac:(simpl; lia))
    as [Hlen Hborder].
  split; [exact Hlen|].
  exact (Hborder 0 1 ltac:(simpl; lia) ltac:(simpl; lia) ltac:(left; reflexivity)).
Defined.

(** ** The work-list loops end *)

(** X21: the work-list loops end: on an image of positive size the flood
    fill of [quickSelect] empties its queue within [4 * width * height +
    2] turns, from every start, radius, mode and mask, and so do the
    flood fills of [selectSubject]; both operations return. *)
Theorem flood_fills_end (imageData : ImageData.t) (startX startY radius : float)
    (mode : SelectionMode) (mask0 : list Z) :
  0 < ImageData.width imageData -> 0 < ImageData.height imageData ->
  (exists st,
     qs_run imageData startX startY radius mode mask0 = Some st /\ QS.queue st = []) /\
  is_Some (quickSelect imageData startX startY radius mode None) /\
  is_Some (selectSubject imageData).
Proof.
  intros Hw Hh. split; [|split].
  - destruct (qs_run_terminates imageData startX startY radius mode mask0 Hw Hh)
      as [st Hst].
    exists st. split; [exact Hst|]. unfold qs_run in Hst.
    apply (qs_loop_inv _ _ _ _ _ _ _ _ _ _ _ (fun _ => True)) in Hst; [apply Hst|auto|exact I].
  - apply quickSelect_returns; [exact Hw|exact Hh|exact I].
  - apply selectSubject_returns; lia.
Qed.

Lemma flood_fills_end_witness :
  is_Some (quickSelect (uniform 2 2 [9; 9; 9; 255]) 0.5 0.5 1 mode_new None) /\
  is_Some (selectSubject (uniform 2 2 [9; 9; 9; 255])).
Proof.
  apply (proj2 (flood_fills_end (uniform 2 2 [9; 9; 9; 255]) 0.5 0.5 1 mode_new []
                  ltac:(simpl; lia) ltac:(simpl; lia))).
Defined.

(** ** Refine edge *)

(** Three stores into the color channels of one pixel. *)
Lemma pixel_of_u8_set3 buf k a b c k' :
  0 <= k -> 4 * k + 3 < Z.of_nat (length buf) ->
  pixel_of (u8_set (u8_set (u8_set buf (4 * k) a) (4 * k + 1) b) (4 * k + 2) c) k'
  = if decide (k' = k)
    then (Some (clamp8 a), Some (clamp8 b), Some (clamp8 c), channel buf k 3)
    else pixel_of buf k'.
Proof.
  intros Hk Hlen. unfold pixel_of, channel.
  rewrite !typed_get_u8_set, !u8_set_length.
  destruct (decide (k' = k)) as [->|Hne].
  - rewrite !Z.add_0_r.
    rewrite (decide_True (P := 4 * k = 4 * k /\ _)) by lia.
    rewrite (decide_False (P := 4 * k + 2 = 4 * k /\ _)) by lia.
    rewrite (decide_False (P := 4 * k + 1 = 4 * k /\ _)) by lia.
    rewrite (decide_False (P := 4 * k + 2 = 4 * k + 1 /\ _)) by lia.
    rewrite (decide_True (P := 4 * k + 1 = 4 * k + 1 /\ _)) by lia.
    rewrite (decide_True (P := 4 * k + 2 = 4 * k + 2 /\ _)) by lia.
    rewrite (decide_False (P := 4 * k + 2 = 4 * k + 3 /\ _)) by lia.
    rewrite (decide_False (P := 4 * k + 1 = 4 * k + 3 /\ _)) by lia.
    rewrite (decide_False (P := 4 * k = 4 * k + 3 /\ _)) by lia.
    reflexivity.
  - rewrite !(decide_False (P := _ = _ /\ _)) by lia. reflexivity.
Qed.

Lemma applyContrast_pixel mask amount k :
  Z.of_nat (length (ImageData.data mask)) = 4 * (ImageData.width mask * ImageData.height mask) ->
  0 <= k < ImageData.width mask * ImageData.height mask ->
  let data := ImageData.data mask in
  let v := ToUint8Clamp (contrast_curve amount (channel data k 0)) in
  length (ImageData.data (applyContrast mask amount)) = length data /\
  pixel_of (ImageData.data (applyContrast mask amount)) k
  = (Some v, Some v, Some v, channel data k 3).
Proof.
  intros Hlen Hk data v. unfold applyContrast. cbn [ImageData.data]. fold data.
  pose proof (for_step4_pixels (ImageData.width mask * ImageData.height mask)
    (fun i data =>
       let result := contrast_curve amount (typed_get data i) in
       u8_set_float (u8_set_float (u8_set_float data i result) (i + 1) result) (i + 2) result)
    (fun _ p => let c := ToUint8Clamp (contrast_curve amount p.1.1.1) in
                (Some c, Some c, Some c, p.2)) data Hlen) as Hloop.
  cbv zeta in Hloop. destruct Hloop as [Hl Hp].
  - intros j md Hj Hmd. rewrite !u8_set_float_u8_set. split.
    + rewrite !u8_set_length. exact Hmd.
    + intros k'. rewrite pixel_of_u8_set3 by (subst data; lia).
      rewrite !clamp8_id by apply ToUint8Clamp_range.
      destruct (decide (k' = j)); [|reflexivity].
      unfold pixel_of. cbn [fst snd]. unfold channel.
      rewrite Z.add_0_r. reflexivity.
  - split; [exact Hl|]. rewrite Hp by exact Hk. unfold pixel_of. reflexivity.
Qed.

Lemma u8_set_out a i v : ~ 0 <= i < Z.of_nat (length a) -> u8_set a i v = a.
Proof.
  intros H. unfold u8_set. destruct (Z.ltb_spec i 0); [reflexivity|].
  apply list_insert_ge. lia.
Qed.

(** One turn of [applySmartRadius]. *)
Lemma smart_step_pixels (d : list Z) (n pos : Z) :
  Z.of_nat (length d) = 4 * n ->
  let d1 := u8_set d (pos * 4)
              (Some (if js_gt (typed_get d (pos * 4)) (Some 127) then 255 else 0)) in
  let d2 := u8_set d1 (pos * 4 + 1) (typed_get d1 (pos * 4)) in
  let d3 := u8_set d2 (pos * 4 + 2) (typed_get d2 (pos * 4)) in
  length d3 = length d /\
  forall k, 0 <= k < n ->
    pixel_of d3 k
    = if decide (k = pos)
      then let B := Some (if js_gt (channel d k 0) (Some 127) then 255 else 0) in
           (B, B, B, channel d k 3)
      else pixel_of d k.
Proof.
  intros Hlen d1 d2 d3. split; [subst d1 d2 d3; rewrite !u8_set_length; reflexivity|].
  intros k Hk.
  destruct (decide (0 <= pos < n)) as [Hpos|Hpos].
  - subst d3 d2 d1. replace (pos * 4) with (4 * pos) by lia.
    rewrite pixel_of_u8_set3 by lia.
    destruct (decide (k = pos)) as [->|Hne]; [|reflexivity].
    rewrite !typed_get_u8_set, !u8_set_length.
    rewrite (decide_False (P := 4 * pos + 1 = 4 * pos /\ _)) by lia.
    rewrite !(decide_True (P := 4 * pos = 4 * pos /\ _)) by lia.
    unfold channel at 1 2 3. rewrite Z.add_0_r.
    assert (E : forall b : bool, clamp8 (Some (clamp8 (Some (if b then 255 else 0))))
                                 = if b then 255 else 0) by (intros []; reflexivity).
    assert (E' : forall b : bool, clamp8 (Some (if b then 255 else 0))
                                  = if b then 255 else 0) by (intros []; reflexivity).
    cbv zeta. rewrite E, E'. reflexivity.
  - rewrite (decide_False (P := k = pos)) by lia.
    subst d3 d2 d1. rewrite (u8_set_out d) by lia.
    rewrite (u8_set_out d) by lia. rewrite (u8_set_out d) by lia. reflexivity.
Qed.

(** [applySmartRadius] leaves each pixel as it is or makes its strength
    and its colors 0 or 255, by the side of 127 its strength is on. *)
Lemma applySmartRadius_pixels mask edges edgeZone radius (n : Z) :
  Z.of_nat (length (ImageData.data mask)) = 4 * n ->
  let data := ImageData.data mask in
  let out := ImageData.data (applySmartRadius mask edges edgeZone radius) in
  length out = length data /\
  forall k, 0 <= k < n ->
    let B := Some (if js_gt (channel data k 0) (Some 127) then 255 else 0) in
    pixel_of out k = pixel_of data k \/ pixel_of out k = (B, B, B, channel data k 3).
Proof.
  intros Hlen data out. subst out. unfold applySmartRadius. cbn [ImageData.data]. fold data.
  set (P := fun d : list Z =>
    length d = length data /\
    forall k, 0 <= k < n ->
      let B := Some (if js_gt (channel data k 0) (Some 127) then 255 else 0) in
      pixel_of d k = pixel_of data k \/ pixel_of d k = (B, B, B, channel data k 3)).
  match goal with |- context [fold_left ?f _ _] => set (step := f) end.
  enough (G : forall d, P d -> P (fold_left step edgeZone d))
    by (apply G; split; [reflexivity|intros k _; left; reflexivity]).
  induction edgeZone as [|pos zone IH]; intros d Hd; [exact Hd|].
  cbn [fold_left]. apply IH. unfold step at 1.
  destruct (PrimFloat.ltb 0.5 (f32_get edges pos)); [|exact Hd].
  destruct Hd as [Hl Hd].
  destruct (smart_step_pixels d n pos ltac:(unfold data in Hl; lia)) as [Hl' Hp].
  cbv zeta in Hl', Hp. split; [rewrite Hl'; exact Hl|].
  intros k Hk. cbv zeta. rewrite (Hp k Hk).
  destruct (decide (k = pos)) as [->|_]; [|apply Hd; exact Hk].
  right. destruct (Hd pos Hk) as [E|E]; cbv zeta in E.
  - unfold pixel_of in E. injection E as E0 _ _ E3. rewrite E0, E3. reflexivity.
  - unfold pixel_of in E. injection E as E0 _ _ E3. rewrite E0, E3.
    destruct (js_gt (channel data pos 0) (Some 127)); reflexivity.
Qed.

(** Past its early return, [gaussianBlur] fills a fresh opaque mask of the
    same size with gray pixels. *)
Lemma gaussianBlur_shape Math_exp mask radius out :
  0 < ImageData.width mask -> 0 < ImageData.height mask ->
  PrimFloat.ltb radius 0.5 = false ->
  gaussianBlur Math_exp mask radius = Some out ->
  ImageData.width out = ImageData.width mask /\
  ImageData.height out = ImageData.height mask /\
  exists val : Z -> Z,
    ImageData.wf out /\
    forall k, 0 <= k < ImageData.width mask * ImageData.height mask ->
      pixel_of (ImageData.data out) k = (Some (val k), Some (val k), Some (val k), Some 255).
Proof.
  intros Hw Hh Hlt. unfold gaussianBlur. rewrite Hlt.
  destruct (loop_bound _) as [r|]; [|discriminate]. cbn [mbind option_bind].
  destruct (for_kernel r _ _) as [kernel sum].
  set (kernel' := for_lt 0 (Z.of_nat (length kernel)) _ kernel).
  set (temp := for_lt 0 (ImageData.height mask) _ (replicate _ 0%float)).
  intros [= <-]. cbn [ImageData.width ImageData.height ImageData.data].
  split; [reflexivity|]. split; [reflexivity|].
  set (w := ImageData.width mask) in *. set (h := ImageData.height mask) in *.
  set (val := fun x y : Z =>
    Some (ToUint8Clamp (Math_round (for_kernel r (fun r i val =>
      let ny := Z.max 0 (Z.min (h - 1) (y + i)) in
      (val + f32_get temp (ny * w + x) * num_get kernel' (i + r))%float) 0%float)))).
  set (init := replicate (Z.to_nat (4 * w * h)) 0).
  assert (Hinit : Z.of_nat (length init) = 4 * w * h)
    by (subst init; rewrite length_replicate; nia).
  match goal with |- context [for_lt 0 h ?f init] => set (body := f) end.
  assert (E : for_lt 0 h body init
              = for_lt 0 h (fun y res =>
                  for_lt 0 w (fun x res =>
                    write_pixel res ((y * w + x) * 4) (val x y) (Some 255)) res) init).
  { apply for_lt_ext. intros y res _. subst body. cbv beta.
    apply for_lt_ext. intros x res' _. cbv zeta.
    rewrite !u8_set_float_u8_set. reflexivity. }
  rewrite E. clear E body.
  destruct (grey_loop_pixels w h val (Some 255) init Hw ltac:(lia) Hinit) as [Hl Hp].
  cbv zeta in Hl, Hp.
  exists (fun k => clamp8 (val (k mod w) (k / w))). split.
  - apply (pixels_wf w h _ (fun k => val (k mod w) (k / w)) (Some 255));
      first [assumption | rewrite Hl; exact Hinit | intros k Hk; apply Hp; exact Hk].
  - intros k Hk. rewrite Hp by exact Hk. reflexivity.
Qed.

(** The contrast curve over the slider's range, value by value. *)
Lemma contrast_byte_table c v :
  1 <= c <= 100 -> 0 <= v <= 255 ->
  (v <= 127 -> contrast_byte c v <= v) /\
  (128 <= v -> v <= contrast_byte c v) /\
  (v < 255 -> contrast_byte c v <= contrast_byte c (v + 1)).
Proof.
  intros Hc Hv.
  assert (T : forallb (fun c => forallb (fun v =>
              (if v <=? 127 then contrast_byte c v <=? v else v <=? contrast_byte c v)
              && (if v <? 255 then contrast_byte c v <=? contrast_byte c (v + 1) else true))
              (seqZ 0 256)) (seqZ 1 100) = true) by (vm_compute; reflexivity).
  rewrite forallb_forall in T.
  assert (Hin : In c (seqZ 1 100)) by (apply list_elem_of_In, elem_of_seqZ; lia).
  specialize (T c Hin). rewrite forallb_forall in T.
  assert (Hin' : In v (seqZ 0 256)) by (apply list_elem_of_In, elem_of_seqZ; lia).
  specialize (T v Hin'). apply andb_prop in T as [T1 T2].
  destruct (Z.leb_spec v 127), (Z.ltb_spec v 255); lia.
Qed.

Lemma contrast_byte_monotone c v1 v2 :
  1 <= c <= 100 -> 0 <= v1 -> v1 <= v2 -> v2 <= 255 ->
  contrast_byte c v1 <= contrast_byte c v2.
Proof.
  intros Hc H1 H12 H2.
  assert (G : forall n : nat, v1 + Z.of_nat n <= 255 ->
              contrast_byte c v1 <= contrast_byte c (v1 + Z.of_nat n)).
  { induction n as [|n IH]; intros Hn.
    - rewrite Z.add_0_r. lia.
    - specialize (IH ltac:(lia)).
      destruct (contrast_byte_table c (v1 + Z.of_nat n) Hc ltac:(lia)) as (_ & _ & Hs).
      specialize (Hs ltac:(lia)).
      replace (v1 + Z.of_nat (S n)) with (v1 + Z.of_nat n + 1) by lia. lia. }
  specialize (G (Z.to_nat (v2 - v1)) ltac:(lia)).
  replace (v1 + Z.of_nat (Z.to_nat (v2 - v1))) with v2 in G by lia. exact G.
Qed.

Lemma applySmartRadius_wf mask edges edgeZone radius :
  ImageData.wf mask -> ImageData.wf (applySmartRadius mask edges edgeZone radius).
Proof.
  intros Hwf. pose proof Hwf as (Hw & Hh & Hlen & _).
  destruct (applySmartRadius_pixels mask edges edgeZone radius
              (ImageData.width mask * ImageData.height mask) ltac:(lia)) as [Hl Hp].
  cbv zeta in Hl, Hp.
  split; [exact Hw|]. split; [exact Hh|]. split.
  - cbn [ImageData.width ImageData.height]. rewrite Hl. exact Hlen.
  - apply (pixels_bytes _ (ImageData.width mask * ImageData.height mask)); [lia|].
    intros k Hk.
    destruct (wf_channel_range mask k 0 Hwf Hk ltac:(lia)) as (r & Er & Hr).
    destruct (wf_channel_range mask k 1 Hwf Hk ltac:(lia)) as (g & Eg & Hg).
    destruct (wf_channel_range mask k 2 Hwf Hk ltac:(lia)) as (b & Eb & Hb).
    destruct (wf_channel_range mask k 3 Hwf Hk ltac:(lia)) as (a & Ea & Ha).
    destruct (Hp k Hk) as [E|E]; rewrite E.
    + exists r, g, b, a. unfold pixel_of. rewrite Er, Eg, Eb, Ea. auto.
    + rewrite Ea. eexists _, _, _, a. split; [reflexivity|].
      destruct (js_gt _ _); repeat split; lia.
Qed.

Lemma applyContrast_wf mask amount :
  ImageData.wf mask -> ImageData.wf (applyContrast mask amount).
Proof.
  intros Hwf. pose proof Hwf as (Hw & Hh & Hlen & _).
  split; [exact Hw|]. split; [exact Hh|].
  assert (Hlen' : Z.of_nat (length (ImageData.data mask))
                  = 4 * (ImageData.width mask * ImageData.height mask)) by lia.
  assert (Hpos : 0 <= 0 < ImageData.width mask * ImageData.height mask) by nia.
  destruct (applyContrast_pixel mask amount 0 Hlen' Hpos) as [Hl _].
  split.
  - cbn [ImageData.width ImageData.height]. rewrite Hl. exact Hlen.
  - apply (pixels_bytes _ (ImageData.width mask * ImageData.height mask)).
    + rewrite Hl. exact Hlen'.
    + intros k Hk. destruct (applyContrast_pixel mask amount k Hlen' Hk) as [_ Hp].
      cbv zeta in Hp. rewrite Hp.
      destruct (wf_channel_range mask k 3 Hwf Hk ltac:(lia)) as (a & Ea & Ha).
      rewrite Ea. eexists _, _, _, a. split; [reflexivity|].
      pose proof (ToUint8Clamp_range (contrast_curve amount (channel (ImageData.data mask) k 0))).
      repeat split; lia.
Qed.

(** A smooth setting below 10 gives a blur radius below 0.5. *)
Lemma gaussianBlur_smooth_below_10 Math_exp mask smooth :
  0 < smooth < 10 ->
  gaussianBlur Math_exp mask (float_of_Z smooth / 20)%float = Some mask.
Proof.
  intros H. unfold gaussianBlur.
  assert (E : PrimFloat.ltb (float_of_Z smooth / 20)%float 0.5%float = true).
  { assert (C : smooth = 1 \/ smooth = 2 \/ smooth = 3 \/ smooth = 4 \/ smooth = 5 \/
                smooth = 6 \/ smooth = 7 \/ smooth = 8 \/ smooth = 9) by lia.
    destruct C as [->|[->|[->|[->|[->|[->|[->|[->| ->]]]]]]]]; vm_compute; reflexivity. }
  rewrite E. reflexivity.
Qed.

(** With the two blurs off, [refineEdge] is its three other steps. *)
Lemma refineEdge_steps Math_exp this selection imageData options :
  RefineEdgeOptions.smooth options < 10 ->
  RefineEdgeOptions.feather options <= 0 ->
  refineEdge Math_exp this selection imageData options
  = (mask ← ImageData.of_data (ImageData.data (Selection.mask selection))
             (SelectionEngine.width this) (SelectionEngine.height this);
     let mask :=
       if 0 <? RefineEdgeOptions.radius options
       then applySmartRadius mask (computeEdgeMap imageData)
              (findEdgeZone mask (RefineEdgeOptions.radius options))
              (RefineEdgeOptions.radius options)
       else mask in
     let mask :=
       if 0 <? RefineEdgeOptions.contrast options
       then applyContrast mask (float_of_Z (RefineEdgeOptions.contrast options) / 50)%float
       else mask in
     let mask :=
       if RefineEdgeOptions.shift options =? 0 then mask
       else if 0 <? RefineEdgeOptions.shift options
       then dilate mask (Qabs (RefineEdgeOptions.shift options # 10))
       else erode mask (Qabs (RefineEdgeOptions.shift options # 10)) in
     Some (Selection.mk mask (computeBounds mask) true)).
Proof.
  intros Hs Hf. unfold refineEdge.
  destruct (ImageData.of_data _ _ _) as [mask|]; [|reflexivity].
  cbn [mbind option_bind].
  destruct (Z.ltb_spec 0 (RefineEdgeOptions.feather options)); [lia|].
  destruct (Z.ltb_spec 0 (RefineEdgeOptions.smooth options)); [|reflexivity].
  rewrite gaussianBlur_smooth_below_10 by lia. reflexivity.
Qed.

Lemma of_data_own (mask : ImageData.t) w h :
  ImageData.wf mask -> ImageData.width mask = w -> ImageData.height mask = h ->
  ImageData.of_data (ImageData.data mask) w h = Some mask.
Proof.
  intros (Hw & Hh & Hlen & _) <- <-. unfold ImageData.of_data.
  destruct (Z.ltb_spec 0 (ImageData.width mask)); [|lia].
  destruct (Z.ltb_spec 0 (ImageData.height mask)); [|lia].
  rewrite (proj2 (Z.eqb_eq _ _) Hlen). destruct mask. reflexivity.
Qed.

(** X22: with the radius and the contrast at 0 or below, no feather and
    a smooth setting below 10 (which gives a blur radius below 0.5,
    hence no blur), [refineEdge] on a mask of the engine's size is a
    shift of the edge: the mask itself with its bounds for the shift 0,
    [growSelection] by shift / 10 for a positive shift and
    [shrinkSelection] by - shift / 10 for a negative one. *)
Theorem refineEdge_shift_is_grow_or_shrink (Math_exp : float -> float)
    (this : SelectionEngine.t) (selection : Selection.t) (imageData : ImageData.t)
    (options : RefineEdgeOptions.t) :
  ImageData.wf (Selection.mask selection) ->
  ImageData.width (Selection.mask selection) = SelectionEngine.width this ->
  ImageData.height (Selection.mask selection) = SelectionEngine.height this ->
  RefineEdgeOptions.radius options <= 0 ->
  RefineEdgeOptions.smooth options < 10 ->
  RefineEdgeOptions.feather options <= 0 ->
  RefineEdgeOptions.contrast options <= 0 ->
  let shift := RefineEdgeOptions.shift options in
  let refined := refineEdge Math_exp this selection imageData options in
  (shift = 0 ->
   refined = Some (Selection.mk (Selection.mask selection)
                     (computeBounds (Selection.mask selection)) true)) /\
  (0 < shift -> refined = Some (growSelection selection (shift # 10))) /\
  (shift < 0 -> refined = Some (shrinkSelection selection (- shift # 10))).
Proof.
  intros Hwf Hw Hh Hr Hs Hf Hc shift refined. subst refined.
  rewrite refineEdge_steps by assumption.
  rewrite (of_data_own _ _ _ Hwf Hw Hh). cbn [mbind option_bind]. fold shift.
  destruct (Z.ltb_spec 0 (RefineEdgeOptions.radius options)); [lia|].
  destruct (Z.ltb_spec 0 (RefineEdgeOptions.contrast options)); [lia|].
  cbv zeta. unfold growSelection, shrinkSelection, Qabs.
  split; [|split]; intros Hshift.
  - rewrite (proj2 (Z.eqb_eq _ _) Hshift). reflexivity.
  - rewrite (proj2 (Z.eqb_neq _ _)) by lia.
    destruct (Z.ltb_spec 0 shift); [|lia]. rewrite Z.abs_eq by lia. reflexivity.
  - rewrite (proj2 (Z.eqb_neq _ _)) by lia.
    destruct (Z.ltb_spec 0 shift); [lia|]. rewrite Z.abs_neq by lia. reflexivity.
Qed.

Lemma refineEdge_shift_is_grow_or_shrink_witness :
  let this := SelectionEngine.mk 2 2 in
  let imageData := uniform 2 2 [9; 9; 9; 255] in
  let options := RefineEdgeOptions.mk 0 9 0 0 3 in
  let refined := refineEdge (fun x => x) this (selection_of mask_2x2) imageData options in
  (3 = 0 ->
   refined = Some (Selection.mk (Selection.mask (selection_of mask_2x2))
                     (computeBounds (Selection.mask (selection_of mask_2x2))) true)) /\
  (0 < 3 -> refined = Some (growSelection (selection_of mask_2x2) (3 # 10))) /\
  (3 < 0 -> refined = Some (shrinkSelection (selection_of mask_2x2) (- (3) # 10))).
Proof.
  apply (refineEdge_shift_is_grow_or_shrink (fun x => x) (SelectionEngine.mk 2 2)
           (selection_of mask_2x2) (uniform 2 2 [9; 9; 9; 255])
           (RefineEdgeOptions.mk 0 9 0 0 3));
    [exact mask_2x2_wf | reflexivity | reflexivity | simpl; lia | simpl; lia
    | simpl; lia | simpl; lia].
Defined.

(** X23: with only the contrast set, to a value of the slider from 1 to
    100, [refineEdge] maps the strengths through one curve on bytes that
    keeps their order, lowers or keeps each strength up to 127 and
    raises or keeps each strength from 128 on; so 0 stays 0 and 255
    stays 255. *)
Theorem refineEdge_contrast_hardens (Math_exp : float -> float)
    (this : SelectionEngine.t) (selection : Selection.t) (imageData : ImageData.t)
    (options : RefineEdgeOptions.t) :
  ImageData.wf (Selection.mask selection) ->
  ImageData.width (Selection.mask selection) = SelectionEngine.width this ->
  ImageData.height (Selection.mask selection) = SelectionEngine.height this ->
  RefineEdgeOptions.radius options <= 0 ->
  RefineEdgeOptions.smooth options < 10 ->
  RefineEdgeOptions.feather options <= 0 ->
  1 <= RefineEdgeOptions.contrast options <= 100 ->
  RefineEdgeOptions.shift options = 0 ->
  exists (refined : Selection.t) (curve : Z -> Z),
    refineEdge Math_exp this selection imageData options = Some refined /\
    (forall x y, 0 <= x < SelectionEngine.width this -> 0 <= y < SelectionEngine.height this ->
       exists v, 0 <= v <= 255 /\
         strength (Selection.mask selection) x y = Some v /\
         strength (Selection.mask refined) x y = Some (curve v)) /\
    (forall v, 0 <= v <= 255 -> 0 <= curve v <= 255) /\
    (forall v, 0 <= v <= 127 -> curve v <= v) /\
    (forall v, 128 <= v <= 255 -> v <= curve v) /\
    (forall v1 v2, 0 <= v1 -> v1 <= v2 -> v2 <= 255 -> curve v1 <= curve v2).
Proof.
  intros Hwf Hw Hh Hr Hs Hf Hc Hshift.
  rewrite refineEdge_steps by lia.
  rewrite (of_data_own _ _ _ Hwf Hw Hh). cbn [mbind option_bind].
  destruct (Z.ltb_spec 0 (RefineEdgeOptions.radius options)); [lia|].
  destruct (Z.ltb_spec 0 (RefineEdgeOptions.contrast options)); [|lia].
  rewrite (proj2 (Z.eqb_eq _ _) Hshift). cbv zeta.
  set (m := Selection.mask selection) in *.
  set (c := RefineEdgeOptions.contrast options) in *.
  eexists _, (contrast_byte c). split; [reflexivity|]. cbn [Selection.mask].
  pose proof Hwf as (Hw0 & Hh0 & Hlen & _). split; [|split; [|split; [|split]]].
  - intros x y Hx Hy.
    destruct (wf_strength_range m x y Hwf ltac:(lia) ltac:(lia)) as (v & Ev & Hv).
    exists v. split; [exact Hv|]. split; [exact Ev|].
    destruct (applyContrast_pixel m (float_of_Z c / 50)%float (y * ImageData.width m + x)
                ltac:(lia) ltac:(nia)) as [_ Hp].
    cbv zeta in Hp. rewrite strength_channel in Ev |- *.
    cbn [applyContrast ImageData.width]. unfold pixel_of in Hp.
    injection Hp as Hp0 _ _ _. etransitivity; [exact Hp0|]. rewrite Ev. reflexivity.
  - intros v _. apply ToUint8Clamp_range.
  - intros v Hv. apply (contrast_byte_table c v); lia.
  - intros v Hv. apply (contrast_byte_table c v); lia.
  - intros v1 v2 H1 H12 H2. apply contrast_byte_monotone; lia.
Qed.

Lemma refineEdge_contrast_hardens_witness :
  exists (refined : Selection.t) (curve : Z -> Z),
    refineEdge (fun x => x) (SelectionEngine.mk 2 2) (selection_of mask_2x2)
      (uniform 2 2 [9; 9; 9; 255]) (RefineEdgeOptions.mk 0 0 0 50 0) = Some refined /\
    (forall x y, 0 <= x < 2 -> 0 <= y < 2 ->
       exists v, 0 <= v <= 255 /\
         strength (Selection.mask (selection_of mask_2x2)) x y = Some v /\
         strength (Selection.mask refined) x y = Some (curve v)) /\
    (forall v, 0 <= v <= 255 -> 0 <= curve v <= 255) /\
    (forall v, 0 <= v <= 127 -> curve v <= v) /\
    (forall v, 128 <= v <= 255 -> v <= curve v) /\
    (forall v1 v2, 0 <= v1 -> v1 <= v2 -> v2 <= 255 -> curve v1 <= curve v2).
Proof.
  apply (refineEdge_contrast_hardens (fun x => x) (SelectionEngine.mk 2 2)
           (selection_of mask_2x2) (uniform 2 2 [9; 9; 9; 255])
           (RefineEdgeOptions.mk 0 0 0 50 0));
    [exact mask_2x2_wf | reflexivity | reflexivity | simpl; lia | simpl; lia
    | simpl; lia | simpl; lia | reflexivity].
Defined.

(** X24: with only the radius set (up to 500, the most the panel gives),
    [refineEdge] leaves each pixel of the mask as it is or gives its
    three color channels the value 255, if its strength is above 127, or
    0 otherwise, and keeps its alpha; a mask whose pixels all have the
    same value, 0 or 255, in their three color channels comes back
    unchanged. *)
Theorem refineEdge_radius_binarises (Math_exp : float -> float)
    (this : SelectionEngine.t) (selection : Selection.t) (imageData : ImageData.t)
    (options : RefineEdgeOptions.t) :
  ImageData.wf (Selection.mask selection) ->
  ImageData.width (Selection.mask selection) = SelectionEngine.width this ->
  ImageData.height (Selection.mask selection) = SelectionEngine.height this ->
  RefineEdgeOptions.radius options <= 500 ->
  RefineEdgeOptions.smooth options < 10 ->
  RefineEdgeOptions.feather options <= 0 ->
  RefineEdgeOptions.contrast options <= 0 ->
  RefineEdgeOptions.shift options = 0 ->
  let data := ImageData.data (Selection.mask selection) in
  let pixels := SelectionEngine.width this * SelectionEngine.height this in
  exists refined : Selection.t,
    refineEdge Math_exp this selection imageData options = Some refined /\
    ImageData.width (Selection.mask refined) = SelectionEngine.width this /\
    ImageData.height (Selection.mask refined) = SelectionEngine.height this /\
    (forall k, 0 <= k < pixels ->
       exists r g b a,
         pixel_of data k = (Some r, g, b, a) /\
         let hard := Some (if 127 <? r then 255 else 0) in
         (pixel_of (ImageData.data (Selection.mask refined)) k = (Some r, g, b, a) \/
          pixel_of (ImageData.data (Selection.mask refined)) k = (hard, hard, hard, a))) /\
    ((forall k, 0 <= k < pixels ->
        exists v a, (v = 0 \/ v = 255) /\ pixel_of data k = (Some v, Some v, Some v, a)) ->
     Selection.mask refined = Selection.mask selection).
Proof.
  intros Hwf Hw Hh _ Hs Hf Hc Hshift data pixels.
  rewrite refineEdge_steps by lia.
  rewrite (of_data_own _ _ _ Hwf Hw Hh). cbn [mbind option_bind].
  destruct (Z.ltb_spec 0 (RefineEdgeOptions.contrast options)); [lia|].
  rewrite (proj2 (Z.eqb_eq _ _) Hshift). cbv zeta.
  set (m := Selection.mask selection) in *.
  pose proof Hwf as (Hw0 & Hh0 & Hlen & _).
  eexists. split; [reflexivity|]. cbn [Selection.mask].
  set (out := if 0 <? RefineEdgeOptions.radius options then _ else m).
  assert (Hout : ImageData.width out = ImageData.width m /\
                 ImageData.height out = ImageData.height m /\
                 length (ImageData.data out) = length data /\
                 forall k, 0 <= k < pixels ->
                   let B := Some (if js_gt (channel data k 0) (Some 127) then 255 else 0) in
                   pixel_of (ImageData.data out) k = pixel_of data k \/
                   pixel_of (ImageData.data out) k = (B, B, B, channel data k 3)).
  { subst out. destruct (0 <? RefineEdgeOptions.radius options).
    - split; [reflexivity|]. split; [reflexivity|].
      apply (applySmartRadius_pixels m _ _ _ pixels). subst pixels. lia.
    - split; [reflexivity|]. split; [reflexivity|]. split; [reflexivity|].
      intros k _. left. reflexivity. }
  destruct Hout as (Ew & Eh & El & Hp).
  split; [lia|]. split; [lia|]. split.
  - intros k Hk.
    destruct (wf_channel_range m k 0 Hwf ltac:(subst pixels; lia) ltac:(lia)) as (r & Er & _).
    exists r, (channel data k 1), (channel data k 2), (channel data k 3).
    fold data in Er. split; [unfold pixel_of; rewrite Er; reflexivity|].
    cbv zeta. destruct (Hp k Hk) as [E|E]; rewrite E.
    + left. unfold pixel_of. rewrite Er. reflexivity.
    + right. rewrite Er. reflexivity.
  - intros Hhard.
    assert (Ed : ImageData.data out = data).
    { apply (pixels_eq _ _ pixels); [subst pixels data; lia|subst pixels data; lia|].
      intros k Hk. destruct (Hp k Hk) as [E|E]; [exact E|]. rewrite E.
      destruct (Hhard k Hk) as (v & a & Hv & Ek). rewrite Ek.
      unfold pixel_of in Ek. injection Ek as E0 _ _ E3. rewrite E0, E3.
      destruct Hv as [-> | ->]; reflexivity. }
    destruct out as [ow oh od], m as [mw mh md]. cbn in *. congruence.
Qed.

Lemma refineEdge_radius_binarises_witness :
  let data := ImageData.data (Selection.mask (selection_of mask_2x2)) in
  let pixels := 2 * 2 in
  exists refined : Selection.t,
    refineEdge (fun x => x) (SelectionEngine.mk 2 2) (selection_of mask_2x2)
      (uniform 2 2 [9; 9; 9; 255]) (RefineEdgeOptions.mk 3 0 0 0 0) = Some refined /\
    ImageData.width (Selection.mask refined) = 2 /\
    ImageData.height (Selection.mask refined) = 2 /\
    (forall k, 0 <= k < pixels ->
       exists r g b a,
         pixel_of data k = (Some r, g, b, a) /\
         let hard := Some (if 127 <? r then 255 else 0) in
         (pixel_of (ImageData.data (Selection.mask refined)) k = (Some r, g, b, a) \/
          pixel_of (ImageData.data (Selection.mask refined)) k = (hard, hard, hard, a))) /\
    ((forall k, 0 <= k < pixels ->
        exists v a, (v = 0 \/ v = 255) /\ pixel_of data k = (Some v, Some v, Some v, a)) ->
     Selection.mask refined = Selection.mask (selection_of mask_2x2)).
Proof.
  apply (refineEdge_radius_binarises (fun x => x) (SelectionEngine.mk 2 2)
           (selection_of mask_2x2) (uniform 2 2 [9; 9; 9; 255])
           (RefineEdgeOptions.mk 3 0 0 0 0));
    [exact mask_2x2_wf | reflexivity | reflexivity | simpl; lia | simpl; lia
    | simpl; lia | simpl; lia | reflexivity].
Defined.

(** The loops of the blur end for the radii the smooth slider gives from
    10 on, and for those of the feather slider. *)
Lemma loop_bound_smooth smooth :
  10 <= smooth <= 100 -> is_Some (loop_bound (float_of_Z smooth / 20 * 3)%float).
Proof.
  intros H.
  assert (T : forallb (fun s => match loop_bound (float_of_Z s / 20 * 3)%float with
                                | Some _ => true | None => false end) (seqZ 10 91) = true)
    by (vm_compute; reflexivity).
  rewrite forallb_forall in T.
  specialize (T smooth ltac:(apply list_elem_of_In, elem_of_seqZ; lia)).
  destruct (loop_bound _); [eexists; reflexivity|discriminate].
Qed.

Lemma loop_bound_feather feather :
  1 <= feather <= 250 -> is_Some (loop_bound (float_of_Z feather * 3)%float).
Proof.
  intros H.
  assert (T : forallb (fun s => match loop_bound (float_of_Z s * 3)%float with
                                | Some _ => true | None => false end) (seqZ 1 250) = true)
    by (vm_compute; reflexivity).
  rewrite forallb_forall in T.
  specialize (T feather ltac:(apply list_elem_of_In, elem_of_seqZ; lia)).
  destruct (loop_bound _); [eexists; reflexivity|discriminate].
Qed.

(** Where its loops end, [gaussianBlur] returns a well-formed mask of the
    same size. *)
Lemma gaussianBlur_returns_wf Math_exp mask radius :
  ImageData.wf mask ->
  PrimFloat.ltb radius 0.5 = true \/ is_Some (loop_bound (radius * 3)%float) ->
  exists out, gaussianBlur Math_exp mask radius = Some out /\
    ImageData.wf out /\
    ImageData.width out = ImageData.width mask /\
    ImageData.height out = ImageData.height mask.
Proof.
  intros Hwf Hr. pose proof Hwf as (Hw & Hh & _).
  destruct (PrimFloat.ltb radius 0.5) eqn:Hlt.
  - exists mask. unfold gaussianBlur. rewrite Hlt. auto.
  - destruct Hr as [?|[r Er]]; [discriminate|].
    destruct (gaussianBlur Math_exp mask radius) as [out|] eqn:E.
    + destruct (gaussianBlur_shape Math_exp mask radius out Hw Hh Hlt E)
        as (Ew & Eh & val & Hwfo & _).
      exists out. auto.
    + exfalso. unfold gaussianBlur in E. rewrite Hlt, Er in E. cbn [mbind option_bind] in E.
      destruct (for_kernel r _ _) as [kernel sum]. discriminate.
Qed.

(** The steps of [refineEdge], one mask after the other: within the
    ranges of the smooth and feather sliders both blurs return, and every
    step gives a well-formed mask of the size of the engine. *)
Lemma refineEdge_pipeline Math_exp this selection imageData options :
  ImageData.wf (Selection.mask selection) ->
  ImageData.width (Selection.mask selection) = SelectionEngine.width this ->
  ImageData.height (Selection.mask selection) = SelectionEngine.height this ->
  RefineEdgeOptions.smooth options <= 100 ->
  RefineEdgeOptions.feather options <= 250 ->
  let m := Selection.mask selection in
  let sized (mi : ImageData.t) :=
    ImageData.wf mi /\ ImageData.width mi = ImageData.width m /\
    ImageData.height mi = ImageData.height m in
  exists m1 m2 m3 m4 m5,
    m1 = (if 0 <? RefineEdgeOptions.radius options
          then applySmartRadius m (computeEdgeMap imageData)
                 (findEdgeZone m (RefineEdgeOptions.radius options))
                 (RefineEdgeOptions.radius options)
          else m) /\
    (if 0 <? RefineEdgeOptions.smooth options
     then gaussianBlur Math_exp m1 (float_of_Z (RefineEdgeOptions.smooth options) / 20)%float
     else Some m1) = Some m2 /\
    (if 0 <? RefineEdgeOptions.feather options
     then gaussianBlur Math_exp m2 (float_of_Z (RefineEdgeOptions.feather options))
     else Some m2) = Some m3 /\
    m4 = (if 0 <? RefineEdgeOptions.contrast options
          then applyContrast m3 (float_of_Z (RefineEdgeOptions.contrast options) / 50)%float
          else m3) /\
    m5 = (if RefineEdgeOptions.shift options =? 0 then m4
          else if 0 <? RefineEdgeOptions.shift options
          then dilate m4 (Qabs (RefineEdgeOptions.shift options # 10))
          else erode m4 (Qabs (RefineEdgeOptions.shift options # 10))) /\
    refineEdge Math_exp this selection imageData options
    = Some (Selection.mk m5 (computeBounds m5) true) /\
    sized m1 /\ sized m2 /\ sized m3 /\ sized m4 /\ sized m5.
Proof.
  intros Hwf Hw Hh Hs Hf m sized. subst sized. cbv beta. unfold refineEdge.
  rewrite (of_data_own _ _ _ Hwf Hw Hh). cbn [mbind option_bind]. fold m.
  set (m1 := if 0 <? RefineEdgeOptions.radius options then _ else m).
  assert (H1 : ImageData.wf m1 /\ ImageData.width m1 = ImageData.width m /\
               ImageData.height m1 = ImageData.height m).
  { subst m1. destruct (0 <? RefineEdgeOptions.radius options).
    - split; [apply applySmartRadius_wf; exact Hwf|]. split; reflexivity.
    - auto. }
  exists m1. destruct H1 as (Hwf1 & Ew1 & Eh1).
  set (b2 := if 0 <? RefineEdgeOptions.smooth options then _ else Some m1).
  assert (H2 : exists m2, b2 = Some m2 /\ ImageData.wf m2 /\
               ImageData.width m2 = ImageData.width m /\
               ImageData.height m2 = ImageData.height m).
  { subst b2. destruct (Z.ltb_spec 0 (RefineEdgeOptions.smooth options)) as [Hpos|_].
    - destruct (Z_lt_le_dec (RefineEdgeOptions.smooth options) 10) as [Hlt|Hge].
      + exists m1. rewrite gaussianBlur_smooth_below_10 by lia. auto.
      + destruct (gaussianBlur_returns_wf Math_exp m1
                    (float_of_Z (RefineEdgeOptions.smooth options) / 20)%float Hwf1)
          as (m2 & E2 & Hwf2 & Ew2 & Eh2); [right; apply loop_bound_smooth; lia|].
        exists m2. rewrite E2. split; [reflexivity|]. split; [exact Hwf2|]. lia.
    - exists m1. auto. }
  destruct H2 as (m2 & E2 & Hwf2 & Ew2 & Eh2). exists m2. rewrite E2.
  cbn [mbind option_bind].
  set (b3 := if 0 <? RefineEdgeOptions.feather options then _ else Some m2).
  assert (H3 : exists m3, b3 = Some m3 /\ ImageData.wf m3 /\
               ImageData.width m3 = ImageData.width m /\
               ImageData.height m3 = ImageData.height m).
  { subst b3. destruct (Z.ltb_spec 0 (RefineEdgeOptions.feather options)) as [Hpos|_].
    - destruct (gaussianBlur_returns_wf Math_exp m2
                  (float_of_Z (RefineEdgeOptions.feather options)) Hwf2)
        as (m3 & E3 & Hwf3 & Ew3 & Eh3); [right; apply loop_bound_feather; lia|].
      exists m3. rewrite E3. split; [reflexivity|]. split; [exact Hwf3|]. lia.
    - exists m2. auto. }
  destruct H3 as (m3 & E3 & Hwf3 & Ew3 & Eh3). exists m3. rewrite E3.
  cbn [mbind option_bind].
  set (m4 := if 0 <? RefineEdgeOptions.contrast options then _ else m3).
  assert (H4 : ImageData.wf m4 /\ ImageData.width m4 = ImageData.width m /\
               ImageData.height m4 = ImageData.height m).
  { subst m4. destruct (0 <? RefineEdgeOptions.contrast options).
    - split; [apply applyContrast_wf; exact Hwf3|]. split; [exact Ew3|exact Eh3].
    - auto. }
  exists m4. destruct H4 as (Hwf4 & Ew4 & Eh4).
  set (m5 := if RefineEdgeOptions.shift options =? 0 then m4 else _).
  assert (H5 : ImageData.wf m5 /\ ImageData.width m5 = ImageData.width m /\
               ImageData.height m5 = ImageData.height m).
  { subst m5. destruct (RefineEdgeOptions.shift options =? 0); [auto|].
    destruct (0 <? RefineEdgeOptions.shift options).
    - split; [apply dilate_wf; exact Hwf4|]. split; [exact Ew4|exact Eh4].
    - split; [apply erode_wf; exact Hwf4|]. split; [exact Ew4|exact Eh4]. }
  exists m5. auto 20.
Qed.

(** X25: for every setting of the panel's sliders (integers: the radius
    up to 500, smooth and contrast up to 100, the feather up to 250, the
    shift from -100 to 100) and whatever [Math.exp] computes,
    [refineEdge] on a well-formed mask of the engine's size returns: the
    blurs do not throw, and the result is a well-formed mask of the
    engine's size with the bounds [computeBounds] gives it. *)
Theorem refineEdge_returns_mask (Math_exp : float -> float)
    (this : SelectionEngine.t) (selection : Selection.t) (imageData : ImageData.t)
    (options : RefineEdgeOptions.t) :
  ImageData.wf (Selection.mask selection) ->
  ImageData.width (Selection.mask selection) = SelectionEngine.width this ->
  ImageData.height (Selection.mask selection) = SelectionEngine.height this ->
  RefineEdgeOptions.radius options <= 500 ->
  RefineEdgeOptions.smooth options <= 100 ->
  RefineEdgeOptions.feather options <= 250 ->
  RefineEdgeOptions.contrast options <= 100 ->
  -100 <= RefineEdgeOptions.shift options <= 100 ->
  exists refined : Selection.t,
    refineEdge Math_exp this selection imageData options = Some refined /\
    ImageData.wf (Selection.mask refined) /\
    ImageData.width (Selection.mask refined) = SelectionEngine.width this /\
    ImageData.height (Selection.mask refined) = SelectionEngine.height this /\
    Selection.bounds refined = computeBounds (Selection.mask refined).
Proof.
  intros Hwf Hw Hh _ Hs Hf _ _.
  destruct (refineEdge_pipeline Math_exp this selection imageData options Hwf Hw Hh Hs Hf)
    as (m1 & m2 & m3 & m4 & m5 & _ & _ & _ & _ & _ & E & _ & _ & _ & _ & Hwf5 & Ew5 & Eh5).
  eexists. split; [exact E|]. cbn [Selection.mask Selection.bounds].
  split; [exact Hwf5|]. split; [lia|]. split; [lia|reflexivity].
Qed.

Lemma refineEdge_returns_mask_witness :
  exists refined : Selection.t,
    refineEdge (fun x => x) (SelectionEngine.mk 2 2) (selection_of mask_2x2)
      (uniform 2 2 [9; 9; 9; 255]) (RefineEdgeOptions.mk 3 20 2 50 (-15)) = Some refined /\
    ImageData.wf (Selection.mask refined) /\
    ImageData.width (Selection.mask refined) = 2 /\
    ImageData.height (Selection.mask refined) = 2 /\
    Selection.bounds refined = computeBounds (Selection.mask refined).
Proof.
  apply (refineEdge_returns_mask (fun x => x) (SelectionEngine.mk 2 2)
           (selection_of mask_2x2) (uniform 2 2 [9; 9; 9; 255])
           (RefineEdgeOptions.mk 3 20 2 50 (-15)));
    [exact mask_2x2_wf | reflexivity | reflexivity | simpl; lia | simpl; lia
    | simpl; lia | simpl; lia | simpl; lia].
Defined.

(** X26: below the radius 0.5 [featherSelection] returns the mask of the
    selection itself, with its bounds; from 0.5 on (and for [NaN]), when
    the kernel fits an array, it returns a fresh well-formed mask of the
    same size whose pixels are gray and opaque, whatever [Math.exp]
    computes. *)
Theorem featherSelection_mask (Math_exp : float -> float) (selection : Selection.t)
    (radius : float) :
  ImageData.wf (Selection.mask selection) ->
  let mask := Selection.mask selection in
  (PrimFloat.ltb radius 0.5 = true ->
   featherSelection Math_exp selection radius
   = Some (Selection.mk mask (computeBounds mask) true)) /\
  (PrimFloat.ltb radius 0.5 = false -> is_Some (loop_bound (radius * 3)%float) ->
   exists feathered, featherSelection Math_exp selection radius = Some feathered /\
     ImageData.wf (Selection.mask feathered) /\
     ImageData.width (Selection.mask feathered) = ImageData.width mask /\
     ImageData.height (Selection.mask feathered) = ImageData.height mask /\
     forall k, 0 <= k < ImageData.width mask * ImageData.height mask ->
       grey_opaque (ImageData.data (Selection.mask feathered)) k).
Proof.
  intros Hwf mask. pose proof Hwf as (Hw & Hh & _). unfold featherSelection. fold mask.
  split; intros Hlt.
  - unfold gaussianBlur. rewrite Hlt. reflexivity.
  - intros Hr.
    destruct (gaussianBlur_returns_wf Math_exp mask radius Hwf (or_intror Hr))
      as (out & Eb & _). rewrite Eb. cbn [mbind option_bind].
    eexists. split; [reflexivity|]. cbn [Selection.mask].
    destruct (gaussianBlur_shape Math_exp mask radius out Hw Hh Hlt Eb)
      as (Ew & Eh & val & Hwfo & Hp).
    split; [exact Hwfo|]. split; [exact Ew|]. split; [exact Eh|].
    intros k Hk. exists (val k). split; [|apply Hp; exact Hk].
    destruct (wf_channel_range out k 0 Hwfo ltac:(rewrite Ew, Eh; exact Hk) ltac:(lia))
      as (v & Ev & Hv).
    specialize (Hp k Hk). unfold pixel_of in Hp. injection Hp as Hp0 _ _ _.
    rewrite Hp0 in Ev. injection Ev as ->. exact Hv.
Qed.

Lemma featherSelection_mask_witness :
  let mask := Selection.mask (selection_of mask_2x2) in
  exists feathered,
    featherSelection (fun x => x) (selection_of mask_2x2) 2 = Some feathered /\
    ImageData.wf (Selection.mask feathered) /\
    ImageData.width (Selection.mask feathered) = ImageData.width mask /\
    ImageData.height (Selection.mask feathered) = ImageData.height mask /\
    forall k, 0 <= k < ImageData.width mask * ImageData.height mask ->
      grey_opaque (ImageData.data (Selection.mask feathered)) k.
Proof.
  apply (proj2 (featherSelection_mask (fun x => x) (selection_of mask_2x2) 2 mask_2x2_wf));
    [reflexivity | eexists; vm_compute; reflexivity].
Defined.

(** ** The edge zone *)

Lemma elem_of_set_add k pos s : k ∈ set_add pos s <-> k ∈ s \/ k = pos.
Proof.
  unfold set_add. destruct (decide (pos ∈ s)) as [Hin|Hin].
  - split; [auto|]. intros [?| ->]; assumption.
  - rewrite elem_of_app, list_elem_of_singleton. reflexivity.
Qed.

Lemma NoDup_set_add pos s : NoDup s -> NoDup (set_add pos s).
Proof.
  intros Hs. unfold set_add. destruct (decide (pos ∈ s)) as [Hin|Hin]; [exact Hs|].
  apply NoDup_app. split; [exact Hs|]. split.
  - intros x Hx Hx'. apply list_elem_of_singleton in Hx'. subst. contradiction.
  - apply NoDup_singleton.
Qed.

(** A loop that only sets a flag. *)
Lemma for_lt_flag lo hi (f : Z -> bool -> bool) (c : Z -> bool) (b0 : bool) :
  (forall i b, lo <= i < hi -> f i b = b || c i) ->
  for_lt lo hi f b0 = true <-> b0 = true \/ exists i, lo <= i < hi /\ c i = true.
Proof.
  intros Hf. destruct (Z_le_gt_dec lo hi) as [Hle|Hgt].
  - apply (for_lt_ind (fun j b => b = true <-> b0 = true \/ exists i, lo <= i < j /\ c i = true)
             f lo hi b0 Hle).
    + split; [auto|]. intros [?|(i & Hi & _)]; [assumption|lia].
    + intros j b Hj IH. rewrite Hf by exact Hj. rewrite orb_true_iff, IH. split.
      * intros [[?|(i & Hi & Hc)]|Hc]; [auto|right; exists i; split; [lia|exact Hc]|].
        right. exists j. split; [lia|exact Hc].
      * intros [?|(i & Hi & Hc)]; [auto|].
        destruct (decide (i = j)) as [->|Hne]; [auto|].
        left. right. exists i. split; [lia|exact Hc].
  - unfold for_lt. replace (Z.to_nat (hi - lo)) with O by lia. cbn [for_up].
    split; [auto|]. intros [?|(i & Hi & _)]; [assumption|lia].
Qed.

(** A loop that only adds to a list. *)
Lemma for_lt_collect lo hi (f : Z -> list Z -> list Z) (S : Z -> Z -> Prop) (z : list Z) :
  (forall i t k, lo <= i < hi -> k ∈ f i t <-> k ∈ t \/ S i k) ->
  forall k, k ∈ for_lt lo hi f z <-> k ∈ z \/ exists i, lo <= i < hi /\ S i k.
Proof.
  intros Hf. destruct (Z_le_gt_dec lo hi) as [Hle|Hgt].
  - apply (for_lt_ind (fun j t => forall k, k ∈ t <-> k ∈ z \/ exists i, lo <= i < j /\ S i k)
             f lo hi z Hle).
    + intros k. split; [auto|]. intros [?|(i & Hi & _)]; [assumption|lia].
    + intros j t Hj IH k. rewrite Hf by exact Hj. rewrite IH. split.
      * intros [[?|(i & Hi & Hs)]|Hs]; [auto|right; exists i; split; [lia|exact Hs]|].
        right. exists j. split; [lia|exact Hs].
      * intros [?|(i & Hi & Hs)]; [auto|].
        destruct (decide (i = j)) as [->|Hne]; [auto|].
        left. right. exists i. split; [lia|exact Hs].
  - intros k. unfold for_lt. replace (Z.to_nat (hi - lo)) with O by lia. cbn [for_up].
    split; [auto|]. intros [?|(i & Hi & _)]; [assumption|lia].
Qed.

Lemma js_partial val :
  js_gt val (Some 0) && js_gt (Some 255) val = true <-> exists v, val = Some v /\ 0 < v < 255.
Proof.
  destruct val as [v|]; cbn.
  - rewrite andb_true_iff, !Z.ltb_lt. split.
    + intros [? ?]. exists v. split; [reflexivity|lia].
    + intros (v' & [= <-] & ?). lia.
  - split; [discriminate|]. intros (v & ? & _). discriminate.
Qed.

Lemma js_differs a b :
  js_gt (js_abs (js_sub a b)) (Some 128) = true
  <-> exists n v, a = Some n /\ b = Some v /\ 128 < Z.abs (n - v).
Proof.
  destruct a as [n|], b as [v|]; cbn.
  - rewrite Z.ltb_lt. split.
    + intros ?. exists n, v. auto.
    + intros (n' & v' & [= <-] & [= <-] & ?). assumption.
  - split; [discriminate|]. intros (? & ? & _ & ? & _). discriminate.
  - split; [discriminate|]. intros (? & ? & ? & _). discriminate.
  - split; [discriminate|]. intros (? & ? & ? & _). discriminate.
Qed.

(** What [findEdgeZone] collects: the partially selected pixels, and the
    disk around each edge pixel, within the image. *)
Lemma findEdgeZone_elem mask radius k :
  k ∈ findEdgeZone mask radius <->
  exists x y, 0 <= x < ImageData.width mask /\ 0 <= y < ImageData.height mask /\
    ((exists v, strength mask x y = Some v /\ 0 < v < 255) /\ k = y * ImageData.width mask + x
     \/ edge_pixel mask x y /\
        exists dx dy, - radius <= dx <= radius /\ - radius <= dy <= radius /\
          0 <= x + dx < ImageData.width mask /\ 0 <= y + dy < ImageData.height mask /\
          dx * dx + dy * dy <= radius * radius /\
          k = (y + dy) * ImageData.width mask + (x + dx)).
Proof.
  unfold findEdgeZone.
  set (w := ImageData.width mask). set (h := ImageData.height mask).
  set (data := ImageData.data mask).
  set (S := fun x y k =>
    (exists v, strength mask x y = Some v /\ 0 < v < 255) /\ k = y * w + x
    \/ edge_pixel mask x y /\
       exists dx dy, - radius <= dx <= radius /\ - radius <= dy <= radius /\
         0 <= x + dx < w /\ 0 <= y + dy < h /\
         dx * dx + dy * dy <= radius * radius /\ k = (y + dy) * w + (x + dx)).
  rewrite (for_lt_collect 0 h _ (fun y k => exists x, 0 <= x < w /\ S x y k)).
  - rewrite elem_of_nil. split.
    + intros [[]|(y & Hy & x & Hx & HS)]. exists x, y. auto.
    + intros (x & y & Hx & Hy & HS). right. exists y. split; [exact Hy|]. exists x. auto.
  - intros y t k' Hy.
    apply (for_lt_collect 0 w _ (fun x k => S x y k)).
    intros x t' k'' Hx. cbv zeta.
    assert (Hstr : typed_get data ((y * w + x) * 4) = strength mask x y) by reflexivity.
    rewrite Hstr.
    destruct (js_gt (strength mask x y) (Some 0) && js_gt (Some 255) (strength mask x y))
      eqn:Hpart.
    + apply js_partial in Hpart. rewrite elem_of_set_add. subst S. cbv beta. split.
      * intros [?| ->]; [auto|]. right. left. auto.
      * intros [?|[[_ ->]|[(v & dx & dy & n & Ev & Hv & _) _]]]; [auto|auto|].
        destruct Hpart as (v' & Ev' & Hv'). rewrite Ev in Ev'. injection Ev' as <-. lia.
    + assert (Hnp : ~ exists v, strength mask x y = Some v /\ 0 < v < 255).
      { intros Hp. apply js_partial in Hp. rewrite Hp in Hpart. discriminate. }
      match goal with |- context [if ?b then _ else t'] => set (isEdge := b) end.
      assert (HisEdge : isEdge = true <-> edge_pixel mask x y).
      { subst isEdge. unfold for_le.
        rewrite (for_lt_flag (-1) (1 + 1) _ (fun dy =>
                   for_lt (-1) (1 + 1) (fun dx (b : bool) =>
                     if b then b
                     else if (x + dx <? 0) || (w <=? x + dx) || (y + dy <? 0) || (h <=? y + dy)
                          then b
                          else if js_gt (js_abs (js_sub
                                    (typed_get data (((y + dy) * w + (x + dx)) * 4))
                                    (strength mask x y))) (Some 128)
                               then true else b) false)).
        2:{ intros dy b _. destruct b; reflexivity. }
        split.
        - intros [?|(dy & Hdy & Hin)]; [discriminate|].
          rewrite (for_lt_flag (-1) (1 + 1) _ (fun dx =>
                     negb ((x + dx <? 0) || (w <=? x + dx) || (y + dy <? 0) || (h <=? y + dy))
                     && js_gt (js_abs (js_sub
                                 (typed_get data (((y + dy) * w + (x + dx)) * 4))
                                 (strength mask x y))) (Some 128))) in Hin.
          2:{ intros dx b _. destruct b; [reflexivity|]. cbn [orb].
              destruct ((x + dx <? 0) || (w <=? x + dx) || (y + dy <? 0) || (h <=? y + dy));
                [reflexivity|].
              cbn [negb andb]. destruct (js_gt (js_abs _) _); reflexivity. }
          destruct Hin as [?|(dx & Hdx & Hc)]; [discriminate|].
          apply andb_true_iff in Hc as [Hin Hc]. apply negb_true_iff in Hin.
          rewrite !orb_false_iff, !Z.ltb_ge, !Z.leb_gt in Hin.
          apply js_differs in Hc as (n & v & En & Ev & Hd).
          exists v, dx, dy, n. split; [exact Ev|]. split.
          { destruct (Z_lt_le_dec 0 v); [|lia]. destruct (Z_lt_le_dec v 255); [|lia].
            exfalso. apply Hnp. exists v. split; [exact Ev|lia]. }
          split; [lia|]. split; [lia|]. split; [lia|]. split; [lia|].
          split; [exact En|exact Hd].
        - intros (v & dx & dy & n & Ev & Hv & Hdx & Hdy & Hx' & Hy' & En & Hd).
          right. exists dy. split; [lia|].
          rewrite (for_lt_flag (-1) (1 + 1) _ (fun dx =>
                     negb ((x + dx <? 0) || (w <=? x + dx) || (y + dy <? 0) || (h <=? y + dy))
                     && js_gt (js_abs (js_sub
                                 (typed_get data (((y + dy) * w + (x + dx)) * 4))
                                 (strength mask x y))) (Some 128))).
          2:{ intros dx' b _. destruct b; [reflexivity|]. cbn [orb].
              destruct ((x + dx' <? 0) || (w <=? x + dx') || (y + dy <? 0) || (h <=? y + dy));
                [reflexivity|].
              cbn [negb andb]. destruct (js_gt (js_abs _) _); reflexivity. }
          right. exists dx. split; [lia|]. apply andb_true_iff. split.
          + apply negb_true_iff. rewrite !orb_false_iff, !Z.ltb_ge, !Z.leb_gt.
            subst w h. lia.
          + apply js_differs. exists n, v. split; [exact En|]. split; [exact Ev|exact Hd]. }
      destruct isEdge.
      * unfold for_le.
        rewrite (for_lt_collect (- radius) (radius + 1) _ (fun dy k =>
                   exists dx, - radius <= dx <= radius /\
                     0 <= x + dx < w /\ 0 <= y + dy < h /\
                     dx * dx + dy * dy <= radius * radius /\ k = (y + dy) * w + (x + dx))).
        -- subst S. cbv beta. split.
           ++ intros [?|(dy & Hdy & dx & Hdx & Hx' & Hy' & Hd & ->)]; [auto|].
              right. right. split; [apply HisEdge; reflexivity|].
              exists dx, dy. repeat split; lia.
           ++ intros [?|[[Hp _]|[_ (dx & dy & Hdx & Hdy & Hx' & Hy' & Hd & ->)]]];
                [auto|contradiction|].
              right. exists dy. split; [lia|]. exists dx. repeat split; lia.
        -- intros dy t'' k3 Hdy.
           rewrite (for_lt_collect (- radius) (radius + 1) _ (fun dx k =>
                      0 <= x + dx < w /\ 0 <= y + dy < h /\
                      dx * dx + dy * dy <= radius * radius /\ k = (y + dy) * w + (x + dx))).
           ++ split.
              ** intros [?|(dx & Hdx & Hx' & Hy' & Hd & ->)]; [auto|].
                 right. exists dx. repeat split; lia.
              ** intros [?|(dx & Hdx & Hx' & Hy' & Hd & ->)]; [auto|].
                 right. exists dx. repeat split; lia.
           ++ intros dx t3 k4 Hdx. cbv zeta.
              destruct (Z.ltb_spec (x + dx) 0); cbn [orb];
                [split; [auto|intros [?|(? & _)]; [assumption|lia]]|].
              destruct (Z.leb_spec w (x + dx)); cbn [orb];
                [split; [auto|intros [?|(? & _)]; [assumption|lia]]|].
              destruct (Z.ltb_spec (y + dy) 0); cbn [orb];
                [split; [auto|intros [?|(_ & ? & _)]; [assumption|lia]]|].
              destruct (Z.leb_spec h (y + dy)); cbn [orb];
                [split; [auto|intros [?|(_ & ? & _)]; [assumption|lia]]|].
              destruct (Z.leb_spec (dx * dx + dy * dy) (radius * radius)).
              ** rewrite elem_of_set_add. split.
                 --- intros [?| ->]; [auto|]. right. repeat split; lia.
                 --- intros [?|(_ & _ & _ & ->)]; auto.
              ** split; [auto|]. intros [?|(_ & _ & ? & _)]; [assumption|lia].
      * subst S. cbv beta. split; [auto|].
        intros [?|[[Hp _]|[He _]]]; [assumption|contradiction|].
        apply HisEdge in He. discriminate.
Qed.

Lemma square_bound a b r : 0 <= r -> a * a + b * b <= r * r -> - r <= a <= r.
Proof.
  intros Hr H. pose proof (Z.square_nonneg b) as Hb.
  destruct (Z_lt_le_dec r a); [nia|]. destruct (Z_lt_le_dec a (- r)); [nia|lia].
Qed.

Lemma findEdgeZone_NoDup mask radius : NoDup (findEdgeZone mask radius).
Proof.
  unfold findEdgeZone.
  apply (for_lt_inv (fun z : list Z => NoDup z)); [apply NoDup_nil_2|].
  intros y t _ Ht. apply (for_lt_inv (fun z : list Z => NoDup z)); [exact Ht|].
  intros x t' _ Ht'. cbv zeta.
  destruct (_ && _); [apply NoDup_set_add; exact Ht'|].
  destruct (for_le (-1) 1 _ false); [|exact Ht'].
  unfold for_le. apply (for_lt_inv (fun z : list Z => NoDup z)); [exact Ht'|].
  intros dy t2 _ Ht2. apply (for_lt_inv (fun z : list Z => NoDup z)); [exact Ht2|].
  intros dx t3 _ Ht3.
  destruct (_ || _); [exact Ht3|].
  destruct (_ <=? _); [apply NoDup_set_add; exact Ht3|exact Ht3].
Qed.

(** X27: for a radius from 0 to 500, the edge zone [findEdgeZone]
    returns has no duplicates and holds exactly the positions of the
    mask that are partially selected (strength strictly between 0 and
    255) or lie within [radius] of an edge pixel: a pixel that is not
    partially selected and has, among the pixels around it, one whose
    strength differs from its own by more than 128. *)
Theorem findEdgeZone_is_edge_zone (mask : ImageData.t) (radius : Z) :
  0 < ImageData.width mask -> 0 <= radius <= 500 ->
  let width := ImageData.width mask in
  let height := ImageData.height mask in
  NoDup (findEdgeZone mask radius) /\
  forall k, k ∈ findEdgeZone mask radius <->
    0 <= k < width * height /\ near_edge mask radius (k mod width) (k / width).
Proof.
  intros Hw [Hr _] width height. split; [apply findEdgeZone_NoDup|].
  intros k. rewrite findEdgeZone_elem. fold width height. split.
  - intros (x & y & Hx & Hy & [[Hp ->]|[He (dx & dy & Hdx & Hdy & Hx' & Hy' & Hd & ->)]]).
    + destruct (linear_div_mod width x y Hx) as [-> ->].
      split; [nia|]. left. exact Hp.
    + destruct (linear_div_mod width (x + dx) (y + dy) Hx') as [-> ->].
      split; [nia|]. right. exists x, y. split; [exact Hx|]. split; [exact Hy|].
      split; [exact He|]. replace (x + dx - x) with dx by lia.
      replace (y + dy - y) with dy by lia. exact Hd.
  - intros [Hk Hnear].
    assert (Hx : 0 <= k mod width < width) by (apply Z.mod_pos_bound; lia).
    assert (Hy : 0 <= k / width < height).
    { split; [apply Z.div_pos; lia|apply Z.div_lt_upper_bound; lia]. }
    pose proof (linear_position width k Hw) as Hpos.
    destruct Hnear as [Hp|(ex & ey & Hex & Hey & He & Hd)].
    + exists (k mod width), (k / width). split; [exact Hx|]. split; [exact Hy|].
      left. split; [exact Hp|lia].
    + exists ex, ey. split; [exact Hex|]. split; [exact Hey|]. right. split; [exact He|].
      exists (k mod width - ex), (k / width - ey).
      revert Hd Hx Hy Hpos. generalize (k mod width) (k / width). intros x y Hd Hx Hy Hpos.
      split; [apply (square_bound _ (y - ey)); [lia|exact Hd]|].
      split; [apply (square_bound _ (x - ex)); [lia|lia]|].
      split; [lia|]. split; [lia|]. split; [exact Hd|].
      replace (ey + (y - ey)) with y by lia. replace (ex + (x - ex)) with x by lia. lia.
Qed.

Lemma findEdgeZone_is_edge_zone_witness :
  NoDup (findEdgeZone mask_2x2 1) /\
  forall k, k ∈ findEdgeZone mask_2x2 1 <->
    0 <= k < 2 * 2 /\ near_edge mask_2x2 1 (k mod 2) (k / 2).
Proof.
  apply (findEdgeZone_is_edge_zone mask_2x2 1); [reflexivity|lia].
Defined.

(** [applySmartRadius] changes a pixel only if it is in the edge zone and
    the image has a sharp edge there. *)
Lemma applySmartRadius_unchanged mask edges edgeZone radius (n k : Z) :
  Z.of_nat (length (ImageData.data mask)) = 4 * n -> 0 <= k < n ->
  k ∉ edgeZone \/ PrimFloat.ltb 0.5 (f32_get edges k) = false ->
  pixel_of (ImageData.data (applySmartRadius mask edges edgeZone radius)) k
  = pixel_of (ImageData.data mask) k.
Proof.
  intros Hlen Hk. unfold applySmartRadius. cbn [ImageData.data].
  generalize (ImageData.data mask) Hlen. clear Hlen.
  match goal with |- context [fold_left ?f _ _] => set (step := f) end.
  induction edgeZone as [|pos zone IH]; intros d Hlen Hout; [reflexivity|].
  cbn [fold_left].
  assert (Hstep : Z.of_nat (length (step d pos)) = 4 * n /\
                  pixel_of (step d pos) k = pixel_of d k).
  { unfold step. destruct (PrimFloat.ltb 0.5 (f32_get edges pos)) eqn:Hsharp; [|auto].
    destruct (smart_step_pixels d n pos Hlen) as [Hl Hp]. cbv zeta in Hl, Hp.
    split; [rewrite Hl; exact Hlen|]. rewrite (Hp k Hk).
    destruct (decide (k = pos)) as [->|Hne]; [|reflexivity].
    destruct Hout as [Hout|Hout]; [|congruence].
    exfalso. apply Hout. left. }
  destruct Hstep as [Hl Hp]. rewrite <- Hp. apply IH; [exact Hl|].
  destruct Hout as [Hout|Hout]; [left|right; exact Hout].
  intros Hin. apply Hout. right. exact Hin.
Qed.

(** X28: with only the radius set, to an integer up to 500, [refineEdge]
    changes a pixel only if the radius is positive, the pixel is
    partially selected or within [radius] of an edge pixel of the mask,
    and the edge map of the image is above 0.5 there. *)
Theorem refineEdge_radius_stays_near_edges (Math_exp : float -> float)
    (this : SelectionEngine.t) (selection : Selection.t) (imageData : ImageData.t)
    (options : RefineEdgeOptions.t) :
  ImageData.wf (Selection.mask selection) ->
  ImageData.width (Selection.mask selection) = SelectionEngine.width this ->
  ImageData.height (Selection.mask selection) = SelectionEngine.height this ->
  RefineEdgeOptions.radius options <= 500 ->
  RefineEdgeOptions.smooth options < 10 ->
  RefineEdgeOptions.feather options <= 0 ->
  RefineEdgeOptions.contrast options <= 0 ->
  RefineEdgeOptions.shift options = 0 ->
  let width := SelectionEngine.width this in
  let radius := RefineEdgeOptions.radius options in
  exists refined : Selection.t,
    refineEdge Math_exp this selection imageData options = Some refined /\
    forall x y, 0 <= x < width -> 0 <= y < SelectionEngine.height this ->
      pixel_of (ImageData.data (Selection.mask refined)) (y * width + x)
      <> pixel_of (ImageData.data (Selection.mask selection)) (y * width + x) ->
      0 < radius /\
      near_edge (Selection.mask selection) radius x y /\
      PrimFloat.ltb 0.5 (f32_get (computeEdgeMap imageData) (y * width + x)) = true.
Proof.
  intros Hwf Hw Hh _ Hs Hf Hc Hshift width radius.
  rewrite refineEdge_steps by lia.
  rewrite (of_data_own _ _ _ Hwf Hw Hh). cbn [mbind option_bind].
  destruct (Z.ltb_spec 0 (RefineEdgeOptions.contrast options)); [lia|].
  rewrite (proj2 (Z.eqb_eq _ _) Hshift). cbv zeta. fold radius.
  set (m := Selection.mask selection) in *.
  pose proof Hwf as (Hw0 & Hh0 & Hlen & _).
  eexists. split; [reflexivity|]. cbn [Selection.mask].
  intros x y Hx Hy Hne.
  destruct (Z.ltb_spec 0 radius) as [Hr|Hr]; [|contradiction Hne; reflexivity].
  split; [exact Hr|].
  assert (Hk : 0 <= y * width + x < ImageData.width m * ImageData.height m)
    by (subst width; nia).
  destruct (decide (y * width + x ∈ findEdgeZone m radius)) as [Hin|Hout].
  - destruct (PrimFloat.ltb 0.5 (f32_get (computeEdgeMap imageData) (y * width + x)))
      eqn:Hsharp.
    + split; [|reflexivity].
      apply findEdgeZone_elem in Hin. subst width. rewrite <- Hw in *.
      destruct Hin as (x0 & y0 & Hx0 & Hy0 &
                       [[Hp E]|[He (dx & dy & Hdx & Hdy & Hx' & Hy' & Hd & E)]]).
      * destruct (linear_div_mod _ x y Hx) as [Em Ed]. rewrite E in Em, Ed.
        destruct (linear_div_mod _ x0 y0 Hx0) as [Em' Ed'].
        rewrite Em' in Em. rewrite Ed' in Ed. subst x0 y0. left. exact Hp.
      * destruct (linear_div_mod _ x y Hx) as [Em Ed]. rewrite E in Em, Ed.
        destruct (linear_div_mod _ (x0 + dx) (y0 + dy) Hx') as [Em' Ed'].
        rewrite Em' in Em. rewrite Ed' in Ed. subst x y.
        right. exists x0, y0. split; [exact Hx0|]. split; [exact Hy0|].
        split; [exact He|]. replace (x0 + dx - x0) with dx by lia.
        replace (y0 + dy - y0) with dy by lia. exact Hd.
    + exfalso. apply Hne.
      apply (applySmartRadius_unchanged m _ _ _ (ImageData.width m * ImageData.height m));
        [lia|exact Hk|right; exact Hsharp].
  - exfalso. apply Hne.
    apply (applySmartRadius_unchanged m _ _ _ (ImageData.width m * ImageData.height m));
      [lia|exact Hk|left; exact Hout].
Qed.

Lemma dot_3x3_wf : ImageData.wf dot_3x3.
Proof. repeat split; simpl; try lia. repeat constructor; lia. Qed.

Lemma refineEdge_radius_stays_near_edges_witness :
  exists refined : Selection.t,
    refineEdge (fun x => x) (SelectionEngine.mk 3 3) (selection_of dot_3x3) stripe_3x3
      (RefineEdgeOptions.mk 1 0 0 0 0) = Some refined /\
    pixel_of (ImageData.data (Selection.mask (selection_of dot_3x3))) (1 * 3 + 1)
    = (Some 100, Some 100, Some 100, Some 255) /\
    pixel_of (ImageData.data (Selection.mask refined)) (1 * 3 + 1)
    = (Some 0, Some 0, Some 0, Some 255) /\
    0 < 1 /\
    near_edge (Selection.mask (selection_of dot_3x3)) 1 1 1 /\
    PrimFloat.ltb 0.5 (f32_get (computeEdgeMap stripe_3x3) (1 * 3 + 1)) = true.
Proof.
  destruct (refineEdge_radius_stays_near_edges (fun x => x) (SelectionEngine.mk 3 3)
              (selection_of dot_3x3) stripe_3x3 (RefineEdgeOptions.mk 1 0 0 0 0)
              dot_3x3_wf eq_refl eq_refl ltac:(simpl; lia) ltac:(simpl; lia)
              ltac:(simpl; lia) ltac:(simpl; lia) eq_refl) as (refined & E & H).
  exists refined. split; [exact E|]. split; [reflexivity|].
  assert (Hp : pixel_of (ImageData.data (Selection.mask refined)) (1 * 3 + 1)
               = (Some 0, Some 0, Some 0, Some 255)).
  { pose proof E as E'. vm_compute in E'. injection E' as <-. reflexivity. }
  split; [exact Hp|].
  apply (H 1 1); [simpl; lia|simpl; lia|].
  cbn [SelectionEngine.width]. rewrite Hp. discriminate.
Defined.

(** ** The selection tools *)

(** X29: a click of the color range tool inside the canvas, with a
    fuzziness whose tolerance [fuzziness * 2.55] is positive (the
    default 40 is one), passes a selection to the callback in which the
    clicked pixel, and every pixel of the composite with the same R, G
    and B bytes, has 255 in its four channels; a click outside the
    canvas calls no callback. *)
Theorem colorRangeTool_click (this : ColorRangeTool.t) (engine : RasterEngine.t)
    (e : PointerEvent.t) :
  RasterEngine.wf engine ->
  PrimFloat.ltb 0%float (ColorRangeTool.fuzziness this * 2.55)%float = true ->
  let width := RasterEngine.width engine in
  let height := RasterEngine.height engine in
  let data := ImageData.data (RasterEngine.composite engine) in
  (forall x y,
     Math_floor (PointerEvent.x e) = fl_int x -> Math_floor (PointerEvent.y e) = fl_int y ->
     0 <= x < width /\ 0 <= y < height ->
     exists selection,
       snd (ColorRangeTool.onPointerDown this engine e) = returned (Some selection) /\
       strength (Selection.mask selection) x y = Some 255 /\
       forall k, 0 <= k < width * height ->
         channel data k 0 = channel data (y * width + x) 0 ->
         channel data k 1 = channel data (y * width + x) 1 ->
         channel data k 2 = channel data (y * width + x) 2 ->
         pixel_of (ImageData.data (Selection.mask selection)) k
         = (Some 255, Some 255, Some 255, Some 255)) /\
  (out_of_range (Math_floor (PointerEvent.x e)) width
   || out_of_range (Math_floor (PointerEvent.y e)) height = true ->
   snd (ColorRangeTool.onPointerDown this engine e) = returned None).
Proof.
  intros (Hwf & Ew & Eh) Hfuzz width height data.
  pose proof Hwf as (Hw & Hh & Hlen & _).
  unfold ColorRangeTool.onPointerDown. fold width height.
  split.
  - intros x y Ex Ey [Hx Hy]. rewrite Ex, Ey.
    rewrite (proj2 (out_of_range_int x width) Hx), (proj2 (out_of_range_int y height) Hy).
    cbn [orb snd int_of js_mul js_add js_lift2]. unfold typed_get_at.
    cbn [mbind option_bind].
    eexists. split; [reflexivity|].
    assert (Ef : ColorRangeTool.fuzziness
                   match ColorRangeTool.selectionEngine this with
                   | Some _ => this
                   | None => ColorRangeTool.mk (Some (SelectionEngine.mk width height))
                               (ColorRangeTool.fuzziness this)
                   end = ColorRangeTool.fuzziness this)
      by (destruct (ColorRangeTool.selectionEngine this); reflexivity).
    rewrite Ef. clear Ef.
    set (options := ColorRangeOptions.mk _ _).
    assert (Hall : forall k, 0 <= k < width * height ->
      channel data k 0 = channel data (y * width + x) 0 ->
      channel data k 1 = channel data (y * width + x) 1 ->
      channel data k 2 = channel data (y * width + x) 2 ->
      pixel_of (ImageData.data (Selection.mask
                  (selectColorRange (RasterEngine.composite engine) options))) k
      = (Some 255, Some 255, Some 255, Some 255)).
    { intros k Hk E0 E1 E2.
      rewrite (selectColorRange_pixel (RasterEngine.composite engine) options k Hw Hh Hlen)
        by (rewrite Ew, Eh; exact Hk).
      cbv zeta. fold data. rewrite E0, E1, E2.
      subst options.
      cbn [ColorRangeOptions.targetColor ColorRangeOptions.fuzziness RGBA.r RGBA.g RGBA.b].
      fold data.
      unfold channel.
      replace (4 * (y * width + x) + 0) with ((y * width + x) * 4) by lia.
      replace (4 * (y * width + x) + 1) with ((y * width + x) * 4 + 1) by lia.
      replace (4 * (y * width + x) + 2) with ((y * width + x) * 4 + 2) by lia.
      assert (Hc : forall c, 0 <= c < 4 -> exists v,
                typed_get data ((y * width + x) * 4 + c) = Some v /\ 0 <= v <= 255).
      { intros c Hc.
        destruct (wf_channel_range (RasterEngine.composite engine) (y * width + x) c Hwf
                    ltac:(rewrite Ew, Eh; fold width height; nia) Hc) as (v & Ev & Hv).
        exists v. split; [|exact Hv]. unfold channel in Ev. fold data in Ev.
        rewrite <- Ev. f_equal. lia. }
      destruct (Hc 0 ltac:(lia)) as (r & Er & Hr). rewrite Z.add_0_r in Er.
      destruct (Hc 1 ltac:(lia)) as (g & Eg & Hg).
      destruct (Hc 2 ltac:(lia)) as (b & Eb & Hb).
      rewrite Er, Eg, Eb. cbn [float_of_u8].
      rewrite !byte_minus_itself by assumption.
      change (PrimFloat.sqrt (0 * 0 + 0 * 0 + 0 * 0)%float) with 0%float.
      rewrite (div_zero_positive _ Hfuzz). reflexivity. }
    split; [|exact Hall].
    rewrite strength_channel.
    change (ImageData.width (Selection.mask
              (selectColorRange (RasterEngine.composite engine) options)))
      with (ImageData.width (RasterEngine.composite engine)).
    rewrite Ew. fold width.
    specialize (Hall (y * width + x) ltac:(nia) eq_refl eq_refl eq_refl).
    unfold pixel_of in Hall. injection Hall as Hall0 _ _ _. exact Hall0.
  - intros Hout. rewrite Hout. reflexivity.
Qed.

Lemma colorRangeTool_click_witness :
  exists selection,
    snd (ColorRangeTool.onPointerDown ColorRangeTool.create
           (RasterEngine.mk 2 1 two_pixels) (PointerEvent.mk 1.5 0.5 false false))
    = returned (Some selection) /\
    strength (Selection.mask selection) 1 0 = Some 255.
Proof.
  destruct (proj1 (colorRangeTool_click ColorRangeTool.create
              (RasterEngine.mk 2 1 two_pixels) (PointerEvent.mk 1.5 0.5 false false)
              ltac:(repeat split; simpl; try lia; repeat constructor; lia)
              ltac:(reflexivity))
              1 0 ltac:(reflexivity) ltac:(reflexivity) ltac:(simpl; lia))
    as (selection & E & Hs & _).
  exists selection. split; [exact E|exact Hs].
Defined.

(** The mask [quickSelect] returns has the size of the image. *)
Lemma quickSelect_shape imageData startX startY radius mode existingSelection result :
  0 < ImageData.width imageData -> 0 < ImageData.height imageData ->
  quickSelect imageData startX startY radius mode existingSelection = Some result ->
  ImageData.width (Selection.mask result) = ImageData.width imageData /\
  ImageData.height (Selection.mask result) = ImageData.height imageData /\
  Z.of_nat (length (ImageData.data (Selection.mask result)))
  = 4 * ImageData.width imageData * ImageData.height imageData.
Proof.
  intros Hw Hh Hres.
  assert (Hfit : match existingSelection with
                 | Some sel => Z.of_nat (length (ImageData.data (Selection.mask sel)))
                               = 4 * ImageData.width imageData * ImageData.height imageData
                 | None => True
                 end).
  { destruct existingSelection as [sel|]; [|exact I].
    unfold quickSelect, ImageData.of_data in Hres.
    destruct (Z.eqb_spec (Z.of_nat (length (ImageData.data (Selection.mask sel))))
                (4 * ImageData.width imageData * ImageData.height imageData)) as [e|];
      [exact e|rewrite andb_false_r in Hres; discriminate]. }
  destruct (quickSelect_run imageData startX startY radius mode existingSelection Hw Hh Hfit)
    as (Hlen0 & st & Hst & E).
  rewrite E in Hres. injection Hres as <-.
  cbn [Selection.mask ImageData.width ImageData.height ImageData.data].
  split; [reflexivity|]. split; [reflexivity|].
  unfold qs_run in Hst.
  apply (qs_loop_inv _ _ _ _ _ _ _ _ _ _ _
           (fun s => Z.of_nat (length (QS.mask s))
                     = 4 * ImageData.width imageData * ImageData.height imageData /\
                     forall k, painted (QS.mask s) (QS.mask s) k)) in Hst.
  - apply Hst.
  - intros s _ [Hl _].
    match goal with |- context [qs_step ?w ?h ?d ?e ?sx ?sy ?mr ?tr ?tg ?tb ?m s] =>
      destruct (qs_step_painted w h d e sx sy mr tr tg tb m (QS.mask s) s Hl
                  ltac:(intros k; left; reflexivity)) as [Hl' _]
    end.
    split; [rewrite Hl'; exact Hl|]. intros k. left. reflexivity.
  - cbn [QS.mask]. split; [cbv zeta in Hlen0; exact Hlen0|]. intros k. left. reflexivity.
Qed.

Lemma medianFilter_length mask radius :
  0 < ImageData.width mask -> 0 <= ImageData.height mask ->
  Z.of_nat (length (ImageData.data (medianFilter mask radius)))
  = 4 * ImageData.width mask * ImageData.height mask.
Proof.
  intros Hw Hh. unfold medianFilter, ImageData.create. cbn [ImageData.data].
  destruct (grey_loop_pixels (ImageData.width mask) (ImageData.height mask)
              (fun x y => medianFilter_median mask radius x y) (Some 255)
              (replicate (Z.to_nat (4 * ImageData.width mask * ImageData.height mask)) 0)
              Hw Hh ltac:(rewrite length_replicate; nia)) as [Hl _].
  cbv zeta in Hl. rewrite Hl, length_replicate. nia.
Qed.

Section Canvas.
Variables width height : Z.
Hypothesis Hw : 0 < width.
Hypothesis Hh : 0 < height.

Lemma performSelection_fits this engine x y mode :
  ImageData.width (RasterEngine.composite engine) = width ->
  ImageData.height (RasterEngine.composite engine) = height ->
  QuickSelectTool.fits width height (QuickSelectTool.currentSelection this) ->
  let '(this', out) := QuickSelectTool.performSelection this engine x y mode in
  out <> threw /\
  QuickSelectTool.fits width height (QuickSelectTool.currentSelection this') /\
  (is_Some (QuickSelectTool.selectionEngine this) ->
   exists selection, out = returned (Some selection)).
Proof.
  intros Ew Eh Hfit. unfold QuickSelectTool.performSelection.
  destruct (QuickSelectTool.selectionEngine this) as [eng|].
  2:{ split; [discriminate|]. split; [exact Hfit|]. intros [? ?]. discriminate. }
  destruct (quickSelect_returns (RasterEngine.composite engine) x y
              (QuickSelectSettings.size (QuickSelectTool.settings this)) mode
              (QuickSelectTool.currentSelection this))
    as [newSelection E]; [lia|lia| |].
  { unfold QuickSelectTool.fits in Hfit.
    destruct (QuickSelectTool.currentSelection this); [rewrite Ew, Eh; exact Hfit|exact I]. }
  rewrite E.
  destruct (quickSelect_shape (RasterEngine.composite engine) x y _ mode _ newSelection
              ltac:(lia) ltac:(lia) E) as (Sw & Sh & Sl).
  split; [discriminate|]. split; [|eexists; reflexivity].
  cbn [QuickSelectTool.setCurrentSelection QuickSelectTool.currentSelection
       QuickSelectTool.fits].
  destruct (QuickSelectSettings.autoEnhance (QuickSelectTool.settings this)).
  - unfold smoothSelection. cbn [Selection.mask].
    rewrite medianFilter_length by lia. rewrite Sw, Sh, Ew, Eh. reflexivity.
  - rewrite Sl, Ew, Eh. reflexivity.
Qed.

Lemma handle_fits this ev :
  QuickSelectTool.on_canvas width height ev ->
  QuickSelectTool.fits width height (QuickSelectTool.currentSelection this) ->
  snd (QuickSelectTool.handle this ev) <> threw /\
  QuickSelectTool.fits width height
    (QuickSelectTool.currentSelection (fst (QuickSelectTool.handle this ev))).
Proof.
  intros Hev Hfit. destruct ev as [m|s|sel|engine e|engine e|]; cbn [QuickSelectTool.handle].
  - split; [discriminate|exact Hfit].
  - split; [discriminate|exact Hfit].
  - split; [discriminate|exact Hev].
  - destruct Hev as [Ew Eh]. unfold QuickSelectTool.onPointerDown.
    match goal with |- context [QuickSelectTool.performSelection ?t ?g ?x ?y ?m] =>
      pose proof (performSelection_fits t g x y m Ew Eh) as Hp;
      destruct (QuickSelectTool.performSelection t g x y m) as [this' out]
    end.
    cbn [fst snd]. refine ((fun H => conj (proj1 H) (proj1 (proj2 H))) (Hp _)).
    cbn [QuickSelectTool.currentSelection QuickSelectTool.selectionEngine].
    destruct (QuickSelectTool.selectionEngine this), (PointerEvent.altKey e),
      (QuickSelectTool.currentSelection this) as [sel|] eqn:Ec,
      (PointerEvent.shiftKey e), (QuickSelectTool.mode this);
      cbn [QuickSelectTool.currentSelection QuickSelectTool.setCurrentSelection
           QuickSelectTool.fits]; try rewrite Ec; first [exact Hfit | exact I].
  - destruct Hev as [Ew Eh]. unfold QuickSelectTool.onPointerMove.
    destruct (QuickSelectTool.isDrawing this); cbn [negb];
      [|split; [discriminate|exact Hfit]].
    match goal with |- context [QuickSelectTool.performSelection ?t ?g ?x ?y ?m] =>
      pose proof (performSelection_fits t g x y m Ew Eh Hfit) as Hp;
      destruct (QuickSelectTool.performSelection t g x y m) as [this' out]
    end.
    destruct Hp as (Hout & Hfit' & _). destruct out; [|contradiction].
    cbn [fst snd QuickSelectTool.currentSelection]. split; [discriminate|exact Hfit'].
  - split; [discriminate|exact Hfit].
Qed.

Lemma run_fits events : forall this,
  Forall (QuickSelectTool.on_canvas width height) events ->
  QuickSelectTool.fits width height (QuickSelectTool.currentSelection this) ->
  Forall (fun out => out <> threw) (snd (QuickSelectTool.run this events)) /\
  QuickSelectTool.fits width height
    (QuickSelectTool.currentSelection (fst (QuickSelectTool.run this events))).
Proof.
  induction events as [|ev events IH]; intros this Hevs Hfit; cbn [QuickSelectTool.run].
  - split; [constructor|exact Hfit].
  - inversion Hevs as [|? ? Hev Hevs']; subst.
    destruct (handle_fits this ev Hev Hfit) as [Hout Hfit'].
    destruct (QuickSelectTool.handle this ev) as [this' out]. cbn [fst snd] in *.
    specialize (IH this' Hevs' Hfit').
    destruct (QuickSelectTool.run this' events) as [this'' outs]. cbn [fst snd] in *.
    destruct IH as [Houts Hfit'']. split; [constructor; assumption|exact Hfit''].
Qed.

End Canvas.

(** X30: on a canvas that keeps its size, the quick selection tool never
    throws: through every sequence of mode and settings changes, pointer
    events and selections set from outside that have the bytes of the
    canvas, no handler throws, the current selection keeps the bytes of
    the canvas, and a further pointer-down passes a selection to the
    callback. The condition is needed: with a current selection of
    another size, a pointer-down with Alt held throws. *)
Theorem quickSelectTool_never_throws (width height : Z) (this : QuickSelectTool.t)
    (events : list QuickSelectTool.event) :
  0 < width -> 0 < height ->
  QuickSelectTool.fits width height (QuickSelectTool.currentSelection this) ->
  Forall (QuickSelectTool.on_canvas width height) events ->
  Forall (fun out => out <> threw) (snd (QuickSelectTool.run this events)) /\
  QuickSelectTool.fits width height
    (QuickSelectTool.currentSelection (fst (QuickSelectTool.run this events))) /\
  forall engine e,
    ImageData.width (RasterEngine.composite engine) = width ->
    ImageData.height (RasterEngine.composite engine) = height ->
    (exists selection,
       snd (QuickSelectTool.onPointerDown (fst (QuickSelectTool.run this events)) engine e)
       = returned (Some selection)) /\
    forall stale,
      ~ QuickSelectTool.fits width height (Some stale) ->
      PointerEvent.altKey e = true ->
      snd (QuickSelectTool.onPointerDown
             (QuickSelectTool.setCurrentSelection (fst (QuickSelectTool.run this events))
                (Some stale)) engine e) = threw.
Proof.
  intros Hw Hh Hfit Hevs.
  destruct (run_fits width height Hw Hh events this Hevs Hfit) as [Houts Hfit'].
  split; [exact Houts|]. split; [exact Hfit'|].
  set (tool := fst (QuickSelectTool.run this events)) in *. clearbody tool.
  intros engine e Ew Eh. split.
  - unfold QuickSelectTool.onPointerDown.
    match goal with |- context [QuickSelectTool.performSelection ?t ?g ?x ?y ?m] =>
      pose proof (performSelection_fits width height Hw Hh t g x y m Ew Eh) as Hp;
      destruct (QuickSelectTool.performSelection t g x y m) as [this' out]
    end.
    cbn [snd]. apply Hp.
    + cbn [QuickSelectTool.currentSelection QuickSelectTool.selectionEngine].
      destruct (QuickSelectTool.selectionEngine tool), (PointerEvent.altKey e),
        (QuickSelectTool.currentSelection tool) as [sel|] eqn:Ec,
        (PointerEvent.shiftKey e), (QuickSelectTool.mode tool);
        cbn [QuickSelectTool.currentSelection QuickSelectTool.setCurrentSelection
             QuickSelectTool.fits]; try rewrite Ec; first [exact Hfit' | exact I].
    + cbn [QuickSelectTool.selectionEngine].
      destruct (PointerEvent.altKey e),
        (QuickSelectTool.currentSelection tool), (PointerEvent.shiftKey e),
        (QuickSelectTool.mode tool), (QuickSelectTool.selectionEngine tool);
        cbn [QuickSelectTool.selectionEngine QuickSelectTool.setCurrentSelection];
        eexists; reflexivity.
  - intros stale Hstale Halt. unfold QuickSelectTool.onPointerDown.
    cbn [QuickSelectTool.setCurrentSelection QuickSelectTool.currentSelection
         QuickSelectTool.selectionEngine QuickSelectTool.mode QuickSelectTool.settings
         QuickSelectTool.isDrawing QuickSelectTool.lastX QuickSelectTool.lastY].
    rewrite Halt.
    assert (E : forall x y r,
              quickSelect (RasterEngine.composite engine) x y r mode_subtract (Some stale)
              = None).
    { intros x y r. unfold quickSelect, ImageData.of_data. rewrite Ew, Eh.
      unfold QuickSelectTool.fits in Hstale.
      destruct (Z.eqb_spec (Z.of_nat (length (ImageData.data (Selection.mask stale))))
                  (4 * width * height)) as [e'|_]; [contradiction|].
      rewrite andb_false_r. reflexivity. }
    unfold QuickSelectTool.performSelection.
    destruct (QuickSelectTool.selectionEngine tool);
      cbn [QuickSelectTool.selectionEngine QuickSelectTool.currentSelection
           QuickSelectTool.settings]; rewrite E; reflexivity.
Qed.

Lemma quickSelectTool_never_throws_witness :
  let engine := RasterEngine.mk 2 2 (uniform 2 2 [9; 9; 9; 255]) in
  let events :=
    [QuickSelectTool.PointerDown engine (PointerEvent.mk 0.5 0.5 false false);
     QuickSelectTool.PointerMove engine (PointerEvent.mk 1.5 0.5 false true);
     QuickSelectTool.PointerUp] in
  let this := QuickSelectTool.create (QuickSelectSettings.mk 1 true) in
  Forall (fun out => out <> threw) (snd (QuickSelectTool.run this events)) /\
  QuickSelectTool.fits 2 2
    (QuickSelectTool.currentSelection (fst (QuickSelectTool.run this events))).
Proof.
  intros engine events this.
  destruct (quickSelectTool_never_throws 2 2 this events ltac:(lia) ltac:(lia) I
              ltac:(repeat constructor)) as (H1 & H2 & _).
  split; [exact H1|exact H2].
Defined.

(** ** Values below the documented range (C4) *)





(** ** The channels of a mask (C3) *)

(** From 10 on the smooth slider gives a blur radius of 0.5 or more, and
    so does the feather slider from 1 on. *)
Lemma smooth_blurs smooth :
  10 <= smooth <= 100 -> PrimFloat.ltb (float_of_Z smooth / 20) 0.5 = false.
Proof.
  intros H.
  assert (T : forallb (fun s => negb (PrimFloat.ltb (float_of_Z s / 20) 0.5)) (seqZ 10 91)
              = true) by (vm_compute; reflexivity).
  rewrite forallb_forall in T.
  specialize (T smooth ltac:(apply list_elem_of_In, elem_of_seqZ; lia)).
  apply negb_true_iff in T. exact T.
Qed.

Lemma feather_blurs feather :
  1 <= feather <= 250 -> PrimFloat.ltb (float_of_Z feather) 0.5 = false.
Proof.
  intros H.
  assert (T : forallb (fun s => negb (PrimFloat.ltb (float_of_Z s) 0.5)) (seqZ 1 250) = true)
    by (vm_compute; reflexivity).
  rewrite forallb_forall in T.
  specialize (T feather ltac:(apply list_elem_of_In, elem_of_seqZ; lia)).
  apply negb_true_iff in T. exact T.
Qed.

(** What a blur returns past its early return. *)
Lemma gaussianBlur_grey_opaque Math_exp mask radius out k :
  ImageData.wf mask ->
  PrimFloat.ltb radius 0.5 = false ->
  gaussianBlur Math_exp mask radius = Some out ->
  0 <= k < ImageData.width mask * ImageData.height mask ->
  grey_opaque (ImageData.data out) k.
Proof.
  intros Hwf Hlt Eb Hk. pose proof Hwf as (Hw & Hh & _).
  destruct (gaussianBlur_shape Math_exp mask radius out Hw Hh Hlt Eb)
    as (Ew & Eh & val & Hwfo & Hp).
  exists (val k). split; [|apply Hp; exact Hk].
  destruct (wf_channel_range out k 0 Hwfo ltac:(rewrite Ew, Eh; exact Hk) ltac:(lia))
    as (v & Ev & Hv).
  specialize (Hp k Hk). unfold pixel_of in Hp. injection Hp as Hp0 _ _ _.
  rewrite Hp0 in Ev. injection Ev as ->. exact Hv.
Qed.

(** [applyContrast] writes one byte into R, G and B and keeps the alpha. *)
Lemma applyContrast_channels mask amount k :
  ImageData.wf mask ->
  0 <= k < ImageData.width mask * ImageData.height mask ->
  grey (ImageData.data (applyContrast mask amount)) k /\
  channel (ImageData.data (applyContrast mask amount)) k 3
  = channel (ImageData.data mask) k 3 /\
  (grey_opaque (ImageData.data mask) k ->
   grey_opaque (ImageData.data (applyContrast mask amount)) k).
Proof.
  intros (Hw & Hh & Hlen & _) Hk.
  destruct (applyContrast_pixel mask amount k ltac:(lia) Hk) as [_ Hp]. cbv zeta in Hp.
  set (out := ImageData.data (applyContrast mask amount)) in *. clearbody out.
  pose proof Hp as Hp'. unfold pixel_of in Hp'. injection Hp' as H0 H1 H2 H3.
  split; [eexists; eauto|]. split; [exact H3|].
  intros (v & Hv & Ev). unfold grey_opaque. rewrite Hp.
  unfold pixel_of in Ev. injection Ev as _ _ _ E3. rewrite E3.
  eexists. split; [apply ToUint8Clamp_range|reflexivity].
Qed.

(** [applySmartRadius] keeps the alpha of a pixel, and R = G = B where it
    holds. *)
Lemma applySmartRadius_channels mask edges edgeZone radius k :
  ImageData.wf mask ->
  0 <= k < ImageData.width mask * ImageData.height mask ->
  channel (ImageData.data (applySmartRadius mask edges edgeZone radius)) k 3
  = channel (ImageData.data mask) k 3 /\
  (grey (ImageData.data mask) k ->
   grey (ImageData.data (applySmartRadius mask edges edgeZone radius)) k).
Proof.
  intros (Hw & Hh & Hlen & _) Hk.
  destruct (applySmartRadius_pixels mask edges edgeZone radius
              (ImageData.width mask * ImageData.height mask) ltac:(lia)) as [_ Hp].
  cbv zeta in Hp. specialize (Hp k Hk). unfold grey.
  set (out := ImageData.data (applySmartRadius mask edges edgeZone radius)) in *.
  clearbody out.
  destruct Hp as [E|E]; unfold pixel_of in E; injection E as E0 E1 E2 E3;
    rewrite E0, E1, E2, E3; [auto|]. split; [reflexivity|]. intros _. eauto.
Qed.

(** C3, as the code has it. The masks made by [combineSelections],
    [growSelection] ([dilate]), [shrinkSelection] ([erode]),
    [smoothSelection] ([medianFilter]), [selectionFromAlpha] and
    [selectSubject] hold the strength in R, G and B and 255 in alpha, at
    every pixel; so does the mask made by [invertSelection] wherever the
    mask it was given has R = G = B. Only [selectColorRange] holds the
    strength in all four channels, and [quickSelect] leaves a pixel as it
    was in the mask it started from or sets its four channels to 255 or
    to 0. [featherSelection] returns the mask it was given below the
    radius 0.5 and a mask with the strength in R, G and B and 255 in
    alpha from 0.5 on. So does [refineEdge] when it blurs (smooth from 10
    on, or feather) or shifts; when it does neither, it keeps the alpha
    of every pixel of the mask it was given and has R = G = B where that
    mask has, and everywhere if it applies a contrast. *)
Theorem mask_channels :
  (forall this a b mode k,
     0 < SelectionEngine.width this -> 0 < SelectionEngine.height this ->
     0 <= k < SelectionEngine.width this * SelectionEngine.height this ->
     grey_opaque (ImageData.data (Selection.mask (combineSelections this a b mode))) k) /\
  (forall selection radius k,
     0 < ImageData.width (Selection.mask selection) ->
     0 < ImageData.height (Selection.mask selection) ->
     0 <= k < ImageData.width (Selection.mask selection)
              * ImageData.height (Selection.mask selection) ->
     grey_opaque (ImageData.data (Selection.mask (growSelection selection radius))) k /\
     grey_opaque (ImageData.data (Selection.mask (shrinkSelection selection radius))) k /\
     grey_opaque (ImageData.data (Selection.mask (smoothSelection selection radius))) k) /\
  (forall imageData k,
     0 < ImageData.width imageData -> 0 < ImageData.height imageData ->
     Z.of_nat (length (ImageData.data imageData))
     = 4 * ImageData.width imageData * ImageData.height imageData ->
     0 <= k < ImageData.width imageData * ImageData.height imageData ->
     grey_opaque (ImageData.data (Selection.mask (selectionFromAlpha imageData))) k /\
     (exists subject, selectSubject imageData = Some subject /\
        grey_opaque (ImageData.data (Selection.mask subject)) k) /\
     (forall options,
        replicated (ImageData.data (Selection.mask (selectColorRange imageData options))) k) /\
     (forall startX startY radius mode existingSelection,
        match existingSelection with
        | Some sel => Z.of_nat (length (ImageData.data (Selection.mask sel)))
                      = 4 * ImageData.width imageData * ImageData.height imageData
        | None => True
        end ->
        exists result,
          quickSelect imageData startX startY radius mode existingSelection = Some result /\
          painted
            match existingSelection with
            | Some sel => ImageData.data (Selection.mask sel)
            | None => ImageData.data (ImageData.create (ImageData.width imageData)
                                        (ImageData.height imageData))
            end (ImageData.data (Selection.mask result)) k)) /\
  (forall this selection k v,
     0 < SelectionEngine.width this -> 0 < SelectionEngine.height this ->
     Z.of_nat (length (ImageData.data (Selection.mask selection)))
     = 4 * SelectionEngine.width this * SelectionEngine.height this ->
     0 <= k < SelectionEngine.width this * SelectionEngine.height this ->
     pixel_of (ImageData.data (Selection.mask selection)) k
     = (Some v, Some v, Some v, channel (ImageData.data (Selection.mask selection)) k 3) ->
     exists inverted,
       invertSelection this selection = Some inverted /\
       grey_opaque (ImageData.data (Selection.mask inverted)) k) /\
  (forall Math_exp selection radius,
     ImageData.wf (Selection.mask selection) ->
     let mask := Selection.mask selection in
     (PrimFloat.ltb radius 0.5 = true ->
      featherSelection Math_exp selection radius
      = Some (Selection.mk mask (computeBounds mask) true)) /\
     (PrimFloat.ltb radius 0.5 = false -> is_Some (loop_bound (radius * 3)%float) ->
      exists feathered,
        featherSelection Math_exp selection radius = Some feathered /\
        forall k, 0 <= k < ImageData.width mask * ImageData.height mask ->
          grey_opaque (ImageData.data (Selection.mask feathered)) k)) /\
  (forall Math_exp this selection imageData options,
     ImageData.wf (Selection.mask selection) ->
     ImageData.width (Selection.mask selection) = SelectionEngine.width this ->
     ImageData.height (Selection.mask selection) = SelectionEngine.height this ->
     RefineEdgeOptions.smooth options <= 100 ->
     RefineEdgeOptions.feather options <= 250 ->
     let mask := ImageData.data (Selection.mask selection) in
     exists refined,
       refineEdge Math_exp this selection imageData options = Some refined /\
       forall k, 0 <= k < SelectionEngine.width this * SelectionEngine.height this ->
         (10 <= RefineEdgeOptions.smooth options \/ 0 < RefineEdgeOptions.feather options \/
          RefineEdgeOptions.shift options <> 0 ->
          grey_opaque (ImageData.data (Selection.mask refined)) k) /\
         (RefineEdgeOptions.smooth options < 10 -> RefineEdgeOptions.feather options <= 0 ->
          RefineEdgeOptions.shift options = 0 ->
          channel (ImageData.data (Selection.mask refined)) k 3 = channel mask k 3 /\
          (0 < RefineEdgeOptions.contrast options \/ grey mask k ->
           grey (ImageData.data (Selection.mask refined)) k))).
Proof.
  split; [|split; [|split; [|split; [|split]]]].
  - intros this a b mode k Hw Hh Hk.
    eexists. split; [apply clamp8_range|]. apply combineSelections_pixel; assumption.
  - intros selection radius k Hw Hh Hk.
    unfold growSelection, shrinkSelection, smoothSelection. cbn [Selection.mask].
    split; [|split]; (eexists; split; [apply clamp8_range|]).
    + apply dilate_pixel; lia.
    + apply erode_pixel; lia.
    + apply medianFilter_pixel; lia.
  - intros imageData k Hw Hh Hlen Hk. split; [|split; [|split]].
    + eexists. split; [apply clamp8_range|]. apply selectionFromAlpha_pixel; assumption.
    + destruct (selectSubject_returns imageData Hw ltac:(lia)) as [subject Hsubject].
      exists subject. split; [exact Hsubject|].
      exact (selectSubject_grey_opaque _ _ k Hw Hh Hsubject Hk).
    + intros options. apply selectColorRange_replicated; assumption.
    + intros startX startY radius mode existingSelection Hexisting.
      destruct (quickSelect_returns imageData startX startY radius mode existingSelection
                  Hw Hh Hexisting) as [result Hresult].
      exists result. split; [exact Hresult|].
      exact (quickSelect_painted _ _ _ _ _ _ _ k Hw Hh Hresult).
  - intros this selection k v Hw Hh Hlen Hk Hpix.
    destruct (invertSelection_spec this selection Hw Hh Hlen) as (out & E & _ & P).
    eexists. split; [exact E|]. cbn [Selection.mask ImageData.data].
    unfold grey_opaque. rewrite (P k Hk), Hpix. cbn.
    eexists. split; [|reflexivity]. lia.
  - intros Math_exp selection radius Hwf mask. unfold featherSelection. fold mask.
    split; intros Hlt.
    + unfold gaussianBlur. rewrite Hlt. reflexivity.
    + intros Hr.
      destruct (gaussianBlur_returns_wf Math_exp mask radius Hwf (or_intror Hr))
        as (out & Eb & _). rewrite Eb. cbn [mbind option_bind].
      eexists. split; [reflexivity|]. cbn [Selection.mask].
      intros k Hk. exact (gaussianBlur_grey_opaque _ _ _ _ k Hwf Hlt Eb Hk).
  - intros Math_exp this selection imageData options Hwf Hw Hh Hs Hf mask.
    destruct (refineEdge_pipeline Math_exp this selection imageData options Hwf Hw Hh Hs Hf)
      as (m1 & m2 & m3 & m4 & m5 & E1 & E2 & E3 & E4 & E5 & E & S1 & S2 & S3 & S4 & S5).
    cbv beta in S1, S2, S3, S4, S5.
    destruct S1 as (Hwf1 & Ew1 & Eh1), S2 as (Hwf2 & Ew2 & Eh2), S3 as (Hwf3 & Ew3 & Eh3),
      S4 as (Hwf4 & Ew4 & Eh4), S5 as (Hwf5 & Ew5 & Eh5).
    eexists. split; [exact E|]. cbn [Selection.mask]. rewrite <- Hw, <- Hh.
    set (m := Selection.mask selection) in *.
    intros k Hk. split.
    + intros Hcase.
      destruct (Z.eqb_spec (RefineEdgeOptions.shift options) 0) as [Hshift|Hshift].
      * subst m5.
        assert (H3 : grey_opaque (ImageData.data m3) k).
        { destruct (Z.ltb_spec 0 (RefineEdgeOptions.feather options)) as [Hpos|Hno].
          - apply (gaussianBlur_grey_opaque Math_exp m2 _ m3 k Hwf2
                     (feather_blurs (RefineEdgeOptions.feather options) ltac:(lia)) E3). rewrite Ew2, Eh2. exact Hk.
          - injection E3 as <-.
            destruct (Z.ltb_spec 0 (RefineEdgeOptions.smooth options)) as [Hpos|Hno'];
              [|lia].
            apply (gaussianBlur_grey_opaque Math_exp m1 _ m2 k Hwf1
                     (smooth_blurs (RefineEdgeOptions.smooth options) ltac:(lia)) E2). rewrite Ew1, Eh1. exact Hk. }
        subst m4. destruct (0 <? RefineEdgeOptions.contrast options); [|exact H3].
        apply applyContrast_channels; [exact Hwf3|rewrite Ew3, Eh3; exact Hk|exact H3].
      * subst m5.
        destruct (0 <? RefineEdgeOptions.shift options);
          (eexists; split; [apply clamp8_range|]);
          [apply dilate_pixel|apply erode_pixel]; rewrite ?Ew4, ?Eh4;
          first [exact Hk | destruct Hwf as (? & ? & _); lia].
    + intros Hsm Hfe Hshift.
      assert (E21 : m2 = m1).
      { destruct (Z.ltb_spec 0 (RefineEdgeOptions.smooth options)) as [Hpos|Hno].
        - rewrite gaussianBlur_smooth_below_10 in E2 by lia. congruence.
        - congruence. }
      assert (E32 : m3 = m2)
        by (destruct (Z.ltb_spec 0 (RefineEdgeOptions.feather options)); [lia|congruence]).
      rewrite (proj2 (Z.eqb_eq _ _) Hshift) in E5. subst m5 m3 m2.
      assert (H1 : channel (ImageData.data m1) k 3 = channel mask k 3 /\
                   (grey mask k -> grey (ImageData.data m1) k)).
      { subst m1. destruct (0 <? RefineEdgeOptions.radius options); [|auto].
        apply applySmartRadius_channels; [exact Hwf|exact Hk]. }
      destruct H1 as [Ha Hg]. subst m4.
      destruct (Z.ltb_spec 0 (RefineEdgeOptions.contrast options)) as [Hc|Hc].
      * destruct (applyContrast_channels m1 (float_of_Z (RefineEdgeOptions.contrast options) / 50)
                    k Hwf1 ltac:(rewrite Ew1, Eh1; exact Hk)) as (G & A & _).
        split; [rewrite A; exact Ha|]. intros _. exact G.
      * split; [exact Ha|]. intros [?|G]; [lia|]. exact (Hg G).
Qed.

Lemma mask_channels_witness :
  grey_opaque
    (ImageData.data (Selection.mask (growSelection (selection_of mask_2x2) 1))) 0.
Proof.
  apply (proj1 (proj1 (proj2 mask_channels) (selection_of mask_2x2) 1%Q 0
                  ltac:(simpl; lia) ltac:(simpl; lia) ltac:(simpl; lia))).
Defined.

(** C3 as stated fails: inverting the full one-pixel selection gives
    strength 0 under an alpha of 255, and so does combining the empty one
    with itself, or growing it. *)
Lemma mask_alpha_counterexample :
  (inverted ← invertSelection (SelectionEngine.mk 1 1) (selection_of mask_full_1x1);
   Some (ImageData.data (Selection.mask inverted))) = Some [0; 0; 0; 255] /\
  ImageData.data (Selection.mask
    (combineSelections (SelectionEngine.mk 1 1) (selection_of mask_empty_1x1)
       (selection_of mask_empty_1x1) mode_add)) = [0; 0; 0; 255] /\
  ImageData.data (dilate mask_empty_1x1 1) = [0; 0; 0; 255] /\
  ~ replicated [0; 0; 0; 255] 0.
Proof.
  repeat split; try reflexivity.
  intros [v Hv]. vm_compute in Hv. congruence.
Qed.
